(* ===== verification/_CoqProject ===== *)
-Q . S2P
Prelude.v
GoStrings.v
GoPath.v
GoErrors.v
ZkClient.v
ZkService.v
GoRegexp.v
ZkstoreData.v
ElectorSeq.v
ElectorRun.v
ElectorConn.v
ElectorTheorems.v
ElectorSystem.v
GoMd5.v
ZkstoreStore.v
ZkstoreOps.v
ZkstoreSpec.v
ZkstoreListing.v
ZkstoreConc.v
ZkstoreTheorems.v
GoNet.v
DcosConstants.v
NodeUtil.v
NodeUtilTheorems.v
NodeUtilConc.v
KvStore.v
ExecCmd.v
Transport.v
TransportTheorems.v
Testutils.v
TransportConc.v
Examples.v
