(* ===== verification/Prelude.v ===== *)
(** * dcos-go: a verification development

    dcos-go is a collection of Go packages that DC/OS services share. This development models
    the packages with logic of their own (all paths are under src/) and proves what makes them
    correct. This file is its root: the notions every other file uses.

    ** The program and its model

    - [zkstore/]: a store of versioned items in ZooKeeper. An item has a category (a path), a
      name, an optional variant and data; names are hashed into buckets, and the znode of an
      item is <base>/<category>/<buckets>/<bucket>/<name>[/<variant>]. Operations are
      sequences of calls on a connection, each of which can fail, and nothing but the version
      check of a single call protects against other clients.
        ZkstoreData     errors.go, ident.go, location.go, item.go, validate.go
        ZkstoreStore    hash.go, options.go, NewStore and the paths of store.go
        ZkstoreOps      Put, Get, Delete, Variants, List and their helpers (store.go)
        ZkstoreSpec, ZkstoreListing
                        the abstract specification (functions on a tree of znodes) and the
                        refinement lemmas
        ZkstoreConc     several clients, interleaved call by call
        ZkstoreTheorems the properties
        ZkClient        connector_new.go, connector_existing.go
    - [elector/]: leader election. Each elector creates an ephemeral sequential lock node under
      a base path, lists the locks whenever they change, and tells its client over a channel
      when its leadership changes. Two goroutines work, a third waits for them.
        ElectorSeq      sequencePart, sortedChildrenSequences, determineLeader
        ElectorRun      event.go, initialize, start and what it calls: goroutines as programs
                        and program counters, channels, wait group and once values as fields
                        of [ElectorRun.state], one rule of [ElectorRun.step] per atomic action
        ElectorConn     the interfaces Connector and Conn as classes with their
                        implementations, Start and Close over any connector, the election
                        over any connection
        ElectorTheorems the properties of runs
        ElectorSystem   any number of electors on one ZooKeeper: locks, sessions, watches
    - [store/]: an in-memory map behind a read-write mutex.
        KvStore         every method as a body of small steps between its lock and unlock, any
                        number of goroutines interleaved
    - [exec/]: running commands.
        ExecCmd         exitCode, the command lines, FullOutput, and Run: the arguments it
                        starts, its two goroutines, the channels of one element, and the
                        pipe that keeps the command waiting for its reader
    - [dcos/]: constants; [dcos/nodeutil/]: facts about the node, cached, from a script, DNS,
      a file and the Mesos state.
        DcosConstants, NodeUtil, NodeUtilTheorems
        NodeUtilConc    one object used by any number of goroutines
    - [dcos/http/transport/]: an http.RoundTripper that adds a token to each request and logs
      in again when the answer is 401.
        Transport, TransportTheorems
        TransportConc   one transport used by any number of goroutines
    - [testutils/]: a ZooKeeper in a container, for tests.
        Testutils       docker_utils.go, zk_control.go, zk_utils.go
    - the example programs, which put nodeutil and the transport together.
        Examples        main_jwt.go, roundtripper_example.go, transport_example.go

    The packages call the Go standard library: GoStrings (strings, bytes, strconv), GoPath
    (path), GoErrors (errors and github.com/pkg/errors), GoRegexp (matching, by derivatives,
    proved against the language of an expression), GoMd5 (crypto/md5, encoding/binary) and
    GoNet (net.ParseIP, IP.Equal) define what is used of it.

    ** Conventions

    A Go result [(value, error)] is a [res error value]; where the code returns both, the
    model returns a pair. A panic is the error [goPanic msg] where the code's own guard can
    panic. A Go string is a [string] of bytes; an int is a [Z], with its wrap-around written
    out where it can occur (hashing, versions, md5). A call to ZooKeeper is a command of
    [ZkService.zkcmd], and an operation a program [ZkService.prog]: a tree that issues a
    command and goes on with its answer, so that what is proved of it holds whatever the
    service is. [ZkService] states what a service promises as classes: [ZkService] (any
    behaviour), [ZkLossy] (a call may be lost, before or after it takes effect, and is then
    answered with a session error; otherwise it acts as ZooKeeper documents) and [ZkReliable]
    (no call is lost). [ref_service], on a map from paths to znodes, is the reference
    instance the witnesses run.

    ** What is proved

    - zkstore: Put, Get, Delete and List refine their specifications on the tree, with every
      error; Put does one of two things even when calls are lost; of any number of clients
      that put at the same version at most one succeeds; distinct items have distinct paths
      and a Put changes no other item; clients that put at the same time lose no znode, write
      nothing but their items' data, and do not fail each other; every option
      keeps the configuration well formed; hashing is total and in range; validation accepts
      exactly the documented language. Four theorems exhibit behaviour that the comments or
      intent rule out: a race of two creations, a refused Put that creates the parent, a
      refused Delete that has removed the variants, a category that reaches into a bucket.
    - elector: of any number of electors on one ZooKeeper, a settled one (at its select, no
      event of its watch pending) has the view of the locks as they are, at most one settled
      elector leads and all name the same leader; electors that wait settle once the locks
      stay, the service answers and their clients receive, within six steps per elector; the client sees alternating leadership events and then at most
      one error before the channel closes, and nothing panics; a closed elector can always
      stop; Start and Close own the connection; the connectors of zkstore and elector are
      equivalent. Lemmas exhibit a race of two electors that start on a missing base path, and
      an elector that stops because the leader's lock vanished under it.
    - store: linearizable, exclusive, each method ends with its exact result, and the calls
      that are shorthands are equivalent to what they abbreviate. The expression of
      GetByRegex is compiled by a parameter, to any set of strings.
    - exec: the client of Run gets at most one answer, an allowed one; the goroutines end
      once the command has, and the command only when its output is read.
    - nodeutil: exact results of MesosID, ClusterID and TaskCanonicalID; what was answered
      once is answered ever after, whatever is called in between; goroutines that share an object agree on the address, the leadership and the
      cluster id, and none of their calls deadlocks.
    - transport: the requests a round trip sends and their headers; a retry carries the token
      of a login, unless that is empty; goroutines that share a transport log in one at a
      time and all end; when servers are verified.
    - testutils: StartZookeeper leaves no container behind, and one it hands out was started
      and reached.
    - examples: those that fetch go on for ever over tokens that expire; nodeutil's prints
      what the Mesos state in an authenticated answer says.

    ** Bounds and termination

    Programs and loops are structural, on the lists the code ranges over; no definition has
    fuel but GoNet's parsing and ZkstoreConc's schedules, whose lengths are given. Step
    relations have no bound; where an end is claimed a measure is given ([steps_left] in
    ExecCmd and KvStore, [pc_left] in TransportConc and NodeUtilConc, [steps_to_settle] in
    ElectorSystem) or the run to the end is constructed. [NodeUtilConc.solo] has the fuel of
    the longest method; the loops of Examples run any given number of rounds. A lock's number is below 2^31, as ZooKeeper's counter is.

    ** What is not modelled

    The network, the ZooKeeper and Mesos servers, the file system, processes, containers,
    clocks and cryptography: their answers are parameters, arbitrary where no law is stated.
    The vendored libraries are left out, and so are the parsing of flags, the text of what is
    printed and the redirects an http.Client follows (a parameter of Examples). The critical sections of NodeUtil and Transport are atomic: what runs with
    a mutex held is one step, as every access to the guarded fields is in one; the fields that
    are read without the mutex are never written after construction. ElectorRun takes the
    events of a watch to come at any time; ElectorSystem makes every change of the locks send
    one. Whether an elector whose ZooKeeper does not answer makes progress is not stated:
    nothing in the code bounds the wait. *)
From stdpp Require Export base tactics list strings gmap sets relations option numbers.
From Stdlib Require Export Ascii ZArith Lia.

(** ** Results: a Go function's [(value, error)] pair, one side of which is meaningful *)
Inductive res (E A : Type) : Type :=
| Fail (e : E)
| Ok (a : A).
Arguments Fail {E A} e.
Arguments Ok {E A} a.

Global Instance res_ret {E} : MRet (res E) := fun A a => Ok a.
Global Instance res_bind {E} : MBind (res E) :=
  fun A B f m => match m with Fail e => Fail e | Ok a => f a end.
Global Instance res_fmap {E} : FMap (res E) :=
  fun A B f m => match m with Fail e => Fail e | Ok a => Ok (f a) end.

Global Instance res_eq_dec {E A} `{EqDecision E, EqDecision A} : EqDecision (res E A).
Proof. solve_decision. Defined.

Definition is_ok {E A} (r : res E A) : bool :=
  match r with Ok _ => true | Fail _ => false end.

(** ** Automation *)
Create HintDb go discriminated.
#[global] Arguments ascii_dec : simpl never.

(** Case analysis on the scrutinees of the goal and the hypotheses, with clean-up. *)
Ltac go_step :=
  first [ progress simplify_eq/= | progress destruct_and! | case_match | case_decide ].
Ltac go_cases := repeat (go_step; try done).
(** Invert an equation between results produced by a bind chain. *)
Ltac res_inv :=
  repeat match goal with
  | H : Fail _ = Ok _ |- _ => discriminate H
  | H : Ok _ = Fail _ |- _ => discriminate H
  | H : Ok _ = Ok _ |- _ => injection H as H
  | H : Fail _ = Fail _ |- _ => injection H as H
  end; simplify_eq.

(** ** Generic lemmas *)
Section invariants.
Context {S : Type} (R : relation S) (I : S -> Prop).
(** The rule of invariants for a step relation. *)
Lemma rtc_invariant s s' :
  (forall a b, I a -> R a b -> I b) -> I s -> rtc R s s' -> I s'.
Proof. intros Hstep Hs Hr. induction Hr; eauto. Qed.
End invariants.

Section lists.
Context {A : Type}.
Implicit Types (l : list A).

Lemma app_single_inj l1 l2 (x y : A) : l1 ++ [x] = l2 ++ [y] -> l1 = l2 /\ x = y.
Proof. apply app_inj_tail. Qed.

Lemma prefix_of_snoc l1 l2 (x : A) :
  l1 `prefix_of` l2 ++ [x] -> l1 `prefix_of` l2 \/ l1 = l2 ++ [x].
Proof.
  intros [k Hk]. destruct k as [|y k _] using rev_ind.
  - right. by rewrite app_nil_r in Hk.
  - left. rewrite app_assoc in Hk. apply app_single_inj in Hk as [-> _]. by exists k.
Qed.

(** The longest initial part without [x], and equality of lists split at the first [x]. *)
Lemma first_occurrence_inj (x : A) l1 l2 k1 k2 :
  x ∉ l1 -> x ∉ l2 -> l1 ++ x :: k1 = l2 ++ x :: k2 -> l1 = l2 /\ k1 = k2.
Proof.
  revert l2. induction l1 as [|a l1 IH]; intros [|b l2] H1 H2 Heq;
    simpl in Heq; inversion Heq; subst.
  - done.
  - exfalso. apply H2. left.
  - exfalso. apply H1. left.
  - destruct (IH l2) as [-> ->]; auto.
    + intros ?; apply H1; by right.
    + intros ?; apply H2; by right.
Qed.
End lists.

Lemma map_lookup_Some {A B} (f : A -> B) (l : list A) j y :
  map f l !! j = Some y -> exists x, l !! j = Some x /\ y = f x.
Proof.
  revert j. induction l as [|a l IH]; intros [|j]; simpl; try done; [|apply IH].
  intros [= <-]. by eexists.
Qed.

(** Measures summed over the threads of a system. *)
Lemma sum_list_insert_lt (l : list nat) i x y :
  l !! i = Some x -> y < x -> sum_list (<[i := y]> l) < sum_list l.
Proof.
  revert i. induction l as [|a l IH]; intros [|i] Hi Hlt; try done; simpl in *.
  - injection Hi as ->. lia.
  - specialize (IH i Hi Hlt). lia.
Qed.
Lemma sum_list_bound (l : list nat) b : Forall (fun x => x <= b) l -> sum_list l <= b * length l.
Proof. induction 1 as [|x l Hx _ IH]; simpl; lia. Qed.

(** A mutex: it is held by the thread that is inside its critical section, and by no other. *)
Section guarded.
Context {P : Type} (inside : P -> bool).
Definition guarded (mutex : option nat) (threads : list P) : Prop :=
  forall i, (inside <$> threads !! i) = Some true <-> mutex = Some i.
Lemma guarded_insert mutex l i p q j :
  guarded mutex l -> l !! i = Some p ->
  (inside <$> <[i := q]> l !! j) = Some true <-> (if decide (i = j) then inside q = true else mutex = Some j).
Proof.
  intros Hg Hi. destruct (decide (i = j)) as [<-|Hne].
  - rewrite list_lookup_insert_eq by by eapply lookup_lt_Some. simpl. split; [by intros [= ->]|by intros ->].
  - rewrite list_lookup_insert_ne by done. apply Hg.
Qed.
Lemma guarded_start l : Forall (fun p => inside p = false) l -> guarded None l.
Proof.
  intros Hl i. split; [|done]. destruct (l !! i) as [p|] eqn:Hi; [|done].
  pose proof (Forall_lookup_1 _ _ _ _ Hl Hi) as Hp. simpl in *. by rewrite Hp.
Qed.
Lemma guarded_move mutex l i p q : guarded mutex l -> l !! i = Some p ->
  inside p = false -> inside q = false -> guarded mutex (<[i := q]> l).
Proof.
  intros Hg Hi Hp Hq j. rewrite guarded_insert by done. destruct (decide (i = j)) as [<-|]; [|done].
  rewrite <- (Hg i), Hi. simpl. by rewrite Hp, Hq.
Qed.
Lemma guarded_lock l i p q : guarded None l -> l !! i = Some p -> inside q = true ->
  guarded (Some i) (<[i := q]> l).
Proof.
  intros Hg Hi Hq j. rewrite guarded_insert by done. destruct (decide (i = j)) as [<-|]; naive_solver.
Qed.
Lemma guarded_held mutex l i p : guarded mutex l -> l !! i = Some p -> inside p = true -> mutex = Some i.
Proof. intros Hg Hi Hp. apply Hg. by rewrite Hi, <- Hp. Qed.
Lemma guarded_unlock mutex l i p q : guarded mutex l -> l !! i = Some p ->
  inside p = true -> inside q = false -> guarded None (<[i := q]> l).
Proof.
  intros Hg Hi Hp Hq j. rewrite guarded_insert by done. rewrite (guarded_held _ _ _ _ Hg Hi Hp).
  destruct (decide (i = j)) as [<-|]; split; congruence.
Qed.
End guarded.
