(* ===== verification/GoStrings.v ===== *)
(** * Go byte strings: the parts of [strings], [bytes] and [strconv] the packages use.
    A Go string is a sequence of bytes; [string] is a sequence of 8-bit [ascii]. *)
From S2P Require Import Prelude.
From stdpp Require Export pretty.

Local Open Scope string_scope.

Definition slash : ascii := "/".

(** [len(s)] *)
Definition len (s : string) : Z := Z.of_nat (String.length s).

(** [strings.HasPrefix] *)
Definition HasPrefix (s p : string) : bool := String.prefix p s.

Fixpoint drop_str (n : nat) (s : string) : string :=
  match n, s with
  | S n, String _ s => drop_str n s
  | _, _ => s
  end.

(** [strings.HasSuffix]: len(s) >= len(x) && s[len(s)-len(x):] == x *)
Definition HasSuffix (s x : string) : bool :=
  Nat.leb (String.length x) (String.length s) &&
  String.eqb (drop_str (String.length s - String.length x) s) x.

(** [strings.Contains] *)
Fixpoint Contains (s sub : string) : bool :=
  String.prefix sub s || match s with EmptyString => false | String _ s' => Contains s' sub end.

(** [strings.Split] at a one-byte separator: always at least one element. *)
Fixpoint Split (s : string) (c : ascii) : list string :=
  match s with
  | EmptyString => [""]
  | String a s' =>
      if ascii_dec a c then "" :: Split s' c
      else match Split s' c with
           | [] => [String a ""]
           | w :: ws => String a w :: ws
           end
  end.

(** [strings.Join] *)
Fixpoint Join (l : list string) (sep : string) : string :=
  match l with
  | [] => ""
  | [x] => x
  | x :: l' => x ++ sep ++ Join l' sep
  end.

(** ** [strings.TrimSpace] and [bytes.TrimSpace]

    [unicode.IsSpace] holds of the six ASCII blanks, U+0085, U+00A0, and the
    White_Space code points outside Latin-1. UTF-8 decoding at either end of the string
    finds one of them exactly when the string starts or ends with its encoding, since an
    encoding is determined by its lead byte and a lead byte is not a continuation byte. *)
Definition bytes_of (l : list N) : string := String.string_of_list_ascii (map ascii_of_N l).
Definition space_encodings : list string :=
  map bytes_of
    ([[9]; [10]; [11]; [12]; [13]; [32]; [0xC2; 0x85]; [0xC2; 0xA0]; [0xE1; 0x9A; 0x80]]%N
     ++ map (fun b => [0xE2; 0x80; b]%N)
          [0x80; 0x81; 0x82; 0x83; 0x84; 0x85; 0x86; 0x87; 0x88; 0x89; 0x8A; 0xA8; 0xA9; 0xAF]%N
     ++ [[0xE2; 0x81; 0x9F]; [0xE3; 0x80; 0x80]]%N).

Fixpoint strip_one (encs : list string) (s : string) : option string :=
  match encs with
  | [] => None
  | e :: encs =>
      if String.prefix e s then Some (drop_str (String.length e) s) else strip_one encs s
  end.
Fixpoint trim_left_fuel (fuel : nat) (encs : list string) (s : string) : string :=
  match fuel with
  | O => s
  | S fuel => match strip_one encs s with
              | Some s' => trim_left_fuel fuel encs s'
              | None => s
              end
  end.
(** Every step removes a byte, so the length of the string is enough fuel. *)
Definition trim_left (encs : list string) (s : string) : string :=
  trim_left_fuel (String.length s) encs s.
Definition TrimSpace (s : string) : string :=
  String.rev (trim_left (map String.rev space_encodings)
    (String.rev (trim_left space_encodings s))).

(** ** [strconv] *)
Definition Itoa (z : Z) : string := pretty z.

Definition digit_val (c : ascii) : option Z :=
  let n := Z.of_N (N_of_ascii c) in
  if (48 <=? n)%Z && (n <=? 57)%Z then Some (n - 48)%Z else None.
Definition is_digit (c : ascii) : bool := bool_decide (is_Some (digit_val c)).

Fixpoint digits_acc (acc : Z) (s : string) : option Z :=
  match s with
  | EmptyString => Some acc
  | String c s => d ← digit_val c; digits_acc (acc * 10 + d)%Z s
  end.
Definition digits (s : string) : option Z :=
  match s with EmptyString => None | _ => digits_acc 0 s end.

Definition int64_min : Z := (- 2 ^ 63)%Z.
Definition int64_max : Z := (2 ^ 63 - 1)%Z.
Definition int64_check (z : Z) : option Z :=
  if (int64_min <=? z)%Z && (z <=? int64_max)%Z then Some z else None.
(** [strconv.Atoi] on a 64-bit platform: optional sign, decimal digits, range check. *)
Definition Atoi (s : string) : option Z :=
  match s with
  | String "-" s => z ← digits s; int64_check (- z)%Z
  | String "+" s => z ← digits s; int64_check z
  | _ => z ← digits s; int64_check z
  end.

(** Machine-width wrap-around. *)
Definition wrap32 (z : Z) : Z := ((z + 2 ^ 31) mod 2 ^ 32 - 2 ^ 31)%Z.
Definition wrap64 (z : Z) : Z := ((z + 2 ^ 63) mod 2 ^ 64 - 2 ^ 63)%Z.
Definition uint64 (z : Z) : Z := (z mod 2 ^ 64)%Z.

Example Split_ex : Split "/a//b" slash = [""; "a"; ""; "b"].
Proof. reflexivity. Qed.
Example TrimSpace_ex : TrimSpace (" x y" ++ bytes_of [0xC2; 0xA0; 10]%N) = "x y".
Proof. vm_compute. reflexivity. Qed.
Example Itoa_ex : Itoa 255 = "255" /\ Itoa 0 = "0" /\ Itoa (-7) = "-7".
Proof. vm_compute. done. Qed.
Example Atoi_ex : Atoi "-042" = Some (-42)%Z /\ Atoi "9223372036854775808" = None.
Proof. vm_compute. done. Qed.

(** ** Lemmas *)
Fixpoint all_bytes (P : ascii -> bool) (s : string) : bool :=
  match s with EmptyString => true | String c s => P c && all_bytes P s end.
Definition no_byte (c : ascii) (s : string) : bool :=
  all_bytes (fun a => negb (bool_decide (a = c))) s.

Lemma string_app_cons a s t : String a s ++ t = String a (s ++ t).
Proof. done. Qed.
Lemma string_app_nil_l t : "" ++ t = t.
Proof. done. Qed.
Lemma string_app_nil_r s : s ++ "" = s.
Proof. induction s as [|a s IH]; [done|]. by rewrite string_app_cons, IH. Qed.
Lemma string_app_assoc (s t u : string) : (s ++ t) ++ u = s ++ (t ++ u).
Proof. induction s as [|a s IH]; [done|]. by rewrite !string_app_cons, IH. Qed.

Lemma all_bytes_app P s t : all_bytes P (s ++ t) = all_bytes P s && all_bytes P t.
Proof. induction s as [|a s IH]; [done|]. rewrite string_app_cons; simpl. by rewrite IH, andb_assoc. Qed.
Lemma all_bytes_impl (P Q : ascii -> bool) s :
  (forall c, P c = true -> Q c = true) -> all_bytes P s = true -> all_bytes Q s = true.
Proof.
  intros HPQ. induction s as [|a s IH]; simpl; [done|].
  rewrite !andb_true_iff. intros [? ?]; auto.
Qed.

#[export] Hint Rewrite string_app_cons string_app_nil_l string_app_nil_r
  string_app_assoc all_bytes_app : go.

Section split.
Variable c : ascii.

Lemma Split_not_nil s : Split s c <> [].
Proof. induction s as [|a s IH]; simpl; [done|]. go_cases. Qed.

Lemma Split_no_byte s : no_byte c s = true -> Split s c = [s].
Proof.
  unfold no_byte. induction s as [|a s IH]; simpl; [done|].
  rewrite andb_true_iff, negb_true_iff, bool_decide_eq_false. intros [Ha Hs].
  destruct (ascii_dec a c); [done|]. by rewrite IH.
Qed.

Lemma Split_app s t : Split (s ++ String c t) c = (Split s c ++ Split t c)%list.
Proof.
  induction s as [|a s IH].
  - rewrite string_app_nil_l; simpl. by destruct (ascii_dec c c).
  - rewrite string_app_cons; simpl. rewrite IH. destruct (ascii_dec a c); [done|].
    pose proof (Split_not_nil s). by destruct (Split s c).
Qed.

Lemma Split_pieces s : Forall (fun w => no_byte c w = true) (Split s c).
Proof.
  unfold no_byte. induction s as [|a s IH]; simpl; [by repeat constructor|].
  destruct (ascii_dec a c) as [->|Hne]; [by constructor|].
  destruct (Split s c) as [|w ws]; repeat constructor.
  - simpl. by rewrite bool_decide_eq_false_2.
  - inversion IH; subst. simpl. by rewrite bool_decide_eq_false_2.
  - by inversion IH.
Qed.

Lemma Join_cons_cons x y l sep : Join (x :: y :: l) sep = x ++ sep ++ Join (y :: l) sep.
Proof. done. Qed.

Lemma Join_Split s : Join (Split s c) (String c "") = s.
Proof.
  induction s as [|a s IH]; [done|]. simpl.
  pose proof (Split_not_nil s) as Hn.
  destruct (Split s c) as [|w ws]; [done|]. destruct (ascii_dec a c) as [->|].
  - rewrite Join_cons_cons, IH. by autorewrite with go.
  - destruct ws as [|w' ws]; [by simpl in *; subst|].
    rewrite Join_cons_cons in *. rewrite string_app_cons. by f_equal.
Qed.

Lemma Split_Join l :
  l <> [] -> Forall (fun w => no_byte c w = true) l -> Split (Join l (String c "")) c = l.
Proof.
  intros Hn Hl. induction Hl as [|x l Hx Hl IH]; [done|].
  destruct l as [|y l]; [by apply Split_no_byte|].
  rewrite Join_cons_cons, string_app_cons, string_app_nil_l, Split_app, (Split_no_byte x Hx).
  by rewrite IH.
Qed.
End split.

Lemma Join_app l1 l2 sep :
  l1 <> [] -> l2 <> [] -> Join (l1 ++ l2) sep = Join l1 sep ++ sep ++ Join l2 sep.
Proof.
  intros H1 H2. induction l1 as [|x l1 IH]; [done|].
  destruct l1 as [|y l1].
  - by destruct l2.
  - change ((x :: y :: l1) ++ l2)%list with (x :: y :: (l1 ++ l2)%list).
    rewrite !Join_cons_cons. change (y :: l1 ++ l2)%list with ((y :: l1) ++ l2)%list.
    rewrite IH by done. by autorewrite with go.
Qed.

Lemma HasPrefix_spec s p : HasPrefix s p = true <-> exists t, s = p ++ t.
Proof.
  unfold HasPrefix. revert s. induction p as [|a p IH]; intros s.
  - split; [by exists s|by destruct s].
  - destruct s as [|b s]; simpl; [split; [done|by intros [t Ht]]|].
    destruct (ascii_dec a b) as [->|Hne].
    + rewrite IH. setoid_rewrite string_app_cons. naive_solver.
    + setoid_rewrite string_app_cons. naive_solver.
Qed.
Lemma HasPrefix_app p s : HasPrefix (p ++ s) p = true.
Proof. apply HasPrefix_spec. eauto. Qed.

(** ** [strconv.Itoa] and [strconv.Atoi] *)
Lemma Itoa_inj z1 z2 : Itoa z1 = Itoa z2 -> z1 = z2.
Proof. apply (inj pretty). Qed.

Lemma pretty_N_char_digit n : (n < 10)%N -> is_digit (pretty_N_char n) = true.
Proof.
  intros Hn. rewrite <- (N2Nat.id n). assert (N.to_nat n < 10) as Hm by lia.
  revert Hm. generalize (N.to_nat n) as m. intros m Hm.
  do 10 (destruct m as [|m]; [vm_compute; done|]). lia.
Qed.

Lemma pretty_N_go_digits n s :
  all_bytes is_digit s = true -> all_bytes is_digit (pretty_N_go n s) = true.
Proof.
  revert s. induction (N.lt_wf_0 n) as [n _ IH]; intros s Hs.
  destruct (decide (n = 0%N)) as [->|Hn]; [by rewrite pretty_N_go_0|].
  rewrite pretty_N_go_step by lia. apply IH.
  - apply N.div_lt; lia.
  - simpl. rewrite Hs, pretty_N_char_digit; [done|]. apply N.mod_lt. lia.
Qed.

Lemma pretty_N_go_not_nil n s : s <> "" -> pretty_N_go n s <> "".
Proof.
  revert s. induction (N.lt_wf_0 n) as [n _ IH]; intros s Hs.
  destruct (decide (n = 0%N)) as [->|Hn]; [by rewrite pretty_N_go_0|].
  rewrite pretty_N_go_step by lia. apply IH; [apply N.div_lt; lia|done].
Qed.

Lemma Itoa_nonneg z :
  (0 <= z)%Z -> all_bytes is_digit (Itoa z) = true /\ Itoa z <> "".
Proof.
  intros Hz. assert (exists n, Itoa z = pretty (n : N)) as [n ->].
  { destruct z as [|p|p]; [by exists 0%N|by exists (Npos p)|lia]. }
  unfold pretty, pretty_N. case_decide as Hn; [done|].
  split; [by apply pretty_N_go_digits|].
  rewrite pretty_N_go_step by lia. by apply pretty_N_go_not_nil.
Qed.

(** Decimal digits read back: [Itoa] after any number of zeros. *)
Lemma digit_val_char n : (n < 10)%N -> digit_val (pretty_N_char n) = Some (Z.of_N n).
Proof.
  intros Hn. rewrite <- (N2Nat.id n). assert (N.to_nat n < 10) as Hm by lia.
  revert Hm. generalize (N.to_nat n) as m. intros m Hm.
  do 10 (destruct m as [|m]; [vm_compute; done|]). lia.
Qed.
Lemma digits_acc_pretty n : exists k, (0 <= k)%Z /\ forall a s,
  digits_acc a (pretty_N_go n s) = digits_acc (a * 10 ^ k + Z.of_N n) s.
Proof.
  induction (N.lt_wf_0 n) as [n _ IH]. destruct (decide (n = 0%N)) as [->|Hn].
  - exists 0%Z. split; [lia|]. intros a s. rewrite pretty_N_go_0. f_equal. lia.
  - destruct (IH (n / 10)%N) as (k & Hk & Heq); [apply N.div_lt; lia|].
    exists (k + 1)%Z. split; [lia|]. intros a s. rewrite pretty_N_go_step by lia.
    rewrite Heq. cbn [digits_acc]. rewrite digit_val_char by (apply N.mod_lt; lia).
    simpl. f_equal. rewrite Z.pow_add_r by lia.
    pose proof (f_equal Z.of_N (N.div_mod n 10 ltac:(lia))) as Hd.
    rewrite N2Z.inj_add, N2Z.inj_mul in Hd. rewrite Z.pow_1_r. lia.
Qed.
Fixpoint zeros (k : nat) : string := match k with O => "" | S k => String "0" (zeros k) end.
Lemma zeros_digits k : all_bytes is_digit (zeros k) = true.
Proof. by induction k as [|k IH]. Qed.
Lemma digits_acc_zeros k s : digits_acc 0 (zeros k ++ s) = digits_acc 0 s.
Proof. induction k as [|k IH]; [done|]. simpl zeros. rewrite string_app_cons. apply IH. Qed.
Lemma digits_padded k n : digits (zeros k ++ Itoa (Z.of_N n)) = Some (Z.of_N n).
Proof.
  assert (Itoa (Z.of_N n) = pretty n) as -> by by destruct n.
  assert (forall s, s <> "" -> digits s = digits_acc 0 s) as Hd by by intros [].
  rewrite Hd.
  - rewrite digits_acc_zeros. unfold pretty, pretty_N. case_decide as Hn; [by subst|].
    destruct (digits_acc_pretty n) as (m & _ & ->). done.
  - destruct k; [|done]. rewrite string_app_nil_l.
    destruct (Itoa_nonneg (Z.of_N n) ltac:(lia)) as [_ Hne]. by destruct n.
Qed.
(** The formats [%d] and [%0<w>d]: a sign, zeros, digits. *)
Definition padded (k : nat) (z : Z) : string :=
  (if (z <? 0)%Z then "-" else "") ++ zeros k ++ Itoa (Z.abs z).
Lemma Atoi_padded k z : (int64_min <= z <= int64_max)%Z -> Atoi (padded k z) = Some z.
Proof.
  intros Hz. unfold padded. assert (Z.abs z = Z.of_N (Z.abs_N z)) as Ha by lia.
  rewrite Ha. assert (int64_check z = Some z) as Hc.
  { unfold int64_check. destruct (Z.leb_spec int64_min z), (Z.leb_spec z int64_max); (done || lia). }
  destruct (Z.ltb_spec z 0) as [Hneg|Hpos].
  - change ("-" ++ zeros k ++ Itoa (Z.of_N (Z.abs_N z)))
      with (String "-" (zeros k ++ Itoa (Z.of_N (Z.abs_N z)))).
    simpl. rewrite digits_padded. simpl. by replace (- Z.of_N (Z.abs_N z))%Z with z by lia.
  - rewrite string_app_nil_l. pose proof (digits_padded k (Z.abs_N z)) as Hd.
    assert (all_bytes is_digit (zeros k ++ Itoa (Z.of_N (Z.abs_N z))) = true) as Hall.
    { rewrite all_bytes_app. destruct (Itoa_nonneg (Z.of_N (Z.abs_N z)) ltac:(lia)) as [-> _].
      rewrite andb_true_r. apply zeros_digits. }
    unfold Atoi. destruct (zeros k ++ Itoa _) as [|c s] eqn:Hs; [done|].
    simpl in Hall. apply andb_true_iff in Hall as [Hc1 _].
    replace (Z.of_N (Z.abs_N z)) with z in Hd by lia.
    destruct c as [[] [] [] [] [] [] [] []]; try (vm_compute in Hc1; done);
      rewrite Hd; exact Hc.
Qed.
Lemma padded_bytes k z :
  exists sign ds, padded k z = sign ++ ds /\ (sign = "" \/ sign = "-") /\ ds <> "" /\
    all_bytes is_digit ds = true.
Proof.
  exists (if (z <? 0)%Z then "-" else ""), (zeros k ++ Itoa (Z.abs z)). split; [done|].
  destruct (Itoa_nonneg (Z.abs z) ltac:(lia)) as [Hb Hn].
  split; [destruct (z <? 0)%Z; auto|]. split.
  - destruct k; [|done]. by rewrite string_app_nil_l.
  - by rewrite all_bytes_app, Hb, zeros_digits.
Qed.
