(* ===== verification/GoPath.v ===== *)
(** * Go slash paths: [path.Clean], [path.Join], [path.Base], and the algebra of
    absolute paths as lists of elements that the store and the elector rely on. *)
From S2P Require Import Prelude.
From S2P Require Import GoStrings.

Local Open Scope string_scope.

(** The non-empty elements of a slash-separated path. *)
Definition elems (s : string) : list string := filter (fun w => w <> "") (Split s slash).

(** One element of the path against the elements kept so far (last one first):
    the rules of [path.Clean] for ".", for ".." after an element, for ".." at a root. *)
Definition clean_step (rooted : bool) (stack : list string) (w : string) : list string :=
  if bool_decide (w = ".") then stack
  else if bool_decide (w = "..") then
    match stack with
    | top :: rest => if bool_decide (top = "..") then w :: stack else rest
    | [] => if rooted then [] else [w]
    end
  else w :: stack.

(** [path.Clean] *)
Definition Clean (s : string) : string :=
  if bool_decide (s = "") then "."
  else
    let rooted := HasPrefix s "/" in
    let body := reverse (foldl (clean_step rooted) [] (elems s)) in
    if rooted then "/" ++ Join body "/"
    else match body with [] => "." | _ => Join body "/" end.

(** [path.Join]: leading empty arguments are skipped, the rest joined and cleaned. *)
Fixpoint PathJoin (l : list string) : string :=
  match l with
  | [] => ""
  | e :: l' => if bool_decide (e = "") then PathJoin l' else Clean (Join (e :: l') "/")
  end.

(** [path.Base]: the last element, "/" when there are only slashes, "." for "". *)
Definition Base (s : string) : string :=
  if bool_decide (s = "") then "."
  else match last (elems s) with Some w => w | None => "/" end.

Example Clean_ex :
  map Clean [""; "/"; "a//b"; "/a/./b/"; "../a/.."; "/../a"; "a/.."] =
  ["."; "/"; "a/b"; "/a/b"; ".."; "/a"; "."].
Proof. vm_compute. done. Qed.
Example PathJoin_ex : PathJoin ["/"; ""; "/w/x"; "buckets"] = "/w/x/buckets".
Proof. vm_compute. done. Qed.
Example Base_ex : map Base [""; "///"; "/a/b/"; "c"] = ["."; "/"; "b"; "c"].
Proof. vm_compute. done. Qed.

(** A path element proper: not empty, no slash. *)
Definition elem_ok (w : string) : Prop := w <> "" /\ no_byte slash w = true.
(** An element [path.Clean] keeps. *)
Definition normal (w : string) : Prop := elem_ok w /\ w <> "." /\ w <> "..".
(** The absolute path with the given elements. *)
Definition abs_path (l : list string) : string := "/" ++ Join l "/".

Global Instance elem_ok_dec w : Decision (elem_ok w).
Proof. unfold elem_ok. apply _. Defined.
Global Instance normal_dec w : Decision (normal w).
Proof. unfold normal. apply _. Defined.

(** ** The elements of a path *)
Lemma elems_app s t : elems (s ++ String slash t) = (elems s ++ elems t)%list.
Proof. unfold elems. by rewrite Split_app, filter_app. Qed.

Lemma elems_Join l : elems (Join l "/") = mjoin (elems <$> l).
Proof.
  induction l as [|x l IH]; [done|]. destruct l as [|y l].
  - csimpl. by rewrite app_nil_r.
  - rewrite Join_cons_cons. change ("/" ++ Join (y :: l) "/") with (String slash (Join (y :: l) "/")).
    by rewrite elems_app, IH.
Qed.

Lemma elems_ok s : Forall elem_ok (elems s).
Proof.
  unfold elems. apply Forall_forall. intros w [Hne Hw]%list_elem_of_filter.
  split; [done|]. pose proof (Split_pieces slash s) as Hp. rewrite Forall_forall in Hp. eauto.
Qed.

Lemma elems_single w : elem_ok w -> elems w = [w].
Proof.
  intros [Hne Hw]. unfold elems. rewrite Split_no_byte by done.
  by rewrite filter_cons_True.
Qed.
Lemma elems_nil : elems "" = [].
Proof. done. Qed.
Lemma elems_slash s : elems (String slash s) = elems s.
Proof. change (String slash s) with ("" ++ String slash s). by rewrite elems_app. Qed.

Lemma mjoin_singletons l : Forall elem_ok l -> mjoin (elems <$> l) = l.
Proof. induction 1 as [|w l Hw _ IH]; csimpl; [done|]. by rewrite elems_single, IH. Qed.

Lemma elems_abs_path l : Forall elem_ok l -> elems (abs_path l) = l.
Proof.
  intros Hl. unfold abs_path. change ("/" ++ Join l "/") with (String slash (Join l "/")).
  by rewrite elems_slash, elems_Join, mjoin_singletons.
Qed.

Lemma abs_path_inj l1 l2 :
  Forall elem_ok l1 -> Forall elem_ok l2 -> abs_path l1 = abs_path l2 -> l1 = l2.
Proof. intros H1 H2 Heq. by rewrite <- (elems_abs_path l1), <- (elems_abs_path l2), Heq. Qed.

Lemma normal_elem_ok l : Forall normal l -> Forall elem_ok l.
Proof. intros Hl. eapply Forall_impl; [exact Hl|]. by intros w []. Qed.

(** ** Cleaning *)
Lemma foldl_clean_normal rooted l stack :
  Forall normal l -> foldl (clean_step rooted) stack l = (reverse l ++ stack)%list.
Proof.
  intros Hl. revert stack. induction Hl as [|w l [_ [H1 H2]] _ IH]; intros stack; [done|].
  simpl. rewrite IH. unfold clean_step. rewrite !bool_decide_eq_false_2 by done.
  by rewrite reverse_cons, <- app_assoc.
Qed.

(** A rooted path without dot elements cleans to its elements, one slash between them. *)
Lemma Clean_rooted s :
  HasPrefix s "/" = true -> Forall normal (elems s) -> Clean s = abs_path (elems s).
Proof.
  intros Hp Hn. unfold Clean. rewrite bool_decide_eq_false_2 by (by intros ->).
  rewrite Hp, foldl_clean_normal by done. by rewrite app_nil_r, reverse_involutive.
Qed.

Lemma PathJoin_rooted s l :
  HasPrefix s "/" = true -> Forall normal (mjoin (elems <$> s :: l)) ->
  PathJoin (s :: l) = abs_path (mjoin (elems <$> s :: l)).
Proof.
  intros Hp Hn.
  assert (HasPrefix (Join (s :: l) "/") "/" = true) as Hp'.
  { apply HasPrefix_spec in Hp as [t ->]. destruct l as [|y l]; [apply HasPrefix_app|].
    rewrite Join_cons_cons, string_app_assoc. apply HasPrefix_app. }
  cbn [PathJoin]. rewrite bool_decide_eq_false_2 by (by intros ->).
  by rewrite Clean_rooted; rewrite ?elems_Join.
Qed.

(** A cleaned rooted path has only normal elements. *)
Lemma clean_stack_normal l stack :
  Forall elem_ok l -> Forall normal stack -> Forall normal (foldl (clean_step true) stack l).
Proof.
  intros Hl. revert stack. induction Hl as [|w l Hw Hl IH]; intros stack Hs; [done|].
  simpl. apply IH. unfold clean_step. case_bool_decide; [done|]. case_bool_decide; [|by constructor; [split|]].
  destruct Hs as [|top rest [Ht [? ?]] Hr]; [constructor|]. by rewrite bool_decide_eq_false_2 by done.
Qed.

Lemma Clean_fix_normal s :
  HasPrefix s "/" = true -> Clean s = s -> Forall normal (elems s) /\ s = abs_path (elems s).
Proof.
  intros Hp Hc. assert (Forall normal (elems s)) as Hn.
  { unfold Clean in Hc. rewrite bool_decide_eq_false_2 in Hc by (by intros ->).
    rewrite Hp in Hc.
    pose proof (clean_stack_normal (elems s) [] (elems_ok s) (Forall_nil_2 _)) as Hb.
    set (body := foldl (clean_step true) [] (elems s)) in *.
    assert (Forall normal (reverse body)) as Hb' by by apply Forall_reverse.
    change ("/" ++ Join (reverse body) "/") with (abs_path (reverse body)) in Hc.
    rewrite <- Hc, elems_abs_path by by apply normal_elem_ok. done. }
  split; [done|]. by rewrite <- Clean_rooted.
Qed.

#[global] Arguments PathJoin _ : simpl never.
#[global] Arguments Clean _ : simpl never.
#[global] Arguments abs_path _ : simpl never.
