(* ===== verification/GoErrors.v ===== *)
(** * Go error values: the sentinels the packages compare with [==], the errors of the
    ZooKeeper client, and the values built by [errors.New] and [errors.Wrap]. *)
From S2P Require Import Prelude.
From S2P Require Import GoStrings.

Local Open Scope string_scope.

(** Errors of the [zk] client. [ErrSession] stands for every error of the session or the
    connection (closed, expired, moved, not authenticated, ...), told apart by text. *)
Inductive zkerr : Type :=
| ErrNoNode
| ErrNodeExists
| ErrBadVersion
| ErrNotEmpty
| ErrSession (msg : string).

(** [internalError] is compared by value; [errorsNew] is the result of [errors.New],
    [errors.Errorf] or [fmt.Errorf]; [errorsWrap] of [errors.Wrap] on a non-nil error.
    [goPanic] is not an error value but a run-time panic, which unwinds through every
    caller (none of the packages recovers); a panic is kept apart so that its absence can
    be stated. *)
Inductive error : Type :=
| internalError (msg : string)
| zkError (e : zkerr)
| errorsNew (msg : string)
| errorsWrap (msg : string) (cause : error)
| goPanic (msg : string).

Global Instance zkerr_eq_dec : EqDecision zkerr.
Proof. solve_decision. Defined.
Global Instance error_eq_dec : EqDecision error.
Proof. solve_decision. Defined.

Definition zk_message (e : zkerr) : string :=
  match e with
  | ErrNoNode => "zk: node does not exist"
  | ErrNodeExists => "zk: node already exists"
  | ErrBadVersion => "zk: version conflict"
  | ErrNotEmpty => "zk: node has children"
  | ErrSession m => m
  end.

(** The [Error()] method. *)
Fixpoint Error (e : error) : string :=
  match e with
  | internalError m => m
  | zkError z => zk_message z
  | errorsNew m => m
  | errorsWrap m c => m ++ ": " ++ Error c
  | goPanic m => m
  end.

(** [errors.Wrap] applied to the error of a call: nil stays nil. *)
Definition Wrap {A} (m : string) (r : res error A) : res error A :=
  match r with Fail e => Fail (errorsWrap m e) | Ok a => Ok a end.

(** [errors.Cause] *)
Fixpoint Cause (e : error) : error :=
  match e with errorsWrap _ c => Cause c | _ => e end.

Lemma Wrap_ok {A} m (r : res error A) a : Wrap m r = Ok a <-> r = Ok a.
Proof. by destruct r; simpl; split; intros; simplify_eq. Qed.
Lemma Wrap_is_ok {A} m (r : res error A) : is_ok (Wrap m r) = is_ok r.
Proof. by destruct r. Qed.
#[export] Hint Rewrite @Wrap_ok @Wrap_is_ok : go.
