(* ===== verification/ZkClient.v ===== *)
(** * The ZooKeeper client library's data the packages use (ACLs, session states, events),
    and the connectors of zkstore and elector, which are the same code but for the events
    channel that elector's [Connect] returns too. *)
From S2P Require Import Prelude.
From S2P Require Import GoStrings.
From S2P Require Import GoErrors.

Local Open Scope string_scope.

(** ** [zk.ACL], [zk.State], [zk.Event] *)
Record ACL : Type := MkACL { Perms : Z; Scheme : string; AclID : string }.
Definition PermAll : Z := 31.
Definition WorldACL (perms : Z) : list ACL := [MkACL perms "world" "anyone"].

Definition StateUnknown : Z := -1.
Definition StateDisconnected : Z := 0.
Definition StateConnecting : Z := 1.
Definition StateAuthFailed : Z := 4.
Definition StateConnectedReadOnly : Z := 5.
Definition StateSaslAuthenticated : Z := 6.
Definition StateExpired : Z := -112.
Definition StateConnected : Z := 100.
Definition StateHasSession : Z := 101.
Definition stateNames : list (Z * string) :=
  [(StateUnknown, "StateUnknown"); (StateDisconnected, "StateDisconnected");
   (StateConnectedReadOnly, "StateConnectedReadOnly");
   (StateSaslAuthenticated, "StateSaslAuthenticated"); (StateExpired, "StateExpired");
   (StateAuthFailed, "StateAuthFailed"); (StateConnecting, "StateConnecting");
   (StateConnected, "StateConnected"); (StateHasSession, "StateHasSession")].
Definition State_String (s : Z) : string :=
  match list_find (fun p => fst p = s) stateNames with
  | Some (_, (_, name)) => name
  | None => "Unknown"
  end.

(** The fields of [zk.Event] the packages read. *)
Record ZkEvent : Type := MkZkEvent { State : Z; ZkErr : option error }.
(** What a receive from a closed events channel gives. *)
Definition zero_event : ZkEvent := MkZkEvent StateDisconnected None.

(** ** Connecting *)
Record ConnectionOpts : Type := MkConnectionOpts {
  ConnectTimeout : Z;
  InitialSessionTimeout : Z;
  AuthSchema : string;
  AuthSecret : string;
}.
Definition second : Z := 1000000000.
Definition defaultConnectTimeout : Z := 5 * second.
Definition defaultInitialSessionTimeout : Z := 5 * second.
Definition durationOrDefault (duration defaultDuration : Z) : Z :=
  if negb (duration =? 0)%Z then duration else defaultDuration.

(** What the [select] of [waitForSession] picks, in order: an event or the deadline. *)
Inductive wait_input : Type :=
| Received (e : ZkEvent)
| Deadline.
(** [None]: the inputs are used up and it is still waiting. *)
Fixpoint waitForSession (inputs : list wait_input) : option (res error unit) :=
  match inputs with
  | [] => None
  | Received e :: inputs =>
      if bool_decide (State e = StateHasSession) then Some (Ok tt) else waitForSession inputs
  | Deadline :: _ => Some (Fail (errorsNew "timed out"))
  end.

(** The calls on the client library, and what it and the clock answer. [Conn] stands for
    [*zk.Conn] (and the events channel). *)
Section connector.
Context {Conn : Type}.
Inductive conn_call : Type :=
| CConnect (addrs : list string) (timeout : Z)
| CAddAuth (c : Conn) (schema secret : string)
| CClose (c : Conn).
Record conn_env : Type := MkConnEnv {
  zk_Connect : list string -> Z -> res error Conn;
  zk_AddAuth : Conn -> string -> string -> res error unit;
  zk_events : Conn -> Z -> list wait_input;
}.

Record newConnection : Type := MkNewConnection {
  addrs : list string;
  opts : ConnectionOpts;
  conn : option Conn;
  once : bool;
}.
Definition NewConnection (addrs : list string) (opts : ConnectionOpts) : newConnection :=
  MkNewConnection addrs opts None false.

(** [Connect]: the answer ([None] while it waits), the connector and the calls made. *)
Definition Connect (env : conn_env) (c : newConnection)
    : option (res error Conn) * newConnection * list conn_call :=
  let connectTimeout := durationOrDefault (ConnectTimeout (opts c)) defaultConnectTimeout in
  let call := CConnect (addrs c) connectTimeout in
  match zk_Connect env (addrs c) connectTimeout with
  | Fail err => (Some (Fail (errorsWrap "connection failed" err)), c, [call])
  | Ok conn =>
      let auth := negb (bool_decide (AuthSchema (opts c) = "")) || (0 <? len (AuthSchema (opts c)))%Z in
      let added := if auth then [CAddAuth conn (AuthSchema (opts c)) (AuthSecret (opts c))] else [] in
      match (if auth then zk_AddAuth env conn (AuthSchema (opts c)) (AuthSecret (opts c)) else Ok tt) with
      | Fail err => (Some (Fail (errorsWrap "authentication failed" err)), c, call :: added)
      | Ok _ =>
          let c := MkNewConnection (addrs c) (opts c) (Some conn) (once c) in
          let sessionWaitTimeout :=
            durationOrDefault (InitialSessionTimeout (opts c)) defaultInitialSessionTimeout in
          match waitForSession (zk_events env conn sessionWaitTimeout) with
          | None => (None, c, call :: added)
          | Some (Fail err) =>
              (Some (Fail (errorsWrap "session could not be established" err)), c, call :: added)
          | Some (Ok _) => (Some (Ok conn), c, call :: added)
          end
      end
  end.

(** [Close]: the connection is closed the first time; without one the call on the nil
    connection panics (and the [sync.Once] is used up all the same). *)
Definition Close (c : newConnection) : res error unit * newConnection * list conn_call :=
  let c' := MkNewConnection (addrs c) (opts c) (conn c) true in
  if once c then (Ok tt, c, [])
  else match conn c with
       | None => (Fail (goPanic "invalid memory address or nil pointer dereference"), c', [])
       | Some cn => (Ok tt, c', [CClose cn])
       end.

(** A connection that exists already: [Connect] gives it, [Close] does nothing. *)
Definition ExistingConnection (cn : Conn) : Conn := cn.
Definition existing_Connect (cn : Conn) : res error Conn := Ok cn.
Definition existing_Close (cn : Conn) : res error unit := Ok tt.

Fixpoint close_all (n : nat) (c : newConnection) : list conn_call :=
  match n with
  | O => []
  | S n => let '(_, c', calls) := Close c in (calls ++ close_all n c')%list
  end.
End connector.
Arguments conn_call : clear implicits.
Arguments conn_env : clear implicits.
Arguments newConnection : clear implicits.

(** ** Lemmas *)
Definition has_session (i : wait_input) : Prop :=
  match i with Received e => State e = StateHasSession | Deadline => False end.
Global Instance has_session_dec i : Decision (has_session i).
Proof. destruct i; simpl; apply _. Defined.

Lemma waitForSession_Ok inputs :
  waitForSession inputs = Some (Ok tt) <->
  exists pre i post, inputs = (pre ++ i :: post)%list /\ has_session i /\ Deadline ∉ pre.
Proof.
  split.
  - induction inputs as [|[e|] inputs IH]; simpl; [done| |done]. case_bool_decide as He.
    + intros _. exists [], (Received e), inputs. split; [done|]. split; [done|apply not_elem_of_nil].
    + intros (pre & i & post & -> & Hi & Hd)%IH. exists (Received e :: pre), i, post.
      split; [done|]. split; [done|]. by apply not_elem_of_cons.
  - intros (pre & i & post & -> & Hi & Hd). induction pre as [|[e|] pre IH]; simpl.
    + destruct i; [|done]. by rewrite bool_decide_eq_true_2.
    + case_bool_decide; [done|]. apply IH. by apply not_elem_of_cons in Hd as [_ ?].
    + exfalso. apply Hd. left.
Qed.

Lemma close_all_once {Conn} n (c : newConnection Conn) : once c = true -> close_all n c = [].
Proof.
  intros Hc. induction n as [|n IH]; simpl; [done|]. unfold Close. by rewrite Hc.
Qed.

(** ** Properties *)

(** A [Connect] that succeeds has seen a session before the deadline of the timeout that
    was configured (5 seconds when none was), has authenticated when a schema is set, and
    leaves the connection to [Close], which closes it exactly once however often it is
    called. *)
Theorem connector_lifecycle {Conn} (env : conn_env Conn) (c c' : newConnection Conn) (cn : Conn)
    (calls : list (conn_call Conn)) (n : nat) :
  once c = false -> Connect env c = (Some (Ok cn), c', calls) ->
  (exists pre i post, zk_events env cn (durationOrDefault (InitialSessionTimeout (opts c))
      defaultInitialSessionTimeout) = (pre ++ i :: post)%list /\ has_session i /\ Deadline ∉ pre) /\
  (AuthSchema (opts c) <> "" ->
    zk_AddAuth env cn (AuthSchema (opts c)) (AuthSecret (opts c)) = Ok tt /\
    CAddAuth cn (AuthSchema (opts c)) (AuthSecret (opts c)) ∈ calls) /\
  close_all (S n) c' = [CClose cn].
Proof.
  intros Ho Hc. unfold Connect in Hc.
  destruct (zk_Connect env _ _) as [|cn0]; [done|].
  destruct (if _ : bool then zk_AddAuth env _ _ _ else _) as [|[]] eqn:Ha; [done|].
  simpl in Hc. destruct (waitForSession _) as [[|[]]|] eqn:Hw; [done| |done].
  injection Hc as <- <- <-. split; [by apply waitForSession_Ok|]. split.
  - intros Hs. rewrite bool_decide_eq_false_2 in * by done. simpl in *.
    split; [done|]. right. left.
  - cbn [close_all]. unfold Close. simpl. rewrite Ho. by rewrite close_all_once.
Qed.

(** When authentication fails the connector does not keep the connection it opened:
    no later [Close] closes it, and the first one panics. *)
Theorem failed_auth_leaks {Conn} (env : conn_env Conn) (addrs : list string) (o : ConnectionOpts)
    (cn : Conn) (err : error) (n : nat) :
  zk_Connect env addrs (durationOrDefault (ConnectTimeout o) defaultConnectTimeout) = Ok cn ->
  AuthSchema o <> "" -> zk_AddAuth env cn (AuthSchema o) (AuthSecret o) = Fail err ->
  let '(r, c', _) := Connect env (NewConnection addrs o) in
  r = Some (Fail (errorsWrap "authentication failed" err)) /\ close_all n c' = [] /\
  is_ok (fst (fst (Close c'))) = false.
Proof.
  intros Hc Hs Ha. unfold Connect. simpl. rewrite Hc.
  rewrite (bool_decide_eq_false_2 (AuthSchema o = "")) by done. simpl. rewrite Ha.
  split; [done|]. split; [|done]. destruct n as [|n]; [done|]. cbn [close_all].
  unfold Close. simpl. by rewrite close_all_once.
Qed.

(** ** Witnesses *)
Definition demo_opts : ConnectionOpts := MkConnectionOpts 0 0 "digest" "user:pass".
Definition demo_env (auth : res error unit) : conn_env nat :=
  MkConnEnv (fun _ _ => Ok 7) (fun _ _ _ => auth)
    (fun _ _ => [Received (MkZkEvent StateConnecting None); Received (MkZkEvent StateHasSession None)]).
Lemma connector_lifecycle_witness :
  close_all 3 (snd (fst (Connect (demo_env (Ok tt)) (NewConnection ["zk:2181"] demo_opts)))) = [CClose 7].
Proof.
  apply (connector_lifecycle (demo_env (Ok tt)) (NewConnection ["zk:2181"] demo_opts)
    _ 7 (snd (Connect (demo_env (Ok tt)) (NewConnection ["zk:2181"] demo_opts))) 2);
    [reflexivity|]. vm_compute. reflexivity.
Defined.
Lemma failed_auth_leaks_witness :
  let '(r, c', _) := Connect (demo_env (Fail (errorsNew "no"))) (NewConnection ["zk:2181"] demo_opts) in
  r = Some (Fail (errorsWrap "authentication failed" (errorsNew "no"))) /\ close_all 2 c' = [] /\
  is_ok (fst (fst (Close c'))) = false.
Proof.
  apply (failed_auth_leaks (demo_env (Fail (errorsNew "no"))) ["zk:2181"] demo_opts 7
    (errorsNew "no") 2); [reflexivity|discriminate|reflexivity].
Defined.
