(* ===== verification/ZkService.v ===== *)
(** * The ZooKeeper service as the store uses it: commands, a reference tree of znodes,
    the laws a service promises, and the programs (sequences of calls) run against it. *)
From S2P Require Import Prelude.
From S2P Require Import GoStrings.
From S2P Require Import GoPath.
From S2P Require Import GoErrors.

Local Open Scope string_scope.

(** [zk.Stat]; only the data version is read. *)
Record Stat : Type := MkStat { Version : Z }.

(** The calls of [*zk.Conn] the store makes, indexed by what they return when the error is
    nil. ACLs and flags are passed through by the code and not interpreted here. *)
Inductive zkcmd : Type -> Type :=
| Exists_ (p : string) : zkcmd (bool * option Stat)
| Create (p : string) (data : string) : zkcmd string
| Set_ (p : string) (data : string) (version : Z) : zkcmd (option Stat)
| Get_ (p : string) : zkcmd (string * Stat)
| Children (p : string) : zkcmd (list string)
| Delete_ (p : string) (version : Z) : zkcmd unit.

Definition cmd_path {X} (c : zkcmd X) : string :=
  match c with
  | Exists_ p | Create p _ | Set_ p _ _ | Get_ p | Children p | Delete_ p _ => p
  end.

(** ** The reference tree *)
Record znode : Type := Znode { zdata : string; zversion : Z }.
Notation tree := (@gmap (list string) (@list_eq_dec string String.eq_dec)
  (@list_countable string String.eq_dec String.countable) znode).

Definition child_name (l q : list string) : option string :=
  n ← last q; if decide (q = l ++ [n])%list then Some n else None.
Definition children (t : tree) (l : list string) : list string :=
  omap (child_name l) (map fst (map_to_list t)).
Definition parent (l : list string) : list string := removelast l.
Definition version_matches (want have : Z) : bool :=
  bool_decide (want = -1)%Z || bool_decide (want = have).

(** What ZooKeeper documents of each call, on the znode with path elements [l]: the
    answer and the tree afterwards. Version -1 means any version; an update increments
    the (32-bit) version; the root and a node with children cannot be deleted. *)
Definition zk_spec {X} (c : zkcmd X) (l : list string) (t : tree) : res error X * tree :=
  match c in zkcmd X return res error X * tree with
  | Exists_ _ =>
      match t !! l with
      | Some n => (Ok (true, Some (MkStat (zversion n))), t)
      | None => (Ok (false, Some (MkStat 0)), t)
      end
  | Create p data =>
      match t !! l, t !! parent l with
      | Some _, _ => (Fail (zkError ErrNodeExists), t)
      | None, None => (Fail (zkError ErrNoNode), t)
      | None, Some _ => (Ok p, <[l := Znode data 0]> t)
      end
  | Set_ _ data v =>
      match t !! l with
      | None => (Fail (zkError ErrNoNode), t)
      | Some n =>
          if version_matches v (zversion n)
          then let v' := wrap32 (zversion n + 1) in
               (Ok (Some (MkStat v')), <[l := Znode data v']> t)
          else (Fail (zkError ErrBadVersion), t)
      end
  | Get_ _ =>
      match t !! l with
      | None => (Fail (zkError ErrNoNode), t)
      | Some n => (Ok (zdata n, MkStat (zversion n)), t)
      end
  | Children _ =>
      match t !! l with
      | None => (Fail (zkError ErrNoNode), t)
      | Some _ => (Ok (children t l), t)
      end
  | Delete_ _ v =>
      match t !! l with
      | None => (Fail (zkError ErrNoNode), t)
      | Some n =>
          if bool_decide (l = []) then (Fail (zkError (ErrSession "zk: bad arguments")), t)
          else if negb (version_matches v (zversion n)) then (Fail (zkError ErrBadVersion), t)
          else if bool_decide (children t l = []) then (Ok tt, delete l t)
          else (Fail (zkError ErrNotEmpty), t)
      end
  end.

(** Paths the laws speak about: rooted, no empty or dot element, printable ASCII bytes. *)
Definition printable (c : ascii) : bool :=
  let n := N_of_ascii c in (32 <=? n)%N && (n <=? 126)%N.
Definition parse_path (p : string) : option (list string) :=
  if decide (p = abs_path (elems p) /\ Forall normal (elems p) /\ all_bytes printable p = true)
  then Some (elems p) else None.

(** Two answers are the same up to the order in which children are listed. *)
Definition resp_eq {X} (c : zkcmd X) : relation (res error X) :=
  match c in zkcmd X return relation (res error X) with
  | Children _ => fun r r' =>
      match r, r' with
      | Ok l, Ok l' => Permutation l l'
      | Fail e, Fail e' => e = e'
      | _, _ => False
      end
  | _ => eq
  end.

(** The answer [r] and next tree [t'] a service may give: what the reference gives; and,
    when calls can be lost, a session error with the call carried out or not. *)
Definition reliable {X} (c : zkcmd X) (t : tree) (r : res error X) (t' : tree) : Prop :=
  forall l, parse_path (cmd_path c) = Some l ->
    resp_eq c r (fst (zk_spec c l t)) /\ t' = snd (zk_spec c l t).
Definition lossy {X} (c : zkcmd X) (t : tree) (r : res error X) (t' : tree) : Prop :=
  forall l, parse_path (cmd_path c) = Some l ->
    (resp_eq c r (fst (zk_spec c l t)) /\ t' = snd (zk_spec c l t)) \/
    ((exists m, r = Fail (zkError (ErrSession m))) /\ (t' = t \/ t' = snd (zk_spec c l t))).

(** ** The interface: a service over a world [W], viewed as a tree of znodes *)
Class ZkService (W : Type) : Type := {
  zk_do : forall {X}, zkcmd X -> W -> res error X * W;
  zk_view : W -> tree;
}.
Class ZkReliable (W : Type) `{ZkService W} : Prop :=
  zk_reliable : forall X (c : zkcmd X) w,
    reliable c (zk_view w) (fst (zk_do c w)) (zk_view (snd (zk_do c w))).
Class ZkLossy (W : Type) `{ZkService W} : Prop :=
  zk_lossy : forall X (c : zkcmd X) w,
    lossy c (zk_view w) (fst (zk_do c w)) (zk_view (snd (zk_do c w))).

(** The reference service, and one that loses calls following a schedule: [Some b]
    reports a session error for the next call, carried out when [b]. *)
Definition ref_do {X} (c : zkcmd X) (t : tree) : res error X * tree :=
  match parse_path (cmd_path c) with
  | Some l => zk_spec c l t
  | None => (Fail (zkError (ErrSession "zk: invalid path")), t)
  end.
Definition flaky_do {X} (c : zkcmd X) (w : list (option bool) * tree)
    : res error X * (list (option bool) * tree) :=
  let '(sched, t) := w in
  match sched with
  | Some done :: sched =>
      (Fail (zkError (ErrSession "zk: connection closed")),
       (sched, if done : bool then snd (ref_do c t) else t))
  | None :: sched => let '(r, t') := ref_do c t in (r, (sched, t'))
  | [] => let '(r, t') := ref_do c t in (r, ([], t'))
  end.
Global Instance ref_service : ZkService tree := {| zk_do X c t := ref_do c t; zk_view t := t |}.
Global Instance flaky_service : ZkService (list (option bool) * tree) :=
  {| zk_do X c w := flaky_do c w; zk_view w := snd w |}.

(** ** Programs: what a method of the store does, call by call *)
Inductive prog (A : Type) : Type :=
| Ret (a : A)
| Do {X : Type} (c : zkcmd X) (k : res error X -> prog A).
Arguments Ret {A} a.
Arguments Do {A X} c k.

Fixpoint prog_bind {A B} (p : prog A) (f : A -> prog B) : prog B :=
  match p with
  | Ret a => f a
  | Do c k => Do c (fun r => prog_bind (k r) f)
  end.
Global Instance prog_mret : MRet prog := fun A a => Ret a.
Global Instance prog_mbind : MBind prog := fun A B f p => prog_bind p f.

(** [x, err := m; if err != nil { return err }; k] *)
Definition try_bind {A B} (m : prog (res error A)) (k : A -> prog (res error B))
    : prog (res error B) :=
  prog_bind m (fun r => match r with Fail e => Ret (Fail e) | Ok a => k a end).
(** The same for a call that does not touch the service. *)
Definition try_pure {A B} (m : res error A) (k : A -> prog (res error B))
    : prog (res error B) :=
  match m with Fail e => Ret (Fail e) | Ok a => k a end.
Notation "'let?' x := m 'in' k" := (try_bind m (fun x => k))
  (at level 200, x strict pattern, m at level 200, k at level 200).
Notation "'let!' x := m 'in' k" := (try_pure m (fun x => k))
  (at level 200, x strict pattern, m at level 200, k at level 200).
Notation "'call' r := c 'in' k" := (Do c (fun r => k))
  (at level 200, r name, c at level 200, k at level 200).

(** Running a program to its end against a service. *)
Fixpoint run {W} `{ZkService W} {A} (p : prog A) (w : W) : A * W :=
  match p with
  | Ret a => (a, w)
  | Do c k => let '(r, w') := zk_do c w in run (k r) w'
  end.

(** Several clients, each in the middle of a program, taking turns call by call. *)
Definition conc_state (W A : Type) : Type := (list (prog A) * W)%type.
Inductive conc_step {W} `{ZkService W} {A} : relation (conc_state W A) :=
| client_call ps w i X (c : zkcmd X) k r w' :
    ps !! i = Some (Do c k) -> zk_do c w = (r, w') ->
    conc_step (ps, w) (<[i := k r]> ps, w').

(** ** Weakest preconditions over the reference tree, for either law *)
Definition law : Type := forall X, zkcmd X -> tree -> res error X -> tree -> Prop.
Fixpoint wp (L : law) {A} (p : prog A) (Q : A -> tree -> Prop) (t : tree) : Prop :=
  match p with
  | Ret a => Q a t
  | Do c k => forall r t', L _ c t r t' -> wp L (k r) Q t'
  end.

(** ** Lemmas on the reference tree *)
Lemma parent_snoc l n : parent (l ++ [n]) = l.
Proof. unfold parent. rewrite removelast_app by done. apply app_nil_r. Qed.

Lemma child_name_Some l q n : child_name l q = Some n <-> q = (l ++ [n])%list.
Proof.
  unfold child_name. destruct (last q) as [m|] eqn:Hl; simpl.
  - split.
    + case_decide; [|done]. by intros [= <-].
    + intros ->. rewrite last_snoc in Hl. injection Hl as ->. by rewrite decide_True.
  - split; [done|]. intros ->. by rewrite last_snoc in Hl.
Qed.

Lemma elem_of_children (t : tree) l n :
  n ∈ children t l <-> is_Some (t !! (l ++ [n])%list).
Proof.
  unfold children. rewrite list_elem_of_omap. split.
  - intros (q & Hq & ->%child_name_Some). apply list_elem_of_fmap in Hq as ([q' z] & -> & Hz).
    apply elem_of_map_to_list in Hz. eauto.
  - intros [z Hz]. exists (l ++ [n])%list. split; [|by apply child_name_Some].
    apply list_elem_of_fmap. exists ((l ++ [n])%list, z). by rewrite elem_of_map_to_list.
Qed.

Lemma children_nil (t : tree) l : children t l = [] <-> forall n, t !! (l ++ [n])%list = None.
Proof.
  split.
  - intros Hc n. apply eq_None_not_Some. rewrite <- elem_of_children, Hc. apply not_elem_of_nil.
  - intros Hn. apply elem_of_nil_inv. intros n. rewrite elem_of_children, Hn. by intros [].
Qed.

Lemma omap_NoDup {A B} (f : A -> option B) (l : list A) :
  (forall x y z, f x = Some z -> f y = Some z -> x = y) -> NoDup l -> NoDup (omap f l).
Proof.
  intros Hinj. induction 1 as [|x l Hx Hl IH]; csimpl; [constructor|].
  destruct (f x) as [z|] eqn:Hz; [|done]. constructor; [|done].
  rewrite list_elem_of_omap. intros (y & Hy & Hyz). by rewrite (Hinj x y z) in Hx.
Qed.
Lemma children_NoDup t l : NoDup (children t l).
Proof.
  apply omap_NoDup; [|apply NoDup_fst_map_to_list].
  intros x y z ->%child_name_Some ->%child_name_Some. done.
Qed.

(** Every znode but the root has a parent. *)
Definition tree_wf (t : tree) : Prop :=
  is_Some (t !! []) /\ forall l n, is_Some (t !! (l ++ [n])%list) -> is_Some (t !! l).

Lemma tree_wf_insert_existing t l n :
  tree_wf t -> is_Some (t !! l) -> tree_wf (<[l := n]> t).
Proof.
  intros [Hr Hp] Hl. assert (forall q, is_Some (<[l := n]> t !! q) <-> is_Some (t !! q)) as Hq.
  { intros q. destruct (decide (l = q)) as [->|]; [by rewrite lookup_insert_eq|].
    by rewrite lookup_insert_ne. }
  split; [by rewrite Hq|]. intros q m. rewrite !Hq. apply Hp.
Qed.

Lemma tree_wf_create t l n :
  tree_wf t -> is_Some (t !! parent l) -> tree_wf (<[l := n]> t).
Proof.
  intros [Hr Hp] Hl. split.
  - destruct (decide (l = [])) as [->|]; [by rewrite lookup_insert_eq|by rewrite lookup_insert_ne].
  - intros q m. destruct (decide (l = q)) as [->|Hne]; [by rewrite lookup_insert_eq|].
    rewrite (lookup_insert_ne _ l q) by done.
    destruct (decide (l = (q ++ [m])%list)) as [->|]; [by rewrite parent_snoc in Hl|].
    rewrite lookup_insert_ne by done. apply Hp.
Qed.

Lemma tree_wf_delete t l :
  tree_wf t -> l <> [] -> children t l = [] -> tree_wf (delete l t).
Proof.
  intros [Hr Hp] Hne Hc. rewrite children_nil in Hc. split.
  - by rewrite lookup_delete_ne.
  - intros q m. destruct (decide (l = q)) as [->|].
    + rewrite lookup_delete_ne by (intros Hq; apply (f_equal length) in Hq;
        rewrite length_app in Hq; simpl in Hq; lia).
      rewrite Hc. by intros [].
    + rewrite (lookup_delete_ne _ l q) by done.
      destruct (decide (l = (q ++ [m])%list)) as [->|]; [by rewrite lookup_delete_eq; intros []|].
      rewrite lookup_delete_ne by done. apply Hp.
Qed.

Lemma zk_spec_wf {X} (c : zkcmd X) l t : tree_wf t -> tree_wf (snd (zk_spec c l t)).
Proof.
  intros Hwf. destruct c; simpl; repeat case_match; simpl; try done.
  - by apply tree_wf_create.
  - by apply tree_wf_insert_existing.
  - apply tree_wf_delete; [done|by eapply bool_decide_eq_false_1|by eapply bool_decide_eq_true_1].
Qed.

Lemma tree_wf_prefix t l k : tree_wf t -> is_Some (t !! (l ++ k)%list) -> is_Some (t !! l).
Proof.
  intros [Hr Hp]. induction k as [|n k IH] using rev_ind; [by rewrite app_nil_r|].
  rewrite app_assoc. eauto.
Qed.

Lemma parse_path_abs l :
  Forall normal l -> all_bytes printable (abs_path l) = true -> parse_path (abs_path l) = Some l.
Proof.
  intros Hn Hp. unfold parse_path. rewrite elems_abs_path by by apply normal_elem_ok.
  by rewrite decide_True.
Qed.
Lemma parse_path_Some p l : parse_path p = Some l -> p = abs_path l /\ Forall normal l.
Proof. unfold parse_path. case_decide as Hd; [|done]. intros [= <-]. naive_solver. Qed.

(** ** The laws *)
Lemma resp_eq_refl {X} (c : zkcmd X) r : resp_eq c r r.
Proof. destruct c; simpl; try done. by destruct r. Qed.
#[export] Hint Resolve resp_eq_refl : go.

Lemma reliable_lossy X (c : zkcmd X) t r t' : reliable c t r t' -> lossy c t r t'.
Proof. intros Hr l Hl. left. by apply Hr. Qed.

Global Instance reliable_is_lossy W `{ZkReliable W} : ZkLossy W.
Proof. intros X c w. apply reliable_lossy, zk_reliable. Qed.

Lemma ref_do_reliable X (c : zkcmd X) t : reliable c t (fst (ref_do c t)) (snd (ref_do c t)).
Proof. intros l Hl. unfold ref_do. rewrite Hl. split; [apply resp_eq_refl|done]. Qed.
Global Instance ref_reliable : ZkReliable tree.
Proof. intros X c t. apply ref_do_reliable. Qed.

Global Instance flaky_lossy : ZkLossy (list (option bool) * tree).
Proof.
  intros X c [sched t] l Hl. destruct (ref_do_reliable X c t l Hl) as [Hr Ht].
  destruct sched as [|[[]|] sched]; simpl.
  - left. by destruct (ref_do c t).
  - right. split; [by eexists|]. by right.
  - right. split; [by eexists|]. by left.
  - left. by destruct (ref_do c t).
Qed.

(** ** Programs *)
Lemma wp_bind (L : law) {A B} (p : prog A) (f : A -> prog B) Q t :
  wp L (prog_bind p f) Q t <-> wp L p (fun a t' => wp L (f a) Q t') t.
Proof. revert t. induction p as [a|X c k IH]; intros t; simpl; [done|]. naive_solver. Qed.

Lemma wp_mono (L : law) {A} (p : prog A) (Q Q' : A -> tree -> Prop) (t : tree) :
  (forall a t', Q a t' -> Q' a t') -> wp L p Q t -> wp L p Q' t.
Proof. intros HQ. revert t. induction p as [a|X c k IH]; intros t; simpl; eauto. Qed.

Lemma wp_law (L L' : law) {A} (p : prog A) Q t :
  (forall X (c : zkcmd X) t r t', L' _ c t r t' -> L _ c t r t') -> wp L p Q t -> wp L' p Q t.
Proof. intros HL. revert t. induction p as [a|X c k IH]; intros t; simpl; eauto. Qed.

Lemma wp_try (L : law) {A B} (m : prog (res error A)) (k : A -> prog (res error B)) Q t :
  wp L (let? x := m in k x) Q t <->
  wp L m (fun r t' => match r with Fail e => Q (Fail e) t' | Ok a => wp L (k a) Q t' end) t.
Proof.
  unfold try_bind. rewrite wp_bind. split; apply wp_mono; by intros [].
Qed.

Section soundness.
Context {W : Type} `{ZkService W}.

Lemma wp_run_reliable `{!ZkReliable W} {A} (p : prog A) Q w :
  wp (@reliable) p Q (zk_view w) -> Q (fst (run p w)) (zk_view (snd (run p w))).
Proof.
  revert w. induction p as [a|X c k IH]; intros w; simpl; [done|]. intros Hk.
  pose proof (zk_reliable X c w) as Hc. destruct (zk_do c w) as [r w']. auto.
Qed.
Lemma wp_run_lossy `{!ZkLossy W} {A} (p : prog A) Q w :
  wp (@lossy) p Q (zk_view w) -> Q (fst (run p w)) (zk_view (snd (run p w))).
Proof.
  revert w. induction p as [a|X c k IH]; intros w; simpl; [done|]. intros Hk.
  pose proof (zk_lossy X c w) as Hc. destruct (zk_do c w) as [r w']. auto.
Qed.

Lemma run_bind {A B} (p : prog A) (f : A -> prog B) w :
  run (prog_bind p f) w = let '(a, w') := run p w in run (f a) w'.
Proof.
  revert w. induction p as [a|X c k IH]; intros w; simpl; [done|].
  by destruct (zk_do c w).
Qed.
End soundness.

(** ** Every call a program can make, whatever it is answered *)
Definition is_children {X} (c : zkcmd X) : bool :=
  match c with Children _ => true | _ => false end.
Definition is_write {X} (c : zkcmd X) : bool :=
  match c with Create _ _ | Set_ _ _ _ | Delete_ _ _ => true | _ => false end.
Fixpoint calls (C : forall X, zkcmd X -> Prop) {A} (p : prog A) : Prop :=
  match p with
  | Ret _ => True
  | Do c k => C _ c /\ forall r, calls C (k r)
  end.
(** Calls on paths the laws cover, none of which lists children. *)
Definition plain_call X (c : zkcmd X) : Prop :=
  is_Some (parse_path (cmd_path c)) /\ is_children c = false.
(** Calls on covered paths that write only to znodes in [P]. *)
Definition writes_in (P : list string -> Prop) X (c : zkcmd X) : Prop :=
  exists l, parse_path (cmd_path c) = Some l /\ (is_write c = true -> P l).
(** A session error ends the program at once, with an outcome in [bad]. *)
Fixpoint session_aborts {A} (bad : A -> Prop) (p : prog A) : Prop :=
  match p with
  | Ret _ => True
  | Do c k =>
      (forall m, exists a, k (Fail (zkError (ErrSession m))) = Ret a /\ bad a) /\
      forall r, session_aborts bad (k r)
  end.

Lemma calls_bind C {A B} (p : prog A) (f : A -> prog B) :
  calls C p -> (forall a, calls C (f a)) -> calls C (prog_bind p f).
Proof. intros Hp Hf. induction p as [a|X c k IH]; simpl in *; [done|]. naive_solver. Qed.
Lemma calls_try C {A B} (p : prog (res error A)) (f : A -> prog (res error B)) :
  calls C p -> (forall a, calls C (f a)) -> calls C (let? x := p in f x).
Proof. intros Hp Hf. apply calls_bind; [done|]. by intros []. Qed.
Lemma calls_mono (C C' : forall X, zkcmd X -> Prop) {A} (p : prog A) :
  (forall X c, C X c -> C' X c) -> calls C p -> calls C' p.
Proof. intros HC. induction p as [a|X c k IH]; simpl; [done|]. naive_solver. Qed.

Lemma aborts_bind {A B} (bad : A -> Prop) (bad' : B -> Prop) (p : prog A) (f : A -> prog B) :
  (forall a, bad a -> exists b, f a = Ret b /\ bad' b) -> session_aborts bad p ->
  (forall a, session_aborts bad' (f a)) -> session_aborts bad' (prog_bind p f).
Proof.
  intros Hb Hp Hf. induction p as [a|X c k IH]; simpl in *; [done|].
  destruct Hp as [Hm Hk]. split; [|auto]. intros m. destruct (Hm m) as (a & Ha & Hbad).
  destruct (Hb a Hbad) as (b & Hfa & ?). exists b. by rewrite Ha.
Qed.

(** Without listings a reliable service answers as the reference does, call by call. *)
Lemma plain_reliable X (c : zkcmd X) t r t' :
  plain_call X c -> reliable c t r t' -> (r, t') = ref_do c t.
Proof.
  intros [[l Hl] Hc] Hr. destruct (Hr l Hl) as [He ->]. unfold ref_do. rewrite Hl.
  assert (r = fst (zk_spec c l t)) as -> by (destruct c; simpl in *; done).
  by destruct (zk_spec c l t).
Qed.
Lemma wp_plain_reliable {A} (p : prog A) t :
  calls plain_call p -> wp (@reliable) p (fun a t' => (a, t') = run p t) t.
Proof.
  revert t. induction p as [a|X c k IH]; intros t; simpl; [done|]. intros [Hc Hk] r t' Hr.
  apply plain_reliable in Hr; [|done]. rewrite <- Hr. by apply IH.
Qed.
(** When calls can be lost: the same, or the program ended on a session error. *)
Lemma wp_plain_lossy {A} (bad : A -> Prop) (p : prog A) t :
  calls plain_call p -> session_aborts bad p ->
  wp (@lossy) p (fun a t' => (a, t') = run p t \/ bad a) t.
Proof.
  revert t. induction p as [a|X c k IH]; intros t; simpl; [by left|].
  intros [Hc Hk] [Hm Hs] r t' Hr. destruct Hc as [[l Hl] Hch]. destruct (Hr l Hl) as [Ho|Ho].
  - assert ((r, t') = ref_do c t) as Hrt.
    { apply plain_reliable; [by split; eauto|]. intros l' Hl'. by simplify_eq. }
    rewrite <- Hrt. apply IH; auto.
  - destruct Ho as [[m ->] _]. destruct (Hm m) as (a & -> & Ha). simpl. by right.
Qed.

(** Frame: znodes a program never writes to are untouched, lost calls included. *)
Lemma zk_spec_frame {X} (c : zkcmd X) l t q :
  q <> l \/ is_write c = false -> snd (zk_spec c l t) !! q = t !! q.
Proof.
  intros Hq. destruct c; simpl; repeat case_match; simpl; try done.
  all: destruct Hq as [Hq|Hq]; [|done]; by rewrite ?lookup_insert_ne, ?lookup_delete_ne.
Qed.
Lemma wp_frame {A} (P : list string -> Prop) (p : prog A) t :
  calls (writes_in P) p -> wp (@lossy) p (fun _ t' => forall q, ~ P q -> t' !! q = t !! q) t.
Proof.
  revert t. induction p as [a|X c k IH]; intros t; simpl; [done|].
  intros [(l & Hl & Hw) Hk] r t' Hr.
  assert (forall q, ~ P q -> t' !! q = t !! q) as Ht'.
  { intros q Hq. assert (snd (zk_spec c l t) !! q = t !! q) as Hs.
    { apply zk_spec_frame. destruct (is_write c); [left; intros ->; auto|by right]. }
    destruct (Hr l Hl) as [[_ ->]|[_ [->| ->]]]; done. }
  eapply wp_mono; [|by apply IH]. simpl. intros _ t2 H2 q Hq. by rewrite H2, Ht'.
Qed.
Lemma wp_tree_wf {A} (p : prog A) t :
  calls (writes_in (fun _ => True)) p -> tree_wf t -> wp (@lossy) p (fun _ t' => tree_wf t') t.
Proof.
  revert t. induction p as [a|X c k IH]; intros t; simpl; [done|].
  intros [(l & Hl & _) Hk] Ht r t' Hr. apply IH; [done|].
  destruct (Hr l Hl) as [[_ ->]|[_ [->| ->]]]; try done; by apply zk_spec_wf.
Qed.

(** ** Paths the laws cover *)
Definition good_seg (w : string) : Prop := normal w /\ all_bytes printable w = true.
Lemma good_normal l : Forall good_seg l -> Forall normal l.
Proof. intros Hl. eapply Forall_impl; [exact Hl|]. by intros ? []. Qed.
#[export] Hint Resolve good_normal normal_elem_ok : go.

Lemma parse_good l : Forall good_seg l -> parse_path (abs_path l) = Some l.
Proof.
  intros Hl. apply parse_path_abs; [by apply good_normal|]. unfold abs_path.
  rewrite all_bytes_app. apply andb_true_iff. split; [by vm_compute|].
  induction Hl as [|w l [_ Hw] Hl IH]; [done|]. destruct l as [|w' l]; [done|].
  rewrite Join_cons_cons, !all_bytes_app, Hw, IH. by vm_compute.
Qed.

Lemma PathJoin_seg pre w :
  Forall good_seg (pre ++ [w])%list -> PathJoin [abs_path pre; w] = abs_path (pre ++ [w])%list.
Proof.
  intros Hl%good_normal. assert (mjoin (elems <$> [abs_path pre; w]) = (pre ++ [w])%list) as Hj.
  { apply Forall_app in Hl as [Hp Hw]. csimpl. rewrite elems_abs_path by by apply normal_elem_ok.
    rewrite elems_single by (by inversion Hw as [|? ? []]). done. }
  rewrite PathJoin_rooted; rewrite ?Hj; [done|apply HasPrefix_app|done].
Qed.

Lemma ref_do_good {X} (c : zkcmd X) (l : list string) (t : tree) :
  cmd_path c = abs_path l -> Forall good_seg l -> ref_do c t = zk_spec c l t.
Proof. intros Hc Hl. unfold ref_do. by rewrite Hc, parse_good. Qed.

Lemma Split_abs_path l : Forall good_seg l -> l <> [] -> Split (abs_path l) slash = "" :: l.
Proof.
  intros Hl Hne. unfold abs_path. change ("/" ++ Join l "/") with (String slash (Join l "/")).
  change (String slash (Join l "/")) with ("" ++ String slash (Join l "/")).
  rewrite Split_app. change (Join l "/") with (Join l (String slash "")).
  rewrite (Split_Join slash l); [done|done|].
  eapply Forall_impl; [exact Hl|]. by intros w [[[_ Hw] _] _].
Qed.

(** ** Schedules: which client makes the next call *)
Definition client_step {W} `{ZkService W} {A} (i : nat) (st : conc_state W A) : conc_state W A :=
  let '(ps, w) := st in
  match ps !! i with
  | Some (Do c k) => let '(r, w') := zk_do c w in (<[i := k r]> ps, w')
  | _ => st
  end.
Fixpoint run_schedule {W} `{ZkService W} {A} (sched : list nat) (st : conc_state W A)
    : conc_state W A :=
  match sched with
  | [] => st
  | i :: sched => run_schedule sched (client_step i st)
  end.

Section schedules.
Context {W : Type} `{ZkService W} {A : Type}.
Lemma client_step_conc i (st : conc_state W A) : rtc conc_step st (client_step i st).
Proof.
  destruct st as [ps w]. unfold client_step. destruct (ps !! i) as [[a|X c k]|] eqn:Hi; try done.
  destruct (zk_do c w) as [r w'] eqn:Hd. by apply rtc_once, (client_call _ _ _ _ c).
Qed.
Lemma run_schedule_conc sched (st : conc_state W A) : rtc conc_step st (run_schedule sched st).
Proof.
  revert st. induction sched as [|i sched IH]; intros st; [done|].
  etrans; [apply client_step_conc|apply IH].
Qed.
End schedules.

(** The answer a client has ended with. *)
Definition outcome {A} (p : prog A) : option A :=
  match p with Ret a => Some a | Do _ _ => None end.
Lemma outcomes_Ret {A} (ps : list (prog A)) (l : list A) :
  map outcome ps = map Some l -> ps = map Ret l.
Proof.
  revert l. induction ps as [|p ps IH]; intros [|a l]; simpl; try done.
  intros [= Hp Hl]. f_equal; [|by apply IH]. destruct p; [by injection Hp as ->|done].
Qed.
