(* ===== verification/GoRegexp.v ===== *)
(** * The regular expressions of the packages: syntax, language, and a matcher by
    derivatives proved to decide the language. Matching is on bytes: every class used is a
    set of ASCII bytes, so a byte of a longer UTF-8 sequence is in none of them. *)
From S2P Require Import Prelude.
From S2P Require Import GoStrings.

Local Open Scope string_scope.

Inductive re : Type :=
| Void
| Eps
| Cls (P : ascii -> bool)
| Cat (r1 r2 : re)
| Alt (r1 r2 : re)
| Star (r : re).

Definition Lit (c : ascii) : re := Cls (fun a => bool_decide (a = c)).
Definition Plus (r : re) : re := Cat r (Star r).
Definition Opt (r : re) : re := Alt r Eps.
Fixpoint Rep (n : nat) (r : re) : re :=
  match n with O => Eps | S n => Cat r (Rep n r) end.
Fixpoint Word (s : string) : re :=
  match s with EmptyString => Eps | String c s => Cat (Lit c) (Word s) end.

(** ** The language *)
Inductive matches : re -> string -> Prop :=
| m_eps : matches Eps ""
| m_cls P c : P c = true -> matches (Cls P) (String c "")
| m_cat r1 r2 s1 s2 : matches r1 s1 -> matches r2 s2 -> matches (Cat r1 r2) (s1 ++ s2)
| m_alt_l r1 r2 s : matches r1 s -> matches (Alt r1 r2) s
| m_alt_r r1 r2 s : matches r2 s -> matches (Alt r1 r2) s
| m_star_nil r : matches (Star r) ""
| m_star_cons r c s1 s2 :
    matches r (String c s1) -> matches (Star r) s2 -> matches (Star r) (String c s1 ++ s2).

(** ** The matcher *)
Fixpoint nullable (r : re) : bool :=
  match r with
  | Void | Cls _ => false
  | Eps | Star _ => true
  | Cat r1 r2 => nullable r1 && nullable r2
  | Alt r1 r2 => nullable r1 || nullable r2
  end.
(** Constructors that drop what cannot match, so derivatives stay small. *)
Definition mkCat (r1 r2 : re) : re :=
  match r1, r2 with
  | Void, _ | _, Void => Void
  | Eps, _ => r2
  | _, _ => Cat r1 r2
  end.
Definition mkAlt (r1 r2 : re) : re :=
  match r1, r2 with
  | Void, _ => r2
  | _, Void => r1
  | _, _ => Alt r1 r2
  end.
Fixpoint deriv (c : ascii) (r : re) : re :=
  match r with
  | Void | Eps => Void
  | Cls P => if P c then Eps else Void
  | Cat r1 r2 =>
      let d := mkCat (deriv c r1) r2 in
      if nullable r1 then mkAlt d (deriv c r2) else d
  | Alt r1 r2 => mkAlt (deriv c r1) (deriv c r2)
  | Star r => mkCat (deriv c r) (Star r)
  end.
Fixpoint full_match (r : re) (s : string) : bool :=
  match s with
  | EmptyString => nullable r
  | String c s => full_match (deriv c r) s
  end.
(** [MatchString] of an expression without anchors: some substring matches. *)
Definition any : re := Star (Cls (fun _ => true)).
Definition search (r : re) (s : string) : bool := full_match (Cat any (Cat r any)) s.

(** ** Correctness *)
Lemma nullable_spec r : nullable r = true <-> matches r "".
Proof.
  split.
  - induction r; simpl; try done; intros Hn.
    + constructor.
    + apply andb_true_iff in Hn as [H1 H2]. change "" with ("" ++ ""). constructor; auto.
    + apply orb_true_iff in Hn as [H1|H2]; [apply m_alt_l|apply m_alt_r]; auto.
    + constructor.
  - intros Hm. remember "" as s eqn:Hs. induction Hm; simpl in *; simplify_eq; auto.
    + destruct s1; [|done]. rewrite string_app_nil_l in Hs. rewrite IHHm1, IHHm2; auto.
    + rewrite IHHm; auto.
    + rewrite IHHm, orb_true_r; auto.
Qed.

Lemma matches_cat r1 r2 s :
  matches (Cat r1 r2) s <-> exists s1 s2, s = s1 ++ s2 /\ matches r1 s1 /\ matches r2 s2.
Proof.
  split; [inversion 1; subst; eauto 6|]. intros (s1 & s2 & -> & ? & ?). by constructor.
Qed.
Lemma matches_alt r1 r2 s : matches (Alt r1 r2) s <-> matches r1 s \/ matches r2 s.
Proof. split; [inversion 1; subst; eauto|]. intros [?|?]; by constructor. Qed.
Lemma matches_void s : matches Void s <-> False.
Proof. split; [inversion 1|done]. Qed.
Lemma matches_eps s : matches Eps s <-> s = "".
Proof. split; [by inversion 1|intros ->; constructor]. Qed.
Lemma matches_cls P s : matches (Cls P) s <-> exists c, s = String c "" /\ P c = true.
Proof. split; [inversion 1; subst; eauto|]. intros (c & -> & ?). by constructor. Qed.

Lemma mkCat_spec r1 r2 s : matches (mkCat r1 r2) s <-> matches (Cat r1 r2) s.
Proof.
  assert (forall r, matches (Cat Void r) s <-> False) as Hv1.
  { intros r. rewrite matches_cat. setoid_rewrite matches_void. naive_solver. }
  assert (forall r, matches (Cat r Void) s <-> False) as Hv2.
  { intros r. rewrite matches_cat. setoid_rewrite matches_void. naive_solver. }
  assert (forall r, matches (Cat Eps r) s <-> matches r s) as He.
  { intros r. rewrite matches_cat. setoid_rewrite matches_eps. split.
    - by intros (s1 & s2 & -> & -> & ?).
    - intros ?. by exists "", s. }
  destruct r1, r2; simpl; rewrite ?Hv1, ?Hv2, ?He, ?matches_void; done.
Qed.
Lemma mkAlt_spec r1 r2 s : matches (mkAlt r1 r2) s <-> matches (Alt r1 r2) s.
Proof.
  rewrite (matches_alt r1 r2). pose proof (matches_void s).
  destruct r1, r2; simpl; rewrite ?matches_alt; tauto.
Qed.

Lemma matches_cat_cons r1 r2 c s :
  matches (Cat r1 r2) (String c s) <->
  (exists s1 s2, s = s1 ++ s2 /\ matches r1 (String c s1) /\ matches r2 s2) \/
  (matches r1 "" /\ matches r2 (String c s)).
Proof.
  rewrite matches_cat. split.
  - intros (s1 & s2 & Hs & H1 & H2). destruct s1 as [|a s1].
    + right. rewrite string_app_nil_l in Hs. by subst.
    + rewrite string_app_cons in Hs. simplify_eq. left. eauto.
  - intros [(s1 & s2 & -> & H1 & H2)|[H1 H2]].
    + by exists (String c s1), s2.
    + by exists "", (String c s).
Qed.
Lemma matches_star_cons r c s :
  matches (Star r) (String c s) <->
  exists s1 s2, s = s1 ++ s2 /\ matches r (String c s1) /\ matches (Star r) s2.
Proof.
  split.
  - inversion 1; simplify_eq. eauto.
  - intros (s1 & s2 & -> & H1 & H2). rewrite <- string_app_cons. by constructor.
Qed.

Lemma deriv_spec c r s : matches (deriv c r) s <-> matches r (String c s).
Proof.
  revert s. induction r as [| |P|r1 IH1 r2 IH2|r1 IH1 r2 IH2|r IH]; intros s; simpl.
  - by rewrite !matches_void.
  - by rewrite matches_void, matches_eps.
  - rewrite matches_cls. destruct (P c) eqn:HP; rewrite ?matches_eps, ?matches_void.
    + split; [intros ->; eauto|by intros (? & [= ->] & ?)].
    + split; [done|]. intros (? & [= <- ->] & ?). congruence.
  - rewrite matches_cat_cons, <- nullable_spec, <- IH2. setoid_rewrite <- IH1.
    destruct (nullable r1); rewrite ?mkAlt_spec, ?matches_alt, mkCat_spec, matches_cat.
    + naive_solver.
    + naive_solver.
  - by rewrite mkAlt_spec, !matches_alt, IH1, IH2.
  - rewrite mkCat_spec, matches_cat, matches_star_cons. by setoid_rewrite IH.
Qed.

Lemma full_match_spec r s : full_match r s = true <-> matches r s.
Proof.
  revert r. induction s as [|c s IH]; intros r; simpl; [apply nullable_spec|].
  by rewrite IH, deriv_spec.
Qed.

Lemma matches_any s : matches any s.
Proof.
  induction s as [|c s IH]; [constructor|].
  change (String c s) with (String c "" ++ s). constructor; [by constructor|done].
Qed.
Lemma search_spec r s :
  search r s = true <-> exists a m b, s = a ++ m ++ b /\ matches r m.
Proof.
  unfold search. rewrite full_match_spec, matches_cat. setoid_rewrite matches_cat. split.
  - intros (a & ? & -> & _ & m & b & -> & ? & _). eauto 6.
  - intros (a & m & b & -> & ?). exists a, (m ++ b).
    repeat split; [apply matches_any|]. exists m, b. eauto using matches_any.
Qed.

(** One or more bytes of a class. *)
Lemma matches_star_cls P s : matches (Star (Cls P)) s <-> all_bytes P s = true.
Proof.
  induction s as [|c s IH]; [split; [done|constructor]|].
  rewrite matches_star_cons; simpl. rewrite andb_true_iff, <- IH.
  setoid_rewrite matches_cls. split.
  - intros (s1 & s2 & -> & (? & [= <- ->] & ?) & ?). by rewrite string_app_nil_l.
  - intros [? ?]. exists "", s. split; [done|]. eauto.
Qed.
Lemma plus_cls_spec P s :
  full_match (Plus (Cls P)) s = true <-> s <> "" /\ all_bytes P s = true.
Proof.
  unfold Plus. rewrite full_match_spec, matches_cat.
  setoid_rewrite matches_cls. setoid_rewrite matches_star_cls. split.
  - intros (? & s2 & -> & (c & -> & Hc) & Hs). rewrite string_app_cons, string_app_nil_l. simpl.
    by rewrite Hc.
  - destruct s as [|c s]; [by intros []|]. simpl. rewrite andb_true_iff.
    intros (_ & Hc & Hs). exists (String c ""), s. eauto 6.
Qed.
