(* ===== verification/ZkstoreData.v ===== *)
(** * zkstore: the data a client handles (errors.go, ident.go, location.go, item.go) and its
    validation (validate.go). *)
From S2P Require Import Prelude.
From S2P Require Import GoStrings.
From S2P Require Import GoPath.
From S2P Require Import GoErrors.
From S2P Require Import GoRegexp.

Local Open Scope string_scope.

(** ** errors.go *)
Definition ErrIllegalOption : error := internalError "illegal option configuration".
Definition ErrVersionConflict : error := internalError "zk version conflict".
Definition ErrNotFound : error := internalError "znode not found".
Definition errHashOverflow : error := internalError "hash value larger than 64 bits".
Definition errBadCategory : error := internalError "bad category name".

(** ** ident.go *)
Module Version.
Record t : Type := Mk { int32 : Z; hasVersion : bool }.
(** The zero value [Version{}]. *)
Definition zero : t := Mk 0 false.
Definition Value (v : t) : Z * bool := (int32 v, hasVersion v).
Definition Clear (v : t) : t := Mk (int32 v) false.
Definition NewVersion (v : Z) : t := Mk v true.
End Version.

Record Location : Type := MkLocation { Category : string; Name : string }.
Record Ident : Type := MkIdent { loc : Location; Variant : string; Ver : Version.t }.
Record Item : Type := MkItem { ident : Ident; Data : string }.

Definition set_version (i : Ident) (v : Version.t) : Ident := MkIdent (loc i) (Variant i) v.

(** The version ZooKeeper sees: -1 when none is set. *)
Definition actualVersion (i : Ident) : Z :=
  let '(v, ok) := Version.Value (Ver i) in if ok then v else (-1)%Z.

(** ** validate.go *)
Definition between (lo hi c : ascii) : bool :=
  (N_of_ascii lo <=? N_of_ascii c)%N && (N_of_ascii c <=? N_of_ascii hi)%N.
(** [\w]: letters, digits and the underscore. *)
Definition word_byte (c : ascii) : bool :=
  between "0" "9" c || between "A" "Z" c || between "a" "z" c || bool_decide (c = "_"%char).
Definition digit_byte (c : ascii) : bool := between "0" "9" c.
(** [[\w\d_-]] and [[/\w\d_-]] *)
Definition name_byte (c : ascii) : bool :=
  word_byte c || digit_byte c || bool_decide (c = "_"%char) || bool_decide (c = "-"%char).
Definition category_byte (c : ascii) : bool := bool_decide (c = slash) || name_byte c.

Definition validNameRE : re := Plus (Cls name_byte).
Definition validCategoryRE : re := Plus (Cls category_byte).

Definition ValidateNamed (name : string) (required : bool) : res error unit :=
  if negb (bool_decide (TrimSpace name = name)) then
    Fail (errorsNew "leader or trailing spaces not allowed")
  else if bool_decide (name = "") then
    if required then Fail (errorsNew "cannot be blank") else Ok tt
  else if negb (full_match validNameRE name) then
    Fail (errorsNew "must match ^[\w\d_-]+$")
  else Ok tt.

Definition ValidateCategory (name : string) : res error unit :=
  if bool_decide (TrimSpace name = "") then Fail errBadCategory
  else if negb (full_match validCategoryRE name) then
    Fail (errorsNew "must match ^[/\w\d_-]+$")
  else if negb (bool_decide (Clean name = name)) then Fail errBadCategory
  else Ok tt.

(** ** [Validate] and [String] of locations, idents and items *)
Definition Location_Validate (l : Location) : res error unit :=
  _ ← Wrap "invalid name" (ValidateNamed (Name l) true);
  Wrap "invalid category" (ValidateCategory (Category l)).
Definition Ident_Validate (i : Ident) : res error unit :=
  _ ← Wrap "invalid location" (Location_Validate (loc i));
  Wrap "invalid variant" (ValidateNamed (Variant i) false).

Definition MaxDataSize : Z := 1024 * 1024.
Definition Item_Validate (i : Item) : res error unit :=
  _ ← Ident_Validate (ident i);
  if (MaxDataSize <? len (Data i))%Z then Fail (errorsNew "data is greater than 1MB")
  else Ok tt.

Definition Location_String (l : Location) : string :=
  "{cat=" ++ Category l ++ " name=" ++ Name l ++ "}".
Definition Version_String (v : Version.t) : string :=
  "{" ++ Itoa (Version.int32 v) ++ " " ++ (if Version.hasVersion v then "true" else "false") ++ "}".
Definition Ident_String (i : Ident) : string :=
  "{loc=" ++ Location_String (loc i) ++ " var=" ++ Variant i
    ++ " ver=" ++ Version_String (Ver i) ++ "}".
Definition Item_String (i : Item) : string :=
  "{ident=" ++ Ident_String (ident i) ++ " datalen=" ++ Itoa (len (Data i)) ++ "B}".

Example validate_ex :
  map (fun i => match Ident_Validate i with Ok _ => "" | Fail e => Error e end)
    [MkIdent (MkLocation "" "") "" Version.zero;
     MkIdent (MkLocation "" "foo") "" Version.zero;
     MkIdent (MkLocation "" "foo/bar") "" Version.zero;
     MkIdent (MkLocation "widgets" "foo") "invalid/version" Version.zero;
     MkIdent (MkLocation "invalid//category" "foo") "" Version.zero;
     MkIdent (MkLocation "widgets/2017" "foo") "my-version" Version.zero] =
  ["invalid location: invalid name: cannot be blank";
   "invalid location: invalid category: bad category name";
   "invalid location: invalid name: must match ^[\w\d_-]+$";
   "invalid variant: must match ^[\w\d_-]+$";
   "invalid location: invalid category: bad category name"; ""].
Proof. vm_compute. done. Qed.

(** ** What validation accepts *)

(** A name proper: not empty, word bytes and dashes. *)
Definition name_ok (s : string) : Prop := s <> "" /\ all_bytes name_byte s = true.
Global Instance name_ok_dec s : Decision (name_ok s).
Proof. unfold name_ok. apply _. Defined.

(** Nothing to trim when no space encoding starts with a byte of the string. *)
Definition head_avoids (P : ascii -> bool) (e : string) : bool :=
  match e with EmptyString => false | String c _ => negb (P c) end.
Lemma strip_one_none P encs s :
  forallb (head_avoids P) encs = true -> all_bytes P s = true -> strip_one encs s = None.
Proof.
  intros He Hs. induction encs as [|e encs IH]; simpl in *; [done|].
  apply andb_true_iff in He as [He Hes]. rewrite IH by done.
  destruct e as [|c e]; simpl in He; [done|].
  destruct s as [|a s]; simpl in *; [done|].
  destruct (ascii_dec c a) as [->|]; [|done].
  apply andb_true_iff in Hs as [Ha _]. by rewrite Ha in He.
Qed.
Lemma trim_left_id P encs s :
  forallb (head_avoids P) encs = true -> all_bytes P s = true -> trim_left encs s = s.
Proof.
  intros He Hs. unfold trim_left. destruct (String.length s) as [|n]; [done|]. simpl.
  by rewrite (strip_one_none P).
Qed.

Lemma rev_app_all P s1 s2 :
  all_bytes P (String.rev_app s1 s2) = all_bytes P s1 && all_bytes P s2.
Proof.
  revert s2. induction s1 as [|a s1 IH]; intros s2; simpl; [done|].
  rewrite IH; simpl. by destruct (P a), (all_bytes P s1), (all_bytes P s2).
Qed.
Lemma rev_app_rev s1 s2 s3 :
  String.rev_app (String.rev_app s1 s2) s3 = String.rev_app s2 (s1 ++ s3).
Proof.
  revert s2 s3. induction s1 as [|a s1 IH]; intros s2 s3; simpl; [done|]. by rewrite IH.
Qed.
Lemma rev_rev s : String.rev (String.rev s) = s.
Proof. unfold String.rev. rewrite rev_app_rev; simpl. apply string_app_nil_r. Qed.

Lemma TrimSpace_id s : all_bytes category_byte s = true -> TrimSpace s = s.
Proof.
  intros Hs. unfold TrimSpace. rewrite (trim_left_id category_byte space_encodings s); [|by vm_compute|done].
  rewrite (trim_left_id category_byte); [by rewrite rev_rev|by vm_compute|].
  unfold String.rev. by rewrite rev_app_all, Hs.
Qed.

Lemma name_byte_category c : name_byte c = true -> category_byte c = true.
Proof. unfold category_byte. intros ->. apply orb_true_r. Qed.
Lemma name_not_slash c : name_byte c = true -> c <> slash.
Proof. intros Hc ->. by vm_compute in Hc. Qed.
Lemma name_no_slash s : all_bytes name_byte s = true -> no_byte slash s = true.
Proof.
  apply all_bytes_impl. intros c Hc%name_not_slash.
  by rewrite negb_true_iff, bool_decide_eq_false.
Qed.
Lemma name_ok_normal s : name_ok s -> normal s.
Proof.
  intros [Hne Hs]. repeat split; [done|by apply name_no_slash| |]; intros ->; by vm_compute in Hs.
Qed.

Lemma ValidateNamed_ok name required :
  ValidateNamed name required = Ok tt <->
  (name = "" /\ required = false) \/ name_ok name.
Proof.
  unfold ValidateNamed, name_ok. split.
  - case_bool_decide; [|done]. case_bool_decide; simpl; [destruct required; auto; done|].
    destruct (full_match validNameRE name) eqn:Hm; [|done].
    apply plus_cls_spec in Hm. auto.
  - intros [[-> ->]|[Hne Hs]].
    + done.
    + rewrite bool_decide_eq_true_2
        by (apply TrimSpace_id; eapply all_bytes_impl; [apply name_byte_category|done]).
      rewrite bool_decide_eq_false_2 by done. simpl.
      unfold validNameRE. by rewrite (proj2 (plus_cls_spec name_byte name)).
Qed.

(** The shape of an accepted category: elements that are names, one slash between them,
    and possibly a leading slash. *)
Definition category_ok (s : string) : Prop :=
  Forall name_ok (elems s) /\
  (s = abs_path (elems s) \/ (elems s <> [] /\ s = Join (elems s) "/")).

Lemma all_bytes_pieces (P : ascii -> bool) c s :
  all_bytes (fun a => bool_decide (a = c) || P a) s = true ->
  Forall (fun w => all_bytes P w = true) (Split s c).
Proof.
  induction s as [|a s IH]; simpl; [by repeat constructor|].
  rewrite andb_true_iff, orb_true_iff, bool_decide_eq_true. intros [Ha Hs].
  specialize (IH Hs). destruct (ascii_dec a c) as [|Hne]; [by constructor|].
  destruct Ha as [|Ha]; [done|]. pose proof (Split_not_nil c s).
  destruct (Split s c) as [|w ws]; [done|]. inversion IH; subst.
  constructor; [|done]. simpl. by rewrite Ha.
Qed.
Lemma category_elems s :
  all_bytes category_byte s = true -> Forall name_ok (elems s).
Proof.
  intros Hs. apply (all_bytes_pieces name_byte slash) in Hs.
  unfold elems. apply Forall_forall. intros w [Hne Hw]%list_elem_of_filter.
  rewrite Forall_forall in Hs. split; auto.
Qed.

Lemma Clean_relative s :
  HasPrefix s "/" = false -> s <> "" -> Forall normal (elems s) -> elems s <> [] ->
  Clean s = Join (elems s) "/".
Proof.
  intros Hp Hne Hn He. unfold Clean. rewrite bool_decide_eq_false_2, Hp by done.
  rewrite foldl_clean_normal, app_nil_r, reverse_involutive by done. by destruct (elems s).
Qed.

Lemma names_normal l : Forall name_ok l -> Forall normal l.
Proof. intros Hl. eapply Forall_impl; [exact Hl|]. apply name_ok_normal. Qed.

Lemma Join_names_category l :
  Forall name_ok l -> all_bytes category_byte (Join l "/") = true.
Proof.
  induction 1 as [|w l [Hne Hw] Hl IH]; [done|].
  assert (all_bytes category_byte w = true) as Hw'
    by (eapply all_bytes_impl; [apply name_byte_category|done]).
  destruct l as [|w' l]; [done|].
  rewrite Join_cons_cons, !all_bytes_app, Hw', IH. by vm_compute.
Qed.

Lemma no_leading_slash s : HasPrefix s "/" = false -> s <> "" -> elems s <> [] \/ s = "".
Proof.
  intros Hp Hne. destruct s as [|a s]; [by right|]. left. unfold elems. simpl.
  destruct (ascii_dec a slash) as [->|Ha]; [by destruct s|].
  pose proof (Split_not_nil slash s). destruct (Split s slash); [done|].
  by rewrite filter_cons_True.
Qed.

Lemma ValidateCategory_ok s : ValidateCategory s = Ok tt <-> category_ok s.
Proof.
  unfold ValidateCategory, category_ok. split.
  - case_bool_decide as Ht; [done|].
    destruct (full_match validCategoryRE s) eqn:Hm; [simpl|done].
    case_bool_decide as Hc; [|done]. intros _.
    apply plus_cls_spec in Hm as [Hne Hs]. pose proof (category_elems s Hs) as He.
    split; [done|]. destruct (HasPrefix s "/") eqn:Hp.
    + left. by apply Clean_fix_normal.
    + right. destruct (no_leading_slash s Hp Hne) as [Hn|]; [|done]. split; [done|].
      by rewrite <- Clean_relative; [| | |by apply names_normal|].
  - intros [He Hs].
    assert (s <> "" /\ all_bytes category_byte s = true /\ Clean s = s) as (Hne & Hb & Hc).
    { pose proof (Join_names_category _ He) as Hj. destruct Hs as [Hs|[Hn Hs]].
      - assert (all_bytes category_byte (abs_path (elems s)) = true) as Hb
          by (unfold abs_path; rewrite all_bytes_app, Hj; by vm_compute).
        assert (HasPrefix (abs_path (elems s)) "/" = true) as Hp by apply HasPrefix_app.
        rewrite <- Hs in Hb, Hp. split; [by intros ->|]. split; [done|].
        by rewrite Clean_rooted by auto using names_normal.
      - assert (HasPrefix s "/" = false) as Hp.
        { destruct (HasPrefix s "/") eqn:Hp; [|done]. rewrite Hs in Hp.
          apply HasPrefix_spec in Hp as [t Ht].
          destruct (elems s) as [|w l]; [done|]. inversion He as [|? ? [Hw1 Hw2] Hl]; subst.
          destruct w as [|a w]; [done|]. simpl in Hw2. apply andb_true_iff in Hw2 as [Ha _].
          apply name_not_slash in Ha. destruct l as [|w' l].
          - simpl in Ht. by injection Ht as -> ->.
          - rewrite Join_cons_cons, !string_app_cons in Ht. by injection Ht as -> Ht. }
        rewrite <- Hs in Hj. assert (s <> "") as Hne by (intros ->; done).
        split; [done|]. split; [done|].
        by rewrite Clean_relative; [| | |by apply names_normal|]. }
    rewrite bool_decide_eq_false_2 by by rewrite TrimSpace_id.
    unfold validCategoryRE. rewrite (proj2 (plus_cls_spec category_byte s)) by done. simpl.
    by rewrite bool_decide_eq_true_2.
Qed.
