(* ===== verification/ElectorSeq.v ===== *)
(** * elector: the sequence part of a lock node and the choice of the leader
    (elector.go, [sequencePart], [sortedChildrenSequences], [determineLeader]). *)
From stdpp Require Import sorting.
From S2P Require Import Prelude.
From S2P Require Import GoStrings.
From S2P Require Import GoErrors.
From S2P Require Import GoRegexp.

Local Open Scope string_scope.

(** The group of [sequenceRe], [-?\d+]. *)
Definition sequenceGroupRe : re := Cat (Opt (Lit "-")) (Plus (Cls is_digit)).
Definition lock_infix : string := "-lock-".

(** [sequenceRe.FindStringSubmatch]: the text of the group. The expression is anchored at
    the end only, and its group holds no letter, so what precedes the infix does not matter
    and there is one way to match (see [sequence_group_spec]). *)
Fixpoint sequence_group (s : string) : option string :=
  let rest := drop_str 6 s in
  if HasPrefix s lock_infix && full_match sequenceGroupRe rest then Some rest
  else match s with
       | EmptyString => None
       | String _ s => sequence_group s
       end.

Definition sequencePart (node : string) : res error Z :=
  if bool_decide (node = "") then Fail (errorsNew "node cannot be blank")
  else match sequence_group node with
       | None => Fail (errorsNew ("invalid node: " ++ node))
       | Some m =>
           match Atoi m with
           | None => Fail (errorsNew ("invalid sequence part: " ++ m))
           | Some n => Ok n
           end
       end.

(** The loop of [sortedChildrenSequences]: the sequences in the order of the children, and
    the map from a sequence to the last child that has it. *)
Fixpoint children_loop (children : list string) (sorted : list Z) (lookup : gmap Z string)
    : res error (list Z * gmap Z string) :=
  match children with
  | [] => Ok (sorted, lookup)
  | child :: children =>
      match sequencePart child with
      | Fail err => Fail err
      | Ok seq => children_loop children (sorted ++ [seq]) (<[seq := child]> lookup)
      end
  end.
Definition sortedChildrenSequences (children : list string)
    : res error (list Z * gmap Z string) :=
  match children_loop children [] ∅ with
  | Fail err => Fail err
  | Ok (sorted, lookup) => Ok (merge_sort Z.le sorted, lookup)
  end.

(** [determineLeader]: the named results and the error; on an error the results are the
    zero values, since the assignments come last. *)
Definition determineLeader (node : string) (children : list string)
    : bool * string * res error unit :=
  match children with
  | [] => (false, "", Fail (errorsNew "no child nodes"))
  | _ =>
      match sortedChildrenSequences children with
      | Fail err => (false, "", Fail err)
      | Ok (sequences, lookup) =>
          match sequencePart node with
          | Fail err => (false, "", Fail (errorsWrap "invalid owner node" err))
          | Ok mySeq =>
              match sequences with
              | [] => (false, "", Fail (goPanic "index out of range"))
              | leaderSeq :: _ =>
                  (bool_decide (mySeq = leaderSeq), default "" (lookup !! leaderSeq), Ok tt)
              end
          end
      end
  end.

(** ** Runs *)
Example sequencePart_ex :
  map sequencePart ["foo/bar-lock-001"; "foo/bar-lock--42"; ""; "foo/bar-lock-"; "a-lock-5-lock-6"]
  = [Ok 1%Z; Ok (-42)%Z; Fail (errorsNew "node cannot be blank");
     Fail (errorsNew "invalid node: foo/bar-lock-"); Ok 6%Z].
Proof. vm_compute. reflexivity. Qed.
Example determineLeader_ex :
  determineLeader "/foo-lock-1" ["/foo-lock-2"; "/foo-lock-3"; "/foo-lock-1"]
    = (true, "/foo-lock-1", Ok tt) /\
  determineLeader "/foo-lock-2" ["/foo-lock-3"; "/foo-lock-1"; "/foo-lock-2"]
    = (false, "/foo-lock-1", Ok tt) /\
  snd (determineLeader "" ["/foo-lock-1"])
    = Fail (errorsWrap "invalid owner node" (errorsNew "node cannot be blank")).
Proof. vm_compute. done. Qed.

(** ** The group *)
Definition group_byte (c : ascii) : bool := is_digit c || bool_decide (c = "-"%char).
Lemma group_bytes g :
  full_match sequenceGroupRe g = true -> g <> "" /\ all_bytes group_byte g = true.
Proof.
  rewrite full_match_spec. unfold sequenceGroupRe, Opt. rewrite matches_cat.
  intros (a & b & -> & Ha & Hb). apply full_match_spec, plus_cls_spec in Hb as [Hne Hb].
  assert (all_bytes group_byte b = true) as Hb'.
  { revert Hb. apply all_bytes_impl. intros c Hc. unfold group_byte. by rewrite Hc. }
  rewrite matches_alt, matches_eps in Ha. destruct Ha as [Ha| ->]; [|done].
  apply matches_cls in Ha as (c & -> & Hc). apply bool_decide_eq_true in Hc as ->. done.
Qed.

(** Two occurrences of the infix: the text after the first holds the second. *)
Lemma infix_unique pre g g' :
  lock_infix ++ g = pre ++ lock_infix ++ g' -> all_bytes group_byte g = true -> pre = "".
Proof.
  unfold lock_infix. intros Heq Hg.
  do 6 (destruct pre as [|? pre];
    [first [done | exfalso; rewrite ?string_app_cons, ?string_app_nil_l in Heq; simplify_eq; vm_compute in Hg; done]|]).
  exfalso. rewrite ?string_app_cons, ?string_app_nil_l in Heq. simplify_eq.
  rewrite all_bytes_app, andb_true_iff in Hg. by destruct Hg as [_ [=]].
Qed.
Lemma sequence_group_cons c s :
  sequence_group (String c s) =
  if HasPrefix (String c s) lock_infix && full_match sequenceGroupRe (drop_str 6 (String c s))
  then Some (drop_str 6 (String c s)) else sequence_group s.
Proof. done. Qed.
Lemma HasPrefix_infix g : HasPrefix (String "-" ("lock-" ++ g)) lock_infix = true.
Proof. apply (HasPrefix_app lock_infix g). Qed.
Lemma sequence_group_spec s g :
  sequence_group s = Some g <->
  exists pre, s = pre ++ lock_infix ++ g /\ full_match sequenceGroupRe g = true.
Proof.
  split.
  - induction s as [|c s IH]; [done|]. rewrite sequence_group_cons.
    destruct (HasPrefix _ _ && _) eqn:Hp.
    + apply andb_true_iff in Hp as [[t Ht]%HasPrefix_spec Hm]. rewrite Ht in *. intros [= <-].
      exists "". split; [by rewrite string_app_nil_l|done].
    + intros (pre & -> & Hg)%IH. exists (String c pre). by rewrite string_app_cons.
  - intros (pre & -> & Hg). destruct (group_bytes g Hg) as [_ Hb].
    induction pre as [|c pre IH].
    + rewrite string_app_nil_l. change (lock_infix ++ g) with (String "-" ("lock-" ++ g)).
      rewrite sequence_group_cons. change (drop_str 6 _) with g. by rewrite Hg, HasPrefix_infix.
    + rewrite string_app_cons, sequence_group_cons.
      destruct (HasPrefix _ _ && _) eqn:Hp; [|done]. exfalso.
      apply andb_true_iff in Hp as [[t Ht]%HasPrefix_spec Hm].
      rewrite Ht in Hm. apply group_bytes in Hm as [_ Hm].
      rewrite <- string_app_cons in Ht. symmetry in Ht.
      by apply (infix_unique _ t g) in Ht.
Qed.
Lemma sequence_group_app pre s g : sequence_group s = Some g -> sequence_group (pre ++ s) = Some g.
Proof.
  rewrite !sequence_group_spec. intros (p & -> & Hg). exists (pre ++ p).
  by rewrite string_app_assoc.
Qed.
Lemma sequencePart_Ok s n :
  sequencePart s = Ok n <-> exists g, sequence_group s = Some g /\ Atoi g = Some n.
Proof.
  unfold sequencePart. case_bool_decide as Hs.
  - subst. split; [done|]. intros (g & Hg & _). done.
  - destruct (sequence_group s) as [g|]; [|split; [done|by intros (? & ? & _)]].
    destruct (Atoi g) eqn:Ha; split.
    + intros [= <-]. eauto.
    + intros (? & [= <-] & ?). congruence.
    + done.
    + intros (? & [= <-] & ?). congruence.
Qed.
Lemma sequencePart_app pre s n : sequencePart s = Ok n -> sequencePart (pre ++ s) = Ok n.
Proof.
  rewrite !sequencePart_Ok. intros (g & Hg & Hn). exists g. split; [|done].
  by apply sequence_group_app.
Qed.

(** ** The children *)
(** The sequence of a child whose name is valid. *)
Definition seq_of (child : string) : Z :=
  match sequencePart child with Ok n => n | Fail _ => 0%Z end.
Definition valid_child (child : string) : Prop := is_ok (sequencePart child) = true.
Lemma valid_seq child : valid_child child -> sequencePart child = Ok (seq_of child).
Proof. unfold valid_child, seq_of. by destruct (sequencePart child). Qed.

(** The last child with a sequence. *)
Definition last_with (children : list string) (z : Z) : option string :=
  last (filter (fun c => seq_of c = z) children).
Lemma last_cons_or {A} (x : A) (l : list A) : last (x :: l) = Some (default x (last l)).
Proof.
  destruct l as [|y l]; [done|]. simpl. destruct (last (y :: l)) eqn:Hl; [done|].
  by apply last_None in Hl.
Qed.
Lemma last_with_cons c children z :
  last_with (c :: children) z =
  match last_with children z with
  | Some x => Some x
  | None => if decide (seq_of c = z) then Some c else None
  end.
Proof.
  unfold last_with. destruct (decide (seq_of c = z)) as [Hc|Hc].
  - rewrite filter_cons_True by done. rewrite last_cons_or.
    by destruct (last (filter _ children)).
  - rewrite filter_cons_False by done. by destruct (last (filter _ children)).
Qed.

Lemma children_loop_Ok children sorted lookup :
  Forall valid_child children ->
  exists lookup', children_loop children sorted lookup
      = Ok ((sorted ++ map seq_of children)%list, lookup') /\
    forall z, lookup' !! z = match last_with children z with Some c => Some c | None => lookup !! z end.
Proof.
  intros Hv. revert sorted lookup. induction Hv as [|c children Hc Hv IH]; intros sorted lookup.
  - exists lookup. simpl. by rewrite app_nil_r.
  - simpl. rewrite (valid_seq c Hc).
    destruct (IH (sorted ++ [seq_of c])%list (<[seq_of c := c]> lookup)) as (lookup' & -> & Hl).
    exists lookup'. rewrite <- app_assoc. split; [done|]. intros z.
    rewrite Hl, last_with_cons. destruct (last_with children z); [done|].
    destruct (decide (seq_of c = z)) as [->|]; [by rewrite lookup_insert_eq|].
    by rewrite lookup_insert_ne.
Qed.
(** The first invalid child decides the error. *)
Lemma children_loop_Fail children sorted lookup c pre post e :
  children = (pre ++ c :: post)%list -> Forall valid_child pre -> sequencePart c = Fail e ->
  children_loop children sorted lookup = Fail e.
Proof.
  intros -> Hpre He. revert sorted lookup. induction Hpre as [|d pre Hd _ IH]; intros sorted lookup; simpl.
  - by rewrite He.
  - by rewrite (valid_seq d Hd).
Qed.

(** The least element is first once sorted. *)
Lemma merge_sort_min (l : list Z) (m : Z) :
  m ∈ l -> (forall z, z ∈ l -> (m <= z)%Z) -> exists rest, merge_sort Z.le l = m :: rest.
Proof.
  intros Hm Hmin. pose proof (merge_sort_Permutation Z.le l) as Hp.
  pose proof (Sorted_merge_sort Z.le l) as Hs.
  destruct (merge_sort Z.le l) as [|x rest] eqn:Heq.
  - apply Permutation_nil_l in Hp. subst. by apply elem_of_nil in Hm.
  - exists rest. f_equal. rewrite <- Hp in Hm.
    assert (x ∈ l) as Hx by (rewrite <- Hp; left). specialize (Hmin x Hx).
    apply Sorted_StronglySorted in Hs; [|by intros ???; lia].
    inversion Hs as [|? ? _ Hall]; subst. rewrite Forall_forall in Hall.
    apply elem_of_cons in Hm as [->|Hm]; [done|]. specialize (Hall m Hm). lia.
Qed.

(** What [determineLeader] computes when every name is valid: [leader] is the last child
    listed with the least sequence. *)
Lemma determineLeader_spec node children leader n :
  Forall valid_child children -> sequencePart node = Ok n ->
  last_with children (seq_of leader) = Some leader ->
  (forall c, c ∈ children -> (seq_of leader <= seq_of c)%Z) ->
  determineLeader node children = (bool_decide (n = seq_of leader), leader, Ok tt).
Proof.
  intros Hv Hn Hl Hmin. unfold determineLeader, sortedChildrenSequences.
  assert (leader ∈ children) as Hin.
  { unfold last_with in Hl. apply last_Some_elem_of, list_elem_of_filter in Hl. by destruct Hl. }
  destruct (children_loop_Ok children [] ∅ Hv) as (lookup & -> & Hlook).
  destruct (merge_sort_min (map seq_of children) (seq_of leader)) as [rest Hrest].
  { apply list_elem_of_fmap. eauto. }
  { intros z Hz. apply list_elem_of_fmap in Hz as (c & -> & Hc). by apply Hmin. }
  destruct children as [|c0 children]; [by apply elem_of_nil in Hin|].
  rewrite app_nil_l, Hrest, Hn, Hlook, Hl. done.
Qed.

Lemma unique_last_with children c :
  c ∈ children -> NoDup (map seq_of children) -> last_with children (seq_of c) = Some c.
Proof.
  induction children as [|d children IH]; [by intros ?%elem_of_nil|].
  rewrite last_with_cons. simpl. intros [->|Hc]%elem_of_cons [Hd Hn]%NoDup_cons.
  - destruct (last_with children (seq_of d)) as [x|] eqn:Hx; [|by rewrite decide_True].
    exfalso. apply Hd. unfold last_with in Hx. apply last_Some_elem_of, list_elem_of_filter in Hx as [Hz Hx].
    rewrite <- Hz. apply list_elem_of_fmap. eauto.
  - by rewrite IH.
Qed.

(** A least element of a non-empty list. *)
Lemma min_seq children :
  children <> [] -> exists c, c ∈ children /\ forall d, d ∈ children -> (seq_of c <= seq_of d)%Z.
Proof.
  induction children as [|c children IH]; [done|]. intros _. destruct children as [|c' children].
  - exists c. split; [left|]. intros d Hd%list_elem_of_singleton. by subst.
  - destruct IH as (m & Hm & Hmin); [done|]. destruct (Z.leb_spec (seq_of c) (seq_of m)).
    + exists c. split; [left|]. intros d [->|Hd]%elem_of_cons; [done|]. specialize (Hmin d Hd). lia.
    + exists m. split; [by right|]. intros d [->|Hd]%elem_of_cons; [lia|]. by apply Hmin.
Qed.

Lemma padded_group k z : full_match sequenceGroupRe (padded k z) = true.
Proof.
  destruct (padded_bytes k z) as (sign & ds & -> & Hs & Hne & Hd).
  apply full_match_spec. unfold sequenceGroupRe. apply matches_cat. exists sign, ds.
  split; [done|]. split; [|by apply full_match_spec, plus_cls_spec].
  unfold Opt. rewrite matches_alt, matches_eps. destruct Hs as [->| ->]; [by right|left].
  apply matches_cls. by exists "-"%char.
Qed.

(** With distinct sequences, any order of the children gives the same answer. *)
Lemma determineLeader_permuted children listing leader c path :
  Forall valid_child children -> NoDup (map seq_of children) -> leader ∈ children ->
  (forall d, d ∈ children -> (seq_of leader <= seq_of d)%Z) ->
  Permutation listing children -> c ∈ children ->
  determineLeader (path ++ c) listing = (bool_decide (c = leader), leader, Ok tt).
Proof.
  intros Hv Hnd Hin Hmin Hp Hc.
  assert (forall d, d ∈ listing <-> d ∈ children) as Hmem by (intros d; by rewrite Hp).
  assert (NoDup (map seq_of listing)) as Hnd'.
  { pose proof (Permutation_map seq_of Hp) as Hpm. by rewrite Hpm. }
  rewrite (determineLeader_spec _ listing leader (seq_of c)).
  - f_equal. f_equal. apply bool_decide_ext. split; [|by intros ->]. intros Heq.
    pose proof (unique_last_with children c Hc Hnd) as H1.
    pose proof (unique_last_with children leader Hin Hnd) as H2. congruence.
  - by rewrite Hp.
  - apply sequencePart_app, valid_seq. rewrite Forall_forall in Hv. by apply Hv.
  - apply unique_last_with; [by apply Hmem|done].
  - intros d Hd. by apply Hmin, Hmem.
Qed.
(** All names are valid, or one is the first that is not. *)
Lemma first_invalid children :
  Forall valid_child children \/
  exists pre c post e, children = (pre ++ c :: post)%list /\ Forall valid_child pre /\
    sequencePart c = Fail e.
Proof.
  induction children as [|c children IH]; [by left|].
  destruct (sequencePart c) as [e|n] eqn:Hc; [right; by exists [], c, children, e|].
  assert (valid_child c) as Hvc by (unfold valid_child; by rewrite Hc).
  destruct IH as [IH|(pre & d & post & e & -> & Hp & Hd)]; [left; by constructor|right].
  exists (c :: pre), d, post, e. split; [done|]. split; [by constructor|done].
Qed.

(** ** Properties *)

(** Any way electors list the same lock nodes, in any order, they agree: there is one
    leader among the nodes, the one with the least sequence; the elector that owns it, and
    no other, is told it leads, and all are told the same leader node. *)
Theorem one_leader (children : list string) :
  children <> [] -> Forall valid_child children -> NoDup (map seq_of children) ->
  exists leader, leader ∈ children /\
    (forall c, c ∈ children -> (seq_of leader <= seq_of c)%Z) /\
    forall listing c path, Permutation listing children -> c ∈ children ->
      determineLeader (path ++ c) listing = (bool_decide (c = leader), leader, Ok tt).
Proof.
  intros Hne Hv Hnd. destruct (min_seq children Hne) as (leader & Hin & Hmin).
  exists leader. split; [done|]. split; [done|]. intros listing c path Hp Hc.
  by apply (determineLeader_permuted children).
Qed.

(** Leadership is stable: while the leader's node is there, nodes that leave and nodes
    that join with a higher sequence, as ZooKeeper numbers them, change neither the leader
    nor what any elector is told. *)
Theorem leader_stable (before after : list string) (node leader : string) (b : bool) :
  Forall valid_child before -> Forall valid_child after -> NoDup (map seq_of after) ->
  determineLeader node before = (b, leader, Ok tt) -> NoDup (map seq_of before) ->
  leader ∈ after ->
  (forall c, c ∈ after -> c ∈ before \/ forall d, d ∈ before -> (seq_of d < seq_of c)%Z) ->
  determineLeader node after = (b, leader, Ok tt).
Proof.
  intros Hvb Hva Hna Hdet Hnb Hla Hnew.
  assert (exists n, sequencePart node = Ok n) as [n Hn].
  { destruct (sequencePart node) as [e|n] eqn:Hn; [|eauto]. exfalso. revert Hdet.
    unfold determineLeader. rewrite Hn. destruct before as [|c before]; [done|].
    by destruct (sortedChildrenSequences _) as [|[? ?]]. }
  assert (before <> []) as Hne by (intros ->; done).
  destruct (min_seq before Hne) as (m & Hm & Hmin).
  rewrite (determineLeader_spec node before m n) in Hdet; try done; [|by apply unique_last_with].
  injection Hdet as <- <-. apply determineLeader_spec; try done; [by apply unique_last_with|].
  intros c Hc. destruct (Hnew c Hc) as [Hb|Hb]; [by apply Hmin|]. specialize (Hb m Hm). lia.
Qed.

(** The errors of [determineLeader], in the order it looks for them: no children, the
    first child whose name has no valid sequence, the elector's own node; and with none of
    them it does not fail. On every error it reports no leader. *)
Theorem determineLeader_errors (node : string) (children : list string) :
  let '(b, leader, err) := determineLeader node children in
  match err with
  | Ok _ => children <> [] /\ Forall valid_child children /\ valid_child node
  | Fail e =>
      b = false /\ leader = "" /\
      ((children = [] /\ e = errorsNew "no child nodes") \/
       (exists pre c post, children = (pre ++ c :: post)%list /\ Forall valid_child pre /\
          sequencePart c = Fail e) \/
       (children <> [] /\ Forall valid_child children /\
          exists e', sequencePart node = Fail e' /\ e = errorsWrap "invalid owner node" e'))
  end.
Proof.
  destruct (first_invalid children) as [Hv|(pre & c & post & e & Heq & Hp & Hc)].
  - destruct (decide (children = [])) as [->|Hne]; [simpl; by auto|].
    destruct (sequencePart node) as [e|n] eqn:Hn.
    + unfold determineLeader, sortedChildrenSequences. rewrite Hn.
      destruct (children_loop_Ok children [] ∅ Hv) as (lookup & -> & _).
      destruct children; [done|]. split; [done|]. split; [done|]. right. right. eauto.
    + destruct (determineLeader node children) as [[b l] err] eqn:Hd.
      destruct (min_seq children Hne) as (m & Hm & Hmin).
      destruct (last_with children (seq_of m)) as [m'|] eqn:Hl.
      * assert (seq_of m' = seq_of m /\ m' ∈ children) as [Hs Hin].
        { unfold last_with in Hl. by apply last_Some_elem_of, list_elem_of_filter in Hl. }
        rewrite (determineLeader_spec node children m' n) in Hd; rewrite ?Hs; try done.
        injection Hd as <- <- <-. split; [done|]. split; [done|]. unfold valid_child. by rewrite Hn.
      * exfalso. unfold last_with in Hl. apply last_None in Hl.
        assert (m ∈ filter (fun c => seq_of c = seq_of m) children) as Hin
          by by apply list_elem_of_filter.
        rewrite Hl in Hin. by apply elem_of_nil in Hin.
  - unfold determineLeader, sortedChildrenSequences.
    rewrite (children_loop_Fail children [] ∅ c pre post e) by done.
    destruct children; [by destruct pre|]. split; [done|]. split; [done|]. right. left. eauto 8.
Qed.

(** C21. Round trip with the names ZooKeeper gives: of any path, then the infix, then a
    number in decimal with any zero padding, [sequencePart] reads the number back, for
    every number of 64 bits, the negative ones a wrapped counter gives included. *)
Theorem sequencePart_roundtrip (path : string) (k : nat) (n : Z) :
  (int64_min <= n <= int64_max)%Z -> sequencePart (path ++ "-lock-" ++ padded k n) = Ok n.
Proof.
  intros Hn. apply sequencePart_Ok. exists (padded k n). split; [|by apply Atoi_padded].
  apply sequence_group_spec. exists path. split; [done|apply padded_group].
Qed.

(** ** Witnesses *)
Definition locks : list string := ["_c_a-lock-0000000007"; "_c_b-lock-0000000003"; "_c_d-lock-0000000010"].
Lemma locks_valid : Forall valid_child locks.
Proof. apply (bool_decide_unpack _). vm_compute. exact I. Qed.
Lemma locks_distinct : NoDup (map seq_of locks).
Proof. apply (bool_decide_unpack _). vm_compute. exact I. Qed.

Lemma one_leader_witness :
  exists leader, leader ∈ locks /\ (forall c, c ∈ locks -> (seq_of leader <= seq_of c)%Z) /\
    forall listing c path, Permutation listing locks -> c ∈ locks ->
      determineLeader (path ++ c) listing = (bool_decide (c = leader), leader, Ok tt).
Proof. exact (one_leader locks ltac:(discriminate) locks_valid locks_distinct). Defined.

Lemma leader_stable_witness :
  determineLeader "/base/_c_a-lock-0000000007" ["_c_b-lock-0000000003"; "_c_e-lock-0000000011"]
    = (false, "_c_b-lock-0000000003", Ok tt).
Proof.
  apply (leader_stable locks).
  - apply locks_valid.
  - apply (bool_decide_unpack _). vm_compute. exact I.
  - apply (bool_decide_unpack _). vm_compute. exact I.
  - vm_compute. reflexivity.
  - apply locks_distinct.
  - left.
  - apply Forall_forall. constructor; [left; right; left|]. constructor; [right|constructor].
    apply Forall_forall. apply (bool_decide_unpack _). vm_compute. exact I.
Defined.

Lemma sequencePart_roundtrip_witness :
  sequencePart ("/base/_c_a" ++ "-lock-" ++ padded 0 (-2147483648)) = Ok (-2147483648)%Z.
Proof. apply sequencePart_roundtrip. unfold int64_min, int64_max. lia. Defined.
