(* ===== verification/ElectorRun.v ===== *)
(** * elector: the two goroutines of an elector and the main one that waits for them
    (elector.go, [start] and what it calls), as programs and a step relation. *)
From S2P Require Import Prelude.
From S2P Require Import GoStrings.
From S2P Require Import GoPath.
From S2P Require Import GoErrors.
From S2P Require Import ZkClient.
From S2P Require Import ZkService.
From S2P Require Import ElectorSeq.

Local Open Scope string_scope.

(** ** event.go *)
Record Event : Type := MkEvent { Leader : bool; Err : option error }.
Definition Event_String (e : Event) : string :=
  "{leader:" ++ (if Leader e then "true" else "false") ++ " err:" ++
  match Err e with Some err => Error err | None => "%!s(<nil>)" end ++ "}".

(** ** The elector's fixed fields; the rest is in [state] below. It is made by [Start], in
    ElectorConn.v. *)
Record Elector : Type := MkElector { acl : list ACL; ident : string; basePath : string }.

Definition checkZKEvent (zkEvent : ZkEvent) : res error unit :=
  match ZkErr zkEvent with
  | Some err => Fail err
  | None =>
      if bool_decide (State zkEvent ∈ [StateExpired; StateAuthFailed; StateDisconnected; StateUnknown])
      then Fail (errorsNew ("invalid ZK state: " ++ State_String (State zkEvent)))
      else Ok tt
  end.

(** ** The commands of the election goroutine: calls on the connection, the critical
    section of [updateLeaderData] (it returns the previous [isLeader]), and [sendEvent]. *)
Inductive ecmd : Type -> Type :=
| EZk {X} (c : zkcmd X) : ecmd (res error X)
| ECreateLock (path data : string) : ecmd (res error string)
| EChildrenW (path : string) : ecmd (res error (list string))
| ESetLeader (leaderIdent : string) (leader : bool) : ecmd bool
| ESend (event : Event) : ecmd unit.
Inductive eprog (A : Type) : Type :=
| ERet (a : A)
| EDo {X : Type} (c : ecmd X) (k : X -> eprog A).
Arguments ERet {A} a.
Arguments EDo {A X} c k.
Fixpoint ebind {A B} (p : eprog A) (f : A -> eprog B) : eprog B :=
  match p with
  | ERet a => f a
  | EDo c k => EDo c (fun x => ebind (k x) f)
  end.
(** A program of calls only. *)
Fixpoint lift {A} (p : prog A) : eprog A :=
  match p with
  | Ret a => ERet a
  | Do c k => EDo (EZk c) (fun r => lift (k r))
  end.

(** ** [initialize]: the calls that make sure the base path exists *)
Fixpoint initialize_loop (create : string) (segments : list string) : prog (res error unit) :=
  match segments with
  | [] => Ret (Ok tt)
  | segment :: segments =>
      let create := PathJoin [create; segment] in
      call r := Exists_ create in
      match r with
      | Fail err => Ret (Fail (errorsWrap ("could not check path '" ++ create ++ "'") err))
      | Ok (true, _) => initialize_loop create segments
      | Ok (false, _) =>
          call r := Create create "" in
          match r with
          | Fail err => Ret (Fail (errorsWrap ("could not create path '" ++ create ++ "'") err))
          | Ok _ => initialize_loop create segments
          end
      end
  end.
Definition initialize (e : Elector) : prog (res error unit) :=
  call r := Exists_ (basePath e) in
  match r with
  | Fail err => Ret (Fail (errorsWrap ("could not check if base path " ++ basePath e ++ " exists") err))
  | Ok (true, _) => Ret (Ok tt)
  | Ok (false, _) => initialize_loop "/" (Split (basePath e) slash)
  end.

(** ** The election goroutine *)
Definition updateLeaderData {A} (leaderIdent : string) (leader forceSend : bool) (k : eprog A) : eprog A :=
  EDo (ESetLeader leaderIdent leader) (fun prevLeader =>
    if bool_decide (prevLeader = leader) && negb forceSend then k
    else EDo (ESend (MkEvent leader None)) (fun _ => k)).

(** [getIdentFromNode], then [k] on its answer *)
Definition getIdentFromNode {A} (e : Elector) (node : string) (k : res error string -> eprog A) : eprog A :=
  EDo (EZk (Get_ (PathJoin [basePath e; node])))
    (fun r => k (match r with Fail err => Fail err | Ok (b, _) => Ok b end)).

(** [updateFunc], then [k]; [firstLeaderUpdate] is false from the first success on. *)
Definition updateFunc {A} (e : Elector) (lockPath : string) (firstLeaderUpdate : bool)
    (children : list string) (k : eprog (res error A)) : eprog (res error A) :=
  let '(isLeader, leaderNode, r) := determineLeader lockPath children in
  match r with
  | Fail err => ERet (Fail (errorsWrap "could not determine leader" err))
  | Ok _ =>
      getIdentFromNode e leaderNode (fun r =>
        match r with
        | Fail err => ERet (Fail (errorsWrap "could not get ident from node" err))
        | Ok leaderIdent => updateLeaderData leaderIdent isLeader firstLeaderUpdate k
        end)
  end.

(** One listing with a watch, and what is made of it. The answer [Ok lockPath] means the
    goroutine is at the [select] of its loop. *)
Definition watch_children (e : Elector) (lockPath : string) (firstLeaderUpdate : bool)
    : eprog (res error string) :=
  EDo (EChildrenW (basePath e)) (fun r =>
    match r with
    | Fail err => ERet (Fail (errorsWrap "could not get children" err))
    | Ok children => updateFunc e lockPath firstLeaderUpdate children (ERet (Ok lockPath))
    end).
Definition elect (e : Elector) : eprog (res error string) :=
  ebind (lift (initialize e)) (fun r =>
    match r with
    | Fail err => ERet (Fail (errorsWrap "elector initialization failed" err))
    | Ok _ =>
        EDo (ECreateLock (basePath e ++ "/lock-") (ident e)) (fun r =>
          match r with
          | Fail err => ERet (Fail (errorsWrap "could not create lock node" err))
          | Ok lockPath => watch_children e lockPath true
          end)
    end).

(** ** The goroutines. Deferred calls run last in, first out: [wg.Done], then [cancel]. *)
Inductive watcher_pc : Type :=
| WSelect                  (* select on shouldQuit and the ZooKeeper events *)
| WSendErr (err : error)   (* the non-blocking send to errch *)
| WDone | WCancel | WDead.
Inductive worker_pc : Type :=
| ERun (p : eprog (res error string))
| ESelect (lockPath : string)     (* select on the child events and shouldQuit *)
| ESendErr (err : option error)   (* the non-blocking send to errch *)
| EDone | ECancel | EDead.
Inductive main_pc : Type :=
| MWait                      (* wg.Wait *)
| MCloseErrch | MRecv        (* <-errch *)
| MSend (err : option error) (* sendErr *)
| MCloseEvents | MDead.

Record state : Type := MkState {
  watcher : watcher_pc;
  worker : worker_pc;
  main : main_pc;
  wg : Z;
  errch : option (option error);  (* its buffer of one *)
  errch_closed : bool;
  shouldQuit : bool;
  closing : bool;
  leaderIdent : string;
  isLeader : bool;
  attempted : list Event;  (* every sendEvent, in order *)
  delivered : list Event;  (* those the client received *)
  events_closed : bool;
  panicked : bool;
}.
Definition start_state (e : Elector) : state :=
  MkState WSelect (ERun (elect e)) MWait 2 None false false false "" false [] [] false false.

(** ** Updates of the state *)
Definition set_watcher (w : watcher_pc) (s : state) : state :=
  MkState w (worker s) (main s) (wg s) (errch s) (errch_closed s) (shouldQuit s) (closing s)
    (leaderIdent s) (isLeader s) (attempted s) (delivered s) (events_closed s) (panicked s).
Definition set_worker (w : worker_pc) (s : state) : state :=
  MkState (watcher s) w (main s) (wg s) (errch s) (errch_closed s) (shouldQuit s) (closing s)
    (leaderIdent s) (isLeader s) (attempted s) (delivered s) (events_closed s) (panicked s).
Definition set_main (m : main_pc) (s : state) : state :=
  MkState (watcher s) (worker s) m (wg s) (errch s) (errch_closed s) (shouldQuit s) (closing s)
    (leaderIdent s) (isLeader s) (attempted s) (delivered s) (events_closed s) (panicked s).
(** [wg.Done()]: a negative counter panics. *)
Definition wg_Done (s : state) : state :=
  MkState (watcher s) (worker s) (main s) (wg s - 1) (errch s) (errch_closed s) (shouldQuit s)
    (closing s) (leaderIdent s) (isLeader s) (attempted s) (delivered s) (events_closed s)
    (panicked s || (wg s <=? 0)%Z).
(** [select { case errch <- err: default: }]: a closed channel panics. *)
Definition report (err : option error) (s : state) : state :=
  MkState (watcher s) (worker s) (main s) (wg s)
    (match errch s with None => Some err | Some x => Some x end) (errch_closed s) (shouldQuit s)
    (closing s) (leaderIdent s) (isLeader s) (attempted s) (delivered s) (events_closed s)
    (panicked s || errch_closed s).
(** [<-errch] once it is closed: the buffered value, or nil. *)
Definition take_err (s : state) : state :=
  MkState (watcher s) (worker s) (MSend (default None (errch s))) (wg s) None (errch_closed s)
    (shouldQuit s) (closing s) (leaderIdent s) (isLeader s) (attempted s) (delivered s)
    (events_closed s) (panicked s).
Definition close_errch (s : state) : state :=
  MkState (watcher s) (worker s) MRecv (wg s) (errch s) true (shouldQuit s) (closing s)
    (leaderIdent s) (isLeader s) (attempted s) (delivered s) (events_closed s)
    (panicked s || errch_closed s).
(** [cancel], once only *)
Definition cancel (s : state) : state :=
  MkState (watcher s) (worker s) (main s) (wg s) (errch s) (errch_closed s) true (closing s)
    (leaderIdent s) (isLeader s) (attempted s) (delivered s) (events_closed s) (panicked s).
(** The elector's [Close]: [closing] is closed, once only. *)
Definition close_elector (s : state) : state :=
  MkState (watcher s) (worker s) (main s) (wg s) (errch s) (errch_closed s) (shouldQuit s) true
    (leaderIdent s) (isLeader s) (attempted s) (delivered s) (events_closed s) (panicked s).
Definition close_events (s : state) : state :=
  MkState (watcher s) (worker s) MDead (wg s) (errch s) (errch_closed s) (shouldQuit s) (closing s)
    (leaderIdent s) (isLeader s) (attempted s) (delivered s) true (panicked s || events_closed s).
Definition set_leader (i : string) (b : bool) (s : state) : state :=
  MkState (watcher s) (worker s) (main s) (wg s) (errch s) (errch_closed s) (shouldQuit s) (closing s)
    i b (attempted s) (delivered s) (events_closed s) (panicked s).
(** [sendEvent] that ends: received by the client or dropped. On a closed channel the send
    panics. *)
Definition sent (ev : Event) (received : bool) (s : state) : state :=
  MkState (watcher s) (worker s) (main s) (wg s) (errch s) (errch_closed s) (shouldQuit s) (closing s)
    (leaderIdent s) (isLeader s) (attempted s ++ [ev])
    (if received then delivered s ++ [ev] else delivered s) (events_closed s)
    (panicked s || events_closed s).
(** An event is dropped only after [Close], when the client does not take it. *)
Inductive sendEvent (ev : Event) (s : state) : state -> Prop :=
| send_received : sendEvent ev s (sent ev true s)
| send_dropped : closing s = true -> sendEvent ev s (sent ev false s).

Definition sendErr (err : option error) : state -> state -> Prop := sendEvent (MkEvent false err).
(** What a client reads at any time. *)
Definition LeaderIdent (s : state) : string := leaderIdent s.

(** ** The steps. The service answers calls in any way, sends any events; the client
    receives whenever it likes and may close the elector at any time. *)
Inductive step (e : Elector) (s : state) : state -> Prop :=
| watcher_quit :
    watcher s = WSelect -> shouldQuit s = true -> step e s (set_watcher WDone s)
| watcher_event ev :
    watcher s = WSelect -> checkZKEvent ev = Ok tt -> step e s s
| watcher_error ev err :
    watcher s = WSelect -> checkZKEvent ev = Fail err -> step e s (set_watcher (WSendErr err) s)
| watcher_report err :
    watcher s = WSendErr err -> step e s (set_watcher WDone (report (Some err) s))
| watcher_done : watcher s = WDone -> step e s (set_watcher WCancel (wg_Done s))
| watcher_cancel : watcher s = WCancel -> step e s (set_watcher WDead (cancel s))
| worker_zk X (c : zkcmd X) k r :
    worker s = ERun (EDo (EZk c) k) -> step e s (set_worker (ERun (k r)) s)
| worker_lock p d k r :
    worker s = ERun (EDo (ECreateLock p d) k) -> step e s (set_worker (ERun (k r)) s)
| worker_children p k r :
    worker s = ERun (EDo (EChildrenW p) k) -> step e s (set_worker (ERun (k r)) s)
| worker_set i b k :
    worker s = ERun (EDo (ESetLeader i b) k) ->
    step e s (set_worker (ERun (k (isLeader s))) (set_leader i b s))
| worker_send ev k s' :
    worker s = ERun (EDo (ESend ev) k) -> sendEvent ev s s' ->
    step e s (set_worker (ERun (k tt)) s')
| worker_ready lockPath :
    worker s = ERun (ERet (Ok lockPath)) -> step e s (set_worker (ESelect lockPath) s)
| worker_fail err :
    worker s = ERun (ERet (Fail err)) -> step e s (set_worker (ESendErr (Some err)) s)
| worker_child_event lockPath :
    worker s = ESelect lockPath ->
    step e s (set_worker (ERun (watch_children e lockPath false)) s)
| worker_child_closed lockPath :
    worker s = ESelect lockPath ->
    step e s (set_worker (ESendErr (Some (errorsNew "child events stream terminated"))) s)
| worker_quit lockPath :
    worker s = ESelect lockPath -> shouldQuit s = true -> step e s (set_worker (ESendErr None) s)
| worker_report err :
    worker s = ESendErr err -> step e s (set_worker EDone (report err s))
| worker_done : worker s = EDone -> step e s (set_worker ECancel (wg_Done s))
| worker_cancel : worker s = ECancel -> step e s (set_worker EDead (cancel s))
| main_wait : main s = MWait -> wg s = 0%Z -> step e s (set_main MCloseErrch s)
| main_close_errch : main s = MCloseErrch -> step e s (close_errch s)
| main_recv : main s = MRecv -> step e s (take_err s)
| main_send err s' :
    main s = MSend err -> sendErr err s s' -> step e s (set_main MCloseEvents s')
| main_close_events : main s = MCloseEvents -> step e s (close_events s)
| client_close : step e s (close_elector s).

Definition reachable (e : Elector) (s : state) : Prop := rtc (step e) (start_state e) s.

(** ** The synchronisation of the goroutines *)
Definition watcher_left (w : watcher_pc) : Z := match w with WCancel | WDead => 0 | _ => 1 end.
Definition worker_left (w : worker_pc) : Z := match w with ECancel | EDead => 0 | _ => 1 end.
(** The goroutine has reported, or is leaving because of the other's report. *)
Definition watcher_over (w : watcher_pc) : bool :=
  match w with WDone | WCancel | WDead => true | _ => false end.
Definition worker_over (w : worker_pc) : bool :=
  match w with ESendErr None | EDone | ECancel | EDead => true | _ => false end.
Definition before_recv (m : main_pc) : bool :=
  match m with MWait | MCloseErrch | MRecv => true | _ => false end.
Definition before_close (m : main_pc) : bool :=
  match m with MWait | MCloseErrch => true | _ => false end.

Global Instance main_pc_eq_dec : EqDecision main_pc.
Proof. solve_decision. Defined.

Record sync_inv (s : state) : Prop := {
  sync_panic : panicked s = false;
  sync_wg : wg s = (watcher_left (watcher s) + worker_left (worker s))%Z;
  sync_main : main s = MWait \/ wg s = 0%Z;
  sync_closed : errch_closed s = negb (before_close (main s));
  sync_events : events_closed s = bool_decide (main s = MDead);
  sync_reported : before_recv (main s) = true ->
    (shouldQuit s = true \/ watcher_over (watcher s) = true \/ worker_over (worker s) = true) ->
    exists err, errch s = Some (Some err);
  sync_some : before_recv (main s) = true -> errch s <> Some None;
  sync_send : main s <> MSend None;
}.
Lemma start_sync e : sync_inv (start_state e).
Proof. split; simpl; try done; try by left. intros _ [?|[?|?]]; done. Qed.

(** Once a goroutine is past [wg.Wait] both workers are gone. *)
Lemma sync_left s : sync_inv s -> main s <> MWait ->
  watcher_left (watcher s) = 0%Z /\ worker_left (worker s) = 0%Z.
Proof.
  intros [_ Hwg [Hm|Hm] _ _ _ _ _] Hne; [done|]. rewrite Hm in Hwg.
  destruct (watcher s), (worker s); simpl in *; lia.
Qed.
Lemma sync_running s : sync_inv s -> (watcher_left (watcher s) = 1%Z \/ worker_left (worker s) = 1%Z) ->
  main s = MWait /\ errch_closed s = false /\ events_closed s = false.
Proof.
  intros Hs Hr. destruct (decide (main s = MWait)) as [Hm|Hm].
  - destruct Hs as [_ _ _ Hc He _ _ _]. rewrite Hm in *. by rewrite Hc, He.
  - destruct (sync_left s Hs Hm). lia.
Qed.

Ltac sync_solve :=
  repeat match goal with
  | H : watcher ?s = _, H' : context [watcher ?s] |- _ => rewrite H in H'
  | H : worker ?s = _, H' : context [worker ?s] |- _ => rewrite H in H'
  | H : main ?s = _, H' : context [main ?s] |- _ => rewrite H in H'
  | H : watcher ?s = _ |- context [watcher ?s] => rewrite H
  | H : worker ?s = _ |- context [worker ?s] => rewrite H
  | H : main ?s = _ |- context [main ?s] => rewrite H
  end.

Lemma left_range w v : (0 <= watcher_left w <= 1 /\ 0 <= worker_left v <= 1)%Z.
Proof. destruct w, v; simpl; lia. Qed.
(** A goroutine is running, as [Hw] says, so the main one waits. *)
Ltac running_facts s Hs Hw Hm Hc He Hp Hr Hso :=
  destruct (sync_running _ Hs) as (Hm & Hc & He); [rewrite Hw; simpl; by auto|];
  pose proof (left_range (watcher s) (worker s));
  destruct Hs as [Hp ? ? ? ? Hr Hso ?];
  rewrite Hw, ?Hm, ?Hc, ?He in *; simpl in *; specialize (Hr eq_refl); specialize (Hso eq_refl).
Ltac running_fields Hw Hm Hc He Hp :=
  split; simpl; rewrite ?Hw, ?Hm, ?Hc, ?He, ?Hp; simpl; try done; try lia; try (by left);
  try (apply Z.leb_gt; lia).
Ltac running s Hs Hw :=
  let Hm := fresh "Hm" in let Hc := fresh "Hc" in let He := fresh "He" in let Hp := fresh "Hp" in
  let Hr := fresh "Hr" in let Hso := fresh "Hso" in
  running_facts s Hs Hw Hm Hc He Hp Hr Hso; running_fields Hw Hm Hc He Hp;
  try (intros _ ?; apply Hr; tauto).
(** The other steps. *)
Ltac leaving Hs Hw :=
  let Hp := fresh "Hp" in let Hr := fresh "Hr" in let Hm := fresh "Hm" in let Hc := fresh "Hc" in
  let He := fresh "He" in
  destruct Hs as [Hp ? Hm Hc He Hr ? ?]; split; simpl; rewrite ?Hw in *; simpl in *; try done;
  try (intros ? _; apply Hr; tauto); try (by rewrite Hp, ?Hc, ?He); try (by right; destruct Hm).

(** What is reported stays, and the first report is never nil. *)
Lemma buffer_some (b : option (option error)) err :
  b <> Some None -> (err = None -> exists x, b = Some (Some x)) ->
  exists x, match b with Some y => Some y | None => Some err end = Some (Some x).
Proof.
  intros Hb He. destruct b as [[y|]|]; [by eexists|done|]. destruct err as [y|]; [by eexists|].
  by destruct He as (? & ?).
Qed.
Lemma sync_report_watcher s err : sync_inv s -> watcher s = WSendErr err ->
  sync_inv (set_watcher WDone (report (Some err) s)).
Proof.
  intros Hs Hw. running_facts s Hs Hw Hm Hc He Hp Hr Hso.
  destruct (buffer_some (errch s) (Some err) Hso) as [x Hx]; [done|].
  running_fields Hw Hm Hc He Hp; rewrite Hx; [by eauto|done].
Qed.
Lemma sync_report_worker s err : sync_inv s -> worker s = ESendErr err ->
  sync_inv (set_worker EDone (report err s)).
Proof.
  intros Hs Hw. running_facts s Hs Hw Hm Hc He Hp Hr Hso.
  destruct (buffer_some (errch s) err Hso) as [x Hx]; [intros ->; apply Hr; by auto|].
  running_fields Hw Hm Hc He Hp; rewrite Hx; [by eauto|done].
Qed.
Lemma sync_recv s : sync_inv s -> main s = MRecv -> sync_inv (take_err s).
Proof.
  intros Hs Hw. destruct (sync_left s Hs) as [Hl _]; [by rewrite Hw|].
  assert (exists err, errch s = Some (Some err)) as [err Herr].
  { apply (sync_reported s Hs); [by rewrite Hw|]. right. left. by destruct (watcher s). }
  leaving Hs Hw. by rewrite Herr.
Qed.
Lemma sync_step e s s' : sync_inv s -> step e s s' -> sync_inv s'.
Proof.
  intros Hs Hstep.
  destruct Hstep as [Hw Hq|ev Hw Hev|ev err Hw Hev|err Hw|Hw|Hw|X c k r Hw|p d k r Hw|p k r Hw
    |i b k Hw|ev k s' Hw Hsend|lp Hw|err Hw|lp Hw|lp Hw|lp Hw Hq|err Hw|Hw|Hw|Hm0 Hz|Hm0|Hm0
    |err s' Hm0 Hsend|Hm0|].
  4: by apply sync_report_watcher.
  16: by apply sync_report_worker.
  20: by apply sync_recv.
  5,17: leaving Hs Hw.
  16-19: try (destruct Hsend); leaving Hs Hm0; by right.
  16: by destruct Hs.
  all: try (destruct Hsend); running s Hs Hw.
Qed.
Lemma reachable_sync e s : reachable e s -> sync_inv s.
Proof.
  intros Hr. refine (rtc_invariant (step e) sync_inv _ _ _ _ Hr); [apply sync_step|apply start_sync].
Qed.

(** ** The events *)
(** No two neighbours are equal. *)
Definition alternates (l : list bool) : Prop :=
  forall i x y, l !! i = Some x -> l !! S i = Some y -> x <> y.
Lemma alternates_nil : alternates [].
Proof. by intros i x y. Qed.
Lemma alternates_snoc l b : alternates l -> last l <> Some b -> alternates (l ++ [b]).
Proof.
  intros Hl Hb i x y Hx Hy. destruct (decide (S i < length l)) as [Hi|Hi].
  - rewrite lookup_app_l in Hx, Hy by lia. by apply (Hl i).
  - assert (S i = length l) as Hi'.
    { apply lookup_lt_Some in Hy. rewrite length_app in Hy. simpl in Hy. lia. }
    rewrite lookup_app_r in Hy by lia. rewrite lookup_app_l in Hx by lia.
    replace (S i - length l) with 0 in Hy by lia. simpl in Hy. injection Hy as ->.
    intros ->. apply Hb. rewrite last_lookup, <- Hi'. done.
Qed.

(** A program keeps the events in order, whatever it is answered: [b] is [isLeader], [att]
    the leadership sent so far, and at its end [post] holds. *)
Fixpoint keeps {A} (post : A -> bool -> list bool -> Prop) (p : eprog A) (b : bool) (att : list bool) : Prop :=
  match p with
  | ERet a => post a b att
  | @EDo _ X c k =>
      match c in ecmd X return (X -> bool -> list bool -> Prop) -> Prop with
      | ESetLeader _ l => fun K => K b l att
      | ESend ev => fun K => Err ev = None /\ last att <> Some (Leader ev) /\ K tt b (att ++ [Leader ev])%list
      | _ => fun K => forall x, K x b att
      end (fun x => keeps post (k x))
  end.
(** At the [select] the last event sent is what [isLeader] says. *)
Definition at_select {E A} (r : res E A) (b : bool) (att : list bool) : Prop :=
  match r with Ok _ => last att = Some b | Fail _ => True end.

Lemma keeps_lift {A B} post (p : prog A) (f : A -> eprog B) b att :
  (forall a, keeps post (f a) b att) -> keeps post (ebind (lift p) f) b att.
Proof. intros Hf. induction p as [a|X c k IH]; simpl; [apply Hf|]. intros x. apply IH. Qed.
Lemma keeps_update i l force b att (lockPath : string) :
  (force = true -> att = []) -> (force = false -> last att = Some b) ->
  keeps (@at_select error string) (updateLeaderData i l force (ERet (Ok lockPath))) b att.
Proof.
  intros Ht Hf. simpl. destruct force; rewrite ?andb_false_r, ?andb_true_r; simpl.
  - rewrite Ht by done. done.
  - specialize (Hf eq_refl). case_bool_decide as Hb; simpl; [by subst|].
    split; [done|]. split; [rewrite Hf; naive_solver|]. apply last_snoc.
Qed.
Lemma keeps_watch e lockPath force b att :
  (force = true -> att = []) -> (force = false -> last att = Some b) ->
  keeps (@at_select error string) (watch_children e lockPath force) b att.
Proof.
  intros Ht Hf [err|children]; simpl; [done|]. unfold updateFunc.
  destruct (determineLeader lockPath children) as [[l n] [err|[]]]; simpl; [done|].
  intros [err|[i z]]; [done|]. by apply (keeps_update i l force b att lockPath).
Qed.
Lemma keeps_elect e b : keeps (@at_select error string) (elect e) b [].
Proof.
  apply keeps_lift. intros [err|[]]; simpl; [done|]. intros [err|lockPath]; [done|].
  by apply (keeps_watch e lockPath true b []).
Qed.

Definition leader_events (att : list bool) : list Event := map (fun b => MkEvent b None) att.
(** The error event, sent by the main goroutine before it closes the channel. *)
Definition last_event (m : main_pc) (tail : list Event) : Prop :=
  match m with
  | MCloseEvents | MDead => exists err, tail = [MkEvent false (Some err)]
  | _ => tail = []
  end.
Definition worker_keeps (w : worker_pc) (b : bool) (att : list bool) : Prop :=
  match w with
  | ERun p => keeps at_select p b att
  | ESelect _ => last att = Some b
  | _ => True
  end.
Record events_inv (s : state) : Prop := {
  events_att : exists att tail, attempted s = (leader_events att ++ tail)%list /\ alternates att /\
    worker_keeps (worker s) (isLeader s) att /\ last_event (main s) tail;
  events_sub : delivered s `sublist_of` attempted s;
  events_open : closing s = false -> delivered s = attempted s;
}.

Lemma start_events e : events_inv (start_state e).
Proof.
  split; [|done|done]. exists [], []. split; [done|]. split; [apply alternates_nil|].
  split; [apply keeps_elect|done].
Qed.
(** A send that ends keeps the delivered events a part of the attempted ones. *)
Lemma sent_events ev r s : (r = true \/ closing s = true) ->
  (delivered s `sublist_of` attempted s) -> (closing s = false -> delivered s = attempted s) ->
  (delivered (sent ev r s) `sublist_of` attempted (sent ev r s)) /\
  (closing s = false -> delivered (sent ev r s) = attempted (sent ev r s)).
Proof.
  intros Hr Hsub Hop. simpl. destruct r; split.
  - by apply sublist_app.
  - intros Hc. by rewrite Hop.
  - apply sublist_inserts_r, Hsub.
  - intros Hc. destruct Hr; congruence.
Qed.
(** The program of the worker moves on without a send. *)
Lemma events_worker s w b (i : string) :
  events_inv s -> main s = MWait ->
  (forall att, alternates att -> worker_keeps (worker s) (isLeader s) att -> worker_keeps w b att) ->
  events_inv (set_worker w (set_leader i b s)).
Proof.
  intros [(att & tail & Ha & Halt & Hw & Hl) Hsub Hop] Hm Hk. split; [|done|done].
  exists att, tail. simpl. split; [done|]. split; [done|]. split; [by apply Hk|done].
Qed.
Lemma events_send s ev k s' :
  events_inv s -> main s = MWait -> worker s = ERun (EDo (ESend ev) k) -> sendEvent ev s s' ->
  events_inv (set_worker (ERun (k tt)) s').
Proof.
  intros [(att & tail & Ha & Halt & Hw & Hl) Hsub Hop] Hm Hwk Hsend.
  rewrite Hm in Hl. rewrite Hwk in Hw. simpl in Hl, Hw. subst tail. destruct Hw as (He & Hne & Hk).
  assert (exists r, s' = sent ev r s /\ (r = true \/ closing s = true)) as (r & -> & Hr).
  { destruct Hsend; eauto. }
  destruct (sent_events ev r s Hr Hsub Hop) as [Hsub' Hop']. split; [|done|done].
  exists (att ++ [Leader ev])%list, []. simpl. rewrite Hm. split.
  - unfold leader_events. rewrite Ha, map_app, !app_nil_r. simpl. f_equal. f_equal.
    destruct ev as [l x]. simpl in *. by subst.
  - split; [by apply alternates_snoc|done].
Qed.
Lemma events_final s err s' :
  events_inv s -> main s = MSend (Some err) -> worker_left (worker s) = 0%Z ->
  sendEvent (MkEvent false (Some err)) s s' -> events_inv (set_main MCloseEvents s').
Proof.
  intros [(att & tail & Ha & Halt & Hw & Hl) Hsub Hop] Hm Hwl Hsend.
  rewrite Hm in Hl. simpl in Hl. subst tail.
  assert (exists r, s' = sent (MkEvent false (Some err)) r s /\ (r = true \/ closing s = true)) as (r & -> & Hr).
  { destruct Hsend; eauto. }
  destruct (sent_events (MkEvent false (Some err)) r s Hr Hsub Hop) as [Hsub' Hop']. split; [|done|done].
  exists att, [MkEvent false (Some err)]. simpl. rewrite Ha, app_nil_r. split; [done|].
  split; [done|]. split; [by destruct (worker s)|by eexists].
Qed.
Lemma events_main s s' : events_inv s -> attempted s' = attempted s -> delivered s' = delivered s ->
  (forall b att, worker_keeps (worker s) b att -> worker_keeps (worker s') b att) ->
  isLeader s' = isLeader s ->
  (closing s' = false -> closing s = false) ->
  (forall tail, last_event (main s) tail -> last_event (main s') tail) -> events_inv s'.
Proof.
  intros [(att & tail & Ha & Halt & Hw & Hl) Hsub Hop] Ea Ed Ew El Hc Hm.
  split; rewrite ?Ea, ?Ed, ?El; [|done|auto].
  exists att, tail. split; [done|]. split; [done|]. split; auto.
Qed.
Lemma events_step e s s' : sync_inv s -> events_inv s -> step e s s' -> events_inv s'.
Proof.
  intros Hs Hi Hstep.
  assert (forall w, worker s = w -> worker_left w = 1%Z -> main s = MWait) as Hmw.
  { intros w Hw Hl. apply (sync_running s Hs). right. by rewrite Hw. }
  destruct Hstep as [Hw Hq|ev Hw Hev|ev err Hw Hev|err Hw|Hw|Hw|X c k r Hw|p d k r Hw|p k r Hw
    |i b k Hw|ev k s' Hw Hsend|lp Hw|err Hw|lp Hw|lp Hw|lp Hw Hq|err Hw|Hw|Hw|Hm0 Hz|Hm0|Hm0
    |err s' Hm0 Hsend|Hm0|].
  1-6,17-19: by eapply events_main; [exact Hi|..].
  5: by eapply events_send; [exact Hi|by eapply Hmw|exact Hw|].
  1-9: match goal with |- events_inv (set_worker ?w (set_leader ?i ?b _)) => idtac
       | |- events_inv (set_worker ?w ?t) =>
           change (set_worker w t) with (set_worker w (set_leader (leaderIdent t) (isLeader t) t)) end;
       apply events_worker; [exact Hi|by eapply Hmw|intros att Halt; rewrite Hw; simpl; try done].
  - intros Hl. by apply (keeps_watch e lp false).
  - by eapply events_main; [exact Hi|try (rewrite Hm0)..].
  - by eapply events_main; [exact Hi|try (simpl; rewrite Hm0)..].
  - by eapply events_main; [exact Hi|try (simpl; rewrite Hm0)..].
  - destruct err as [err|]; [|by destruct (sync_send s Hs)].
    apply (events_final s err); try done. apply (sync_left s Hs). by rewrite Hm0.
  - by eapply events_main; [exact Hi|try (simpl; rewrite Hm0)..].
  - by eapply events_main; [exact Hi|..].
Qed.

Lemma reachable_events e s : reachable e s -> events_inv s.
Proof.
  intros Hr. assert (sync_inv s /\ events_inv s) as [_ ?]; [|done].
  refine (rtc_invariant (step e) (fun s => sync_inv s /\ events_inv s) _ _ _ _ Hr).
  - intros a b [Ha He] Hstep. split; [by eapply sync_step|by eapply events_step].
  - split; [apply start_sync|apply start_events].
Qed.

(** ** Stopping *)
Definition quit_inv (s : state) : Prop := watcher s = WDead -> shouldQuit s = true.
Lemma quit_step e s s' : quit_inv s -> step e s s' -> quit_inv s'.
Proof.
  unfold quit_inv. intros Hq Hstep.
  destruct Hstep; simpl; try done; try (by auto).
  - destruct H0; by auto.
  - destruct H0; by auto.
Qed.

(** The same, seen by the client: what it received and whether it closed the elector. *)
Definition quiet (s s' : state) : Prop := delivered s' = delivered s /\ closing s' = closing s.
Lemma quiet_refl s : quiet s s.
Proof. done. Qed.
Lemma quiet_trans s1 s2 s3 : quiet s1 s2 -> quiet s2 s3 -> quiet s1 s3.
Proof. intros [H1 H2] [H3 H4]. split; congruence. Qed.

Lemma watcher_stops e s : quit_inv s ->
  exists s', rtc (step e) s s' /\ watcher s' = WDead /\ worker s' = worker s /\ main s' = main s /\ quiet s s'.
Proof.
  intros Hq.
  assert (forall s1, watcher s1 = WCancel -> exists s', rtc (step e) s1 s' /\ watcher s' = WDead /\
    worker s' = worker s1 /\ main s' = main s1 /\ quiet s1 s') as H1.
  { intros s1 Hw. eexists. split; [by apply rtc_once, watcher_cancel|done]. }
  assert (forall s1, watcher s1 = WDone -> exists s', rtc (step e) s1 s' /\ watcher s' = WDead /\
    worker s' = worker s1 /\ main s' = main s1 /\ quiet s1 s') as H2.
  { intros s1 Hw. destruct (H1 (set_watcher WCancel (wg_Done s1))) as (s' & Hr & H'); [done|].
    exists s'. split; [|done]. eapply rtc_l; [by apply watcher_done|done]. }
  assert (forall s1 err, watcher s1 = WSendErr err -> exists s', rtc (step e) s1 s' /\ watcher s' = WDead /\
    worker s' = worker s1 /\ main s' = main s1 /\ quiet s1 s') as H3.
  { intros s1 err Hw. destruct (H2 (set_watcher WDone (report (Some err) s1))) as (s' & Hr & H'); [done|].
    exists s'. split; [|done]. eapply rtc_l; [by apply watcher_report|done]. }
  destruct (watcher s) as [|err| | |] eqn:Hw; [|by eapply H3|by apply H2|by apply H1|by exists s].
  destruct (H3 (set_watcher (WSendErr (errorsNew "invalid ZK state: StateDisconnected")) s) _ eq_refl)
    as (s' & Hr & H'). exists s'. split; [|done].
  eapply rtc_l; [by apply (watcher_error e s zero_event (errorsNew "invalid ZK state: StateDisconnected"))|done].
Qed.

(** The calls of the election goroutine fail, its events are dropped, it leaves its loop. *)
Lemma worker_runs e p s : closing s = true -> worker s = ERun p -> watcher s = WDead -> shouldQuit s = true ->
  exists s' err, rtc (step e) s s' /\ worker s' = ESendErr err /\ watcher s' = WDead /\ main s' = main s /\ quiet s s'.
Proof.
  revert s. induction p as [[err|lp]|X c k IH]; intros s Hc Hw Hd Hq.
  - eexists _, _. split; [by apply rtc_once, worker_fail|done].
  - exists (set_worker (ESendErr None) (set_worker (ESelect lp) s)), None. split; [|done].
    eapply rtc_l; [by apply worker_ready|]. by apply rtc_once, (worker_quit e _ lp).
  - destruct c as [X c|p d|p|i b|ev].
    + destruct (IH (Fail (errorsNew "")) (set_worker (ERun (k (Fail (errorsNew "")))) s)) as (s' & err & Hr & H'); try done.
      exists s', err. split; [|done]. eapply rtc_l; [by eapply worker_zk|done].
    + destruct (IH (Fail (errorsNew "")) (set_worker (ERun (k (Fail (errorsNew "")))) s)) as (s' & err & Hr & H'); try done.
      exists s', err. split; [|done]. eapply rtc_l; [by eapply worker_lock|done].
    + destruct (IH (Fail (errorsNew "")) (set_worker (ERun (k (Fail (errorsNew "")))) s)) as (s' & err & Hr & H'); try done.
      exists s', err. split; [|done]. eapply rtc_l; [by eapply worker_children|done].
    + destruct (IH (isLeader s) (set_worker (ERun (k (isLeader s))) (set_leader i b s))) as (s' & err & Hr & H'); try done.
      exists s', err. split; [|done]. eapply rtc_l; [by eapply worker_set|done].
    + destruct (IH tt (set_worker (ERun (k tt)) (sent ev false s))) as (s' & err & Hr & H'); try done.
      exists s', err. split; [|done]. eapply rtc_l; [by eapply worker_send, send_dropped|done].
Qed.

Lemma worker_stops e s : closing s = true -> watcher s = WDead -> shouldQuit s = true ->
  exists s', rtc (step e) s s' /\ worker s' = EDead /\ watcher s' = WDead /\ main s' = main s /\ quiet s s'.
Proof.
  intros Hc Hd Hq.
  assert (forall s1, worker s1 = ECancel -> watcher s1 = WDead -> exists s', rtc (step e) s1 s' /\
    worker s' = EDead /\ watcher s' = WDead /\ main s' = main s1 /\ quiet s1 s') as H1.
  { intros s1 Hw Hwd. eexists. split; [by apply rtc_once, worker_cancel|done]. }
  assert (forall s1, worker s1 = EDone -> watcher s1 = WDead -> exists s', rtc (step e) s1 s' /\
    worker s' = EDead /\ watcher s' = WDead /\ main s' = main s1 /\ quiet s1 s') as H2.
  { intros s1 Hw Hwd. destruct (H1 (set_worker ECancel (wg_Done s1))) as (s' & Hr & H'); [done|done|].
    exists s'. split; [|done]. eapply rtc_l; [by apply worker_done|done]. }
  assert (forall s1 err, worker s1 = ESendErr err -> watcher s1 = WDead -> exists s', rtc (step e) s1 s' /\
    worker s' = EDead /\ watcher s' = WDead /\ main s' = main s1 /\ quiet s1 s') as H3.
  { intros s1 err Hw Hwd. destruct (H2 (set_worker EDone (report err s1))) as (s' & Hr & H'); [done|done|].
    exists s'. split; [|done]. eapply rtc_l; [by apply worker_report|done]. }
  destruct (worker s) as [p|lp|err| | |] eqn:Hw; [| |by eapply H3|by apply H2|by apply H1|by exists s].
  - destruct (worker_runs e p s Hc Hw Hd Hq) as (s1 & err & Hr1 & Hw1 & Hd1 & Hm1 & Hq1).
    destruct (H3 s1 err Hw1 Hd1) as (s2 & Hr2 & Hw2 & Hd2 & Hm2 & Hq2).
    exists s2. split; [by etrans|]. split; [done|]. split; [done|]. split; [congruence|].
    by eapply quiet_trans.
  - destruct (H3 (set_worker (ESendErr None) s) None) as (s' & Hr & H'); [done|done|].
    exists s'. split; [|done]. eapply rtc_l; [by apply (worker_quit e s lp)|done].
Qed.
Lemma main_stops e s : closing s = true -> wg s = 0%Z ->
  exists s', rtc (step e) s s' /\ main s' = MDead /\ quiet s s'.
Proof.
  intros Hc Hz.
  assert (forall s1, main s1 = MCloseEvents -> exists s', rtc (step e) s1 s' /\ main s' = MDead /\ quiet s1 s') as H1.
  { intros s1 Hm. eexists. split; [by apply rtc_once, main_close_events|done]. }
  assert (forall s1 err, main s1 = MSend err -> closing s1 = true ->
    exists s', rtc (step e) s1 s' /\ main s' = MDead /\ quiet s1 s') as H2.
  { intros s1 err Hm Hc1. destruct (H1 (set_main MCloseEvents (sent (MkEvent false err) false s1)) eq_refl) as (s' & Hr & H').
    exists s'. split; [|done]. eapply rtc_l; [by eapply main_send, send_dropped|done]. }
  assert (forall s1, main s1 = MRecv -> closing s1 = true ->
    exists s', rtc (step e) s1 s' /\ main s' = MDead /\ quiet s1 s') as H3.
  { intros s1 Hm Hc1. destruct (H2 (take_err s1) _ eq_refl) as (s' & Hr & H'); [done|].
    exists s'. split; [|done]. eapply rtc_l; [by apply main_recv|done]. }
  assert (forall s1, main s1 = MCloseErrch -> closing s1 = true ->
    exists s', rtc (step e) s1 s' /\ main s' = MDead /\ quiet s1 s') as H4.
  { intros s1 Hm Hc1. destruct (H3 (close_errch s1) eq_refl) as (s' & Hr & H'); [done|].
    exists s'. split; [|done]. eapply rtc_l; [by apply main_close_errch|done]. }
  destruct (main s) eqn:Hm; [|by apply H4|by apply H3|by eapply H2|by apply H1|by exists s].
  destruct (H4 (set_main MCloseErrch s) eq_refl) as (s' & Hr & H'); [done|].
  exists s'. split; [|done]. eapply rtc_l; [by apply main_wait|done].
Qed.
