(* ===== verification/ElectorConn.v ===== *)
(** * elector: connecting and starting (connector.go, connector_new.go,
    connector_existing.go, and [Start] and [Close] of elector.go). *)
From S2P Require Import Prelude.
From S2P Require Import GoStrings.
From S2P Require Import GoErrors.
From S2P Require Import ZkClient.
From S2P Require Import ZkService.
From S2P Require Import GoPath.
From S2P Require Import ElectorSeq.
From S2P Require Import ElectorRun.

Local Open Scope string_scope.

(** ** The interface [Connector]. [C] is the connector's state, [Conn] a connection, [Call]
    a call on the client library; an events channel is the inputs still to come on it. The
    answer [None] is a [Connect] that goes on waiting. *)
Class Connector (C Conn Call : Type) : Type := {
  connector_Connect : C -> option (res error (Conn * list wait_input)) * C * list Call;
  connector_Close : C -> res error unit * C * list Call;
}.

(** ** connector.go: the interface [Conn] and the adapter that implements it with functions *)
Class Conn_ (K : Type) : Type := {
  conn_Get : K -> string -> res error (string * Stat);
  conn_Exists : K -> string -> res error (bool * option Stat);
  conn_Create : K -> string -> string -> Z -> list ACL -> res error string;
  conn_CreateProtectedEphemeralSequential : K -> string -> string -> list ACL -> res error string;
  conn_ChildrenW : K -> string -> res error (list string);
}.
Record ConnAdapter : Type := MkConnAdapter {
  GetF : string -> res error (string * Stat);
  ExistsF : string -> res error (bool * option Stat);
  CreateF : string -> string -> Z -> list ACL -> res error string;
  CreateProtectedEphemeralSequentialF : string -> string -> list ACL -> res error string;
  ChildrenWF : string -> res error (list string);
}.
#[global] Instance adapter_conn : Conn_ ConnAdapter :=
  {| conn_Get c path := GetF c path;
     conn_Exists c path := ExistsF c path;
     conn_Create c path data flags acl := CreateF c path data flags acl;
     conn_CreateProtectedEphemeralSequential c path data acl := CreateProtectedEphemeralSequentialF c path data acl;
     conn_ChildrenW c path := ChildrenWF c path |}.
(** The call on a connection behind a command of the election goroutine, with the arguments
    the commands leave out: no flags, the elector's access list. The other commands make no
    call. *)
Definition perform {K} `{!Conn_ K} (conn : K) (e : Elector) {X} (c : ecmd X) : option X :=
  match c in ecmd X return option X with
  | EZk c =>
      match c in zkcmd X return option (res error X) with
      | Get_ path => Some (conn_Get conn path)
      | Exists_ path => Some (conn_Exists conn path)
      | Create path data => Some (conn_Create conn path data 0 (acl e))
      | _ => None
      end
  | ECreateLock path data => Some (conn_CreateProtectedEphemeralSequential conn path data (acl e))
  | EChildrenW path => Some (conn_ChildrenW conn path)
  | _ => None
  end.
(** The whole program over a connection: what it returns, and the view and events it leaves;
    [None] when it asks for what a connection does not have. *)
Fixpoint over {K A} `{!Conn_ K} (conn : K) (e : Elector) (p : eprog A) (v : string * bool * list Event)
    : option (A * (string * bool * list Event)) :=
  match p with
  | ERet a => Some (a, v)
  | @EDo _ X c k =>
      match c in ecmd X return option X -> (X -> string * bool * list Event -> option (A * (string * bool * list Event))) ->
          option (A * (string * bool * list Event)) with
      | ESetLeader i b => fun _ K => K (snd (fst v)) (i, b, snd v)
      | ESend ev => fun _ K => K tt (fst v, (snd v ++ [ev])%list)
      | _ => fun r K => match r with Some x => K x v | None => None end
      end (perform conn e c) (fun x => over conn e (k x))
  end.

(** ** connector_new.go *)
Record ConnectionOpts : Type := MkConnectionOpts {
  ConnectTimeout : Z;
  InitialSessionTimeout : Z;
  AuthSchema : string;
  AuthSecret : string;
}.
Definition defaultConnectTimeout : Z := 5 * second.
Definition defaultInitialSessionTimeout : Z := 5 * second.
Definition durationOrDefault (duration defaultDuration : Z) : Z :=
  if negb (duration =? 0)%Z then duration else defaultDuration.
Record newConnection (Conn : Type) : Type := MkNewConnection {
  addrs : list string;
  opts : ConnectionOpts;
  conn : option Conn;
  once : bool;
}.
Arguments MkNewConnection {Conn} _ _ _ _.
Arguments addrs {Conn} _.
Arguments opts {Conn} _.
Arguments conn {Conn} _.
Arguments once {Conn} _.
Definition NewConnection {Conn} (addrs : list string) (opts : ConnectionOpts) : newConnection Conn :=
  MkNewConnection addrs opts None false.
(** [waitForSession], and the events it leaves in the channel *)
Fixpoint waitForSession (inputs : list wait_input) : option (res error unit * list wait_input) :=
  match inputs with
  | [] => None
  | Received e :: inputs =>
      if bool_decide (State e = StateHasSession) then Some (Ok tt, inputs) else waitForSession inputs
  | Deadline :: inputs => Some (Fail (errorsNew "timed out"), inputs)
  end.
Section new.
Context {Conn : Type} (env : conn_env Conn).
Definition Connect (c : newConnection Conn)
    : option (res error (Conn * list wait_input)) * newConnection Conn * list (conn_call Conn) :=
  let connectTimeout := durationOrDefault (ConnectTimeout (opts c)) defaultConnectTimeout in
  let calls := [CConnect (addrs c) connectTimeout] in
  match zk_Connect env (addrs c) connectTimeout with
  | Fail err => (Some (Fail (errorsWrap "connection failed" err)), c, calls)
  | Ok conn =>
      let auth := negb (bool_decide (AuthSchema (opts c) = "")) || (0 <? len (AuthSchema (opts c)))%Z in
      let calls := (calls ++ if auth then [CAddAuth conn (AuthSchema (opts c)) (AuthSecret (opts c))] else [])%list in
      match (if auth then zk_AddAuth env conn (AuthSchema (opts c)) (AuthSecret (opts c)) else Ok tt) with
      | Fail err => (Some (Fail (errorsWrap "authentication failed" err)), c, calls)
      | Ok _ =>
          let c := MkNewConnection (addrs c) (opts c) (Some conn) (once c) in
          let sessionWaitTimeout :=
            durationOrDefault (InitialSessionTimeout (opts c)) defaultInitialSessionTimeout in
          match waitForSession (zk_events env conn sessionWaitTimeout) with
          | None => (None, c, calls)
          | Some (Fail err, _) => (Some (Fail (errorsWrap "session could not be established" err)), c, calls)
          | Some (Ok _, zkEvents) => (Some (Ok (conn, zkEvents)), c, calls)
          end
      end
  end.
(** [Close]: the closure of the [sync.Once] calls the connection's [Close], which panics on
    a nil connection. *)
Definition Close (c : newConnection Conn) : res error unit * newConnection Conn * list (conn_call Conn) :=
  if once c then (Ok tt, c, [])
  else
    let c' := MkNewConnection (addrs c) (opts c) (conn c) true in
    match conn c with
    | None => (Fail (goPanic "invalid memory address or nil pointer dereference"), c', [])
    | Some cn => (Ok tt, c', [CClose cn])
    end.
Instance new_connector : Connector (newConnection Conn) Conn (conn_call Conn) :=
  {| connector_Connect := Connect; connector_Close := Close |}.
End new.

(** ** connector_existing.go *)
Record existingConnection (Conn : Type) : Type := MkExisting { ex_conn : Conn; ex_events : list wait_input }.
Arguments MkExisting {Conn} _ _.
Arguments ex_conn {Conn} _.
Arguments ex_events {Conn} _.
Definition ExistingConnection {Conn} (conn : Conn) (events : list wait_input) : existingConnection Conn :=
  MkExisting conn events.
Definition existing_Connect {Conn} (e : existingConnection Conn)
    : option (res error (Conn * list wait_input)) * existingConnection Conn * list (conn_call Conn) :=
  (Some (Ok (ex_conn e, ex_events e)), e, []).
Definition existing_Close {Conn} (e : existingConnection Conn)
    : res error unit * existingConnection Conn * list (conn_call Conn) := (Ok tt, e, []).
#[global] Instance existing_connector {Conn} : Connector (existingConnection Conn) Conn (conn_call Conn) :=
  {| connector_Connect := existing_Connect; connector_Close := existing_Close |}.

(** ** [Start] and [Close] of an elector, over any connector *)
Section start.
Context {C Conn Call : Type} `{!Connector C Conn Call}.
Record handle : Type := MkHandle {
  elector : Elector;
  el_conn : Conn;
  zkEvents : list wait_input;  (* what the background goroutines are started with *)
  connector : C;
  el_closing : bool;
}.
(** The answer, the connector and the calls made; the handle owns the connector's state once
    there is one. *)
Definition Start (ident basePath : string) (acl : option (list ACL)) (c : C)
    : option (res error handle) * C * list Call :=
  if bool_decide (TrimSpace ident = "") then (Some (Fail (errorsNew "ident must not be blank")), c, [])
  else
    let acl := match acl with None => WorldACL PermAll | Some acl => acl end in
    match connector_Connect c with
    | (None, c, calls) => (None, c, calls)
    | (Some (Fail err), c, calls) => (Some (Fail err), c, calls)
    | (Some (Ok (conn, zkEvents)), c, calls) =>
        (Some (Ok (MkHandle (MkElector acl ident basePath) conn zkEvents c false)), c, calls)
    end.
Definition Elector_Close (h : handle) : res error unit * handle * list Call :=
  let '(r, c, calls) := connector_Close (connector h) in
  (r, MkHandle (elector h) (el_conn h) (zkEvents h) c true, calls).
Fixpoint close_times (n : nat) (h : handle) : list (res error unit) * handle * list Call :=
  match n with
  | O => ([], h, [])
  | S n =>
      let '(r, h, calls) := Elector_Close h in
      let '(rs, h, more) := close_times n h in
      (r :: rs, h, (calls ++ more)%list)
  end.
(** What the background goroutines start from. *)
Definition run_of (h : handle) : state :=
  if el_closing h then close_elector (start_state (elector h)) else start_state (elector h).
End start.
Arguments handle : clear implicits.

(** ** Lemmas *)
Lemma waitForSession_rest inputs rest :
  waitForSession inputs = Some (Ok tt, rest) ->
  exists pre i, inputs = (pre ++ i :: rest)%list /\ has_session i /\ Forall (fun j => ~ has_session j /\ j <> Deadline) pre.
Proof.
  induction inputs as [|[e|] inputs IH]; simpl; [done| |done]. case_bool_decide as He.
  - intros [= ->]. by exists [], (Received e).
  - intros (pre & i & -> & Hi & Hp)%IH. exists (Received e :: pre), i. split; [done|].
    split; [done|]. constructor; [|done]. by split.
Qed.
(** The session is waited for as the other package does. *)
Lemma waitForSession_same inputs :
  ZkClient.waitForSession inputs = option_map fst (waitForSession inputs).
Proof.
  induction inputs as [|[e|] inputs IH]; simpl; [done| |done]. by case_bool_decide.
Qed.

Section closing.
Context {Conn : Type} (env : conn_env Conn).
Notation close_new := (close_times (Connector0 := new_connector env)).
Lemma Connect_ok (c c' : newConnection Conn) cn evs calls :
  Connect env c = (Some (Ok (cn, evs)), c', calls) ->
  conn c' = Some cn /\ once c' = once c
  /\ (exists pre i, zk_events env cn (durationOrDefault (InitialSessionTimeout (opts c))
        defaultInitialSessionTimeout) = (pre ++ i :: evs)%list
        /\ has_session i /\ Forall (fun j => ~ has_session j /\ j <> Deadline) pre).
Proof.
  unfold Connect. destruct (zk_Connect env _ _) as [|cn0]; [done|].
  destruct (if _ : bool then zk_AddAuth env _ _ _ else _) as [|[]]; [done|].
  destruct (waitForSession _) as [[[|[]] rest]|] eqn:Hw; [done| |done].
  intros [= -> -> <- <-]. split; [done|]. split; [done|]. by apply waitForSession_rest.
Qed.
Lemma close_after_once n (h : handle (newConnection Conn) Conn) :
  once (connector h) = true ->
  exists h', close_new n h = (replicate n (Ok tt), h', []) /\ (n = 0 -> h' = h)
    /\ (0 < n -> el_closing h' = true).
Proof.
  revert h. induction n as [|n IH]; simpl; intros h Ho; [exists h; split_and!; done || lia|].
  unfold Elector_Close. simpl. unfold Close. rewrite Ho.
  edestruct IH as (h' & -> & H0 & Hn); [exact Ho|]. exists h'. split; [done|]. split; [done|].
  intros _. destruct n; [|apply Hn; lia]. by rewrite H0.
Qed.
Lemma close_elector_kept n (h h' : handle (newConnection Conn) Conn) rs calls :
  close_new n h = (rs, h', calls) -> elector h' = elector h.
Proof.
  revert h rs calls. induction n as [|n IH]; simpl; intros h rs calls; [by intros [= _ -> _]|].
  unfold Elector_Close. destruct (connector_Close _) as [[r c] cs].
  destruct (close_new n _) as [[rs' h1] more] eqn:Hc. intros [= _ -> _]. by apply IH in Hc.
Qed.
End closing.

(** The election asks its connection for the five methods of [Conn] and nothing else, so it
    runs to a return, or to its [select], over any connection. *)
Fixpoint supported {A} (p : prog A) : Prop :=
  match p with
  | Ret _ => True
  | Do c k => match c with Exists_ _ | Create _ _ | Get_ _ => True | _ => False end /\ forall r, supported (k r)
  end.
Lemma initialize_loop_supported create segments : supported (initialize_loop create segments).
Proof.
  revert create. induction segments as [|w segments IH]; intros create; simpl; [done|].
  split; [done|]. intros [err|[[] st]]; [done|apply IH|]. split; [done|]. intros [err|p]; [done|apply IH].
Qed.
Lemma over_lift {K A B} `{!Conn_ K} (cn : K) e (p : prog A) (f : A -> eprog B) v :
  supported p -> (forall a, exists x, over cn e (f a) v = Some x) ->
  exists x, over cn e (ebind (lift p) f) v = Some x.
Proof.
  intros Hp Hf. induction p as [a|X c k IH]; simpl; [apply Hf|]. destruct Hp as [Hc Hk].
  destruct c; try done; simpl; apply IH, Hk.
Qed.
Lemma elect_over {K} `{!Conn_ K} (cn : K) (e : Elector) v : exists x, over cn e (elect e) v = Some x.
Proof.
  apply over_lift.
  - unfold initialize. simpl. split; [done|]. intros [err|[[] st]]; [done|done|apply initialize_loop_supported].
  - intros [err|[]]; simpl; [by eexists|].
    destruct (conn_CreateProtectedEphemeralSequential _ _ _ _) as [err|lp]; [by eexists|]. simpl.
    destruct (conn_ChildrenW _ _) as [err|children]; [by eexists|]. unfold updateFunc.
    destruct (determineLeader lp children) as [[b n] [err|[]]]; [by eexists|]. simpl.
    destruct (conn_Get _ _) as [err|[d z]]; [by eexists|]. simpl. rewrite andb_false_r. simpl. by eexists.
Qed.

(** ** Properties *)
(** The same connector in zkstore. *)
Definition twin {Conn} (c : newConnection Conn) : ZkClient.newConnection Conn :=
  ZkClient.MkNewConnection (addrs c)
    (ZkClient.MkConnectionOpts (ConnectTimeout (opts c)) (InitialSessionTimeout (opts c))
      (AuthSchema (opts c)) (AuthSecret (opts c))) (conn c) (once c).
(** C23. The two copies of the connector, in zkstore and here, are equivalent: from the same
    state and whatever the client library answers, they make the same calls, wait the same
    way, answer the same (the events channel apart) and end in the same state. *)
Theorem connectors_agree {Conn} (env : conn_env Conn) (c : newConnection Conn) :
  (let '(r, c', calls) := Connect env c in
   ZkClient.Connect env (twin c)
   = (option_map (fun r => match r with Fail err => Fail err | Ok (cn, _) => Ok cn end) r, twin c', calls)) /\
  (let '(r, c', calls) := Close c in ZkClient.Close (twin c) = (r, twin c', calls)).
Proof.
  split.
  - unfold Connect, ZkClient.Connect, durationOrDefault, defaultConnectTimeout, defaultInitialSessionTimeout.
    simpl. fold (ZkClient.durationOrDefault (ConnectTimeout (opts c)) ZkClient.defaultConnectTimeout).
    destruct (zk_Connect env _ _) as [err|cn]; [done|].
    destruct (negb _ || _); simpl.
    + destruct (zk_AddAuth env cn _ _) as [err|[]]; [done|]. rewrite waitForSession_same.
      by destruct (waitForSession _) as [[[err|[]] rest]|].
    + rewrite waitForSession_same. by destruct (waitForSession _) as [[[err|[]] rest]|].
  - unfold Close, ZkClient.Close. simpl. by destruct (once c), (conn c).
Qed.

(** C22. [Start] over a new connection that succeeds was given an identity that is not blank;
    the connection has had a session and the elector's goroutines are started with exactly
    the ZooKeeper events that follow it; the default access list is the open one. However
    often the elector is closed afterwards, the connection is closed exactly once and no
    [Close] fails. *)
Theorem Start_lifecycle {Conn} (env : conn_env Conn) ident basePath acl (c c' : newConnection Conn)
    (h : handle (newConnection Conn) Conn) calls n :
  once c = false ->
  Start (Connector0 := new_connector env) ident basePath acl c = (Some (Ok h), c', calls) ->
  TrimSpace ident <> ""
  /\ elector h = MkElector (default [MkACL 31 "world" "anyone"] acl) ident basePath
  /\ (exists pre i, zk_events env (el_conn h) (durationOrDefault (InitialSessionTimeout (opts c))
        defaultInitialSessionTimeout) = (pre ++ i :: zkEvents h)%list
        /\ has_session i /\ Forall (fun j => ~ has_session j /\ j <> Deadline) pre)
  /\ run_of h = start_state (elector h)
  /\ exists h', close_times (Connector0 := new_connector env) (S n) h
                = (replicate (S n) (Ok tt), h', [CClose (el_conn h)])
       /\ el_closing h' = true /\ run_of h' = close_elector (start_state (elector h)).
Proof.
  intros Ho. unfold Start. simpl. case_bool_decide as Hi; [done|].
  destruct (Connect env c) as [[[[|[cn evs]]|] c1] calls1] eqn:Hc; try done.
  intros [= <- <- <-]. apply Connect_ok in Hc as (Hcn & Hon & Hev). simpl.
  split; [done|]. split; [by destruct acl|]. split; [done|]. split; [done|].
  unfold Elector_Close. simpl. unfold Close. rewrite Hon, Ho, Hcn.
  edestruct (close_after_once env n) as (h' & Heq & H0 & Hn); [|rewrite Heq; exists h'; split; [done|]].
  { done. }
  assert (el_closing h' = true /\ elector h' = MkElector match acl with Some acl => acl | None => WorldACL PermAll end ident basePath) as [Hcl Hel].
  { destruct n; [by rewrite H0|]. split; [apply Hn; lia|]. by apply close_elector_kept in Heq. }
  split; [done|]. unfold run_of. by rewrite Hcl, Hel.
Qed.

(** Over an existing connection [Start] and [Close] make no call at all: the connection stays
    open, and nothing tells the goroutines that wait for its events that the elector is
    closed. *)
Lemma existing_makes_no_call {Conn} ident basePath acl (conn : Conn) events n :
  TrimSpace ident <> "" ->
  exists h, Start ident basePath acl (ExistingConnection conn events) = (Some (Ok h), ExistingConnection conn events, [])
    /\ el_conn h = conn /\ zkEvents h = events
    /\ snd (close_times n h) = [] /\ shouldQuit (run_of (snd (fst (close_times n h)))) = false.
Proof.
  intros Hi. unfold Start. case_bool_decide; [done|]. simpl. eexists. split; [done|]. simpl.
  split; [done|]. split; [done|].
  assert (forall h : handle (existingConnection Conn) Conn, snd (close_times n h) = []) as Hnil.
  { induction n as [|n IH]; intros h; simpl; [done|]. specialize (IH (MkHandle (elector h) (el_conn h) (zkEvents h) (connector h) true)).
    destruct (close_times n _) as [[rs h1] more]. simpl in *. done. }
  split; [apply Hnil|]. unfold run_of. by destruct (el_closing _).
Qed.

Definition opts_auth : ConnectionOpts := MkConnectionOpts 0 0 "digest" "user:pass".
Lemma Start_lifecycle_witness :
  let c := NewConnection ["zk:2181"] opts_auth in
  let r := Start (Connector0 := new_connector (demo_env (Ok tt))) "me" "/election" None c in
  exists h, fst (fst r) = Some (Ok h) /\ el_conn h = 7
    /\ exists h', close_times (Connector0 := new_connector (demo_env (Ok tt))) 3 h
                  = (replicate 3 (Ok tt), h', [CClose 7])
         /\ el_closing h' = true /\ run_of h' = close_elector (start_state (elector h)).
Proof.
  eexists. split; [vm_compute; reflexivity|]. split; [reflexivity|].
  edestruct (Start_lifecycle (demo_env (Ok tt)) "me" "/election" None (NewConnection ["zk:2181"] opts_auth))
    as (_ & _ & _ & _ & H); [reflexivity|vm_compute; reflexivity|exact H].
Defined.
