(* ===== verification/ElectorTheorems.v ===== *)
(** * elector: the properties of a running elector: what the client sees, how it stops,
    who leads, and the creation of the base path. *)
From S2P Require Import Prelude.
From S2P Require Import GoStrings.
From S2P Require Import GoPath.
From S2P Require Import GoErrors.
From S2P Require Import ZkClient.
From S2P Require Import ZkService.
From S2P Require Import ElectorSeq.
From S2P Require Import ElectorRun.

Local Open Scope string_scope.

(** ** [initialize] against its specification *)
(** The missing znodes on the way from [pre] along [rest], empty. *)
Fixpoint ensure (t : tree) (pre rest : list string) : tree :=
  match rest with
  | [] => t
  | w :: rest =>
      let q := (pre ++ [w])%list in
      ensure (match t !! q with Some _ => t | None => <[q := Znode "" 0]> t end) q rest
  end.
Lemma ensure_keep (rest pre : list string) (t : tree) (q : list string) n :
  t !! q = Some n -> ensure t pre rest !! q = Some n.
Proof.
  revert t pre. induction rest as [|w rest IH]; intros t pre Hq; simpl; [done|].
  apply IH. case_match; [done|]. rewrite lookup_insert_ne; [done|]. intros <-. congruence.
Qed.
Lemma ensure_new (rest pre k : list string) (t : tree) :
  k `prefix_of` rest -> is_Some (t !! pre) -> is_Some (ensure t pre rest !! (pre ++ k)%list).
Proof.
  revert t pre k. induction rest as [|w rest IH]; intros t pre k Hk Hp; simpl.
  - apply prefix_nil_inv in Hk as ->. by rewrite app_nil_r.
  - assert (is_Some ((match t !! (pre ++ [w])%list with Some _ => t
      | None => <[(pre ++ [w])%list := Znode "" 0]> t end) !! (pre ++ [w])%list)) as Hw.
    { case_match; [by eexists|]. rewrite lookup_insert_eq. by eexists. }
    destruct k as [|w' k].
    + rewrite app_nil_r. destruct Hp as [n Hn]. exists n. apply ensure_keep.
      case_match; [done|]. rewrite lookup_insert_ne; [done|]. intros Heq.
      apply (f_equal length) in Heq. rewrite length_app in Heq. simpl in Heq. lia.
    + apply prefix_cons_inv_1 in Hk as Hw'. subst w'. apply prefix_cons_inv_2 in Hk.
      replace (pre ++ w :: k)%list with ((pre ++ [w]) ++ k)%list by by rewrite <- app_assoc.
      by apply IH.
Qed.
(** Nothing else appears. *)
Lemma ensure_frame (rest pre q : list string) (t : tree) :
  ~ q `prefix_of` (pre ++ rest)%list -> ensure t pre rest !! q = t !! q.
Proof.
  revert t pre. induction rest as [|w rest IH]; intros t pre Hq; simpl; [done|].
  replace (pre ++ w :: rest)%list with ((pre ++ [w]) ++ rest)%list in Hq by by rewrite <- app_assoc.
  rewrite IH by done. case_match; [done|]. apply lookup_insert_ne. intros <-. apply Hq.
  by exists rest.
Qed.

Lemma run_initialize_loop (rest pre : list string) (t : tree) :
  Forall good_seg (pre ++ rest)%list -> is_Some (t !! pre) ->
  run (initialize_loop (abs_path pre) rest) t = (Ok tt, ensure t pre rest).
Proof.
  revert pre t. induction rest as [|w rest IH]; intros pre t Hg Hp; simpl; [done|].
  replace (pre ++ w :: rest)%list with ((pre ++ [w]) ++ rest)%list in * by by rewrite <- app_assoc.
  pose proof (proj1 (Forall_app _ _ _) Hg) as [Hq _].
  rewrite PathJoin_seg by done. rewrite (ref_do_good _ (pre ++ [w])) by done; simpl.
  destruct (t !! (pre ++ [w])%list) as [m|] eqn:Hw; simpl; [apply IH; by eauto|].
  rewrite (ref_do_good _ (pre ++ [w])) by done; simpl. rewrite Hw, parent_snoc.
  destruct Hp as [n Hn]. rewrite Hn. apply IH; [done|]. rewrite lookup_insert_eq. by eexists.
Qed.
Lemma run_initialize (e : Elector) (l : list string) (t : tree) :
  basePath e = abs_path l -> Forall good_seg l -> l <> [] -> tree_wf t ->
  run (initialize e) t = (Ok tt, match t !! l with Some _ => t | None => ensure t [] l end).
Proof.
  intros He Hl Hne Ht. unfold initialize. rewrite He. cbn [run]. unfold zk_do, ref_service.
  rewrite (ref_do_good _ l) by done. cbn [zk_spec].
  destruct (t !! l) as [n|] eqn:Hn; [done|]. rewrite Split_abs_path by done.
  cbn [initialize_loop]. change (PathJoin ["/"; ""]) with (abs_path []). cbn [run].
  unfold zk_do, ref_service. rewrite (ref_do_good _ []) by done. cbn [zk_spec].
  destruct Ht as [[r Hr] ?]. rewrite Hr.
  apply (run_initialize_loop l []); [done|by eexists].
Qed.
Lemma calls_initialize_loop (rest pre : list string) :
  Forall good_seg (pre ++ rest)%list -> calls plain_call (initialize_loop (abs_path pre) rest).
Proof.
  revert pre. induction rest as [|w rest IH]; intros pre Hg; simpl; [done|].
  replace (pre ++ w :: rest)%list with ((pre ++ [w]) ++ rest)%list in * by by rewrite <- app_assoc.
  pose proof (proj1 (Forall_app _ _ _) Hg) as [Hq _]. rewrite PathJoin_seg by done.
  assert (is_Some (parse_path (abs_path (pre ++ [w])))) as Hp by (rewrite parse_good by done; by eexists).
  split; [by split|]. intros [err|[[] ?]]; [done|by apply IH|]. split; [by split|].
  intros [err|?]; [done|by apply IH].
Qed.
Lemma calls_initialize (e : Elector) (l : list string) :
  basePath e = abs_path l -> Forall good_seg l -> l <> [] -> calls plain_call (initialize e).
Proof.
  intros He Hl Hne. unfold initialize. rewrite He.
  assert (is_Some (parse_path (abs_path l))) as Hp by (rewrite parse_good by done; by eexists).
  split; [by split|]. intros [err|[[] ?]]; [done|done|]. rewrite Split_abs_path by done.
  cbn [initialize_loop]. change (PathJoin ["/"; ""]) with (abs_path []).
  split; [split; [|done]; simpl; by eexists|]. intros [err|[[] ?]]; [done| |].
  - by apply calls_initialize_loop.
  - split; [split; [|done]; simpl; by eexists|]. intros [err|?]; [done|by apply calls_initialize_loop].
Qed.

(** ** Running the election goroutine against fixed answers *)
Record answers : Type := MkAnswers {
  ans_zk : forall X, zkcmd X -> res error X;
  ans_lock : string -> string -> res error string;
  ans_children : string -> res error (list string);
}.
(** What the elector knows and has sent: its leader ident, whether it leads, its events. *)
Definition elector_view : Type := (string * bool * list Event)%type.
Fixpoint erun {A} (env : answers) (p : eprog A) (v : elector_view) : A * elector_view :=
  match p with
  | ERet a => (a, v)
  | @EDo _ X c k =>
      match c in ecmd X return (X -> elector_view -> A * elector_view) -> A * elector_view with
      | EZk c => fun K => K (ans_zk env _ c) v
      | ECreateLock p d => fun K => K (ans_lock env p d) v
      | EChildrenW p => fun K => K (ans_children env p) v
      | ESetLeader i b => fun K => K (snd (fst v)) (i, b, snd v)
      | ESend ev => fun K => K tt (fst v, (snd v ++ [ev])%list)
      end (fun x => erun env (k x))
  end.
Lemma erun_watch (env : answers) (e : Elector) (lockPath : string) (first : bool)
    (children : list string) (b : bool) (node id : string) (z : Stat) (i0 : string) (b0 : bool)
    (evs : list Event) :
  ans_children env (basePath e) = Ok children ->
  determineLeader lockPath children = (b, node, Ok tt) ->
  ans_zk env _ (Get_ (PathJoin [basePath e; node])) = Ok (id, z) ->
  erun env (watch_children e lockPath first) (i0, b0, evs) =
    (Ok lockPath, (id, b, if bool_decide (b0 = b) && negb first then evs
                          else (evs ++ [MkEvent b None])%list)).
Proof.
  intros Hc Hd Hg. simpl. rewrite Hc. unfold updateFunc. rewrite Hd. simpl. rewrite Hg.
  unfold updateLeaderData. simpl. by destruct (bool_decide (b0 = b) && negb first).
Qed.

(** ** Properties *)

(** C19. What the client of an elector sees, in every run: leadership events without an
    error, each different from the one before, and then at most one event more, which
    carries an error and after which the channel is closed. Events reach the client in the
    order they are sent, and all of them unless the client closed the elector. Whenever the
    elector waits for a change, the last event sent is its current leadership. Nothing
    panics: no send on a closed channel, no second close, no negative wait group. *)
Theorem events_protocol (e : Elector) (s : state) :
  reachable e s ->
  panicked s = false /\
  exists att tail, attempted s = (leader_events att ++ tail)%list /\ alternates att /\
    (tail = [] \/ exists err, tail = [MkEvent false (Some err)]) /\
    (events_closed s = true -> tail <> []) /\
    (forall lockPath, worker s = ESelect lockPath -> last att = Some (isLeader s)) /\
    (delivered s `sublist_of` attempted s) /\
    (closing s = false -> delivered s = attempted s).
Proof.
  intros Hr. pose proof (reachable_sync e s Hr) as Hs. split; [apply Hs|].
  destruct (reachable_events e s Hr) as [(att & tail & Ha & Halt & Hw & Hl) Hsub Hop].
  exists att, tail. split; [done|]. split; [done|]. split; [|split; [|split; [|done]]].
  - destruct (main s); [by left|by left|by left|by left|by right|by right].
  - rewrite (sync_events s Hs). intros Hm%bool_decide_eq_true. rewrite Hm in Hl.
    by destruct Hl as [err ->].
  - intros lockPath Hsel. by rewrite Hsel in Hw.
Qed.

(** C20. An elector that was closed can always stop, wherever it is, without the client
    receiving anything more: once the connection is reported lost and the calls in progress
    fail, all three goroutines end. *)
Theorem closed_elector_can_stop (e : Elector) (s : state) :
  reachable e s -> closing s = true ->
  exists s', rtc (step e) s s' /\ main s' = MDead /\ watcher_left (watcher s') = 0%Z /\
    worker_left (worker s') = 0%Z /\ delivered s' = delivered s.
Proof.
  intros Hr Hc.
  assert (quit_inv s) as Hq.
  { refine (rtc_invariant (step e) quit_inv _ _ _ _ Hr); [apply quit_step|done]. }
  destruct (watcher_stops e s Hq) as (s1 & Hr1 & Hw1 & Hk1 & Hm1 & Hd1 & Hc1).
  assert (quit_inv s1) as Hq1.
  { refine (rtc_invariant (step e) quit_inv _ _ _ Hq Hr1). apply quit_step. }
  destruct (worker_stops e s1) as (s2 & Hr2 & Hw2 & Hk2 & Hm2 & Hd2 & Hc2); [congruence|done|by apply Hq1|].
  assert (sync_inv s2) as Hs2.
  { apply (reachable_sync e). unfold reachable. etrans; [exact Hr|]. by etrans. }
  destruct (main_stops e s2) as (s3 & Hr3 & Hm3 & Hd3 & Hc3).
  { congruence. }
  { rewrite (sync_wg s2 Hs2), Hk2, Hw2. done. }
  exists s3. split; [etrans; [exact Hr1|]; by etrans|]. split; [done|].
  assert (sync_inv s3) as Hs3.
  { apply (reachable_sync e). unfold reachable. etrans; [exact Hr|]. etrans; [exact Hr1|]. by etrans. }
  destruct (sync_left s3 Hs3) as [? ?]; [by rewrite Hm3|]. split; [done|]. split; [done|]. congruence.
Qed.

(** Electors that see the same lock nodes agree: after a listing of them, in whatever
    order, every elector names the same leader ident, the data of the least node, and
    exactly the one that owns this node leads; it tells its client when that is a change,
    or on its first listing. *)
Theorem election_agreement (locks : list string) (base : string) :
  locks <> [] -> Forall valid_child locks -> NoDup (map seq_of locks) ->
  exists leader, leader ∈ locks /\ (forall c, c ∈ locks -> (seq_of leader <= seq_of c)%Z) /\
    forall (e : Elector) (env : answers) listing lock path first id z i0 b0 evs,
      basePath e = base -> Permutation listing locks -> lock ∈ locks ->
      ans_children env base = Ok listing ->
      ans_zk env _ (Get_ (PathJoin [base; leader])) = Ok (id, z) ->
      let leads := bool_decide (lock = leader) in
      erun env (watch_children e (path ++ lock) first) (i0, b0, evs) =
        (Ok (path ++ lock), (id, leads, if bool_decide (b0 = leads) && negb first then evs
                                        else (evs ++ [MkEvent leads None])%list)).
Proof.
  intros Hne Hv Hnd.
  destruct (min_seq locks Hne) as (leader & Hin & Hmin).
  exists leader. split; [done|]. split; [done|].
  intros e env listing lock path first id z i0 b0 evs <- Hp Hlock Hls Hget leads.
  apply (erun_watch env e (path ++ lock) first listing leads leader id z); try done.
  by apply (determineLeader_permuted locks).
Qed.

(** Against a service that keeps its promises, [initialize] succeeds and makes the base
    path exist: znodes already there are untouched, the missing ones on the way are
    created empty, and nothing else changes. *)
Theorem initialize_creates_path {W} `{ZkReliable W} (e : Elector) (l : list string) (w : W) :
  basePath e = abs_path l -> Forall good_seg l -> l <> [] -> tree_wf (zk_view w) ->
  let '(r, w') := run (initialize e) w in
  r = Ok tt /\
  (forall k, k `prefix_of` l -> is_Some (zk_view w' !! k)) /\
  (forall q n, zk_view w !! q = Some n -> zk_view w' !! q = Some n) /\
  (forall q, ~ q `prefix_of` l -> zk_view w' !! q = zk_view w !! q).
Proof.
  intros He Hl Hne Ht. pose proof (wp_run_reliable (initialize e) _ w (wp_plain_reliable _ _
    (calls_initialize e l He Hl Hne))) as Hrun.
  destruct (run (initialize e) w) as [r w']. cbn [fst snd] in Hrun.
  rewrite (run_initialize e l) in Hrun by done. injection Hrun as -> Hview. split; [done|].
  rewrite Hview. destruct (zk_view w !! l) as [n|] eqn:Hn.
  - split; [|done]. intros k [k' ->]. apply (tree_wf_prefix _ k k'); [done|by eexists].
  - split; [intros k Hk; apply (ensure_new l [] k); [done|apply Ht]|].
    split; [intros q n; apply ensure_keep|]. intros q Hq. by apply ensure_frame.
Qed.

(** ** Two electors that start at the same time *)
Definition demo : Elector := MkElector (WorldACL PermAll) "10.0.0.1" "/services/leader".
Definition empty_tree : tree := {[ [] := Znode "" 0 ]}.
(** Both find the base path missing; one creates it, the other goes on. *)
Definition start_schedule : list nat := ([1; 1; 1] ++ replicate 8 0 ++ [1; 1])%list.
Definition start_end : conc_state tree (res error unit) :=
  run_schedule start_schedule ([initialize demo; initialize demo], empty_tree).

(** Two electors can start at the same time and one of them fail: [initialize] does not
    take "exists already" for an answer, so when both find the base path missing, there is
    an interleaving in which one succeeds and the other, and with it its election, ends
    with that error although the base path exists. *)
Theorem initialize_race :
  exists t err, rtc conc_step ([initialize demo; initialize demo], empty_tree)
    ([Ret (Ok tt); Ret (Fail err)], t) /\
  Cause err = zkError ErrNodeExists /\ is_Some (t !! ["services"; "leader"]).
Proof.
  set (err := errorsWrap "could not create path '/services'" (zkError ErrNodeExists)).
  exists (snd start_end), err. split; [|split; [done|apply (bool_decide_unpack _); vm_compute; exact I]].
  replace [Ret (Ok tt); Ret (Fail err)] with (fst start_end).
  - rewrite <- surjective_pairing. apply run_schedule_conc.
  - apply (outcomes_Ret _ [Ok tt; Fail err]). vm_compute. reflexivity.
Qed.

(** ** Witnesses *)
(** A run to the end: the session is lost before anything else happens. *)
Definition lost : error := errorsNew "invalid ZK state: StateDisconnected".
Lemma run_to_error : exists s, reachable demo s /\ closing s = true /\ watcher s = WDone.
Proof.
  exists (set_watcher WDone (report (Some lost) (set_watcher (WSendErr lost)
    (close_elector (start_state demo))))). split; [|done].
  unfold reachable. eapply rtc_l; [apply client_close|].
  eapply rtc_l; [by apply (watcher_error _ _ zero_event lost)|].
  by apply rtc_once, watcher_report.
Qed.
Lemma events_protocol_witness :
  exists s, reachable demo s /\ watcher s = WDone /\ panicked s = false.
Proof.
  destruct run_to_error as (s & Hr & _ & Hw). exists s. split; [done|]. split; [done|].
  exact (proj1 (events_protocol demo s Hr)).
Defined.
Lemma closed_elector_can_stop_witness :
  exists s', reachable demo s' /\ main s' = MDead.
Proof.
  destruct run_to_error as (s & Hr & Hc & _).
  destruct (closed_elector_can_stop demo s Hr Hc) as (s' & Hr' & Hm & _). exists s'.
  split; [unfold reachable; by etrans|done].
Defined.
Lemma election_agreement_witness :
  exists leader, leader ∈ locks /\ (forall c, c ∈ locks -> (seq_of leader <= seq_of c)%Z) /\
    forall (e : Elector) (env : answers) listing lock path first id z i0 b0 evs,
      basePath e = "/b" -> Permutation listing locks -> lock ∈ locks ->
      ans_children env "/b" = Ok listing ->
      ans_zk env _ (Get_ (PathJoin ["/b"; leader])) = Ok (id, z) ->
      let leads := bool_decide (lock = leader) in
      erun env (watch_children e (path ++ lock) first) (i0, b0, evs) =
        (Ok (path ++ lock), (id, leads, if bool_decide (b0 = leads) && negb first then evs
                                        else (evs ++ [MkEvent leads None])%list)).
Proof. exact (election_agreement locks "/b" ltac:(discriminate) locks_valid locks_distinct). Defined.
Lemma empty_tree_wf : tree_wf empty_tree.
Proof.
  split; [by eexists|]. intros l n. unfold empty_tree. rewrite lookup_singleton_ne; [by intros []|].
  by destruct l.
Qed.
Lemma initialize_creates_path_witness :
  let '(r, t) := run (initialize demo) empty_tree in
  r = Ok tt /\ (forall k, k `prefix_of` ["services"; "leader"] -> is_Some (t !! k)) /\
  (forall q n, empty_tree !! q = Some n -> t !! q = Some n) /\
  (forall q, ~ q `prefix_of` ["services"; "leader"] -> t !! q = empty_tree !! q).
Proof.
  refine (initialize_creates_path (W:=tree) (H:=ref_service) demo ["services"; "leader"] empty_tree
    _ _ _ empty_tree_wf).
  - reflexivity.
  - apply (bool_decide_unpack _). vm_compute. exact I.
  - discriminate.
Defined.
