(* ===== verification/ElectorSystem.v ===== *)
(** * elector: any number of electors on one ZooKeeper. Each runs as ElectorRun says; the
    service creates and removes lock nodes, answers listings truly and fires the watches of
    a listing when the locks change. *)
From S2P Require Import Prelude.
From S2P Require Import GoStrings.
From S2P Require Import GoPath.
From S2P Require Import GoErrors.
From S2P Require Import ZkClient.
From S2P Require Import ZkService.
From S2P Require Import ElectorSeq.
From S2P Require Import ElectorRun.

Local Open Scope string_scope.

(** ** The state *)
(** A lock node under the base path: its name and the ident its elector stored in it. *)
Record lock_node : Type := MkLock { lname : string; ldata : string }.
(** An elector that runs. [fired]: an event of the watch its last listing set is pending. *)
Record member : Type := MkMember { who : Elector; run_state : state; fired : bool }.
Record sys : Type := MkSys {
  locks : list lock_node;
  counter : Z;  (* the number of the next lock *)
  members : list member;
}.
Definition start_sys (es : list Elector) : sys :=
  MkSys [] 0 (map (fun e => MkMember e (start_state e) false) es).

Section service.
Variable base : string.

(** [CreateProtectedEphemeralSequential]: the name given to the lock numbered [z]. *)
Definition lock_name (guid : string) (k : nat) (z : Z) : string :=
  "_c_" ++ guid ++ "-lock-" ++ padded k z.
Definition lock_path (name : string) : string := base ++ "/" ++ name.
(** A change of the locks fires every watch. *)
Definition fire (m : member) : member := MkMember (who m) (run_state m) true.
Definition set_member (i : nat) (m : member) (sy : sys) : sys :=
  MkSys (locks sy) (counter sy) (<[i := m]> (members sy)).
Definition move (p : eprog (res error string)) (m : member) : member :=
  MkMember (who m) (set_worker (ERun p) (run_state m)) (fired m).
Definition add_lock (name data : string) (sy : sys) : sys :=
  MkSys (locks sy ++ [MkLock name data])%list (counter sy + 1) (map fire (members sy)).

(** A [Get] succeeds only on a lock that exists, with its data; nothing else is asked of the
    calls on single znodes. *)
Definition data_ok (ls : list lock_node) {X} (c : zkcmd X) : res error X -> Prop :=
  match c in zkcmd X return res error X -> Prop with
  | Get_ p => fun r =>
      match r with
      | Ok (d, _) =>
          (exists l, l ∈ ls /\ p = PathJoin [base; lname l]) /\
          forall l, l ∈ ls -> p = PathJoin [base; lname l] -> d = ldata l
      | Fail _ => True
      end
  | _ => fun _ => True
  end.
(** The worker waits for an answer of the service. *)
Definition asks (w : worker_pc) : bool :=
  match w with
  | ERun (EDo c _) => match c with EZk _ | ECreateLock _ _ | EChildrenW _ => true | _ => false end
  | _ => false
  end.

(** ** The steps *)
Inductive sys_step (sy : sys) : sys -> Prop :=
| sys_zk i m X (c : zkcmd X) k r :
    members sy !! i = Some m -> worker (run_state m) = ERun (EDo (EZk c) k) ->
    data_ok (locks sy) c r -> sys_step sy (set_member i (move (k r) m) sy)
| sys_lock i m p d k guid n r :
    members sy !! i = Some m -> worker (run_state m) = ERun (EDo (ECreateLock p d) k) ->
    (counter sy < 2 ^ 31)%Z ->
    (** the answer can be lost on its way *)
    (r = Ok (lock_path (lock_name guid n (counter sy))) \/ exists err, r = Fail err) ->
    sys_step sy (add_lock (lock_name guid n (counter sy)) d (set_member i (move (k r) m) sy))
| sys_lock_fails i m p d k err :
    members sy !! i = Some m -> worker (run_state m) = ERun (EDo (ECreateLock p d) k) ->
    sys_step sy (set_member i (move (k (Fail err)) m) sy)
| sys_list i m p k listing :
    members sy !! i = Some m -> worker (run_state m) = ERun (EDo (EChildrenW p) k) ->
    Permutation listing (map lname (locks sy)) ->
    let m' := move (k (Ok listing)) m in
    sys_step sy (set_member i (MkMember (who m') (run_state m') false) sy)
| sys_list_fails i m p k err :
    members sy !! i = Some m -> worker (run_state m) = ERun (EDo (EChildrenW p) k) ->
    sys_step sy (set_member i (move (k (Fail err)) m) sy)
(** A session ends and its lock goes, or anyone deletes it. *)
| sys_gone before l after :
    locks sy = (before ++ l :: after)%list ->
    sys_step sy (MkSys (before ++ after) (counter sy) (map fire (members sy)))
(** Any other step of an elector: a child event, true or spurious, included. *)
| sys_local i m s' :
    members sy !! i = Some m -> step (who m) (run_state m) s' ->
    (asks (worker (run_state m)) = false \/ worker s' = worker (run_state m)) ->
    sys_step sy (set_member i (MkMember (who m) s' (fired m)) sy).

(** ** What an elector's program does, whatever it is answered: a lock, then a listing, the
    leader's data, the update of its view. *)
Inductive phase : Type :=
| PInit
| PLock (lp : string)
| PListed (lp : string) (listing : list string)
| PGot (lp : string) (listing : list string) (d : string)
| PKnows (lp : string) (listing : list string) (d : string).
Definition leads (lp : string) (listing : list string) : bool := fst (fst (determineLeader lp listing)).
Definition leader_node (lp : string) (listing : list string) : string := snd (fst (determineLeader lp listing)).
(** The call is the [Get] of a node of the base path. *)
Definition gets_node (node : string) {X} (c : zkcmd X)
    : (res error X -> (string -> Prop) -> Prop -> Prop) :=
  match c in zkcmd X return res error X -> (string -> Prop) -> Prop -> Prop with
  | Get_ p => fun r KOk KFail =>
      p = PathJoin [base; node] /\ match r with Ok (d, _) => KOk d | Fail _ => KFail end
  | _ => fun _ _ _ => False
  end.
Fixpoint follows (e : Elector) (ph : phase) (p : eprog (res error string)) : Prop :=
  match p with
  | ERet (Fail _) => True
  | ERet (Ok lp') => exists listing d, ph = PKnows lp' listing d
  | @EDo _ X c k =>
      match c in ecmd X return (X -> phase -> Prop) -> Prop with
      | EZk c => fun K =>
          match ph with
          | PInit => forall r, K r PInit
          | PListed lp listing => forall r,
              snd (determineLeader lp listing) = Ok tt /\
              gets_node (leader_node lp listing) c r (fun d => K r (PGot lp listing d)) (K r ph)
          | _ => False
          end
      | ECreateLock _ d => fun K =>
          ph = PInit /\ d = ident e /\ (forall err, K (Fail err) PInit) /\ forall lp, K (Ok lp) (PLock lp)
      | EChildrenW _ => fun K =>
          match ph with
          | PLock lp => (forall err, K (Fail err) ph) /\ forall listing, K (Ok listing) (PListed lp listing)
          | _ => False
          end
      | ESetLeader i b => fun K =>
          match ph with
          | PGot lp listing d => i = d /\ b = leads lp listing /\ forall old, K old (PKnows lp listing d)
          | _ => False
          end
      | ESend _ => fun K => match ph with PKnows _ _ _ => K tt ph | _ => False end
      end (fun x ph' => follows e ph' (k x))
  end.

Lemma follows_update e lp listing d force :
  follows e (PGot lp listing d) (updateLeaderData d (leads lp listing) force (ERet (Ok lp))).
Proof.
  simpl. split; [done|]. split; [done|]. intros old.
  destruct (bool_decide _ && _); simpl; eauto.
Qed.
Lemma follows_watch e lp first : basePath e = base -> follows e (PLock lp) (watch_children e lp first).
Proof.
  intros He. simpl. split; [done|]. intros listing. unfold updateFunc.
  destruct (determineLeader lp listing) as [[b n] [err|[]]] eqn:Hd; simpl; [done|].
  intros r. rewrite Hd. split; [done|]. unfold leader_node. rewrite Hd, He. split; [done|].
  destruct r as [err|[d z]]; [done|].
  pose proof (follows_update e lp listing d first) as H. unfold leads in H. by rewrite Hd in H.
Qed.
Lemma follows_lift e {A} (p : prog A) (f : A -> eprog (res error string)) :
  (forall a, follows e PInit (f a)) -> follows e PInit (ebind (lift p) f).
Proof. intros Hf. induction p as [a|X c k IH]; simpl; [apply Hf|]. intros r. apply IH. Qed.
Lemma follows_elect e : basePath e = base -> follows e PInit (elect e).
Proof.
  intros He. apply follows_lift. intros [err|[]]; simpl; [done|].
  split; [done|]. split; [done|]. split; [done|]. intros lp. by apply follows_watch.
Qed.

(** ** The invariant *)
Definition phase_lock (ph : phase) : option string :=
  match ph with
  | PInit => None
  | PLock lp | PListed lp _ | PGot lp _ _ | PKnows lp _ _ => Some lp
  end.
(** The member owns the lock at [lp]: it has a number given out, and what is stored in a lock
    with that number is the member's ident. *)
Definition owns (ls : list lock_node) (n : Z) (e : Elector) (lp : string) : Prop :=
  exists z, sequencePart lp = Ok z /\ (z < n)%Z
    /\ forall l, l ∈ ls -> seq_of (lname l) = z -> ldata l = ident e.
Definition current (ls : list lock_node) (m : member) (listing : list string) : Prop :=
  fired m = false -> Permutation listing (map lname ls).
(** The data read is that of the leader's lock. *)
Definition read_ok (ls : list lock_node) (m : member) (lp : string) (listing : list string) (d : string) : Prop :=
  snd (determineLeader lp listing) = Ok tt /\
  (fired m = false -> forall l, l ∈ ls -> lname l = leader_node lp listing -> d = ldata l).
Definition phase_ok (ls : list lock_node) (n : Z) (m : member) (ph : phase) : Prop :=
  (forall lp, phase_lock ph = Some lp -> owns ls n (who m) lp) /\
  match ph with
  | PInit | PLock _ => True
  | PListed lp listing => current ls m listing
  | PGot lp listing d => current ls m listing /\ read_ok ls m lp listing d
  | PKnows lp listing d => current ls m listing /\ read_ok ls m lp listing d
      /\ leaderIdent (run_state m) = d /\ isLeader (run_state m) = leads lp listing
  end.
Definition member_ok (ls : list lock_node) (n : Z) (m : member) (ph : phase) : Prop :=
  basePath (who m) = base /\ phase_ok ls n m ph /\
  match worker (run_state m) with
  | ERun p => follows (who m) ph p
  | ESelect lp => exists listing d, ph = PKnows lp listing d
  | _ => True
  end.
Definition distinct (phs : list phase) : Prop :=
  forall i j ph ph' lp lp', i <> j -> phs !! i = Some ph -> phs !! j = Some ph' ->
    phase_lock ph = Some lp -> phase_lock ph' = Some lp' -> sequencePart lp <> sequencePart lp'.
Record locks_ok (ls : list lock_node) (n : Z) : Prop := {
  locks_valid_child : Forall (fun l => valid_child (lname l)) ls;
  locks_nodup : NoDup (map (fun l => seq_of (lname l)) ls);
  locks_below : Forall (fun l => (seq_of (lname l) < n)%Z) ls;
  locks_count : (0 <= n)%Z;
}.
Definition sys_inv (sy : sys) : Prop :=
  locks_ok (locks sy) (counter sy) /\
  exists phs, Forall2 (member_ok (locks sy) (counter sy)) (members sy) phs /\ distinct phs.

Lemma start_inv es : Forall (fun e => basePath e = base) es -> sys_inv (start_sys es).
Proof.
  intros He. split; [split; simpl; [done|constructor|done|done]|].
  exists (map (fun _ => PInit) es). split.
  - simpl. apply Forall2_fmap, Forall_Forall2_diag. eapply Forall_impl; [exact He|]. intros e Hb.
    split; [done|]. split; [done|]. by apply follows_elect.
  - intros i j ph ph' lp lp' _ Hi _ Hl. by apply list_lookup_fmap_Some in Hi as (? & -> & _).
Qed.

(** Only the worker and the view of a member matter. *)
Lemma member_same ls n m ph s' :
  member_ok ls n m ph -> worker s' = worker (run_state m) ->
  leaderIdent s' = leaderIdent (run_state m) -> isLeader s' = isLeader (run_state m) ->
  member_ok ls n (MkMember (who m) s' (fired m)) ph.
Proof.
  intros (Hb & [Ho Hp] & Hw) Ew Ei El. split; [done|]. split; [split; [done|]|simpl; by rewrite Ew].
  destruct ph; try done. simpl in *. by rewrite Ei, El.
Qed.
(** A member whose watch fired knows nothing. *)
Lemma member_fire ls n ls' n' m ph :
  (forall lp, phase_lock ph = Some lp -> owns ls n (who m) lp -> owns ls' n' (who m) lp) ->
  member_ok ls n m ph -> member_ok ls' n' (fire m) ph.
Proof.
  intros Hown (Hb & [Ho Hp] & Hw). split; [done|]. split; [|done].
  split; [intros lp Hl; apply Hown; [done|by apply Ho]|].
  destruct ph; simpl in *; try done.
  - destruct Hp as [_ [? _]]. by split; [|split].
  - destruct Hp as [_ [[? _] ?]]. by split; [|split; [split|]].
Qed.

(** One member moves and the locks stay. *)
Lemma inv_member sy i m m' :
  sys_inv sy -> members sy !! i = Some m ->
  (forall ph, member_ok (locks sy) (counter sy) m ph -> exists ph',
     member_ok (locks sy) (counter sy) m' ph'
     /\ (phase_lock ph' = phase_lock ph \/ phase_lock ph' = None)) ->
  sys_inv (set_member i m' sy).
Proof.
  intros [Hl (phs & Hm & Hd)] Hi Hok. split; [done|].
  destruct (Forall2_lookup_l _ _ _ _ _ Hm Hi) as (ph & Hph & Hmok).
  destruct (Hok ph Hmok) as (ph' & Hmok' & Heq). exists (<[i := ph']> phs).
  split; [by apply Forall2_insert|].
  assert (forall j x, <[i := ph']> phs !! j = Some x -> phase_lock x = None \/
    exists y, phs !! j = Some y /\ phase_lock x = phase_lock y) as Hins.
  { intros j x Hj. destruct (decide (i = j)) as [<-|Hne].
    - rewrite list_lookup_insert_eq in Hj by by eapply lookup_lt_Some. injection Hj as <-.
      destruct Heq as [Heq|Heq]; [right|by left]. by exists ph.
    - rewrite list_lookup_insert_ne in Hj by done. right. by exists x. }
  intros a b x y lp lp' Hab [Hx|(x' & Hx' & Hx)]%Hins [Hy|(y' & Hy' & Hy)]%Hins Hlx Hly; try congruence.
  apply (Hd a b x' y'); congruence.
Qed.

Lemma winv_ERun ls n m ph p :
  member_ok ls n m ph -> worker (run_state m) = ERun p -> follows (who m) ph p.
Proof. intros (_ & _ & Hw) Hp. by rewrite Hp in Hw. Qed.
Lemma move_ok ls n m ph ph' p b :
  member_ok ls n m ph -> follows (who m) ph' p -> phase_ok ls n (MkMember (who m) (run_state m) b) ph' ->
  member_ok ls n (MkMember (who m) (set_worker (ERun p) (run_state m)) b) ph'.
Proof. intros (Hb & _ & _) Hf Hp. split; [done|]. split; [|done]. by destruct ph'. Qed.

Lemma inv_zk sy i m X (c : zkcmd X) k r :
  sys_inv sy -> members sy !! i = Some m -> worker (run_state m) = ERun (EDo (EZk c) k) ->
  data_ok (locks sy) c r -> sys_inv (set_member i (move (k r) m) sy).
Proof.
  intros Hinv Hi Hw Hr. apply (inv_member sy i m); [done|done|]. intros ph Hok.
  pose proof (winv_ERun _ _ _ _ _ Hok Hw) as Hf. simpl in Hf.
  pose proof Hok as (_ & [Ho Hp] & _). destruct ph as [|lp|lp listing|lp listing d|lp listing d]; try done.
  - exists PInit. split; [|by left]. eapply move_ok; [exact Hok|apply Hf|by split].
  - destruct (Hf r) as [Hd Hg]. destruct c; try done. destruct Hg as [-> Hg].
    destruct r as [err|[d z]].
    + exists (PListed lp listing). split; [|by left]. by eapply move_ok; [exact Hok|exact Hg|split].
    + exists (PGot lp listing d). split; [|by left]. eapply move_ok; [exact Hok|exact Hg|].
      split; [done|]. split; [done|]. split; [done|]. intros _ l Hl Hn. destruct Hr as [_ Hr].
      apply Hr; [done|by rewrite Hn].
Qed.
Lemma inv_list sy i m p k listing :
  sys_inv sy -> members sy !! i = Some m -> worker (run_state m) = ERun (EDo (EChildrenW p) k) ->
  Permutation listing (map lname (locks sy)) ->
  sys_inv (set_member i (MkMember (who m) (set_worker (ERun (k (Ok listing))) (run_state m)) false) sy).
Proof.
  intros Hinv Hi Hw Hperm. apply (inv_member sy i m); [done|done|]. intros ph Hok.
  pose proof (winv_ERun _ _ _ _ _ Hok Hw) as Hf. simpl in Hf.
  pose proof Hok as (_ & [Ho Hp] & _). destruct ph as [|lp|lp old|lp old d|lp old d]; try done.
  exists (PListed lp listing). split; [|by left]. eapply move_ok; [exact Hok|apply Hf|].
  split; [done|]. by intros _.
Qed.
Lemma inv_lock_fails sy i m p d k err :
  sys_inv sy -> members sy !! i = Some m -> worker (run_state m) = ERun (EDo (ECreateLock p d) k) ->
  sys_inv (set_member i (move (k (Fail err)) m) sy).
Proof.
  intros Hinv Hi Hw. apply (inv_member sy i m); [done|done|]. intros ph Hok.
  pose proof (winv_ERun _ _ _ _ _ Hok Hw) as Hf. simpl in Hf. destruct Hf as (-> & _ & Hf & _).
  exists PInit. split; [|by left]. eapply move_ok; [exact Hok|apply Hf|by split].
Qed.
Lemma inv_list_fails sy i m p k err :
  sys_inv sy -> members sy !! i = Some m -> worker (run_state m) = ERun (EDo (EChildrenW p) k) ->
  sys_inv (set_member i (move (k (Fail err)) m) sy).
Proof.
  intros Hinv Hi Hw. apply (inv_member sy i m); [done|done|]. intros ph Hok.
  pose proof (winv_ERun _ _ _ _ _ Hok Hw) as Hf. simpl in Hf.
  pose proof Hok as (_ & [Ho _] & _). destruct ph as [|lp| | |]; try done.
  exists (PLock lp). split; [|by left]. eapply move_ok; [exact Hok|apply Hf|by split].
Qed.

(** A lock appears. *)
Lemma lock_name_seq guid k z : (0 <= z < 2 ^ 31)%Z -> sequencePart (lock_name guid k z) = Ok z.
Proof.
  intros Hz. unfold lock_name. rewrite <- string_app_assoc. apply sequencePart_app.
  apply sequencePart_Ok. exists (padded k z). split.
  - apply sequence_group_spec. exists "". split; [by rewrite string_app_nil_l|apply padded_group].
  - apply Atoi_padded. unfold int64_min, int64_max. lia.
Qed.
Lemma locks_ok_add ls n name d :
  locks_ok ls n -> sequencePart name = Ok n -> locks_ok (ls ++ [MkLock name d]) (n + 1).
Proof.
  intros [Hv Hnd Hb Hc] Hs. assert (seq_of name = n) as Hn by (unfold seq_of; by rewrite Hs).
  split; [| | |lia].
  - apply Forall_app_2; [done|]. constructor; [|done]. unfold valid_child. simpl. by rewrite Hs.
  - rewrite map_app. simpl. apply NoDup_app. split; [done|]. split; [|apply NoDup_singleton].
    intros z (l & -> & Hl)%list_elem_of_fmap Hz%list_elem_of_singleton.
    rewrite Forall_forall in Hb. specialize (Hb l Hl). lia.
  - apply Forall_app_2; [eapply Forall_impl; [exact Hb|]; intros l ?; simpl in *; lia|].
    constructor; [simpl; lia|done].
Qed.
Lemma owns_add ls n name d e lp :
  sequencePart name = Ok n -> owns ls n e lp -> owns (ls ++ [MkLock name d]) (n + 1) e lp.
Proof.
  intros Hs (z & Hz & Hlt & Hl). exists z. split; [done|]. split; [lia|].
  intros l [Hin| ->%list_elem_of_singleton]%elem_of_app Heq; [by apply Hl|].
  simpl in Heq. unfold seq_of in Heq. rewrite Hs in Heq. lia.
Qed.
Lemma inv_add sy name d :
  sys_inv sy -> sequencePart name = Ok (counter sy) -> sys_inv (add_lock name d sy).
Proof.
  intros [Hl (phs & Hm & Hd)] Hs. split; [by apply locks_ok_add|]. exists phs. split; [|done].
  simpl. apply Forall2_fmap_l. eapply Forall2_impl; [exact Hm|]. intros m ph Hok.
  eapply member_fire; [|exact Hok]. intros lp _. by apply owns_add.
Qed.
(** The owner moves once its lock is there. *)
Lemma inv_lock sy i m p d k guid n :
  sys_inv sy -> members sy !! i = Some m -> worker (run_state m) = ERun (EDo (ECreateLock p d) k) ->
  (counter sy < 2 ^ 31)%Z ->
  let name := lock_name guid n (counter sy) in
  sys_inv (add_lock name d (set_member i (move (k (Ok (lock_path name))) m) sy)).
Proof.
  intros [Hl (phs & Hm & Hd)] Hi Hw Hc name.
  pose proof (lock_name_seq guid n (counter sy) (conj (locks_count _ _ Hl) Hc)) as Hs. fold name in Hs.
  assert (sequencePart (lock_path name) = Ok (counter sy)) as Hlp.
  { unfold lock_path. rewrite <- string_app_assoc. by apply sequencePart_app. }
  destruct (Forall2_lookup_l _ _ _ _ _ Hm Hi) as (ph & Hph & Hok).
  pose proof (winv_ERun _ _ _ _ _ Hok Hw) as Hf. simpl in Hf. destruct Hf as (-> & -> & _ & Hf).
  split; [by apply locks_ok_add|]. exists (<[i := PLock (lock_path name)]> phs). split.
  - simpl. rewrite list_fmap_insert. apply Forall2_insert.
    + apply Forall2_fmap_l. eapply Forall2_impl; [exact Hm|]. intros m1 ph1 Hok1.
      eapply member_fire; [|exact Hok1]. intros lp _. by apply owns_add.
    + destruct Hok as (Hb & _). split; [done|]. split; [|apply Hf]. split; [|done].
      intros lp [= <-]. exists (counter sy). split; [done|]. split; [lia|].
      intros l [Hin| ->%list_elem_of_singleton]%elem_of_app Heq; [|done].
      pose proof (locks_below _ _ Hl) as Hlt. rewrite Forall_forall in Hlt. specialize (Hlt l Hin). simpl in *. lia.
  - assert (forall j x lp, phs !! j = Some x -> phase_lock x = Some lp ->
      sequencePart lp <> Ok (counter sy)) as Hold.
    { intros j x lp Hj Hx Heq. destruct (Forall2_lookup_r _ _ _ _ _ Hm Hj) as (mj & _ & (_ & [Ho _] & _)).
      destruct (Ho lp Hx) as (z & Hz & Hlt & _). rewrite Hz in Heq. simplify_eq. lia. }
    intros a b x y lx ly Hab Hx Hy Hlx Hly.
    destruct (decide (i = a)) as [<-|Ha]; [|rewrite list_lookup_insert_ne in Hx by done].
    + rewrite list_lookup_insert_eq in Hx by by eapply lookup_lt_Some.
      rewrite list_lookup_insert_ne in Hy by done. simplify_eq/=. rewrite Hlp. intros Heq.
      by eapply Hold.
    + destruct (decide (i = b)) as [<-|Hb]; [|rewrite list_lookup_insert_ne in Hy by done; by eapply (Hd a b)].
      rewrite list_lookup_insert_eq in Hy by by eapply lookup_lt_Some. simplify_eq/=. rewrite Hlp.
      by eapply Hold.
Qed.
(** A lock disappears. *)
Lemma inv_gone sy before l after :
  sys_inv sy -> locks sy = (before ++ l :: after)%list ->
  sys_inv (MkSys (before ++ after) (counter sy) (map fire (members sy))).
Proof.
  intros [[Hv Hnd Hb Hc] (phs & Hm & Hd)] Hl. rewrite Hl in *.
  assert (forall x, x ∈ (before ++ after)%list -> x ∈ (before ++ l :: after)%list) as Hsub.
  { intros x. rewrite !elem_of_app, elem_of_cons. tauto. }
  split.
  - simpl. rewrite Forall_app, Forall_cons in Hv, Hb. destruct Hv as (? & _ & ?), Hb as (? & _ & ?).
    split; simpl; [|..|done].
    + by apply Forall_app_2.
    + rewrite map_app in Hnd |- *. simpl in Hnd. apply NoDup_app in Hnd as (Hn1 & Hn2 & Hn3).
      apply NoDup_app. apply NoDup_cons in Hn3 as [_ Hn3]. split; [done|]. split; [|done].
      intros x Hx Hx'. apply (Hn2 x Hx). by right.
    + by apply Forall_app_2.
  - exists phs. split; [|done]. simpl. apply Forall2_fmap_l. eapply Forall2_impl; [exact Hm|].
    intros m ph Hok. eapply member_fire; [|exact Hok]. intros lp _ (z & Hz & Hlt & Ho).
    exists z. split; [done|]. split; [done|]. intros x Hx. by apply Ho, Hsub.
Qed.

Lemma inv_local sy i m s' :
  sys_inv sy -> members sy !! i = Some m -> step (who m) (run_state m) s' ->
  (asks (worker (run_state m)) = false \/ worker s' = worker (run_state m)) ->
  sys_inv (set_member i (MkMember (who m) s' (fired m)) sy).
Proof.
  intros Hinv Hi Hstep Hask. apply (inv_member sy i m); [done|done|]. intros ph Hok.
  destruct m as [e s b]. simpl in *.
  destruct Hstep as [Hw Hq|ev Hw Hev|ev err Hw Hev|err Hw|Hw|Hw|X c k r Hw|p d k r Hw|p k r Hw
    |j bb k Hw|ev k s' Hw Hsend|lp Hw|err Hw|lp Hw|lp Hw|lp Hw Hq|err Hw|Hw|Hw|Hm0 Hz|Hm0|Hm0
    |err s' Hm0 Hsend|Hm0|].
  (** the worker asks: it stays *)
  7-9: destruct Hask as [Hask|Hask]; [by rewrite Hw in Hask|exists ph; split; [|by left]; by apply (member_same _ _ _ _ _ Hok)].
  (** the worker stays *)
  all: try (exists ph; split; [|by left]; by apply (member_same _ _ _ _ _ Hok)).
  all: try (pose proof (winv_ERun _ _ _ _ _ Hok Hw) as Hf; simpl in Hf).
  all: pose proof Hok as (Hb & [Ho Hp] & Hw').
  - destruct ph as [| | |lp listing d|]; try done. destruct Hf as (-> & -> & Hf). destruct Hp as (Hc & Hr).
    exists (PKnows lp listing d). split; [|by left]. split; [done|]. split; [|apply Hf].
    split; [done|]. by split; [|split].
  - destruct ph as [| | | |lp listing d]; try done.
    exists (PKnows lp listing d). split; [|by left]. split; [done|]. split; [|by destruct Hsend].
    split; [done|]. by destruct Hsend.
  - destruct Hf as (listing & d & ->). exists (PKnows lp listing d). split; [|by left].
    split; [done|]. split; [by split|]. simpl. eauto.
  - exists PInit. split; [|by right]. by split.
  - simpl in Hw'. rewrite Hw in Hw'. destruct Hw' as (listing & d & ->). exists (PLock lp).
    split; [|by left]. split; [done|]. split; [by split|]. by apply follows_watch.
  - exists PInit. split; [|by right]. by split.
  - exists PInit. split; [|by right]. by split.
  - exists PInit. split; [|by right]. by split.
  - exists PInit. split; [|by right]. by split.
  - exists PInit. split; [|by right]. by split.
  - exists ph. split; [|by left]. destruct Hsend; by apply (member_same _ _ _ _ _ Hok).
Qed.
Lemma inv_step sy sy' : sys_inv sy -> sys_step sy sy' -> sys_inv sy'.
Proof.
  intros Hinv [i m X c k r Hi Hw Hr|i m p d k guid n r Hi Hw Hc Hr|i m p d k err Hi Hw|i m p k listing Hi Hw Hp|
    i m p k err Hi Hw|before l after Hl|i m s' Hi Hs Ha].
  - by eapply inv_zk.
  - destruct Hr as [->|[err ->]]; [by eapply inv_lock|]. apply inv_add; [by eapply inv_lock_fails|].
    apply lock_name_seq. split; [apply (locks_count (locks sy)), Hinv|done].
  - by eapply inv_lock_fails.
  - exact (inv_list sy i m p k listing Hinv Hi Hw Hp).
  - by eapply inv_list_fails.
  - by eapply inv_gone.
  - by apply inv_local.
Qed.
Lemma sys_reachable_inv es sy :
  Forall (fun e => basePath e = base) es -> rtc sys_step (start_sys es) sy -> sys_inv sy.
Proof.
  intros He Hr. refine (rtc_invariant sys_step sys_inv _ _ _ _ Hr); [apply inv_step|by apply start_inv].
Qed.

(** ** Each member runs as an elector does on its own *)
Definition each_reachable (sy : sys) : Prop :=
  Forall (fun m => reachable (who m) (run_state m)) (members sy).
Lemma each_fire ms : Forall (fun m => reachable (who m) (run_state m)) ms ->
  Forall (fun m => reachable (who m) (run_state m)) (map fire ms).
Proof. intros Hm. by apply Forall_fmap. Qed.
Lemma each_member sy i m s' b :
  each_reachable sy -> members sy !! i = Some m -> step (who m) (run_state m) s' ->
  each_reachable (set_member i (MkMember (who m) s' b) sy).
Proof.
  intros Hr Hi Hs. apply Forall_insert; [done|]. simpl.
  pose proof (Forall_lookup_1 _ _ _ _ Hr Hi) as Hm. unfold reachable in *. etrans; [exact Hm|].
  by apply rtc_once.
Qed.
Lemma each_step sy sy' : each_reachable sy -> sys_step sy sy' -> each_reachable sy'.
Proof.
  intros Hr [i m X c k r Hi Hw Hd|i m p d k guid n r Hi Hw Hc Hd|i m p d k err Hi Hw|i m p k listing Hi Hw Hp|
    i m p k err Hi Hw|before l after Hl|i m s' Hi Hs Ha].
  - eapply each_member; [done|exact Hi|by eapply worker_zk].
  - apply each_fire. eapply each_member; [done|exact Hi|by eapply worker_lock].
  - eapply each_member; [done|exact Hi|by eapply worker_lock].
  - exact (each_member sy i m _ false Hr Hi (worker_children _ _ _ _ (Ok listing) Hw)).
  - eapply each_member; [done|exact Hi|by eapply worker_children].
  - by apply each_fire.
  - by eapply each_member.
Qed.
Lemma reachable_each es sy : rtc sys_step (start_sys es) sy -> each_reachable sy.
Proof.
  intros Hr. refine (rtc_invariant sys_step each_reachable _ _ _ _ Hr); [apply each_step|].
  apply Forall_fmap, Forall_forall. intros e _. apply rtc_refl.
Qed.

(** ** Settled electors: at their select, with no event of their watch pending *)
Definition settled (m : member) (lp : string) : Prop :=
  worker (run_state m) = ESelect lp /\ fired m = false.

Lemma at_select_sent e s lp :
  reachable e s -> worker s = ESelect lp -> last (attempted s) = Some (MkEvent (isLeader s) None).
Proof.
  intros Hr Hw. pose proof (reachable_sync e s Hr) as Hs.
  destruct (sync_running s Hs) as (Hm & _ & _); [right; by rewrite Hw|].
  destruct (reachable_events e s Hr) as [(att & tail & -> & _ & Hk & Hl) _ _].
  rewrite Hw in Hk. rewrite Hm in Hl. simpl in *. subst tail. rewrite app_nil_r.
  unfold leader_events. by rewrite fmap_last, Hk.
Qed.
(** With distinct valid names the leader is the lock with the least number. *)
Lemma least_lock ls n lp listing z :
  locks_ok ls n -> Permutation listing (map lname ls) -> snd (determineLeader lp listing) = Ok tt ->
  sequencePart lp = Ok z ->
  exists l, l ∈ ls /\ (forall l', l' ∈ ls -> (seq_of (lname l) <= seq_of (lname l'))%Z)
    /\ leader_node lp listing = lname l /\ leads lp listing = bool_decide (z = seq_of (lname l)).
Proof.
  intros [Hv Hnd _ _] Hp Hd Hz.
  assert (listing <> []) as Hne by (intros ->; done).
  destruct (min_seq listing Hne) as (c & Hc & Hmin).
  assert (Forall valid_child listing) as Hvl by (rewrite Hp; by apply Forall_fmap).
  assert (NoDup (map seq_of listing)) as Hndl.
  { rewrite Hp, map_map. done. }
  pose proof (determineLeader_spec lp listing c z Hvl Hz (unique_last_with listing c Hc Hndl) Hmin) as Heq.
  rewrite Hp in Hc. apply list_elem_of_fmap in Hc as (l & -> & Hl). exists l. split; [done|]. split.
  - intros l' Hl'. apply Hmin. rewrite Hp. apply list_elem_of_fmap. eauto.
  - unfold leader_node, leads. by rewrite Heq.
Qed.
Lemma settled_facts sy m ph lp :
  locks_ok (locks sy) (counter sy) -> member_ok (locks sy) (counter sy) m ph -> settled m lp ->
  exists l z, l ∈ locks sy /\ (forall l', l' ∈ locks sy -> (seq_of (lname l) <= seq_of (lname l'))%Z)
    /\ leaderIdent (run_state m) = ldata l /\ sequencePart lp = Ok z
    /\ isLeader (run_state m) = bool_decide (z = seq_of (lname l))
    /\ (isLeader (run_state m) = true -> ldata l = ident (who m)) /\ phase_lock ph = Some lp.
Proof.
  intros Hl (_ & [Ho Hp] & Hw) [Hsel Hf]. rewrite Hsel in Hw. destruct Hw as (listing & d & ->).
  destruct (Ho lp eq_refl) as (z & Hz & _ & Hown). destruct Hp as (Hc & (Hd & Hread) & Hi & Hb).
  destruct (least_lock _ _ lp listing z Hl (Hc Hf) Hd Hz) as (l & Hin & Hmin & Hn & Hle).
  exists l, z. split; [done|]. split; [done|]. split; [rewrite Hi; by apply Hread|].
  split; [done|]. split; [by rewrite Hb|]. split; [|done]. rewrite Hb, Hle.
  intros Hz'%bool_decide_eq_true. by apply Hown.
Qed.

(** ** An executable schedule: the worker of member [i] takes its next step and the service
    answers without failing, or the lock at an index goes. *)
Inductive action : Type := Act (i : nat) | Gone (j : nat).
Definition reply (ls : list lock_node) {X} (c : zkcmd X) : res error X :=
  match c in zkcmd X return res error X with
  | Exists_ _ => Ok (true, None)
  | Get_ p =>
      match list_find (fun l => p = PathJoin [base; lname l]) ls with
      | Some (_, l) =>
          if decide (Forall (fun l' => p = PathJoin [base; lname l'] -> ldata l = ldata l') ls)
          then Ok (ldata l, MkStat 0) else Fail (zkError ErrNoNode)
      | None => Fail (zkError ErrNoNode)
      end
  | _ => Fail (zkError ErrNoNode)
  end.
Definition act_on (sy : sys) (i : nat) (m : member) : option sys :=
  match worker (run_state m) with
  | ERun (ERet (Ok lp)) => Some (set_member i (MkMember (who m) (set_worker (ESelect lp) (run_state m)) (fired m)) sy)
  | ERun (@EDo _ X c k) =>
      match c in ecmd X return (X -> eprog (res error string)) -> option sys with
      | EZk c => fun k => Some (set_member i (move (k (reply (locks sy) c)) m) sy)
      | ECreateLock _ d => fun k =>
          let name := lock_name "guid" 9 (counter sy) in
          if decide (counter sy < 2 ^ 31)%Z
          then Some (add_lock name d (set_member i (move (k (Ok (lock_path name))) m) sy)) else None
      | EChildrenW _ => fun k =>
          let m' := move (k (Ok (map lname (locks sy)))) m in
          Some (set_member i (MkMember (who m') (run_state m') false) sy)
      | ESetLeader id b => fun k =>
          Some (set_member i (MkMember (who m) (set_worker (ERun (k (isLeader (run_state m))))
            (set_leader id b (run_state m))) (fired m)) sy)
      | ESend ev => fun k =>
          Some (set_member i (MkMember (who m) (set_worker (ERun (k tt)) (sent ev true (run_state m))) (fired m)) sy)
      end k
  | ESelect lp =>
      if negb (fired m) then None else Some (set_member i (MkMember (who m) (set_worker (ERun (watch_children (who m) lp false)) (run_state m)) (fired m)) sy)
  | _ => None
  end.
Definition act (sy : sys) (a : action) : option sys :=
  match a with
  | Act i => m ← members sy !! i; act_on sy i m
  | Gone j =>
      _ ← locks sy !! j;
      Some (MkSys (take j (locks sy) ++ drop (S j) (locks sy)) (counter sy) (map fire (members sy)))
  end.
Fixpoint acts (sy : sys) (l : list action) : option sys :=
  match l with [] => Some sy | a :: l => sy' ← act sy a; acts sy' l end.

Lemma reply_ok ls X (c : zkcmd X) : data_ok ls c (reply ls c).
Proof.
  destruct c; simpl; try done. destruct (list_find _ ls) as [[j l]|] eqn:Hf; [|done].
  case_decide as Hd; [|done]. apply list_find_Some in Hf as (Hj & Hp & _). split.
  - exists l. split; [by apply list_elem_of_lookup_2 in Hj|done].
  - intros l' Hl'. rewrite Forall_forall in Hd. by apply Hd.
Qed.
Lemma act_step sy a sy' : act sy a = Some sy' -> sys_step sy sy'.
Proof.
  destruct a as [i|j]; simpl.
  - destruct (members sy !! i) as [m|] eqn:Hi; [simpl|done]. unfold act_on.
    destruct (worker (run_state m)) as [[[err|lp]|X c k]|lp| | | |] eqn:Hw; try done.
    + intros [= <-]. eapply sys_local; [done|by eapply worker_ready|left; by rewrite Hw].
    + destruct c as [X c|p d|p|id b|ev].
      * intros [= <-]. eapply sys_zk; [done|exact Hw|apply reply_ok].
      * case_decide; [|done]. intros [= <-]. eapply sys_lock; [done|exact Hw|done|by left].
      * intros [= <-]. by eapply sys_list.
      * intros [= <-]. eapply sys_local; [done|by eapply worker_set|left; by rewrite Hw].
      * intros [= <-]. eapply sys_local; [done|eapply worker_send; [exact Hw|apply send_received]|left; by rewrite Hw].
    + destruct (negb (fired m)); [done|]. intros [= <-].
      eapply sys_local; [done|by eapply worker_child_event|left; by rewrite Hw].
  - destruct (locks sy !! j) as [l|] eqn:Hj; [simpl|done]. intros [= <-].
    apply (sys_gone sy _ l). symmetry. by apply take_drop_middle.
Qed.
Lemma acts_reach sy l sy' : acts sy l = Some sy' -> rtc sys_step sy sy'.
Proof.
  revert sy. induction l as [|a l IH]; simpl; intros sy; [by intros [= ->]|].
  destruct (act sy a) as [sy1|] eqn:Ha; [simpl|done]. intros H. eapply rtc_l; [by apply act_step in Ha|by apply IH].
Qed.

(** ** Settling. A quiet step is one of a worker while the locks stay: an answer of the
    service that is true and no failure, in any order a listing has; the event of a watch
    that has fired; a step of the worker's own; or the end of a [sendEvent], which is the
    client's to give (it receives the event, or has closed the elector). *)
Definition service_moves (ls : list lock_node) (m m' : member) : Prop :=
  match worker (run_state m) with
  | ERun (ERet (Ok lp)) => m' = MkMember (who m) (set_worker (ESelect lp) (run_state m)) (fired m)
  | ERun (@EDo _ X c k) =>
      match c in ecmd X return (X -> eprog (res error string)) -> Prop with
      | EZk c => fun k => exists a, data_ok ls c (Ok a) /\ m' = move (k (Ok a)) m
      | EChildrenW _ => fun k => exists listing, Permutation listing (map lname ls) /\
          m' = MkMember (who m) (set_worker (ERun (k (Ok listing))) (run_state m)) false
      | ESetLeader id b => fun k =>
          m' = MkMember (who m) (set_worker (ERun (k (isLeader (run_state m))))
            (set_leader id b (run_state m))) (fired m)
      | _ => fun _ => False
      end k
  | ESelect lp => fired m = true /\
      m' = MkMember (who m) (set_worker (ERun (watch_children (who m) lp false)) (run_state m)) (fired m)
  | _ => False
  end.
Definition client_takes (m m' : member) : Prop :=
  match worker (run_state m) with
  | ERun (@EDo _ X c k) =>
      match c in ecmd X return (X -> eprog (res error string)) -> Prop with
      | ESend ev => fun k => exists s', sendEvent ev (run_state m) s' /\
          m' = MkMember (who m) (set_worker (ERun (k tt)) s') (fired m)
      | _ => fun _ => False
      end k
  | _ => False
  end.
Definition quiet_step (sy sy' : sys) : Prop :=
  exists i m m', members sy !! i = Some m /\ sy' = set_member i m' sy /\
    (service_moves (locks sy) m m' \/ client_takes m m').
Lemma quiet_is_step sy sy' : quiet_step sy sy' -> sys_step sy sy'.
Proof.
  intros (i & m & m' & Hi & -> & [Hm|Hm]).
  - unfold service_moves in Hm. destruct (worker (run_state m)) as [[[err|lp]|X c k]|lp| | | |] eqn:Hw; try done.
    + subst m'. eapply sys_local; [done|by eapply worker_ready|left; by rewrite Hw].
    + destruct c as [X c|p d|p|id b|ev]; try done.
      * destruct Hm as (a & Hd & ->). by eapply sys_zk.
      * destruct Hm as (listing & Hp & ->). by eapply sys_list.
      * subst m'. eapply sys_local; [done|by eapply worker_set|left; by rewrite Hw].
    + destruct Hm as [Hf ->]. eapply sys_local; [done|by eapply worker_child_event|left; by rewrite Hw].
  - unfold client_takes in Hm. destruct (worker (run_state m)) as [[|X c k]|lp| | | |] eqn:Hw; try done.
    destruct c as [X c|p d|p|id b|ev]; try done. destruct Hm as (s' & Hs & ->).
    eapply sys_local; [done|by eapply worker_send|left; by rewrite Hw].
Qed.
Definition has_seq (lp : string) : Prop := exists z, sequencePart lp = Ok z.
Definition pauses (m : member) : Prop :=
  match worker (run_state m) with ERun _ => False | _ => True end.
(** Settled, or ended. *)
Definition rests (m : member) : Prop :=
  match worker (run_state m) with ERun _ => False | ESelect _ => fired m = false | _ => True end.
(** The quiet steps a worker still has to make. *)
Inductive steps_to_settle (ls : list lock_node) (m : member) : nat -> Prop :=
| left_ended : match worker (run_state m) with ERun _ | ESelect _ => False | _ => True end ->
    steps_to_settle ls m 0
| left_settled lp : settled m lp -> steps_to_settle ls m 0
| left_fired lp : worker (run_state m) = ESelect lp -> has_seq lp -> fired m = true -> steps_to_settle ls m 6
| left_watch lp : worker (run_state m) = ERun (watch_children (who m) lp false) -> has_seq lp ->
    steps_to_settle ls m 5
| left_get lp listing b node :
    worker (run_state m) = ERun (updateFunc (who m) lp false listing (ERet (Ok lp))) ->
    determineLeader lp listing = (b, node, Ok tt) -> node ∈ map lname ls -> fired m = false ->
    steps_to_settle ls m 4
| left_set lp d b : worker (run_state m) = ERun (updateLeaderData d b false (ERet (Ok lp))) -> fired m = false ->
    steps_to_settle ls m 3
| left_send lp ev : worker (run_state m) = ERun (EDo (ESend ev) (fun _ => ERet (Ok lp))) -> fired m = false ->
    steps_to_settle ls m 2
| left_ready lp : worker (run_state m) = ERun (ERet (Ok lp)) -> fired m = false -> steps_to_settle ls m 1.

(** Locks with the same path have the same data, as long as their names are paths' last
    elements. *)
Definition paths_distinct (ls : list lock_node) : Prop :=
  forall l l', l ∈ ls -> l' ∈ ls -> PathJoin [base; lname l] = PathJoin [base; lname l'] -> ldata l = ldata l'.
Lemma get_answer ls node : paths_distinct ls -> node ∈ map lname ls ->
  exists d, data_ok ls (Get_ (PathJoin [base; node])) (Ok (d, MkStat 0)).
Proof.
  intros Hd (l & -> & Hl)%list_elem_of_fmap. exists (ldata l). split; [by exists l|].
  intros l' Hl' Heq. by apply Hd.
Qed.
Lemma listed_leader ls n lp listing : locks_ok ls n -> ls <> [] -> has_seq lp ->
  Permutation listing (map lname ls) ->
  exists b node, determineLeader lp listing = (b, node, Ok tt) /\ node ∈ map lname ls.
Proof.
  intros [Hv Hnd _ _] Hne [z Hz] Hp. assert (listing <> []) as Hl.
  { intros ->. apply Permutation_nil_l in Hp. by destruct ls. }
  destruct (min_seq listing Hl) as (c & Hc & Hmin). exists (bool_decide (z = seq_of c)), c.
  split; [|by rewrite <- Hp]. apply determineLeader_spec; [|done|apply unique_last_with; [done|]|done].
  - rewrite Hp. by apply Forall_fmap.
  - rewrite Hp, map_map. done.
Qed.
(** A quiet step of a member brings it nearer to its rest. *)
Lemma quiet_nearer ls n m m' k :
  locks_ok ls n -> ls <> [] -> basePath (who m) = base -> steps_to_settle ls m k ->
  service_moves ls m m' \/ client_takes m m' ->
  exists k', steps_to_settle ls m' k' /\ who m' = who m /\ k' < k.
Proof.
  intros Hl Hne Hbase Hk Hm. unfold service_moves, client_takes in Hm.
  destruct Hk as [Hw|lp [Hw Hf]|lp Hw Hz Hf|lp Hw Hz|lp listing b node Hw Hd Hn Hf|lp d b Hw Hf|lp ev Hw Hf|lp Hw Hf].
  - exfalso. by destruct (worker (run_state m)) as [?| | | | |]; destruct Hm.
  - rewrite Hw, Hf in Hm. by destruct Hm as [[? _]|?].
  - rewrite Hw in Hm. destruct Hm as [[_ ->]|?]; [|done].
    exists 5. split; [by apply (left_watch _ _ lp)|split; [done|lia]].
  - rewrite Hw in Hm. cbn in Hm. destruct Hm as [(listing & Hp & ->)|?]; [|done].
    destruct (listed_leader ls n lp listing Hl Hne Hz Hp) as (b & node & Hd & Hn).
    exists 4. split; [by apply (left_get _ _ lp listing b node)|split; [done|lia]].
  - rewrite Hw in Hm. unfold updateFunc in Hm. rewrite Hd in Hm. unfold getIdentFromNode in Hm.
    cbn iota beta match in Hm. destruct Hm as [([x z] & _ & ->)|?]; [|done].
    exists 3. split; [by apply (left_set _ _ lp x b)|split; [done|lia]].
  - rewrite Hw in Hm. cbn in Hm. destruct Hm as [->|?]; [|done].
    destruct (bool_decide _ && _) eqn:Hb.
    + exists 1. split; [by apply (left_ready _ _ lp)|split; [done|lia]].
    + exists 2. split; [by apply (left_send _ _ lp (MkEvent b None))|split; [done|lia]].
  - rewrite Hw in Hm. cbn in Hm. destruct Hm as [?|(s' & Hs & ->)]; [done|].
    exists 1. split; [by apply (left_ready _ _ lp)|split; [done|lia]].
  - rewrite Hw in Hm. destruct Hm as [->|?]; [|done].
    exists 0. split; [by apply (left_settled _ _ lp)|split; [done|lia]].
Qed.
(** A member that does not rest waits for the service, its own goroutine or the client. *)
Lemma quiet_progress ls m k :
  paths_distinct ls -> basePath (who m) = base -> steps_to_settle ls m k ->
  rests m \/ (exists m', service_moves ls m m') \/ (exists m', client_takes m m').
Proof.
  intros Hpd Hbase Hk. unfold rests, service_moves, client_takes.
  destruct Hk as [Hw|lp [Hw Hf]|lp Hw Hz Hf|lp Hw Hz|lp listing b node Hw Hd Hn Hf|lp d b Hw Hf|lp ev Hw Hf|lp Hw Hf].
  - left. by destruct (worker (run_state m)).
  - left. by rewrite Hw.
  - right. left. rewrite Hw. by eexists.
  - right. left. rewrite Hw. cbn. by eexists _, (map lname ls).
  - right. left. rewrite Hw. unfold updateFunc. rewrite Hd. unfold getIdentFromNode. cbn iota beta match.
    destruct (get_answer ls node Hpd Hn) as [x Hx]. rewrite Hbase. by eexists _, (x, MkStat 0).
  - right. left. rewrite Hw. cbn. by eexists.
  - right. right. rewrite Hw. cbn. eexists _, _. split; [apply send_received|done].
  - right. left. rewrite Hw. by eexists.
Qed.

(** The members have [n] quiet steps left in all. *)
Record calm (n : nat) (sy : sys) : Prop := {
  calm_locks : locks_ok (locks sy) (counter sy);
  calm_some : locks sy <> [];
  calm_paths : paths_distinct (locks sy);
  calm_base : Forall (fun m => basePath (who m) = base) (members sy);
  calm_left : exists ks, Forall2 (steps_to_settle (locks sy)) (members sy) ks /\ sum_list ks = n;
}.
Lemma calm_step n sy sy' : calm n sy -> quiet_step sy sy' ->
  exists n', calm n' sy' /\ n' < n /\ locks sy' = locks sy.
Proof.
  intros [Hl Hne Hp Hb (ks & Hks & <-)] (i & m & m' & Hi & -> & Hm).
  destruct (Forall2_lookup_l _ _ _ _ _ Hks Hi) as (k & Hk & Hleft).
  pose proof (Forall_lookup_1 _ _ _ _ Hb Hi) as Hbm.
  destruct (quiet_nearer _ _ m m' k Hl Hne Hbm Hleft Hm) as (k' & Hleft' & Hw & Hlt).
  exists (sum_list (<[i := k']> ks)). split; [|split; [by eapply sum_list_insert_lt|done]].
  split; [done..| |].
  - apply Forall_insert; [done|]. by rewrite Hw.
  - exists (<[i := k']> ks). split; [by apply Forall2_insert|done].
Qed.
Lemma calm_steps n m sy sy' : calm m sy -> nsteps quiet_step n sy sy' ->
  exists m', calm m' sy' /\ n + m' <= m /\ locks sy' = locks sy.
Proof.
  intros Hc Hn. revert m Hc. induction Hn as [sy|n sy sy1 sy' Hs _ IH]; intros m Hc.
  - exists m. split; [done|]. split; [lia|done].
  - destruct (calm_step m sy sy1 Hc Hs) as (m1 & Hc1 & Hlt & Hl1).
    destruct (IH m1 Hc1) as (m' & Hc' & Hle & Hl'). exists m'. split; [done|]. split; [lia|congruence].
Qed.
Lemma calm_progress n sy i m : calm n sy -> members sy !! i = Some m ->
  rests m \/ (exists m', service_moves (locks sy) m m') \/ (exists m', client_takes m m').
Proof.
  intros [Hl Hne Hp Hb (ks & Hks & _)] Hi.
  destruct (Forall2_lookup_l _ _ _ _ _ Hks Hi) as (k & Hk & Hleft).
  apply (quiet_progress _ m k); [done| |done]. by apply (Forall_lookup_1 _ _ _ _ Hb Hi).
Qed.
Lemma pauses_left ls n m ph : member_ok ls n m ph -> pauses m -> exists k, steps_to_settle ls m k /\ k <= 6.
Proof.
  intros (_ & [Ho _] & Hw) Hp. unfold pauses in Hp. destruct (worker (run_state m)) as [p|lp|err| | |] eqn:Hwm; [done| |..].
  2-5: exists 0; split; [apply left_ended; by rewrite Hwm|lia].
  destruct Hw as (listing & d & ->). destruct (Ho lp eq_refl) as (z & Hz & _).
  destruct (fired m) eqn:Hf.
  - exists 6. split; [by eapply left_fired; [|by exists z|]|lia].
  - exists 0. split; [by eapply left_settled|lia].
Qed.
Lemma pauses_calm sy : sys_inv sy -> locks sy <> [] -> paths_distinct (locks sy) -> Forall pauses (members sy) ->
  exists n, calm n sy /\ n <= 6 * length (members sy).
Proof.
  intros [Hl (phs & Hm & _)] Hne Hp Hpause.
  assert (exists ks, Forall2 (fun m k => steps_to_settle (locks sy) m k /\ k <= 6) (members sy) ks) as [ks Hks].
  { apply Forall_exists_Forall2_l, Forall_lookup_2. intros i m Hi.
    destruct (Forall2_lookup_l _ _ _ _ _ Hm Hi) as (ph & _ & Hok).
    exact (pauses_left _ _ m ph Hok (Forall_lookup_1 _ _ _ _ Hpause Hi)). }
  exists (sum_list ks). split; [split; [done..| |]|].
  - apply Forall_lookup_2. intros i m Hi. by destruct (Forall2_lookup_l _ _ _ _ _ Hm Hi) as (ph & _ & Hb & _).
  - exists ks. split; [|done]. eapply Forall2_impl; [exact Hks|]. by intros m k [? _].
  - rewrite (Forall2_length _ _ _ Hks). apply sum_list_bound. eapply Forall2_Forall_r; [exact Hks|].
    apply Forall_forall. by intros m _ k [_ ?].
Qed.
End service.

(** ** Properties *)
(** C16. Whatever the electors, the service and their sessions do, an elector that is settled,
    waiting with no change of the locks left to see, has the view of the locks as they are:
    its leader ident is the one stored in the lock with the least number, it leads exactly
    when that number is its own lock's, in which case the ident is its own, and the last
    event it sent to its client says so. *)
Theorem settled_view_is_current (base : string) (es : list Elector) (sy : sys) (i : nat) (m : member) (lp : string) :
  Forall (fun e => basePath e = base) es -> rtc (sys_step base) (start_sys es) sy ->
  members sy !! i = Some m -> settled m lp ->
  exists l, l ∈ locks sy /\ (forall l', l' ∈ locks sy -> (seq_of (lname l) <= seq_of (lname l'))%Z)
    /\ leaderIdent (run_state m) = ldata l
    /\ (isLeader (run_state m) = true <-> sequencePart lp = Ok (seq_of (lname l)))
    /\ (isLeader (run_state m) = true -> leaderIdent (run_state m) = ident (who m))
    /\ last (attempted (run_state m)) = Some (MkEvent (isLeader (run_state m)) None).
Proof.
  intros He Hr Hi Hset. destruct (sys_reachable_inv base es sy He Hr) as [Hl (phs & Hm & _)].
  destruct (Forall2_lookup_l _ _ _ _ _ Hm Hi) as (ph & _ & Hok).
  destruct (settled_facts base sy m ph lp Hl Hok Hset) as (l & z & Hin & Hmin & Hid & Hz & Hb & Hown & _).
  exists l. split; [done|]. split; [done|]. split; [done|]. split; [|split].
  - rewrite Hb, bool_decide_eq_true, Hz. naive_solver.
  - intros Hlead. rewrite Hid. by apply Hown.
  - eapply at_select_sent; [|apply Hset].
    exact (Forall_lookup_1 _ _ _ _ (reachable_each base es sy Hr) Hi).
Qed.

(** C17. Mutual exclusion: of any number of electors on one base path, at most one settled
    elector leads, and every settled elector names the same leader: when one of them leads,
    the others name its ident. *)
Theorem one_settled_leader (base : string) (es : list Elector) (sy : sys) i j m m' lp lp' :
  Forall (fun e => basePath e = base) es -> rtc (sys_step base) (start_sys es) sy ->
  members sy !! i = Some m -> settled m lp -> members sy !! j = Some m' -> settled m' lp' ->
  leaderIdent (run_state m) = leaderIdent (run_state m')
  /\ (isLeader (run_state m) = true -> leaderIdent (run_state m') = ident (who m))
  /\ (isLeader (run_state m) = true -> isLeader (run_state m') = true -> i = j).
Proof.
  intros He Hr Hi Hset Hj Hset'. destruct (sys_reachable_inv base es sy He Hr) as [Hl (phs & Hm & Hd)].
  destruct (Forall2_lookup_l _ _ _ _ _ Hm Hi) as (ph & Hph & Hok).
  destruct (Forall2_lookup_l _ _ _ _ _ Hm Hj) as (ph' & Hph' & Hok').
  destruct (settled_facts base sy m ph lp Hl Hok Hset) as (l & z & Hin & Hmin & Hid & Hz & Hb & Hown & Hlp).
  destruct (settled_facts base sy m' ph' lp' Hl Hok' Hset') as (l' & z' & Hin' & Hmin' & Hid' & Hz' & Hb' & Hown' & Hlp').
  assert (l = l') as <-.
  { pose proof (Hmin l' Hin'). pose proof (Hmin' l Hin).
    assert (seq_of (lname l) = seq_of (lname l')) as Heq by lia.
    destruct Hl as [_ Hnd _ _].
    apply list_elem_of_lookup in Hin as [a Ha], Hin' as [b Hbb].
    assert (a = b) as <-.
    { apply (NoDup_lookup (map (fun l => seq_of (lname l)) (locks sy)) a b (seq_of (lname l))); [done| |].
      - by rewrite list_lookup_fmap, Ha.
      - rewrite list_lookup_fmap, Hbb, Heq. done. }
    congruence. }
  split; [congruence|]. split.
  - intros Hlead. rewrite Hid'. by apply Hown.
  - intros Hlead Hlead'. rewrite Hb in Hlead. rewrite Hb' in Hlead'.
    apply bool_decide_eq_true in Hlead, Hlead'. destruct (decide (i = j)) as [|Hne]; [done|].
    exfalso. eapply (Hd i j ph ph' lp lp' Hne); [done|done|done|done|]. congruence.
Qed.

(** C18. Electors that wait at their select, with events of their watches pending or not,
    settle again when things stay quiet: the locks stay and one is left (two that have the
    same path, should there be any, hold the same ident), no elector is closed or told of
    anything but its watch, and the service answers truly and without failing, listing in
    any order. However their steps interleave, they make at most
    six steps per elector in all; and at any time each of them is settled or had ended
    before, or can go on with an answer of the service or a step of its own, or has called
    [sendEvent] and waits for its client. When each client takes its events, all of them settle. *)
Theorem waiting_electors_settle (base : string) (es : list Elector) (sy sy' : sys) (n : nat) :
  Forall (fun e => basePath e = base) es -> rtc (sys_step base) (start_sys es) sy ->
  locks sy <> [] -> paths_distinct base (locks sy) -> Forall pauses (members sy) ->
  nsteps (quiet_step base) n sy sy' ->
  n <= 6 * length (members sy) /\ locks sy' = locks sy /\
  rtc (sys_step base) (start_sys es) sy' /\
  (forall i m, members sy' !! i = Some m ->
     rests m \/ (exists m', service_moves base (locks sy') m m') \/ (exists m', client_takes m m')) /\
  ((forall sy2, ~ quiet_step base sy' sy2) -> Forall rests (members sy')).
Proof.
  intros He Hr Hne Hp Hpause Hn.
  destruct (pauses_calm base sy (sys_reachable_inv base es sy He Hr) Hne Hp Hpause) as (m & Hc & Hle).
  destruct (calm_steps base n m sy sy' Hc Hn) as (m' & Hc' & Hle' & Hl).
  split; [lia|]. split; [done|]. split.
  { etrans; [exact Hr|]. eapply rtc_nsteps_2 in Hn. eapply rtc_subrel; [|exact Hn]. apply quiet_is_step. }
  split; [intros i x Hi; by eapply calm_progress|]. intros Hstuck. apply Forall_lookup_2. intros i x Hi.
  destruct (calm_progress base m' sy' i x Hc' Hi) as [Hx|[[x' Hx]|[x' Hx]]]; [done|..].
  - exfalso. eapply Hstuck. exists i, x, x'. eauto.
  - exfalso. eapply Hstuck. exists i, x, x'. eauto.
Qed.

(** ** Two electors: both create their locks, list them and settle; then the leader's session
    ends and the other takes over. *)
Definition pair_of_electors : list Elector :=
  map (fun id => MkElector (WorldACL PermAll) id "/services/leader") ["10.0.0.1"; "10.0.0.2"].
Definition settle : list action :=
  ([Act 0; Act 0; Act 1; Act 1] ++ replicate 5 (Act 0) ++ replicate 5 (Act 1))%list.
Definition hand_over : list action := (settle ++ Gone 0 :: replicate 6 (Act 1))%list.
Definition after (l : list action) : sys := default (start_sys []) (acts "/services/leader" (start_sys pair_of_electors) l).
Definition seen (sy : sys) : list (bool * string * bool * list Event) :=
  map (fun m => (match worker (run_state m) with ESelect _ => negb (fired m) | _ => false end,
    leaderIdent (run_state m), isLeader (run_state m), attempted (run_state m))) (members sy).
Example hand_over_ex :
  seen (after settle) =
    [(true, "10.0.0.1", true, [MkEvent true None]); (true, "10.0.0.1", false, [MkEvent false None])] /\
  seen (after hand_over) =
    [(false, "10.0.0.1", true, [MkEvent true None]);
     (true, "10.0.0.2", true, [MkEvent false None; MkEvent true None])].
Proof. vm_compute. done. Qed.

(** The leader's session ends between a listing of the other elector and its reading of the
    leader's ident. *)
Definition lost_leader : list action := [Act 0; Act 0; Act 1; Act 1; Act 1; Gone 0; Act 1].

(** The other elector ends with an error, though its lock is the one left: no one leads. *)
Lemma lost_leader_stops_follower :
  exists m, members (after lost_leader) !! 1 = Some m /\ ident (who m) = "10.0.0.2"
    /\ map ldata (locks (after lost_leader)) = ["10.0.0.2"]
    /\ worker (run_state m) = ERun (ERet (Fail (errorsWrap "could not get ident from node" (zkError ErrNoNode))))
    /\ exists s, rtc (step (who m)) (run_state m) s /\ worker s = EDead.
Proof.
  destruct (members (after lost_leader) !! 1) as [m|] eqn:Hm; [|by vm_compute in Hm].
  exists m. split; [done|]. vm_compute in Hm. injection Hm as <-.
  split; [done|]. split; [by vm_compute|]. split; [by vm_compute|]. eexists. split.
  - eapply rtc_l; [by apply worker_fail|]. eapply rtc_l; [by apply worker_report|].
    eapply rtc_l; [by apply worker_done|]. by apply rtc_once, worker_cancel.
  - done.
Qed.

Lemma after_reachable l :
  is_Some (acts "/services/leader" (start_sys pair_of_electors) l) ->
  rtc (sys_step "/services/leader") (start_sys pair_of_electors) (after l).
Proof. intros [sy Hsy]. unfold after. rewrite Hsy. by apply acts_reach in Hsy. Qed.
Lemma pair_base : Forall (fun e => basePath e = "/services/leader") pair_of_electors.
Proof. by repeat constructor. Qed.
Definition own_path (z : Z) : string := lock_path "/services/leader" (lock_name "guid" 9 z).

(** Where a member is, and what it thinks. *)
Definition select_of (m : member) : option string * bool * bool :=
  (match worker (run_state m) with ESelect lp => Some lp | _ => None end, fired m, isLeader (run_state m)).
Lemma select_settled m lp b : select_of m = (Some lp, false, b) -> settled m lp /\ isLeader (run_state m) = b.
Proof. unfold select_of, settled. destruct (worker (run_state m)); naive_solver. Qed.
Lemma member_of sy i x : option_map select_of (members sy !! i) = Some x ->
  exists m, members sy !! i = Some m /\ select_of m = x.
Proof. destruct (members sy !! i) as [m|]; [|done]. intros [= <-]. by exists m. Qed.

Lemma settled_view_is_current_witness :
  exists m, members (after settle) !! 1 = Some m /\ settled m (own_path 1) /\
  exists l, l ∈ locks (after settle)
    /\ (forall l', l' ∈ locks (after settle) -> (seq_of (lname l) <= seq_of (lname l'))%Z)
    /\ leaderIdent (run_state m) = ldata l
    /\ (isLeader (run_state m) = true <-> sequencePart (own_path 1) = Ok (seq_of (lname l)))
    /\ (isLeader (run_state m) = true -> leaderIdent (run_state m) = ident (who m))
    /\ last (attempted (run_state m)) = Some (MkEvent (isLeader (run_state m)) None).
Proof.
  destruct (member_of (after settle) 1 (Some (own_path 1), false, false)) as (m & Hm & [Hs _]%select_settled);
    [vm_compute; reflexivity|].
  exists m. split; [done|]. split; [done|].
  apply (settled_view_is_current "/services/leader" pair_of_electors _ 1 m (own_path 1) pair_base);
    [apply after_reachable; vm_compute; by eexists|exact Hm|exact Hs].
Defined.
Lemma one_settled_leader_witness :
  exists m m', members (after settle) !! 0 = Some m /\ members (after settle) !! 1 = Some m' /\
    isLeader (run_state m) = true /\ leaderIdent (run_state m') = ident (who m).
Proof.
  destruct (member_of (after settle) 0 (Some (own_path 0), false, true)) as (m & Hm & [Hs Hb]%select_settled);
    [vm_compute; reflexivity|].
  destruct (member_of (after settle) 1 (Some (own_path 1), false, false)) as (m' & Hm' & [Hs' _]%select_settled);
    [vm_compute; reflexivity|].
  exists m, m'. split; [done|]. split; [done|]. split; [done|].
  refine (proj1 (proj2 (one_settled_leader "/services/leader" pair_of_electors (after settle) 0 1 m m'
    (own_path 0) (own_path 1) pair_base _ Hm Hs Hm' Hs')) Hb).
  apply after_reachable. vm_compute. by eexists.
Defined.

(** The quiet steps of a schedule. *)
Definition quiet_act (base : string) (sy : sys) (i : nat) : option sys :=
  m ← members sy !! i;
  match worker (run_state m) with
  | ERun (@EDo _ X c k) =>
      match c with
      | EZk c => if is_ok (reply base (locks sy) c) then act_on base sy i m else None
      | ECreateLock _ _ => None
      | _ => act_on base sy i m
      end
  | _ => act_on base sy i m
  end.
Fixpoint quiet_acts (base : string) (sy : sys) (l : list nat) : option sys :=
  match l with [] => Some sy | i :: l => sy' ← quiet_act base sy i; quiet_acts base sy' l end.
Lemma quiet_act_step base sy i sy' : quiet_act base sy i = Some sy' -> quiet_step base sy sy'.
Proof.
  unfold quiet_act. destruct (members sy !! i) as [m|] eqn:Hi; [simpl|done]. intros H.
  assert (forall m', service_moves base (locks sy) m m' \/ client_takes m m' ->
    sy' = set_member i m' sy -> quiet_step base sy sy') as Hq.
  { intros m' Hm ->. exists i, m, m'. eauto. }
  unfold act_on, service_moves, client_takes in *.
  destruct (worker (run_state m)) as [[[err|lp]|X c k]|lp| | | |]; try done.
  - injection H as <-. eapply Hq; [by left|done].
  - destruct c as [X c|p d|p|id b|ev]; try done.
    + destruct (reply base (locks sy) c) as [|a] eqn:Hr; [done|]. simpl in H. injection H as <-.
      eapply Hq; [left; exists a; split; [rewrite <- Hr; apply reply_ok|done]|done].
    + injection H as <-. eapply Hq; [left; by exists (map lname (locks sy))|done].
    + injection H as <-. eapply Hq; [by left|done].
    + injection H as <-. eapply Hq; [right; eexists; split; [apply send_received|done]|done].
  - destruct (fired m) eqn:Hf; [|done]. simpl in H. injection H as <-. eapply Hq; [by left|done].
Qed.
Lemma quiet_acts_steps base sy l sy' :
  quiet_acts base sy l = Some sy' -> nsteps (quiet_step base) (length l) sy sy'.
Proof.
  revert sy. induction l as [|i l IH]; intros sy H; simpl in *; [injection H as ->; constructor|].
  destruct (quiet_act base sy i) as [sy1|] eqn:Ha; [|done].
  eapply nsteps_l; [by eapply quiet_act_step|by apply IH].
Qed.
(** Both electors settle after the leader's session has ended: twelve steps, then none. *)
Definition session_gone : sys := after (settle ++ [Gone 0]).
Definition both_settle : sys :=
  default session_gone (quiet_acts "/services/leader" session_gone (replicate 6 1 ++ replicate 6 0)).
Lemma select_quiet base ls m m' :
  fired m = false /\ match worker (run_state m) with ESelect _ => True | _ => False end ->
  ~ (service_moves base ls m m' \/ client_takes m m').
Proof.
  intros [Hf Hw] Hm. unfold service_moves, client_takes in Hm.
  destruct (worker (run_state m)); try done. rewrite Hf in Hm. by destruct Hm as [[? _]|?].
Qed.
Lemma both_settle_stuck sy2 : ~ quiet_step "/services/leader" both_settle sy2.
Proof.
  intros (i & m & m' & Hi & _ & Hm).
  assert (Forall (fun m => fired m = false /\ match worker (run_state m) with ESelect _ => True | _ => False end)
    (members both_settle)) as Hall by (vm_compute; by repeat constructor).
  exact (select_quiet _ _ _ _ (Forall_lookup_1 _ _ _ _ Hall Hi) Hm).
Qed.
Lemma waiting_electors_settle_witness :
  12 <= 6 * length (members session_gone) /\ locks both_settle = locks session_gone /\
  Forall rests (members both_settle).
Proof.
  destruct (waiting_electors_settle "/services/leader" pair_of_electors session_gone both_settle 12 pair_base)
    as (Hn & Hl & _ & _ & Hrest).
  - apply after_reachable. vm_compute. by eexists.
  - by vm_compute.
  - intros l l' Hl Hl'. vm_compute in Hl, Hl'.
    apply list_elem_of_singleton in Hl as ->. by apply list_elem_of_singleton in Hl' as ->.
  - vm_compute. by repeat constructor.
  - apply quiet_acts_steps with (l := (replicate 6 1 ++ replicate 6 0)%list). vm_compute. reflexivity.
  - split; [exact Hn|]. split; [exact Hl|]. exact (Hrest both_settle_stuck).
Defined.
