(* ===== verification/GoMd5.v ===== *)
(** * crypto/md5 and encoding/binary: the digest the default hash provider uses, and the
    decoding of an unsigned varint. Words are [Z] with wrap-around at 32 bits. *)
From S2P Require Import Prelude.
From S2P Require Import GoStrings.

Local Open Scope Z_scope.

Definition byte_val (c : ascii) : Z := Z.of_N (N_of_ascii c).
Definition val_byte (z : Z) : ascii := ascii_of_N (Z.to_N (z mod 256)).
Definition str_bytes (s : string) : list Z := map byte_val (String.list_ascii_of_string s).
Definition bytes_str (l : list Z) : string := String.string_of_list_ascii (map val_byte l).

(** ** MD5 (RFC 1321) *)
Definition w32 (z : Z) : Z := z mod 2 ^ 32.
Definition rotl (x n : Z) : Z := w32 (Z.lor (Z.shiftl x n) (Z.shiftr x (32 - n))).
Definition md5_K : list Z :=
  [0xd76aa478; 0xe8c7b756; 0x242070db; 0xc1bdceee; 0xf57c0faf; 0x4787c62a;
   0xa8304613; 0xfd469501; 0x698098d8; 0x8b44f7af; 0xffff5bb1; 0x895cd7be;
   0x6b901122; 0xfd987193; 0xa679438e; 0x49b40821; 0xf61e2562; 0xc040b340;
   0x265e5a51; 0xe9b6c7aa; 0xd62f105d; 0x02441453; 0xd8a1e681; 0xe7d3fbc8;
   0x21e1cde6; 0xc33707d6; 0xf4d50d87; 0x455a14ed; 0xa9e3e905; 0xfcefa3f8;
   0x676f02d9; 0x8d2a4c8a; 0xfffa3942; 0x8771f681; 0x6d9d6122; 0xfde5380c;
   0xa4beea44; 0x4bdecfa9; 0xf6bb4b60; 0xbebfbc70; 0x289b7ec6; 0xeaa127fa;
   0xd4ef3085; 0x04881d05; 0xd9d4d039; 0xe6db99e5; 0x1fa27cf8; 0xc4ac5665;
   0xf4292244; 0x432aff97; 0xab9423a7; 0xfc93a039; 0x655b59c3; 0x8f0ccc92;
   0xffeff47d; 0x85845dd1; 0x6fa87e4f; 0xfe2ce6e0; 0xa3014314; 0x4e0811a1;
   0xf7537e82; 0xbd3af235; 0x2ad7d2bb; 0xeb86d391].
Definition md5_S : list Z :=
  concat (map (fun r => concat (repeat r 4))
    [[7; 12; 17; 22]; [5; 9; 14; 20]; [4; 11; 16; 23]; [6; 10; 15; 21]]).
Definition md5_state : Type := (Z * Z * Z * Z)%type.
Definition md5_init : md5_state := (0x67452301, 0xefcdab89, 0x98badcfe, 0x10325476).
Definition md5_not (x : Z) : Z := Z.lxor x 0xffffffff.
(** Round [i]: the mixing function and the index of the message word. *)
Definition md5_fg (i : Z) (b c d : Z) : Z * Z :=
  if i <? 16 then (Z.lor (Z.land b c) (Z.land (md5_not b) d), i)
  else if i <? 32 then (Z.lor (Z.land d b) (Z.land (md5_not d) c), (5 * i + 1) mod 16)
  else if i <? 48 then (Z.lxor b (Z.lxor c d), (3 * i + 5) mod 16)
  else (Z.lxor c (Z.lor b (md5_not d)), (7 * i) mod 16).
Fixpoint md5_rounds (i : Z) (ks : list (Z * Z)) (m : list Z) (st : md5_state) : md5_state :=
  match ks with
  | [] => st
  | (k, s) :: ks =>
      let '(a, b, c, d) := st in
      let '(f, g) := md5_fg i b c d in
      let f := w32 (f + a + k + nth (Z.to_nat g) m 0) in
      md5_rounds (i + 1) ks m (d, w32 (b + rotl f s), b, c)
  end.
Fixpoint le_bytes (n : nat) (z : Z) : list Z :=
  match n with O => [] | S n => z mod 256 :: le_bytes n (z / 256) end.
Fixpoint le_words (l : list Z) : list Z :=
  match l with
  | a :: b :: c :: d :: l => a + 2 ^ 8 * b + 2 ^ 16 * c + 2 ^ 24 * d :: le_words l
  | _ => []
  end.
Fixpoint md5_blocks (n : nat) (ws : list Z) (st : md5_state) : md5_state :=
  match n with
  | O => st
  | S n =>
      let '(a, b, c, d) := st in
      let '(a', b', c', d') := md5_rounds 0 (combine md5_K md5_S) (take 16 ws) st in
      md5_blocks n (drop 16 ws) (w32 (a + a'), w32 (b + b'), w32 (c + c'), w32 (d + d'))
  end.
Definition md5_pad (l : list Z) : list Z :=
  let n := Z.of_nat (length l) in
  l ++ 0x80 :: repeat 0 (Z.to_nat ((55 - n) mod 64)) ++ le_bytes 8 (8 * n).
Definition md5_sum (s : string) : list Z :=
  let ws := le_words (md5_pad (str_bytes s)) in
  let '(a, b, c, d) := md5_blocks (Nat.div (length ws) 16) ws md5_init in
  le_bytes 4 a ++ le_bytes 4 b ++ le_bytes 4 c ++ le_bytes 4 d.

Example md5_empty : md5_sum "" =
  [0xd4; 0x1d; 0x8c; 0xd9; 0x8f; 0x00; 0xb2; 0x04; 0xe9; 0x80; 0x09; 0x98; 0xec; 0xf8; 0x42; 0x7e].
Proof. vm_compute. done. Qed.
Example md5_digits :
  md5_sum "12345678901234567890123456789012345678901234567890123456789012345678901234567890" =
  [0x57; 0xed; 0xf4; 0xa2; 0x2b; 0xe3; 0xc9; 0x55; 0xac; 0x49; 0xda; 0x2e; 0x21; 0x07; 0xb6; 0x7a].
Proof. vm_compute. done. Qed.

(** ** [binary.Uvarint]: the value, and the number of bytes read; 0 when the buffer ends
    too early, negative when the value does not fit 64 bits. *)
Fixpoint uvarint_go (i s x : Z) (buf : list Z) : Z * Z :=
  match buf with
  | [] => (0, 0)
  | b :: buf =>
      if b <? 0x80 then
        if (9 <? i) || ((i =? 9) && (1 <? b)) then (0, - (i + 1))
        else (Z.lor x (uint64 (Z.shiftl b s)), i + 1)
      else uvarint_go (i + 1) (s + 7) (Z.lor x (uint64 (Z.shiftl (Z.land b 0x7f) s))) buf
  end.
Definition Uvarint (buf : list Z) : Z * Z := uvarint_go 0 0 0 buf.

Example Uvarint_ex : Uvarint [0xac; 0x02; 0xff] = (300, 2) /\ Uvarint [0x80; 0x80] = (0, 0).
Proof. vm_compute. done. Qed.

(** ** Bounds *)
Definition byte_ok (b : Z) : Prop := 0 <= b < 256.

Lemma byte_val_ok c : byte_ok (byte_val c).
Proof.
  unfold byte_ok, byte_val. pose proof (N_ascii_bounded c). lia.
Qed.
Lemma str_bytes_ok s : Forall byte_ok (str_bytes s).
Proof. unfold str_bytes. apply Forall_map, Forall_true. apply byte_val_ok. Qed.
Lemma le_bytes_ok n z : Forall byte_ok (le_bytes n z).
Proof.
  revert z. induction n as [|n IH]; intros z; constructor; [|apply IH].
  apply Z.mod_pos_bound. lia.
Qed.
Lemma md5_sum_ok s : length (md5_sum s) = 16%nat /\ Forall byte_ok (md5_sum s).
Proof.
  unfold md5_sum. case_match. case_match. case_match. split; [done|].
  repeat apply Forall_app_2; apply le_bytes_ok.
Qed.

Lemma lor_bound x y n : 0 <= n -> 0 <= x < 2 ^ n -> 0 <= y < 2 ^ n -> 0 <= Z.lor x y < 2 ^ n.
Proof.
  intros Hn Hx Hy. assert (0 <= Z.lor x y) by (apply Z.lor_nonneg; lia). split; [done|].
  destruct (decide (Z.lor x y = 0)) as [->|]; [lia|].
  apply Z.log2_lt_pow2; [lia|]. rewrite Z.log2_lor by lia.
  apply Z.max_lub_lt.
  - destruct (decide (x = 0)) as [->|]; [|apply Z.log2_lt_pow2; lia].
    simpl. destruct (decide (n = 0)) as [->|]; [|lia]. assert (y = 0) as -> by lia. done.
  - destruct (decide (y = 0)) as [->|]; [|apply Z.log2_lt_pow2; lia].
    simpl. destruct (decide (n = 0)) as [->|]; [|lia]. assert (x = 0) as -> by lia. done.
Qed.

Lemma shift_bound v i : 0 <= v < 128 -> 0 <= i -> 7 * i + 7 <= 64 ->
  0 <= uint64 (Z.shiftl v (7 * i)) < 2 ^ (7 * i + 7).
Proof.
  intros Hv Hi Hl. rewrite Z.shiftl_mul_pow2 by lia. unfold uint64.
  assert (v * 2 ^ (7 * i) < 2 ^ (7 * i + 7)).
  { rewrite Z.pow_add_r by lia. pose proof (Z.pow_pos_nonneg 2 (7 * i)). nia. }
  assert (2 ^ (7 * i + 7) <= 2 ^ 64) by (apply Z.pow_le_mono_r; lia).
  pose proof (Z.pow_pos_nonneg 2 (7 * i)). rewrite Z.mod_small; nia.
Qed.

(** With at most eight bytes the value never overflows, and is below 2^56. *)
Lemma uvarint_go_bound buf i x :
  Forall byte_ok buf -> 0 <= i -> i + Z.of_nat (length buf) <= 8 -> 0 <= x < 2 ^ (7 * i) ->
  let '(y, z) := uvarint_go i (7 * i) x buf in 0 <= z /\ 0 <= y < 2 ^ 56.
Proof.
  intros Hb. revert i x. induction Hb as [|b buf Hb _ IH]; intros i x Hi Hl Hx; cbn [uvarint_go length] in *.
  { split; [lia|]. split; [lia|]. done. }
  assert (2 ^ (7 * i) <= 2 ^ (7 * i + 7)) by (apply Z.pow_le_mono_r; lia).
  unfold byte_ok in Hb. destruct (Z.ltb_spec b 0x80) as [Hlt|Hge].
  - destruct (Z.ltb_spec 9 i); [lia|]. destruct (Z.eqb_spec i 9); [lia|]. simpl.
    split; [lia|]. pose proof (shift_bound b i ltac:(lia) Hi ltac:(lia)).
    assert (2 ^ (7 * i + 7) <= 2 ^ 56) by (apply Z.pow_le_mono_r; lia).
    pose proof (lor_bound x (uint64 (Z.shiftl b (7 * i))) (7 * i + 7)). lia.
  - replace (7 * i + 7) with (7 * (i + 1)) in * by lia. apply IH; [lia|lia|].
    assert (0 <= Z.land b 0x7f < 128) as Hl7.
    { change 0x7f with (Z.ones 7). rewrite Z.land_ones by lia. apply Z.mod_pos_bound. lia. }
    pose proof (shift_bound _ i Hl7 Hi ltac:(lia)) as Hs.
    replace (7 * i + 7) with (7 * (i + 1)) in Hs by lia.
    apply lor_bound; lia.
Qed.
Lemma Uvarint_8_bytes buf :
  Forall byte_ok buf -> (length buf <= 8)%nat ->
  let '(y, z) := Uvarint buf in 0 <= z /\ 0 <= y < 2 ^ 56.
Proof. intros Hb Hl. apply (uvarint_go_bound buf 0 0); [done|lia|lia|lia]. Qed.
