(* ===== verification/ZkstoreStore.v ===== *)
(** * zkstore: hashing of names to buckets (hash.go), the configuration of a store
    (options.go, [NewStore]) and the znode paths it uses ([bucketsPath], [identPath]). *)
From S2P Require Import Prelude.
From S2P Require Import GoStrings.
From S2P Require Import GoPath.
From S2P Require Import GoErrors.
From S2P Require Import ZkClient.
From S2P Require Import GoRegexp.
From S2P Require Import GoMd5.
From S2P Require Import ZkstoreData.

Local Open Scope string_scope.

(** ** hash.go *)
Definition HashProviderFunc : Type := string -> res error Z.

(** A [hash.Hash] constructor: fresh state, [Write], [Sum(nil)]. *)
Record Hasher : Type := MkHasher {
  hash_state : Type;
  hash_new : hash_state;
  Write : hash_state -> string -> res error hash_state;
  Sum : hash_state -> list Z;
}.
(** [md5.New]: the digest of everything written; [Write] never fails. *)
Definition md5_New : Hasher := MkHasher string "" (fun st s => Ok (st ++ s)) md5_sum.

Definition HashProvider (f : option Hasher) : option HashProviderFunc :=
  match f with
  | None => None
  | Some h => Some (fun s =>
      st ← Write h (hash_new h) s;
      let hash := Sum h st in
      let hash := if (8 <? Z.of_nat (length hash))%Z then take 8 hash else hash in
      let '(y, z) := Uvarint hash in
      if (z <? 0)%Z then Fail errHashOverflow else Ok y)
  end.
Definition DefaultHashProviderFunc : option HashProviderFunc := HashProvider (Some md5_New).

(** [res % uint64(bucketCount)]: a division by zero panics. *)
Definition hashBytesToBucket (bucketCount : Z) (res : Z) : Prelude.res error Z :=
  if (uint64 bucketCount =? 0)%Z then Fail (goPanic "integer divide by zero")
  else Ok (wrap64 (res mod uint64 bucketCount))%Z.

(** Calling a nil [HashProviderFunc] panics. *)
Definition bucketFunc (bucketCount : Z) (f : option HashProviderFunc) (name : string)
    : Prelude.res error Z :=
  match f with
  | None => Fail (goPanic "nil pointer dereference")
  | Some f => hash ← f name; hashBytesToBucket bucketCount hash
  end.

(** ** The store. The connection is the service the operations run against, and
    [closeFunc] is [connector.Close]: neither is copied into the record. *)
Record Store : Type := MkStore {
  basePath : string;
  bucketsZnodeName : string;
  acls : list ACL;
  store_bucketFunc : string -> res error Z;
  hashProviderFunc : option HashProviderFunc;
  hashBuckets : Z;
}.

Definition DefaultNumHashBuckets : Z := 256.
Definition DefaultBucketsZnodeName : string := "buckets".
(** [zk.WorldACL(zk.PermAll)] *)
Definition DefaultZKACL : list ACL := WorldACL PermAll.

Definition set_basePath (p : string) (s : Store) : Store :=
  MkStore p (bucketsZnodeName s) (acls s) (store_bucketFunc s) (hashProviderFunc s) (hashBuckets s).
Definition set_bucketsZnodeName (n : string) (s : Store) : Store :=
  MkStore (basePath s) n (acls s) (store_bucketFunc s) (hashProviderFunc s) (hashBuckets s).
Definition set_acls (a : list ACL) (s : Store) : Store :=
  MkStore (basePath s) (bucketsZnodeName s) a (store_bucketFunc s) (hashProviderFunc s) (hashBuckets s).
Definition set_bucketFunc (f : string -> res error Z) (s : Store) : Store :=
  MkStore (basePath s) (bucketsZnodeName s) (acls s) f (hashProviderFunc s) (hashBuckets s).
Definition set_hashProviderFunc (f : option HashProviderFunc) (s : Store) : Store :=
  MkStore (basePath s) (bucketsZnodeName s) (acls s) (store_bucketFunc s) f (hashBuckets s).
Definition set_hashBuckets (n : Z) (s : Store) : Store :=
  MkStore (basePath s) (bucketsZnodeName s) (acls s) (store_bucketFunc s) (hashProviderFunc s) n.

(** ** options.go: an option is a possibly nil function that updates the store or fails *)
Definition StoreOpt : Type := option (Store -> res error Store).
Definition Apply (f : StoreOpt) (s : Store) : res error Store :=
  match f with Some f => f s | None => Ok s end.
Definition optError (s : Store) : res error Store := Fail ErrIllegalOption.

Definition OptBasePath (p : string) : StoreOpt :=
  if bool_decide (p = "") then None
  else if negb (HasPrefix p "/") then Some optError
  else if negb (bool_decide (Clean p = p)) then Some optError
  else Some (fun s => Ok (set_basePath p s)).

Definition optBucketFunc (f : option (string -> res error Z)) : StoreOpt :=
  match f with None => None | Some f => Some (fun s => Ok (set_bucketFunc f s)) end.

Definition OptNumHashBuckets (numBuckets : Z) : StoreOpt :=
  if (numBuckets =? 0)%Z then None
  else if (numBuckets <? 0)%Z then Some optError
  else Some (fun s =>
    let s := set_hashBuckets numBuckets s in
    Apply (optBucketFunc (Some (bucketFunc numBuckets (hashProviderFunc s)))) s).

Definition OptACL (acl : list ACL) : StoreOpt :=
  match acl with [] => None | _ => Some (fun s => Ok (set_acls acl s)) end.

Definition OptHashProviderFunc (f : option HashProviderFunc) : StoreOpt :=
  match f with
  | None => None
  | Some _ => Some (fun s =>
      let s := set_hashProviderFunc f s in
      Apply (optBucketFunc (Some (bucketFunc (hashBuckets s) f))) s)
  end.

Definition OptBucketsZnodeName (name : string) : StoreOpt :=
  match ValidateNamed name true with
  | Fail _ => Some optError
  | Ok _ => Some (fun s => Ok (set_bucketsZnodeName name s))
  end.

(** ** [NewStore] *)
Definition default_store : Store :=
  MkStore "" DefaultBucketsZnodeName DefaultZKACL
    (bucketFunc DefaultNumHashBuckets DefaultHashProviderFunc)
    DefaultHashProviderFunc DefaultNumHashBuckets.
Fixpoint apply_opts (opts : list StoreOpt) (s : Store) : res error Store :=
  match opts with
  | [] => Ok s
  | opt :: opts => s ← Apply opt s; apply_opts opts s
  end.
(** [connect] is the outcome of [connector.Connect()]. *)
Definition NewStore {Conn} (connect : res error Conn) (opts : list StoreOpt)
    : res error (Conn * Store) :=
  conn ← connect;
  s ← apply_opts opts default_store;
  Ok (conn, s).

(** ** Paths *)
Definition bucketsPath (s : Store) (category : string) : res error string :=
  let leaf := Base (Clean category) in
  if bool_decide (leaf = bucketsZnodeName s) then Fail errBadCategory
  else Ok (PathJoin ["/"; basePath s; category; bucketsZnodeName s]).

Definition identPath (s : Store) (i : Ident) : res error string :=
  bucket ← store_bucketFunc s (Name (loc i));
  bucketsPath' ← bucketsPath s (Category (loc i));
  Ok (PathJoin [bucketsPath'; Itoa bucket; Name (loc i); Variant i]).

Example identPath_ex :
  match apply_opts [OptBasePath "/storage"; None; OptNumHashBuckets 50] default_store with
  | Ok s => identPath s (MkIdent (MkLocation "widgets/2017" "item1") "v2" Version.zero)
  | Fail e => Fail e
  end = Ok "/storage/widgets/2017/buckets/40/item1/v2".
Proof. vm_compute. done. Qed.

(** ** Hashing never fails with the hashers of the standard library, and stays in range *)
Lemma uint64_id z : (0 <= z < 2 ^ 64)%Z -> uint64 z = z.
Proof. intros. unfold uint64. by apply Z.mod_small. Qed.
Lemma wrap64_id z : (int64_min <= z <= int64_max)%Z -> wrap64 z = z.
Proof. unfold wrap64, int64_min, int64_max. intros. rewrite Z.mod_small; lia. Qed.

Definition int_positive (n : Z) : Prop := (0 < n <= int64_max)%Z.

Lemma hashBytesToBucket_spec n h :
  int_positive n -> hashBytesToBucket n h = Ok (h mod n)%Z /\ (0 <= h mod n < n)%Z.
Proof.
  unfold int_positive, int64_max. intros Hn. unfold hashBytesToBucket.
  rewrite uint64_id by lia. pose proof (Z.mod_pos_bound h n ltac:(lia)).
  destruct (Z.eqb_spec n 0); [lia|]. rewrite wrap64_id; [done|].
  unfold int64_min, int64_max. lia.
Qed.

(** A hasher whose [Write] cannot fail and whose digest is made of bytes. *)
Definition hasher_ok (h : Hasher) : Prop :=
  (forall st s, is_ok (Write h st s) = true) /\ (forall st, Forall byte_ok (Sum h st)).
Lemma md5_New_ok : hasher_ok md5_New.
Proof. split; [done|]. intros st. apply md5_sum_ok. Qed.

Lemma HashProvider_total h f s :
  hasher_ok h -> HashProvider (Some h) = Some f -> exists y, f s = Ok y /\ (0 <= y < 2 ^ 56)%Z.
Proof.
  intros [Hw Hs] [= <-]. specialize (Hw (hash_new h) s).
  destruct (Write h (hash_new h) s) as [|st]; [done|]. simpl.
  assert (exists buf, (if (8 <? Z.of_nat (length (Sum h st)))%Z then take 8 (Sum h st)
    else Sum h st) = buf /\ Forall byte_ok buf /\ length buf <= 8) as (buf & -> & Hb & Hl).
  { eexists; split; [done|]. destruct (Z.ltb_spec 8 (Z.of_nat (length (Sum h st)))).
    - split; [by apply Forall_take|]. rewrite length_take. lia.
    - split; [done|lia]. }
  pose proof (Uvarint_8_bytes buf Hb Hl) as Hu. destruct (Uvarint buf) as [y z].
  destruct Hu as [Hz Hy]. destruct (Z.ltb_spec z 0); [lia|]. eauto.
Qed.

(** ** What the options maintain *)
(** The configuration invariant: a positive bucket count; [bucketFunc] built from the count
    and the hash provider on record; a bucket folder with a valid name; a base path that is
    empty, or rooted and clean. *)
Record store_wf (s : Store) : Prop := {
  wf_buckets : int_positive (hashBuckets s);
  wf_bucketFunc : store_bucketFunc s = bucketFunc (hashBuckets s) (hashProviderFunc s);
  wf_provider : is_Some (hashProviderFunc s);
  wf_znode : name_ok (bucketsZnodeName s);
  wf_base : basePath s = "" \/ (HasPrefix (basePath s) "/" = true /\ Clean (basePath s) = basePath s);
}.

(** The options the package exports (the nil option included). *)
Inductive package_opt : StoreOpt -> Prop :=
| po_nil : package_opt None
| po_base p : package_opt (OptBasePath p)
| po_buckets n : (int64_min <= n <= int64_max)%Z -> package_opt (OptNumHashBuckets n)
| po_acl a : package_opt (OptACL a)
| po_hash f : package_opt (OptHashProviderFunc f)
| po_znode n : package_opt (OptBucketsZnodeName n).

Lemma default_store_wf : store_wf default_store.
Proof.
  split; [done|done|by eexists|by vm_compute|by left].
Qed.

Lemma package_opt_wf o s s' : package_opt o -> store_wf s -> Apply o s = Ok s' -> store_wf s'.
Proof.
  intros Ho [] Ha. destruct Ho as [|p|n Hn|a|f|n]; simpl in Ha; [by simplify_eq| | | | |].
  - unfold OptBasePath in Ha. case_bool_decide; simplify_eq/=; [done|].
    destruct (HasPrefix p "/") eqn:Hp; simplify_eq/=.
    case_bool_decide; simplify_eq/=. split; auto.
  - unfold OptNumHashBuckets in Ha. destruct (Z.eqb_spec n 0); simplify_eq/=; [done|].
    destruct (Z.ltb_spec n 0); simplify_eq/=. split; simpl; auto. unfold int_positive, int64_min in *. lia.
  - unfold OptACL in Ha. destruct a; simplify_eq/=; [done|]. split; auto.
  - unfold OptHashProviderFunc in Ha. destruct f; simplify_eq/=; [|done]. split; simpl; eauto.
  - unfold OptBucketsZnodeName in Ha. destruct (ValidateNamed n true) as [|[]] eqn:Hv; simplify_eq/=.
    apply ValidateNamed_ok in Hv as [[_ ?]|Hv]; [done|]. split; auto.
Qed.

Lemma apply_opts_wf opts s s' :
  Forall package_opt opts -> store_wf s -> apply_opts opts s = Ok s' -> store_wf s'.
Proof.
  intros Ho. revert s. induction Ho as [|o opts Ho _ IH]; intros s Hs Ha; simpl in Ha.
  - by simplify_eq.
  - destruct (Apply o s) as [|s1] eqn:H1; [done|]. simpl in Ha. eauto using package_opt_wf.
Qed.

Lemma NewStore_inv {Conn} (connect : res error Conn) opts conn s :
  NewStore connect opts = Ok (conn, s) -> connect = Ok conn /\ apply_opts opts default_store = Ok s.
Proof.
  unfold NewStore. destruct connect; [done|]; simpl.
  destruct (apply_opts opts default_store); [done|]. intros [= -> ->]. done.
Qed.

(** ** The shape of the paths *)
(** The elements of an ident's path, given its bucket. *)
Definition bucket_segs (s : Store) (category : string) : list string :=
  elems (basePath s) ++ elems category ++ [bucketsZnodeName s].
Definition ident_segs (s : Store) (i : Ident) (bucket : Z) : list string :=
  bucket_segs s (Category (loc i)) ++ [Itoa bucket; Name (loc i)] ++ elems (Variant i).

(** What [Ident.Validate] guarantees. *)
Record ident_ok (i : Ident) : Prop := {
  ok_name : name_ok (Name (loc i));
  ok_category : category_ok (Category (loc i));
  ok_variant : Variant i = "" \/ name_ok (Variant i);
}.
Lemma Ident_Validate_ok i : Ident_Validate i = Ok tt <-> ident_ok i.
Proof.
  unfold Ident_Validate, Location_Validate. split.
  - intros Hv. destruct (ValidateNamed (Name (loc i)) true) as [|[]] eqn:Hn; [done|].
    destruct (ValidateCategory (Category (loc i))) as [|[]] eqn:Hc; [done|].
    destruct (ValidateNamed (Variant i) false) as [|[]] eqn:Hr; [done|].
    apply ValidateNamed_ok in Hn as [[_ ?]|?]; [done|].
    apply ValidateCategory_ok in Hc. apply ValidateNamed_ok in Hr. split; [done|done|naive_solver].
  - intros [Hn Hc Hr]. rewrite (proj2 (ValidateNamed_ok _ true)) by auto.
    rewrite (proj2 (ValidateCategory_ok _)) by done. simpl.
    by rewrite (proj2 (ValidateNamed_ok _ false)) by naive_solver.
Qed.

Lemma Itoa_normal z : (0 <= z)%Z -> normal (Itoa z) /\ name_ok (Itoa z).
Proof.
  intros [Hd Hne]%Itoa_nonneg. assert (name_ok (Itoa z)) as Hok.
  { split; [done|]. eapply all_bytes_impl; [|exact Hd]. intros c Hc.
    unfold name_byte, digit_byte, between. unfold is_digit, digit_val in Hc.
    change (N_of_ascii "0") with 48%N. change (N_of_ascii "9") with 57%N.
    apply bool_decide_eq_true in Hc as [v Hv]. case_match eqn:Hb; [|done].
    apply andb_true_iff in Hb as [H1%Z.leb_le H2%Z.leb_le].
    assert ((48 <=? N_of_ascii c)%N && (N_of_ascii c <=? 57)%N = true) as ->
      by (apply andb_true_iff; split; apply N.leb_le; lia).
    by rewrite orb_true_r. }
  auto using name_ok_normal.
Qed.

Section paths.
Context (s : Store) (Hs : store_wf s).

Lemma base_normal : Forall normal (elems (basePath s)).
Proof.
  destruct (wf_base s Hs) as [->|[Hp Hc]]; [constructor|]. by apply Clean_fix_normal.
Qed.
Lemma znode_normal : normal (bucketsZnodeName s).
Proof. apply name_ok_normal, Hs. Qed.
Lemma category_normal c : category_ok c -> Forall normal (elems c).
Proof. intros [Hc _]. by apply names_normal. Qed.

Lemma bucket_segs_normal c : category_ok c -> Forall normal (bucket_segs s c).
Proof.
  intros Hc. unfold bucket_segs. repeat apply Forall_app_2.
  - apply base_normal.
  - by apply category_normal.
  - constructor; [apply znode_normal|done].
Qed.

Lemma bucketsPath_spec c :
  category_ok c ->
  bucketsPath s c =
    if bool_decide (last (elems c) = Some (bucketsZnodeName s)) then Fail errBadCategory
    else Ok (abs_path (bucket_segs s c)).
Proof.
  intros Hc. unfold bucketsPath.
  assert (Clean c = c) as Hclean.
  { apply ValidateCategory_ok in Hc. unfold ValidateCategory in Hc.
    repeat case_bool_decide; simpl in *; try done; by case_match. }
  rewrite Hclean.
  assert (Base c = bucketsZnodeName s <-> last (elems c) = Some (bucketsZnodeName s)) as Hb.
  { assert (c <> "") as Hne by (intros ->; destruct Hc as [_ [?|[? _]]]; done).
    unfold Base. rewrite bool_decide_eq_false_2 by done.
    destruct (last (elems c)) as [w|]; [naive_solver|].
    split; [|done]. intros Hz.
    destruct znode_normal as [[_ Hn] _]. rewrite <- Hz in Hn. by vm_compute in Hn. }
  rewrite (bool_decide_ext _ _ Hb). case_bool_decide; [done|]. f_equal.
  assert (mjoin (elems <$> ["/"; basePath s; c; bucketsZnodeName s]) = bucket_segs s c) as Hj.
  { csimpl. rewrite (elems_single (bucketsZnodeName s)) by apply znode_normal. done. }
  rewrite PathJoin_rooted; rewrite ?Hj; [done|done|]. by apply bucket_segs_normal.
Qed.

Lemma variant_elems i : ident_ok i -> Forall name_ok (elems (Variant i)).
Proof.
  intros Hi. destruct (ok_variant i Hi) as [->|Hv]; [constructor|].
  rewrite elems_single by apply name_ok_normal, Hv. by constructor.
Qed.

Lemma ident_segs_normal i b :
  ident_ok i -> (0 <= b)%Z -> Forall normal (ident_segs s i b).
Proof.
  intros Hi Hb. unfold ident_segs. apply Forall_app_2.
  { apply bucket_segs_normal, Hi. }
  apply Forall_app_2; [|by apply names_normal, variant_elems].
  repeat constructor; try apply Itoa_normal; try apply name_ok_normal; try done; apply Hi.
Qed.

Lemma bucketFunc_range name b :
  store_bucketFunc s name = Ok b -> (0 <= b < hashBuckets s)%Z.
Proof.
  rewrite (wf_bucketFunc s Hs). unfold bucketFunc.
  destruct (hashProviderFunc s) as [f|]; [|done]. simpl.
  destruct (f name) as [|h]; [done|]. simpl.
  destruct (hashBytesToBucket_spec (hashBuckets s) h (wf_buckets s Hs)) as [-> Hr].
  by intros [= <-].
Qed.

Lemma identPath_spec i b :
  ident_ok i -> store_bucketFunc s (Name (loc i)) = Ok b ->
  identPath s i =
    if bool_decide (last (elems (Category (loc i))) = Some (bucketsZnodeName s))
    then Fail errBadCategory else Ok (abs_path (ident_segs s i b)).
Proof.
  intros Hi Hb. unfold identPath. rewrite Hb; simpl.
  rewrite bucketsPath_spec by apply Hi. case_bool_decide; simpl; [done|]. f_equal.
  pose proof (proj1 (bucketFunc_range _ _ Hb)) as Hb0.
  assert (mjoin (elems <$> [abs_path (bucket_segs s (Category (loc i))); Itoa b;
    Name (loc i); Variant i]) = ident_segs s i b) as Hj.
  { csimpl. rewrite elems_abs_path by (apply normal_elem_ok, bucket_segs_normal, Hi).
    rewrite (elems_single (Itoa b)) by by apply Itoa_normal.
    rewrite (elems_single (Name (loc i))) by apply name_ok_normal, Hi.
    by rewrite app_nil_r. }
  rewrite PathJoin_rooted; rewrite ?Hj; [done|apply HasPrefix_app|].
  by apply ident_segs_normal.
Qed.

Lemma identPath_inv i p :
  ident_ok i -> identPath s i = Ok p ->
  exists b, store_bucketFunc s (Name (loc i)) = Ok b /\ (0 <= b < hashBuckets s)%Z /\
    last (elems (Category (loc i))) <> Some (bucketsZnodeName s) /\
    p = abs_path (ident_segs s i b).
Proof.
  intros Hi Hp. destruct (store_bucketFunc s (Name (loc i))) as [e|b] eqn:Hb.
  { unfold identPath in Hp. by rewrite Hb in Hp. }
  rewrite (identPath_spec i b) in Hp by done. case_bool_decide; [done|].
  exists b. split; [done|]. split; [by eapply bucketFunc_range|]. by simplify_eq.
Qed.
End paths.
