(* ===== verification/ZkstoreOps.v ===== *)
(** * zkstore: the operations of the store (store.go) as programs over the service. *)
From S2P Require Import Prelude.
From S2P Require Import GoStrings.
From S2P Require Import GoPath.
From S2P Require Import GoErrors.
From S2P Require Import ZkService.
From S2P Require Import ZkstoreData.
From S2P Require Import ZkstoreStore.

Local Open Scope string_scope.

Definition NoPriorVersion : Z := -1.

(** Put must create: the version is set, to -1. *)
Definition creatingNewItem (item : Item) : bool :=
  let '(v, isSet) := Version.Value (Ver (ident item)) in isSet && (v =? NoPriorVersion)%Z.

Definition mustExist (path : string) : prog (res error Stat) :=
  call r := Exists_ path in
  Ret match r with
      | Fail err => Fail err
      | Ok (false, _) => Fail (errorsNew (path ++ " did not exist "))
      | Ok (true, None) => Fail (errorsNew ("got nil stat for path " ++ path))
      | Ok (true, Some stat) => Ok stat
      end.

Section loops.
Variable item : Item.

(** The loop of [setFully] over the [n] segments of the path, at index [i]. *)
Fixpoint setFully_loop (n i : Z) (current : string) (segments : list string)
    : prog (res error unit) :=
  match segments with
  | [] => Ret (Ok tt)
  | segment :: segments =>
      let isLast := (i =? n - 1)%Z in
      let current := PathJoin [current; segment] in
      call r := Exists_ current in
      match r with
      | Fail err => Ret (Fail (errorsWrap ("could not check " ++ current) err))
      | Ok (true, _) => setFully_loop n (i + 1) current segments
      | Ok (false, _) =>
          if isLast && (0 <=? actualVersion (ident item))%Z
          then Ret (Fail ErrVersionConflict)
          else
            let isParentOfVersion :=
              negb (bool_decide (Variant (ident item) = "")) && (i =? n - 2)%Z in
            let nodeData := if isLast || isParentOfVersion then Data item else "" in
            call r := Create current nodeData in
            match r with
            | Fail err =>
                if bool_decide (err = zkError ErrNodeExists)
                then setFully_loop n (i + 1) current segments
                else Ret (Fail err)
            | Ok _ => setFully_loop n (i + 1) current segments
            end
      end
  end.
End loops.

Definition setFully (s : Store) (item : Item) : prog (res error Stat) :=
  let! identPath' := identPath s (ident item) in
  let segments := Split identPath' slash in
  let? _ := setFully_loop item (Z.of_nat (length segments)) 0 "/" segments in
  prog_bind (mustExist identPath') (fun r => Ret (Wrap (identPath' ++ " was not created") r)).

(** The closure of [Put]: the new version, or the error. *)
Definition Put_body (s : Store) (item : Item) : prog (res error Version.t) :=
  let! _ := Item_Validate item in
  let! identPath' := identPath s (ident item) in
  if creatingNewItem item then
    call r := Exists_ identPath' in
    match r with
    | Fail err => Ret (Fail err)
    | Ok (true, _) => Ret (Fail ErrVersionConflict)
    | Ok (false, _) =>
        let? stat := setFully s item in
        Ret (Ok (Version.NewVersion (ZkService.Version stat)))
    end
  else
    call r := Set_ identPath' (Data item) (actualVersion (ident item)) in
    match r with
    | Fail err =>
        if bool_decide (err = zkError ErrNoNode) then
          let? stat := setFully s item in
          Ret (Ok (Version.NewVersion (ZkService.Version stat)))
        else if bool_decide (err = zkError ErrBadVersion) then Ret (Fail ErrVersionConflict)
        else Ret (Fail err)
    | Ok None => Ret (Fail (errorsNew ("could not stat " ++ identPath')))
    | Ok (Some stat) => Ret (Ok (Version.NewVersion (ZkService.Version stat)))
    end.

(** [Put] returns the item's ident, with the new version when it succeeds. *)
Definition Put (s : Store) (item : Item) : prog (Ident * res error unit) :=
  prog_bind (Put_body s item) (fun r => Ret
    match r with
    | Fail err => (ident item, Fail err)
    | Ok v => (set_version (ident item) v, Ok tt)
    end).

Definition Get (s : Store) (i : Ident) : prog (res error Item) :=
  let! _ := Ident_Validate i in
  let! identPath' := identPath s i in
  call r := Get_ identPath' in
  Ret match r with
      | Fail err => if bool_decide (err = zkError ErrNoNode) then Fail ErrNotFound else Fail err
      | Ok (data, stat) =>
          Ok (MkItem (set_version i (Version.NewVersion (ZkService.Version stat))) data)
      end.

Definition Variants (s : Store) (l : Location) : prog (res error (list string)) :=
  let! _ := Location_Validate l in
  let! identPath' := identPath s (MkIdent l "" Version.zero) in
  call r := Children identPath' in
  Ret match r with
      | Fail err => if bool_decide (err = zkError ErrNoNode) then Fail ErrNotFound else Fail err
      | Ok variants => Ok variants
      end.

(** The switch on the error of [conn.Delete] in both delete functions. *)
Definition delete_result (r : res error unit) : res error unit :=
  match r with
  | Fail err =>
      if bool_decide (err = zkError ErrNoNode) then Ok tt
      else if bool_decide (err = zkError ErrBadVersion) then Fail ErrVersionConflict
      else Fail err
  | Ok _ => Ok tt
  end.

Definition deleteVariant (s : Store) (i : Ident) : prog (res error unit) :=
  let! identPath' := identPath s i in
  call r := Delete_ identPath' (actualVersion i) in
  Ret (delete_result r).

Fixpoint deleteVariants (s : Store) (i : Ident) (variants : list string)
    : prog (res error unit) :=
  match variants with
  | [] => Ret (Ok tt)
  | v :: variants =>
      let? _ := deleteVariant s (MkIdent (loc i) v Version.zero) in
      deleteVariants s i variants
  end.

Definition deleteItem (s : Store) (i : Ident) : prog (res error unit) :=
  prog_bind (Variants s (loc i)) (fun r =>
    match r with
    | Fail err => if bool_decide (err = ErrNotFound) then Ret (Ok tt) else Ret (Fail err)
    | Ok variants =>
        let? _ := deleteVariants s i variants in
        let! identPath' := identPath s i in
        call r := Delete_ identPath' (actualVersion i) in
        Ret (delete_result r)
    end).

Definition Delete (s : Store) (i : Ident) : prog (res error unit) :=
  let! _ := Ident_Validate i in
  if negb (bool_decide (Variant i = "")) then deleteVariant s i else deleteItem s i.

(** The loop of [List] over the buckets; the locations found so far are returned with an
    error too. *)
Fixpoint List_loop (category bucketsPath' : string) (buckets : list string)
    (locations : list Location) : prog (list Location * res error unit) :=
  match buckets with
  | [] => Ret (locations, Ok tt)
  | bucket :: buckets =>
      call r := Children (PathJoin [bucketsPath'; bucket]) in
      match r with
      | Fail err =>
          if bool_decide (err = zkError ErrNoNode)
          then List_loop category bucketsPath' buckets locations
          else Ret (locations, Fail err)
      | Ok children =>
          List_loop category bucketsPath' buckets
            (locations ++ map (fun child => MkLocation category (Base child)) children)
      end
  end.
Definition List_ (s : Store) (category : string) : prog (list Location * res error unit) :=
  match Wrap "invalid category" (ValidateCategory category) with
  | Fail err => Ret ([], Fail err)
  | Ok _ =>
      match bucketsPath s category with
      | Fail err => Ret ([], Fail err)
      | Ok bucketsPath' =>
          call r := Children bucketsPath' in
          match r with
          | Fail err =>
              if bool_decide (err = zkError ErrNoNode) then Ret ([], Fail ErrNotFound)
              else Ret ([], Fail err)
          | Ok buckets =>
              match buckets with
              | [] => Ret ([], Ok tt)
              | _ => List_loop category bucketsPath' buckets []
              end
          end
      end
  end.

(** [LocationsByName]: the comparison of the elements at two indices; an index out of
    range panics ([None]). *)
Definition LocationsByName (locations : list Location) (i j : nat) : option bool :=
  a ← locations !! i; b ← locations !! j; Some (String.ltb (Name a) (Name b)).

(** ** Runs on the reference service *)
Definition root_tree : tree := {[ [] := Znode "" 0 ]}.
Definition test_store : Store :=
  match apply_opts [OptBasePath "/storage"; OptNumHashBuckets 1] default_store with
  | Ok s => s
  | Fail _ => default_store
  end.
Definition mk (category name variant : string) (v : Version.t) : Ident :=
  MkIdent (MkLocation category name) variant v.

Example put_get_ex :
  let '(r1, t) := run (Put test_store (MkItem (mk "widgets" "foo" "v2" Version.zero) "hello")) root_tree in
  (r1.2, actualVersion r1.1, fst (run (Get test_store (mk "widgets" "foo" "" Version.zero)) t),
   fst (run (Variants test_store (MkLocation "widgets" "foo")) t),
   fst (run (List_ test_store "widgets") t)) =
  (Ok tt, 0%Z, Ok (MkItem (mk "widgets" "foo" "" (Version.NewVersion 0)) "hello"),
   Ok ["v2"], ([MkLocation "widgets" "foo"], Ok tt)).
Proof. vm_compute. done. Qed.
