(* ===== verification/ZkstoreSpec.v ===== *)
(** * zkstore: what [Put] and [Get] promise, as functions on the tree of znodes, and the
    lemmas that the programs of [ZkstoreOps] do exactly that. *)
From S2P Require Import Prelude.
From S2P Require Import GoStrings.
From S2P Require Import GoPath.
From S2P Require Import GoErrors.
From S2P Require Import ZkService.
From S2P Require Import ZkstoreData.
From S2P Require Import ZkstoreStore.
From S2P Require Import ZkstoreOps.

Local Open Scope string_scope.

(** ** The specification *)
(** The content of a created znode that is [k] levels above the end of the path: the item's
    data at the end, and one level up when the item has a variant; nothing elsewhere. *)
Definition node_data (item : Item) (k : nat) : string :=
  if bool_decide (k = 0) || (negb (bool_decide (Variant (ident item) = "")) && bool_decide (k = 1))
  then Data item else "".
(** Create the missing znodes on the way from [pre] along [rest], whose last element is
    [extra] levels above the end of the item's path. *)
Fixpoint create_missing (item : Item) (extra : nat) (t : tree) (pre rest : list string) : tree :=
  match rest with
  | [] => t
  | w :: rest =>
      let q := (pre ++ [w])%list in
      let t' := match t !! q with
                | Some _ => t
                | None => <[q := Znode (node_data item (extra + length rest)) 0]> t
                end in
      create_missing item extra t' q rest
  end.

(** [Put] of an item whose path has elements [l]. *)
Definition put_spec (item : Item) (l : list string) (t : tree) : res error Version.t * tree :=
  let av := actualVersion (ident item) in
  match t !! l with
  | Some n =>
      if creatingNewItem item then (Fail ErrVersionConflict, t)
      else if version_matches av (zversion n) then
        let v := wrap32 (zversion n + 1) in
        (Ok (Version.NewVersion v), <[l := Znode (Data item) v]> t)
      else (Fail ErrVersionConflict, t)
  | None =>
      if (0 <=? av)%Z
      then (Fail ErrVersionConflict, create_missing item 1 t [] (removelast l))
      else (Ok (Version.NewVersion 0), create_missing item 0 t [] l)
  end.
(** [Get] of an ident whose path has elements [l]. *)
Definition get_spec (i : Ident) (l : list string) (t : tree) : res error Item :=
  match t !! l with
  | Some n => Ok (MkItem (set_version i (Version.NewVersion (zversion n))) (zdata n))
  | None => Fail ErrNotFound
  end.

(** ** Paths the laws cover *)
(** A configured store whose base path is printable ASCII. *)
Definition store_ok (s : Store) : Prop := store_wf s /\ all_bytes printable (basePath s) = true.

Lemma name_byte_printable c : name_byte c = true -> printable c = true.
Proof.
  intros Hc. unfold name_byte, word_byte, digit_byte, between in Hc. unfold printable.
  change (N_of_ascii "0") with 48%N in Hc. change (N_of_ascii "9") with 57%N in Hc.
  change (N_of_ascii "A") with 65%N in Hc. change (N_of_ascii "Z") with 90%N in Hc.
  change (N_of_ascii "a") with 97%N in Hc. change (N_of_ascii "z") with 122%N in Hc.
  rewrite !orb_true_iff, !andb_true_iff, !N.leb_le, !bool_decide_eq_true in Hc.
  rewrite andb_true_iff, !N.leb_le.
  repeat match goal with H : _ \/ _ |- _ => destruct H as [H|H] end; try lia; subst; by vm_compute.
Qed.
Lemma name_ok_good w : name_ok w -> good_seg w.
Proof.
  intros Hw. split; [by apply name_ok_normal|]. destruct Hw as [_ Hw].
  eapply all_bytes_impl; [|exact Hw]. apply name_byte_printable.
Qed.
Lemma names_good l : Forall name_ok l -> Forall good_seg l.
Proof. intros Hl. eapply Forall_impl; [exact Hl|]. apply name_ok_good. Qed.
#[export] Hint Resolve name_ok_good names_good : go.
Lemma elems_printable p : all_bytes printable p = true -> Forall (fun w => all_bytes printable w = true) (elems p).
Proof.
  intros Hp. assert (Forall (fun w => all_bytes printable w = true) (Split p slash)) as Hs.
  { apply all_bytes_pieces. eapply all_bytes_impl; [|exact Hp]. intros c ->. apply orb_true_r. }
  unfold elems. apply Forall_forall. intros w [_ Hw]%list_elem_of_filter.
  rewrite Forall_forall in Hs. auto.
Qed.

Section ident_paths.
Context (s : Store) (Hs : store_ok s).

Lemma bucket_segs_good c : category_ok c -> Forall good_seg (bucket_segs s c).
Proof.
  intros [Hc _]. destruct Hs as [Hwf Hp]. unfold bucket_segs. repeat apply Forall_app_2.
  - pose proof (base_normal s Hwf) as Hb. pose proof (elems_printable _ Hp) as He.
    rewrite Forall_forall in *. split; auto.
  - by apply names_good.
  - constructor; [apply name_ok_good, Hwf|done].
Qed.
Lemma ident_segs_good i b : ident_ok i -> (0 <= b)%Z -> Forall good_seg (ident_segs s i b).
Proof.
  intros Hi Hb. unfold ident_segs. apply Forall_app_2; [apply bucket_segs_good, Hi|].
  apply Forall_app_2; [|by apply names_good, variant_elems].
  constructor; [by apply name_ok_good, Itoa_normal|]. constructor; [apply name_ok_good, Hi|done].
Qed.

(** The znode an ident stands for. *)
Definition ident_at (i : Ident) (l : list string) : Prop :=
  ident_ok i /\ identPath s i = Ok (abs_path l) /\ Forall good_seg l /\ l <> [].

Lemma identPath_at i p : ident_ok i -> identPath s i = Ok p -> exists l, p = abs_path l /\ ident_at i l.
Proof.
  intros Hi Hp. destruct (identPath_inv s (proj1 Hs) i p Hi Hp) as (b & Hb & Hr & _ & ->).
  exists (ident_segs s i b). split; [done|]. split; [done|]. split; [done|]. split.
  - apply ident_segs_good; [done|lia].
  - unfold ident_segs, bucket_segs. by destruct (elems (basePath s)), (elems (Category (loc i))).
Qed.
Lemma identPath_segs i l :
  ident_ok i -> identPath s i = Ok (abs_path l) -> Forall good_seg l ->
  exists b, store_bucketFunc s (Name (loc i)) = Ok b /\ l = ident_segs s i b.
Proof.
  intros Hi Hp Hl. destruct (identPath_inv s (proj1 Hs) i _ Hi Hp) as (b & Hb & Hr & _ & Heq).
  exists b. split; [done|]. apply abs_path_inj in Heq; [done|by auto with go|].
  apply normal_elem_ok, good_normal, ident_segs_good; [done|lia].
Qed.
End ident_paths.

(** ** [setFully] and [Put] on the reference service *)
Lemma run_try {A B} (p : prog (res error A)) (f : A -> prog (res error B)) (t : tree) :
  run (let? x := p in f x) t =
  match run p t with (Fail e, t') => (Fail e, t') | (Ok a, t') => run (f a) t' end.
Proof. unfold try_bind. rewrite run_bind. by destruct (run p t) as [[]]. Qed.

Lemma run_mustExist (l : list string) (t : tree) :
  Forall good_seg l ->
  run (mustExist (abs_path l)) t =
  (match t !! l with
   | Some n => Ok (MkStat (zversion n))
   | None => Fail (errorsNew (abs_path l ++ " did not exist "))
   end, t).
Proof. intros Hl. unfold mustExist; simpl. rewrite (ref_do_good _ l) by done; simpl. by destruct (t !! l). Qed.

Section create_missing.
Variable item : Item.

Lemma create_missing_keep (extra : nat) (rest pre : list string) (t : tree) (q : list string) n :
  t !! q = Some n -> create_missing item extra t pre rest !! q = Some n.
Proof.
  revert t pre. induction rest as [|w rest IH]; intros t pre Hq; simpl; [done|].
  apply IH. case_match; [done|]. rewrite lookup_insert_ne; [done|]. intros <-. congruence.
Qed.
Lemma create_missing_new (extra : nat) (r1 r2 pre : list string) (t : tree) :
  r1 <> [] -> t !! (pre ++ r1)%list = None ->
  create_missing item extra t pre (r1 ++ r2)%list !! (pre ++ r1)%list =
    Some (Znode (node_data item (extra + length r2)) 0).
Proof.
  revert t pre. induction r1 as [|w r1 IH]; intros t pre Hne Hq; [done|]. simpl.
  destruct r1 as [|w' r1].
  - rewrite Hq. simpl. apply create_missing_keep. by rewrite lookup_insert_eq.
  - replace (pre ++ w :: w' :: r1)%list with ((pre ++ [w]) ++ w' :: r1)%list
      in * by by rewrite <- app_assoc.
    apply IH; [done|]. case_match; [done|]. rewrite lookup_insert_ne; [done|].
    intros Heq%(f_equal length). rewrite !length_app in Heq. simpl in Heq. lia.
Qed.
Lemma create_missing_other (extra : nat) (rest pre : list string) (t : tree) (q : list string) :
  (forall r1 r2, r1 <> [] -> rest = (r1 ++ r2)%list -> q <> (pre ++ r1)%list) ->
  create_missing item extra t pre rest !! q = t !! q.
Proof.
  revert t pre. induction rest as [|w rest IH]; intros t pre Hq; simpl; [done|].
  rewrite IH.
  - case_match; [done|]. rewrite lookup_insert_ne; [done|]. intros <-. by apply (Hq [w] rest).
  - intros r1 r2 Hne -> ->. apply (Hq (w :: r1) r2); [done|done|]. by rewrite <- app_assoc.
Qed.
Lemma create_missing_all (extra : nat) (rest pre : list string) (t : tree) :
  tree_wf t -> is_Some (t !! (pre ++ rest)%list) -> create_missing item extra t pre rest = t.
Proof.
  intros Ht. revert pre. induction rest as [|w rest IH]; intros pre Hl; simpl; [done|].
  replace (pre ++ w :: rest)%list with ((pre ++ [w]) ++ rest)%list in Hl by by rewrite <- app_assoc.
  pose proof (tree_wf_prefix _ _ _ Ht Hl) as [n ->]. auto.
Qed.
Lemma create_missing_wf (extra : nat) (rest pre : list string) (t : tree) :
  tree_wf t -> is_Some (t !! pre) -> tree_wf (create_missing item extra t pre rest).
Proof.
  revert pre t. induction rest as [|w rest IH]; intros pre t Ht Hp; simpl; [done|].
  case_match; [by apply IH|]. apply IH; [|by rewrite lookup_insert_eq].
  apply tree_wf_create; [done|]. by rewrite parent_snoc.
Qed.
End create_missing.

Lemma node_data_index item (rest : list string) (i n : Z) :
  n = (i + 1 + Z.of_nat (length rest))%Z ->
  (if (i =? n - 1)%Z || (negb (bool_decide (Variant (ident item) = "")) && (i =? n - 2)%Z)
   then Data item else "") = node_data item (length rest).
Proof.
  intros ->. unfold node_data.
  replace (i =? i + 1 + Z.of_nat (length rest) - 1)%Z with (bool_decide (length rest = 0)).
  - replace (i =? i + 1 + Z.of_nat (length rest) - 2)%Z with (bool_decide (length rest = 1)); [done|].
    case_bool_decide; symmetry; [apply Z.eqb_eq|apply Z.eqb_neq]; lia.
  - case_bool_decide; symmetry; [apply Z.eqb_eq|apply Z.eqb_neq]; lia.
Qed.

Lemma length_removelast_cons {A} (x : A) l : 1 + length (removelast (x :: l)) = length (x :: l).
Proof.
  revert x. induction l as [|y l IH]; intros x; [done|].
  change (removelast (x :: y :: l)) with (x :: removelast (y :: l)). specialize (IH y).
  simpl in *. lia.
Qed.

Lemma run_setFully_loop (item : Item) (rest pre : list string) (i n : Z) (t : tree) :
  Forall good_seg (pre ++ rest)%list -> tree_wf t -> is_Some (t !! pre) ->
  n = (i + Z.of_nat (length rest))%Z ->
  run (setFully_loop item n i (abs_path pre) rest) t =
  match t !! (pre ++ rest)%list with
  | None =>
      if (0 <=? actualVersion (ident item))%Z
      then (Fail ErrVersionConflict, create_missing item 1 t pre (removelast rest))
      else (Ok tt, create_missing item 0 t pre rest)
  | Some _ => (Ok tt, t)
  end.
Proof.
  revert pre i t. induction rest as [|w rest IH]; intros pre i t Hg Ht Hp Hn; simpl.
  { rewrite app_nil_r. by destruct Hp as [m ->]. }
  replace (pre ++ w :: rest)%list with ((pre ++ [w]) ++ rest)%list in * by by rewrite <- app_assoc.
  pose proof (proj1 (Forall_app _ _ _) Hg) as [Hq _].
  rewrite PathJoin_seg by done. rewrite (ref_do_good _ (pre ++ [w])) by done; simpl.
  destruct (t !! (pre ++ [w])%list) as [m|] eqn:Hw; simpl.
  - rewrite (IH (pre ++ [w])%list) by (simpl in *; eauto; lia).
    destruct rest as [|w' rest]; [by rewrite app_nil_r, Hw|].
    destruct (t !! ((pre ++ [w]) ++ w' :: rest)%list); [done|]. simpl. by rewrite Hw.
  - assert (t !! ((pre ++ [w]) ++ rest)%list = None) as Hl.
    { destruct (t !! ((pre ++ [w]) ++ rest)%list) eqn:Hl; [|done].
      destruct (tree_wf_prefix t (pre ++ [w]) rest) as [? ?]; [done|by eexists|]. congruence. }
    rewrite Hl. rewrite (node_data_index item rest i n) by (simpl in *; lia).
    assert ((i =? n - 1)%Z = bool_decide (rest = [])) as ->.
    { case_bool_decide; [apply Z.eqb_eq|apply Z.eqb_neq]; subst; simpl in *; [lia|].
      destruct rest; [done|]. simpl in *. lia. }
    destruct (bool_decide (rest = []) && (0 <=? actualVersion (ident item))%Z) eqn:Hc.
    { apply andb_true_iff in Hc as [Hr ->]. apply bool_decide_eq_true in Hr as ->. done. }
    cbn [run]. unfold zk_do, ref_service. rewrite (ref_do_good _ (pre ++ [w])) by done.
    cbn [zk_spec]. rewrite Hw, parent_snoc. destruct Hp as [mp Hmp]. rewrite Hmp.
    rewrite (IH (pre ++ [w])%list); [|done|by apply tree_wf_create; rewrite ?parent_snoc
      |by rewrite lookup_insert_eq|simpl in *; lia].
    destruct rest as [|w' rest].
    + rewrite app_nil_r, lookup_insert_eq. destruct (0 <=? _)%Z; done.
    + rewrite lookup_insert_ne by (intros Heq%(f_equal length); rewrite !length_app in Heq;
        simpl in Heq; lia).
      rewrite Hl. change (removelast (w :: w' :: rest)) with (w :: removelast (w' :: rest)).
      cbn [create_missing]. by rewrite Hw, length_removelast_cons.
Qed.

Section put.
Context (s : Store) (Hs : store_ok s).

Lemma run_setFully (item : Item) (l : list string) (t : tree) :
  ident_at s (ident item) l -> tree_wf t ->
  run (setFully s item) t =
  match t !! l with
  | Some n => (Ok (MkStat (zversion n)), t)
  | None =>
      if (0 <=? actualVersion (ident item))%Z
      then (Fail ErrVersionConflict, create_missing item 1 t [] (removelast l))
      else (Ok (MkStat 0), create_missing item 0 t [] l)
  end.
Proof.
  intros (Hi & Hp & Hl & Hne) Ht. unfold setFully. rewrite Hp. cbn [try_pure].
  rewrite run_try, Split_abs_path by done. cbn [setFully_loop].
  change (PathJoin ["/"; ""]) with (abs_path []).
  cbn [run]. unfold zk_do, ref_service. rewrite (ref_do_good _ []) by done. cbn [zk_spec].
  destruct Ht as [[r Hr] Hpre] eqn:HtE. rewrite Hr.
  rewrite (run_setFully_loop item l [] (0 + 1)); [|done|done|by eexists|simpl; lia].
  rewrite app_nil_l. destruct (t !! l) as [n|] eqn:Hn.
  - by rewrite run_bind, run_mustExist, Hn.
  - destruct (0 <=? _)%Z; [done|]. rewrite run_bind, run_mustExist by done.
    pose proof (create_missing_new item 0 l [] [] t Hne Hn) as Hnew.
    rewrite app_nil_r, app_nil_l in Hnew. by rewrite Hnew.
Qed.

Lemma creatingNewItem_version item :
  creatingNewItem item = true -> actualVersion (ident item) = (-1)%Z.
Proof.
  unfold creatingNewItem, actualVersion. destruct (Ver (ident item)) as [v []]; simpl; [|done].
  by intros ->%Z.eqb_eq.
Qed.

Lemma run_Put_body (item : Item) (l : list string) (t : tree) :
  ident_at s (ident item) l -> Item_Validate item = Ok tt -> tree_wf t ->
  run (Put_body s item) t = put_spec item l t.
Proof.
  intros Hl Hv Ht. pose proof Hl as (Hi & Hp & Hg & Hne). unfold Put_body, put_spec.
  rewrite Hv. cbn [try_pure]. rewrite Hp. cbn [try_pure].
  destruct (creatingNewItem item) eqn:Hc.
  - rewrite creatingNewItem_version by done. cbn [run]. unfold zk_do, ref_service.
    rewrite (ref_do_good _ l) by done. cbn [zk_spec]. destruct (t !! l) as [n|] eqn:Hn; [done|].
    rewrite run_try, (run_setFully _ l), Hn, creatingNewItem_version by done. done.
  - cbn [run]. unfold zk_do, ref_service. rewrite (ref_do_good _ l) by done. cbn [zk_spec].
    destruct (t !! l) as [n|] eqn:Hn.
    + by destruct (version_matches _ _).
    + cbv beta iota. rewrite bool_decide_eq_true_2 by done. rewrite run_try, (run_setFully _ l), Hn by done. by destruct (0 <=? _)%Z.
Qed.

Definition put_outcome (item : Item) (r : res error Version.t) : Ident * res error unit :=
  match r with
  | Fail err => (ident item, Fail err)
  | Ok v => (set_version (ident item) v, Ok tt)
  end.
Lemma run_Put (item : Item) (l : list string) (t : tree) :
  ident_at s (ident item) l -> Item_Validate item = Ok tt -> tree_wf t ->
  run (Put s item) t = (put_outcome item (fst (put_spec item l t)), snd (put_spec item l t)).
Proof.
  intros Hl Hv Ht. unfold Put. rewrite run_bind, (run_Put_body item l) by done.
  by destruct (put_spec item l t) as [[] ?].
Qed.

Lemma run_Get (i : Ident) (l : list string) (t : tree) :
  ident_at s i l -> run (Get s i) t = (get_spec i l t, t).
Proof.
  intros (Hi & Hp & Hg & Hne). unfold Get, get_spec. rewrite (proj2 (Ident_Validate_ok i)) by done.
  cbn [try_pure]. rewrite Hp. cbn [try_pure run]. unfold zk_do, ref_service.
  rewrite (ref_do_good _ l) by done. cbn [zk_spec]. by destruct (t !! l).
Qed.
End put.

(** ** The calls the operations make *)
(** Znodes on the way to [l], and [l] itself. *)
Definition on_path (l q : list string) : Prop := q `prefix_of` l.
Lemma on_path_refl l : on_path l l.
Proof. by exists []; rewrite app_nil_r. Qed.
Lemma on_path_nil l : on_path l [].
Proof. apply prefix_nil. Qed.
#[export] Hint Resolve on_path_refl on_path_nil : core.
(** What [Put] of an item with path [l] writes to the znode [q]: a missing znode on the way
    is created with the data of its level, the item's own is set; nothing is deleted. *)
Definition put_data (item : Item) (l q : list string) {X} (c : zkcmd X) : Prop :=
  match c with
  | Create _ data => exists k, l = (q ++ k)%list /\ data = node_data item (length k)
  | Set_ _ data _ => q = l /\ data = Data item
  | Delete_ _ _ => False
  | _ => True
  end.
(** Calls [Put] makes: no listing, and writes only on the way to the item. *)
Definition put_call (item : Item) (l : list string) X (c : zkcmd X) : Prop :=
  (exists q, parse_path (cmd_path c) = Some q /\ put_data item l q c) /\ is_children c = false.

Lemma put_call_at (item : Item) (l q : list string) X (c : zkcmd X) :
  cmd_path c = abs_path q -> Forall good_seg q -> put_data item l q c -> is_children c = false ->
  put_call item l X c.
Proof. intros Hc Hq Hl Hch. split; [|done]. exists q. by rewrite Hc, parse_good. Qed.

Lemma calls_setFully_loop (item : Item) (rest pre : list string) (i n : Z) :
  Forall good_seg (pre ++ rest) -> n = (i + Z.of_nat (length rest))%Z ->
  calls (put_call item (pre ++ rest)) (setFully_loop item n i (abs_path pre) rest).
Proof.
  revert pre i. induction rest as [|w rest IH]; intros pre i Hg Hn; simpl; [done|].
  replace (pre ++ w :: rest)%list with ((pre ++ [w]) ++ rest)%list in * by by rewrite <- app_assoc.
  pose proof (proj1 (Forall_app _ _ _) Hg) as [Hq _]. rewrite PathJoin_seg by done.
  simpl in Hn. assert (n = (i + 1) + Z.of_nat (length rest))%Z as Hn' by lia.
  split; [by apply (put_call_at _ _ (pre ++ [w]))|]. intros [e|[[] ?]]; simpl; [done|by apply IH|].
  case_match; [done|]. split.
  - apply (put_call_at _ _ (pre ++ [w])); [done|done| |done]. exists rest. split; [done|].
    apply node_data_index. lia.
  - intros [e|?]; [|by apply IH]. repeat case_match; try done; by apply IH.
Qed.

Lemma calls_mustExist (item : Item) (l : list string) :
  Forall good_seg l -> calls (put_call item l) (mustExist (abs_path l)).
Proof.
  intros Hl. split; [|by intros]. by apply (put_call_at item l l).
Qed.

Section calls.
Context (s : Store) (Hs : store_ok s).

Lemma calls_setFully (item : Item) (l : list string) :
  ident_at s (ident item) l -> calls (put_call item l) (setFully s item).
Proof.
  intros (Hi & Hp & Hg & Hne). unfold setFully. rewrite Hp. cbn [try_pure].
  rewrite Split_abs_path by done. apply calls_try.
  - cbn [setFully_loop]. change (PathJoin ["/"; ""]) with (abs_path []).
    assert (calls (put_call item l) (setFully_loop item (Z.of_nat (length ("" :: l))) (0 + 1)
      (abs_path []) l)) as Hloop by (apply (calls_setFully_loop item l []); [done|simpl; lia]).
    split; [by apply (put_call_at item l [])|].
    intros [e|[[] ?]]; simpl; [done|apply Hloop|]. case_match; [done|].
    split; [|intros [e|?]; [|apply Hloop]; by repeat case_match].
    apply (put_call_at item l []); [done|done| |done]. exists l. split; [done|].
    apply (node_data_index item l 0). simpl. lia.
  - intros _. apply calls_bind; [by apply calls_mustExist|done].
Qed.

Lemma calls_Put_body (item : Item) (l : list string) :
  ident_at s (ident item) l -> calls (put_call item l) (Put_body s item).
Proof.
  intros Hl. pose proof Hl as (Hi & Hp & Hg & Hne). unfold Put_body.
  destruct (Item_Validate item); [done|]. cbn [try_pure]. rewrite Hp. cbn [try_pure].
  assert (calls (put_call item l) (let? stat := setFully s item in
    Ret (Ok (Version.NewVersion (ZkService.Version stat))))) as Hfull.
  { apply calls_try; [by apply calls_setFully|done]. }
  destruct (creatingNewItem item).
  - split; [by apply (put_call_at item l l)|]. by intros [e|[[] ?]].
  - split; [by apply (put_call_at item l l)|]. intros [e|[]]; try done.
    repeat case_bool_decide; done.
Qed.
Lemma calls_Put (item : Item) (l : list string) :
  ident_at s (ident item) l -> calls (put_call item l) (Put s item).
Proof. intros Hl. apply calls_bind; [by apply calls_Put_body|done]. Qed.
End calls.

Lemma put_call_plain (item : Item) (l : list string) X (c : zkcmd X) :
  put_call item l X c -> plain_call X c.
Proof. intros [(q & Hq & _) Hc]. split; [by eexists|done]. Qed.
Lemma put_call_writes (item : Item) (l : list string) X (c : zkcmd X) :
  put_call item l X c -> writes_in (on_path l) X c.
Proof.
  intros [(q & Hq & Hd) _]. exists q. split; [done|]. intros Hw.
  destruct c; simpl in *; try done.
  - destruct Hd as (k & -> & _). by exists k.
  - by destruct Hd as [-> _].
Qed.
Lemma writes_weaken (P : list string -> Prop) X (c : zkcmd X) :
  writes_in P X c -> writes_in (fun _ => True) X c.
Proof. intros (q & Hq & _). by exists q. Qed.
#[export] Hint Resolve put_call_plain put_call_writes writes_weaken : go.

(** A session error ends [Put] at once, with that error possibly wrapped. *)
Definition session_error (e : error) : Prop := exists m, Cause e = zkError (ErrSession m).
Definition session_fail {A} (r : res error A) : Prop := exists e, r = Fail e /\ session_error e.
Definition put_session_fail (item : Item) (r : Ident * res error unit) : Prop :=
  fst r = ident item /\ session_fail (snd r).

Lemma aborts_try {A B} (p : prog (res error A)) (f : A -> prog (res error B)) :
  session_aborts session_fail p -> (forall a, session_aborts session_fail (f a)) ->
  session_aborts session_fail (let? x := p in f x).
Proof.
  intros Hp Hf. eapply aborts_bind; [|exact Hp|by intros []].
  intros ? (e & -> & He). exists (Fail e). split; [done|]. by exists e.
Qed.
Lemma session_fail_zk {A} m : session_fail (Fail (zkError (ErrSession m)) : res error A).
Proof. eexists. split; [done|]. by exists m. Qed.
#[export] Hint Resolve session_fail_zk : go.

Lemma aborts_setFully_loop item n i current segs :
  session_aborts session_fail (setFully_loop item n i current segs).
Proof.
  revert i current. induction segs as [|w segs IH]; intros i current; simpl; [done|]. split.
  { intros m. eexists. split; [done|]. eexists. split; [done|]. by exists m. }
  intros [e|[[] ?]]; simpl; [done|apply IH|]. case_match; [done|]. split.
  { intros m. eexists. split; [done|]. apply session_fail_zk. }
  intros [e|?]; [|apply IH]. repeat case_match; try done; apply IH.
Qed.
Lemma aborts_setFully s item : session_aborts session_fail (setFully s item).
Proof.
  unfold setFully. destruct (identPath s (ident item)) as [|p]; [done|]. cbn [try_pure].
  apply aborts_try; [apply aborts_setFully_loop|]. intros _. split; [|by intros].
  intros m. eexists. split; [done|]. eexists. split; [done|]. by exists m.
Qed.
Lemma aborts_Put s item : session_aborts (put_session_fail item) (Put s item).
Proof.
  apply (aborts_bind session_fail).
  { intros ? (e & -> & He). eexists. split; [done|]. split; [done|]. by exists e. }
  2: by intros [].
  unfold Put_body. destruct (Item_Validate item); [done|].
  destruct (identPath s (ident item)) as [|p]; [done|]. cbn [try_pure].
  assert (session_aborts session_fail (let? stat := setFully s item in
      Ret (Ok (Version.NewVersion (ZkService.Version stat))))) as Hfull
    by (apply aborts_try; [apply aborts_setFully|done]).
  destruct (creatingNewItem item); (split; [intros m; eexists; split; [done|]; apply session_fail_zk|]).
  - by intros [e|[[] ?]].
  - intros [e|[]]; try done. repeat case_bool_decide; done.
Qed.
