(* ===== verification/ZkstoreListing.v ===== *)
(** * zkstore: [Delete], [Variants] and [List]: what they promise on the tree of znodes, in
    whatever order a service lists children. *)
From S2P Require Import Prelude.
From S2P Require Import GoStrings.
From S2P Require Import GoPath.
From S2P Require Import GoErrors.
From S2P Require Import ZkService.
From S2P Require Import ZkstoreData.
From S2P Require Import ZkstoreStore.
From S2P Require Import ZkstoreOps.
From S2P Require Import ZkstoreSpec.

Local Open Scope string_scope.

(** ** Specifications *)
Definition remove_children (t : tree) (l : list string) (vs : list string) : tree :=
  foldl (fun t v => delete (l ++ [v])%list t) t vs.
(** Delete of one znode at version [v]; a missing znode is no error. *)
Definition delete_spec (l : list string) (v : Z) (t : tree) : res error unit * tree :=
  match t !! l with
  | None => (Ok tt, t)
  | Some n =>
      if negb (version_matches v (zversion n)) then (Fail ErrVersionConflict, t)
      else if bool_decide (children t l = []) then (Ok tt, delete l t)
      else (Fail (zkError ErrNotEmpty), t)
  end.
(** Delete of an item: its variants whatever their versions, then the item itself. *)
Definition delete_item_spec (l : list string) (v : Z) (t : tree) : res error unit * tree :=
  delete_spec l v (remove_children t l (children t l)).
(** The locations under a category whose bucket folder is [bl]. *)
Definition list_spec (category : string) (bl : list string) (t : tree) : list Location :=
  mjoin (map (fun b => map (MkLocation category) (children t (bl ++ [b])%list)) (children t bl)).

(** ** Trees *)
Lemma lookup_remove_children (t : tree) (l vs q : list string) :
  remove_children t l vs !! q =
  if decide (Exists (fun v => q = l ++ [v])%list vs) then None else t !! q.
Proof.
  revert t. induction vs as [|v vs IH]; intros t.
  - rewrite decide_False; [done|]. by intros He%Exists_nil.
  - change (remove_children t l (v :: vs)) with (remove_children (delete (l ++ [v])%list t) l vs).
    rewrite IH. destruct (decide (Exists _ vs)) as [Hv|Hv].
    + by rewrite decide_True by by right.
    + destruct (decide (q = (l ++ [v])%list)) as [->|Hq].
      * rewrite decide_True by by left. apply lookup_delete_eq.
      * rewrite decide_False by (rewrite Exists_cons; tauto). by rewrite lookup_delete_ne.
Qed.
Lemma remove_children_perm (t : tree) (l vs vs' : list string) :
  Permutation vs vs' -> remove_children t l vs = remove_children t l vs'.
Proof.
  intros Hp. apply map_eq. intros q. rewrite !lookup_remove_children.
  destruct (decide (Exists _ vs)) as [He|He]; destruct (decide (Exists _ vs')) as [He'|He'];
    try done; exfalso; [apply He'; rename He into H|apply He; rename He' into H].
  - apply Exists_exists in H as (v & Hv & ->). apply Exists_exists. exists v. by rewrite <- Hp.
  - apply Exists_exists in H as (v & Hv & ->). apply Exists_exists. exists v. by rewrite Hp.
Qed.
Lemma remove_children_self (t : tree) (l vs : list string) : remove_children t l vs !! l = t !! l.
Proof.
  rewrite lookup_remove_children, decide_False; [done|].
  rewrite Exists_exists. intros (v & _ & Hv%(f_equal length)).
  rewrite length_app in Hv. simpl in Hv. lia.
Qed.
Lemma remove_children_all (t : tree) (l : list string) :
  children (remove_children t l (children t l)) l = [].
Proof.
  apply children_nil. intros n. rewrite lookup_remove_children. case_decide as He; [done|].
  apply eq_None_not_Some. intros Hn. apply He, Exists_exists. exists n.
  by rewrite elem_of_children.
Qed.
Lemma children_remove_leaf (t : tree) (l vs q : list string) :
  children t q = [] -> children (remove_children t l vs) q = [].
Proof.
  rewrite !children_nil. intros Hq n. rewrite lookup_remove_children. by case_decide.
Qed.

Lemma list_spec_elem category (bl : list string) (t : tree) b name :
  is_Some (t !! (bl ++ [b])%list) -> is_Some (t !! ((bl ++ [b]) ++ [name])%list) ->
  MkLocation category name ∈ list_spec category bl t.
Proof.
  intros Hb Hn. unfold list_spec. apply list_elem_of_join.
  exists (map (MkLocation category) (children t (bl ++ [b])%list)). split.
  - apply list_elem_of_fmap. exists name. by rewrite elem_of_children.
  - apply list_elem_of_fmap. exists b. by rewrite elem_of_children.
Qed.

(** ** One znode *)
Lemma resp_reliable {X} (c : zkcmd X) (l : list string) (t : tree) r t' :
  cmd_path c = abs_path l -> Forall good_seg l -> reliable c t r t' ->
  resp_eq c r (fst (zk_spec c l t)) /\ t' = snd (zk_spec c l t).
Proof. intros Hc Hl Hr. apply Hr. by rewrite Hc, parse_good. Qed.

Lemma wp_delete (l : list string) (v : Z) (Q : res error unit -> tree -> Prop) (t : tree) :
  Forall good_seg l -> l <> [] ->
  Q (fst (delete_spec l v t)) (snd (delete_spec l v t)) ->
  wp (@reliable) (call r := Delete_ (abs_path l) v in Ret (delete_result r)) Q t.
Proof.
  intros Hl Hne HQ r t' Hr. apply (resp_reliable _ l) in Hr as [Hresp ->]; [|done|done].
  simpl in Hresp. subst r. unfold delete_spec in HQ. simpl.
  destruct (t !! l) as [n|]; [|done]. rewrite bool_decide_eq_false_2 by done.
  destruct (negb _); [done|]. by destruct (bool_decide (children t l = [])).
Qed.

Section store.
Context (s : Store) (Hs : store_ok s).

(** The path of a variant is the path of its item and one element more. *)
Lemma variant_path (i : Ident) (l : list string) v :
  ident_at s i l -> Variant i = "" -> good_seg v ->
  identPath s (MkIdent (loc i) v Version.zero) = Ok (abs_path (l ++ [v])%list).
Proof.
  intros (Hi & Hp & Hg & Hne) Hv Hgv.
  destruct (identPath_segs s Hs i l Hi Hp Hg) as (b & Hb & Hl).
  unfold identPath in *. simpl. rewrite Hb in *. simpl in *.
  destruct (bucketsPath s (Category (loc i))) as [|p] eqn:Hbp; [done|]. simpl in *.
  rewrite Hv in Hp. injection Hp as Hp. f_equal.
  rewrite (bucketsPath_spec s (proj1 Hs) _ (ok_category i Hi)) in Hbp.
  case_bool_decide; [done|]. injection Hbp as <-. subst l.
  unfold ident_segs in *. rewrite Hv in *.
  assert (mjoin (elems <$> [abs_path (bucket_segs s (Category (loc i))); Itoa b;
    Name (loc i); v]) = (bucket_segs s (Category (loc i)) ++ [Itoa b; Name (loc i)] ++ [v])%list) as Hj.
  { pose proof (bucketFunc_range s (proj1 Hs) _ _ Hb) as Hr. csimpl.
    rewrite elems_abs_path by (apply normal_elem_ok, good_normal, bucket_segs_good, Hi; done).
    rewrite (elems_single (Itoa b)) by (apply (Itoa_normal b); lia).
    rewrite (elems_single (Name (loc i))) by apply name_ok_normal, Hi.
    by rewrite (elems_single v) by apply Hgv. }
  rewrite PathJoin_rooted; rewrite ?Hj.
  - by rewrite app_nil_r, <- !app_assoc.
  - apply HasPrefix_app.
  - rewrite app_nil_r in Hg. rewrite app_assoc. apply Forall_app_2; [by apply good_normal|].
    constructor; [apply Hgv|done].
Qed.

(** Listings with printable names: what the store writes, and what the laws cover. *)
Definition good_children (t : tree) (l : list string) : Prop :=
  Forall good_seg (children t l).

Lemma wp_deleteVariants (i : Ident) (l : list string) (vs : list string) (t : tree)
    (Q : res error unit -> tree -> Prop) :
  ident_at s i l -> Variant i = "" -> Forall good_seg vs ->
  (forall v, v ∈ vs -> children t (l ++ [v])%list = []) ->
  Q (Ok tt) (remove_children t l vs) ->
  wp (@reliable) (deleteVariants s i vs) Q t.
Proof.
  intros Hl Hv Hgs. revert t. induction Hgs as [|v vs Hgv Hgs IH]; intros t Hleaf HQ; [done|].
  cbn [deleteVariants]. rewrite wp_try. unfold deleteVariant.
  rewrite (variant_path i l v) by done. cbn [try_pure].
  pose proof Hl as (Hi & Hp & Hg & Hne).
  apply wp_delete; [by apply Forall_app_2; [|constructor]|by destruct l|].
  assert (forall t2, t2 = delete (l ++ [v])%list t -> wp (@reliable) (deleteVariants s i vs) Q t2) as Hrest.
  { intros t2 ->. apply IH; [|done]. intros v' Hv'.
    apply (children_remove_leaf t l [v]), Hleaf. by right. }
  unfold delete_spec, actualVersion. simpl. destruct (t !! (l ++ [v])%list) as [n|] eqn:Hn.
  - rewrite bool_decide_eq_true_2 by (apply Hleaf; by left). simpl. by apply Hrest.
  - simpl. apply Hrest. symmetry. by apply delete_id.
Qed.

Lemma wp_Variants (i : Ident) (l : list string) (t : tree) (Q : res error (list string) -> tree -> Prop) :
  ident_at s i l -> Variant i = "" ->
  match t !! l with
  | None => Q (Fail ErrNotFound) t
  | Some _ => forall vs, Permutation vs (children t l) -> Q (Ok vs) t
  end ->
  wp (@reliable) (Variants s (loc i)) Q t.
Proof.
  intros (Hi & Hp & Hg & Hne) Hv HQ. unfold Variants.
  assert (Location_Validate (loc i) = Ok tt) as ->.
  { apply Ident_Validate_ok in Hi. unfold Ident_Validate in Hi.
    destruct (Location_Validate (loc i)) as [|[]]; [done|done]. }
  cbn [try_pure]. replace (identPath s (MkIdent (loc i) "" Version.zero)) with (identPath s i)
    by (unfold identPath; by rewrite Hv).
  rewrite Hp. cbn [try_pure]. intros r t' Hr.
  apply (resp_reliable _ l) in Hr as [Hresp ->]; [|done|done]. simpl in *.
  destruct (t !! l) as [n|]; simpl in *.
  - destruct r; [done|]. auto.
  - destruct r; [|done]. by subst e.
Qed.

Lemma wp_deleteItem (i : Ident) (l : list string) (t : tree) (Q : res error unit -> tree -> Prop) :
  ident_at s i l -> Variant i = "" -> good_children t l ->
  (forall v, v ∈ children t l -> children t (l ++ [v])%list = []) -> tree_wf t ->
  Q (fst (delete_item_spec l (actualVersion i) t)) (snd (delete_item_spec l (actualVersion i) t)) ->
  wp (@reliable) (deleteItem s i) Q t.
Proof.
  intros Hl Hv Hgc Hleaf Ht HQ. unfold deleteItem. rewrite wp_bind.
  apply (wp_Variants i l); [done|done|]. pose proof Hl as (Hi & Hp & Hg & Hne).
  destruct (t !! l) as [n|] eqn:Hn.
  - intros vs Hvs. rewrite wp_try. apply (wp_deleteVariants i l); try done.
    + by rewrite Hvs.
    + intros v Hin. apply Hleaf. by rewrite <- Hvs.
    + rewrite Hp. cbn [try_pure]. apply wp_delete; [done|done|].
      by rewrite (remove_children_perm t l vs (children t l)).
  - unfold ErrNotFound. rewrite bool_decide_eq_true_2 by done. simpl.
    assert (children t l = []) as Hc.
    { apply children_nil. intros m. destruct (t !! (l ++ [m])%list) eqn:Hm; [|done].
      destruct (proj2 Ht l m) as [? ?]; [by eexists|]. congruence. }
    unfold delete_item_spec in HQ. rewrite Hc in HQ. unfold delete_spec in HQ. simpl in HQ.
    by rewrite Hn in HQ.
Qed.

Lemma wp_Delete (i : Ident) (l : list string) (t : tree) (Q : res error unit -> tree -> Prop) :
  ident_at s i l -> good_children t l ->
  (forall v, v ∈ children t l -> children t (l ++ [v])%list = []) -> tree_wf t ->
  (let sp := if bool_decide (Variant i = "") then delete_item_spec else delete_spec in
   Q (fst (sp l (actualVersion i) t)) (snd (sp l (actualVersion i) t))) ->
  wp (@reliable) (Delete s i) Q t.
Proof.
  intros Hl Hgc Hleaf Ht HQ. unfold Delete. pose proof Hl as (Hi & Hp & Hg & Hne).
  rewrite (proj2 (Ident_Validate_ok i)) by done. cbn [try_pure].
  destruct (bool_decide (Variant i = "")) eqn:Hv; cbn [negb].
  - apply bool_decide_eq_true in Hv. by apply (wp_deleteItem i l).
  - unfold deleteVariant. rewrite Hp. cbn [try_pure]. by apply wp_delete.
Qed.

(** ** [List] *)
Lemma Base_good w : good_seg w -> Base w = w.
Proof.
  intros [[Hw _] _]. unfold Base. rewrite bool_decide_eq_false_2 by apply Hw.
  by rewrite elems_single.
Qed.
Lemma map_Base category ws :
  Forall good_seg ws ->
  map (fun child => MkLocation category (Base child)) ws = map (MkLocation category) ws.
Proof. induction 1 as [|w ws Hw _ IH]; simpl; [done|]. by rewrite Base_good, IH. Qed.

Lemma wp_List_loop category (bl bs : list string) (locs : list Location) (t : tree)
    (Q : list Location * res error unit -> tree -> Prop) :
  Forall good_seg bl -> Forall good_seg bs -> (forall b, b ∈ bs -> is_Some (t !! (bl ++ [b])%list)) ->
  (forall b, b ∈ bs -> good_children t (bl ++ [b])%list) ->
  (forall locs', Permutation locs' (locs ++ mjoin (map (fun b =>
      map (MkLocation category) (children t (bl ++ [b])%list)) bs)) -> Q (locs', Ok tt) t) ->
  wp (@reliable) (List_loop category (abs_path bl) bs locs) Q t.
Proof.
  intros Hbl Hbs. revert locs. induction Hbs as [|b bs Hb Hbs IH]; intros locs Hex Hgc HQ.
  { simpl. apply HQ. simpl. by rewrite app_nil_r. }
  cbn [List_loop]. assert (Forall good_seg (bl ++ [b])%list) as Hq
    by (apply Forall_app_2; [done|by constructor]).
  rewrite PathJoin_seg by done. intros r t' Hr.
  apply (resp_reliable _ (bl ++ [b])%list) in Hr as [Hresp ->]; [|done|done]. simpl in *.
  destruct (Hex b) as [n Hn]; [by left|]. rewrite Hn in *. simpl in *.
  destruct r as [|cs]; [done|]. apply IH.
  - intros b' Hb'. apply Hex. by right.
  - intros b' Hb'. apply Hgc. by right.
  - intros locs' Hl. apply HQ. rewrite Hl, <- app_assoc. apply Permutation_app_head, Permutation_app_tail.
    rewrite map_Base; [by rewrite Hresp|]. rewrite Hresp. apply Hgc. by left.
Qed.

Lemma wp_List category (t : tree) (Q : list Location * res error unit -> tree -> Prop) :
  category_ok category -> last (elems category) <> Some (bucketsZnodeName s) ->
  let bl := bucket_segs s category in
  good_children t bl -> (forall b, b ∈ children t bl -> good_children t (bl ++ [b])%list) ->
  match t !! bl with
  | None => Q ([], Fail ErrNotFound) t
  | Some _ => forall locs, Permutation locs (list_spec category bl t) -> Q (locs, Ok tt) t
  end ->
  wp (@reliable) (List_ s category) Q t.
Proof.
  intros Hc Hlast bl Hgc Hgcs HQ. unfold List_.
  rewrite (proj2 (ValidateCategory_ok category)) by done. cbn [Wrap].
  rewrite bucketsPath_spec, bool_decide_eq_false_2 by (done || apply Hs).
  assert (Forall good_seg bl) as Hbl by by apply bucket_segs_good.
  fold bl. clearbody bl.
  intros r t' Hr. apply (resp_reliable _ bl) in Hr as [Hresp ->]; [|done|done]. simpl in *.
  destruct (t !! bl) as [n|] eqn:Hn; simpl in *; [|destruct r; [by subst e|done]].
  destruct r as [|bs]; [done|].
  assert (forall locs, Permutation locs (mjoin (map (fun b => map (MkLocation category)
    (children t (bl ++ [b])%list)) bs)) -> Q (locs, Ok tt) t) as HQ'.
  { intros locs Hl. apply HQ. rewrite Hl. unfold list_spec. by rewrite Hresp. }
  destruct bs as [|b bs]; [by apply HQ'|]. apply wp_List_loop; [done| | | |exact HQ'].
  - rewrite Hresp. apply Hgc.
  - intros b' Hb'. rewrite <- elem_of_children. by rewrite <- Hresp.
  - intros b' Hb'. apply Hgcs. by rewrite <- Hresp.
Qed.
End store.
