(* ===== verification/ZkstoreConc.v ===== *)
(** * zkstore: several clients at once. What a [Put] ends with among others and what all of
    them write, the separation of items in the tree, and the invariant behind optimistic
    locking. *)
From S2P Require Import Prelude.
From S2P Require Import GoStrings.
From S2P Require Import GoPath.
From S2P Require Import GoErrors.
From S2P Require Import ZkService.
From S2P Require Import ZkstoreData.
From S2P Require Import ZkstoreStore.
From S2P Require Import ZkstoreOps.
From S2P Require Import ZkstoreSpec.

Local Open Scope string_scope.

(** ** Idents that denote the same item *)
(** The same category up to a leading slash, the same name and variant; versions differ. *)
Definition same_item (i j : Ident) : Prop :=
  elems (Category (loc i)) = elems (Category (loc j)) /\
  Name (loc i) = Name (loc j) /\ Variant i = Variant j.
Definition same_location (i j : Ident) : Prop :=
  elems (Category (loc i)) = elems (Category (loc j)) /\ Name (loc i) = Name (loc j).
(** No element of the category is the name of the bucket folder. *)
Definition flat_category (s : Store) (category : string) : Prop :=
  bucketsZnodeName s ∉ elems category.

Section clients.
Context {W : Type} `{ZkService W} {A : Type}.

Lemma conc_step_client (st st' : conc_state W A) :
  conc_step st st' -> exists i p, fst st !! i = Some p /\ st' = client_step i st.
Proof.
  intros [ps w i X c k r w' Hi Hd]. exists i. eexists. split; [done|].
  unfold client_step. by rewrite Hi, Hd.
Qed.
End clients.

(** ** Putting items while others put *)
(** No znode has gone. *)
Definition grows (t t' : tree) : Prop := forall q, is_Some (t !! q) -> is_Some (t' !! q).
Global Instance grows_preorder : PreOrder grows.
Proof. split; [by intros t q|]. intros t1 t2 t3 H1 H2 q Hq. auto. Qed.
Lemma grows_insert (t : tree) l n : grows t (<[l := n]> t).
Proof. intros q Hq. destruct (decide (l = q)) as [->|]; [by rewrite lookup_insert_eq|by rewrite lookup_insert_ne]. Qed.
#[export] Hint Resolve grows_insert : core.

(** What a program ends with when others can make the tree grow before each of its calls
    and calls can be lost. *)
Fixpoint rely_wp {A} (p : prog A) (Q : A -> tree -> Prop) (t : tree) : Prop :=
  match p with
  | Ret a => Q a t
  | Do c k => forall t1 r t2, grows t t1 -> lossy c t1 r t2 -> rely_wp (k r) Q t2
  end.
Lemma rely_grows {A} (p : prog A) (Q : A -> tree -> Prop) (t t' : tree) :
  (forall a t t', Q a t -> grows t t' -> Q a t') -> grows t t' -> rely_wp p Q t -> rely_wp p Q t'.
Proof. intros HQ Hg. destruct p as [a|X c k]; simpl; [by eauto|]. intros Hp t1 r t2 H1. apply Hp. by etrans. Qed.
Lemma rely_mono {A} (p : prog A) (Q Q' : A -> tree -> Prop) (t : tree) :
  (forall a t, Q a t -> Q' a t) -> rely_wp p Q t -> rely_wp p Q' t.
Proof. intros HQ. revert t. induction p as [a|X c k IH]; intros t; simpl; eauto. Qed.
Lemma rely_bind {A B} (p : prog A) (f : A -> prog B) Q Q' t :
  rely_wp p Q' t -> (forall a t', Q' a t' -> rely_wp (f a) Q t') -> rely_wp (prog_bind p f) Q t.
Proof. intros Hp Hf. revert t Hp. induction p as [a|X c k IH]; intros t; simpl; eauto. Qed.
(** One call on a covered path: a session error, or the documented answer in a tree that
    others have made grow. *)
Lemma rely_call {A X} (c : zkcmd X) (k : res error X -> prog A) (q : list string) Q t :
  cmd_path c = abs_path q -> Forall good_seg q ->
  (forall m t1 t2, grows t t1 -> t2 = t1 \/ t2 = snd (zk_spec c q t1) ->
     rely_wp (k (Fail (zkError (ErrSession m)))) Q t2) ->
  (forall t1 r, grows t t1 -> resp_eq c r (fst (zk_spec c q t1)) ->
     rely_wp (k r) Q (snd (zk_spec c q t1))) ->
  rely_wp (Do c k) Q t.
Proof.
  intros Hc Hq Hs Hr t1 r t2 H1 Hl. destruct (Hl q) as [[Hresp ->]|[[m ->] Ht]].
  - by rewrite Hc, parse_good.
  - by apply Hr.
  - by eapply Hs.
Qed.

Section putting.
Variable item : Item.
(** How a [Put] may fail. *)
Definition put_error (e : error) : Prop :=
  session_error e \/ (e = ErrVersionConflict /\ Version.hasVersion (Ver (ident item)) = true).
(** A [Put] has ended well when the item is stored. *)
Definition put_ended {A} (l : list string) (r : res error A) (t : tree) : Prop :=
  match r with Ok _ => is_Some (t !! l) | Fail e => put_error e end.
Lemma put_ended_grows {A} l (r : res error A) t t' : put_ended l r t -> grows t t' -> put_ended l r t'.
Proof. destruct r; simpl; auto. Qed.
Lemma put_error_session m e : Cause e = zkError (ErrSession m) -> put_error e.
Proof. intros He. left. by exists m. Qed.
Lemma hasVersion_actual : (0 <= actualVersion (ident item))%Z -> Version.hasVersion (Ver (ident item)) = true.
Proof. unfold actualVersion. destruct (Ver (ident item)) as [v []]; simpl; [done|lia]. Qed.

Lemma rely_setFully_loop (rest pre : list string) (i n : Z) (t : tree) :
  Forall good_seg (pre ++ rest) -> is_Some (t !! pre) ->
  rely_wp (setFully_loop item n i (abs_path pre) rest) (put_ended (pre ++ rest)) t.
Proof.
  revert pre i t. induction rest as [|w rest IH]; intros pre i t Hg Hp; simpl.
  { by rewrite app_nil_r. }
  replace (pre ++ w :: rest)%list with ((pre ++ [w]) ++ rest)%list in * by by rewrite <- app_assoc.
  pose proof (proj1 (Forall_app _ _ _) Hg) as [Hq _]. rewrite PathJoin_seg by done.
  apply (rely_call _ _ (pre ++ [w])); [done|done| |].
  { intros m t1 t2 H1 _. by apply (put_error_session m). }
  intros t1 r H1 Hr. simpl in *. destruct (t1 !! (pre ++ [w])%list) as [z|] eqn:Hz; simpl in *; subst r.
  { by apply IH. }
  destruct ((i =? n - 1)%Z && (0 <=? actualVersion (ident item))%Z) eqn:Hlast.
  { right. split; [done|]. apply hasVersion_actual. apply andb_true_iff in Hlast as [_ ?%Z.leb_le]. lia. }
  apply (rely_call _ _ (pre ++ [w])); [done|done| |].
  { intros m t2 t3 H2 _. by apply (put_error_session m). }
  intros t2 r H2 Hr. simpl in *. rewrite parent_snoc in *.
  assert (is_Some (t2 !! pre)) as [zp Hzp] by (by apply H2, H1). rewrite Hzp in *.
  destruct (t2 !! (pre ++ [w])%list) eqn:Hz2; simpl in *; subst r.
  - rewrite bool_decide_eq_true_2 by done. by apply IH.
  - apply IH; [done|]. by rewrite lookup_insert_eq.
Qed.
Definition stored_or_lost {A} (l : list string) (r : res error A) (t : tree) : Prop :=
  match r with Ok _ => is_Some (t !! l) | Fail e => session_error e end.
Lemma rely_mustExist (l : list string) (t : tree) : Forall good_seg l -> is_Some (t !! l) ->
  rely_wp (mustExist (abs_path l)) (stored_or_lost l) t.
Proof.
  intros Hg Hl. apply (rely_call _ _ l); [done|done| |].
  - intros m t1 t2 _ _. by exists m.
  - intros t1 r H1 Hr. destruct (H1 l Hl) as [z Hz]. simpl in *. rewrite Hz in *.
    simpl in *. subst r. simpl. by eexists.
Qed.

Context (s : Store) (l : list string) (Hl : ident_at s (ident item) l).
Lemma rely_setFully (t : tree) : is_Some (t !! []) -> rely_wp (setFully s item) (put_ended l) t.
Proof.
  intros Ht. destruct Hl as (Hi & Hp & Hg & Hne). unfold setFully. rewrite Hp. cbn [try_pure].
  rewrite Split_abs_path by done. unfold try_bind. eapply (rely_bind _ _ _ (put_ended l)).
  - cbn [setFully_loop]. change (PathJoin ["/"; ""]) with (abs_path []).
    apply (rely_call _ _ []); [done|done| |].
    { intros m t1 t2 H1 _. by apply (put_error_session m). }
    intros t1 r H1 Hr. destruct (H1 [] Ht) as [z Hz]. simpl in *. rewrite Hz in *. simpl in *. subst r.
    apply (rely_setFully_loop l []); [done|by eexists].
  - intros [e|[]] t' He; [exact He|]. eapply (rely_bind _ _ _ (stored_or_lost l)); [by apply rely_mustExist|].
    intros [e|st] t2 H2; simpl in *; [|done]. destruct H2 as [m Hm]. left. by exists m.
Qed.
(** A valid [Put] among others: unless a session error is reported, or the conflict of an
    item with a version, the item is stored. *)
Lemma rely_Put (t : tree) : Item_Validate item = Ok tt -> is_Some (t !! []) ->
  rely_wp (Put s item) (fun o => put_ended l (snd o)) t.
Proof.
  intros Hv Ht. unfold Put. eapply (rely_bind _ _ _ (put_ended l)); [|by intros []].
  destruct Hl as (Hi & Hp & Hg & Hne). unfold Put_body. rewrite Hv. cbn [try_pure]. rewrite Hp. cbn [try_pure].
  assert (forall t1, grows t t1 -> rely_wp (let? stat := setFully s item in
    Ret (Ok (Version.NewVersion (ZkService.Version stat)))) (put_ended l) t1) as Hfull.
  { intros t1 H1. eapply rely_bind; [by apply rely_setFully, H1|]. by intros []. }
  destruct (creatingNewItem item) eqn:Hnew.
  - apply (rely_call _ _ l); [done|done|intros; by eapply put_error_session|].
    intros t1 r H1 Hr. simpl in *. destruct (t1 !! l); simpl in *; subst r; [|by apply Hfull].
    right. split; [done|]. unfold creatingNewItem in Hnew. by destruct (Ver (ident item)) as [? []].
  - apply (rely_call _ _ l); [done|done| |].
    { intros m t1 t2 _ _. rewrite !bool_decide_eq_false_2 by done. by eapply put_error_session. }
    intros t1 r H1 Hr. simpl in *. destruct (t1 !! l) as [z|]; simpl in *; [|subst r; by apply Hfull].
    destruct (version_matches _ _) eqn:Hm; simpl in *; subst r.
    + simpl. by rewrite lookup_insert_eq.
    + right. split; [done|]. unfold actualVersion in Hm. by destruct (Ver (ident item)) as [? []].
Qed.
End putting.

(** Any number of clients, client [j] putting item [j], from the tree [t0]. *)
Section puts.
Context {W : Type} `{ZkService W} `{!ZkLossy W} (s : Store) (items : list Item) (t0 : tree).

(** A znode is as it was, or holds what one of the items has for it: an item rewrites only
    its own znode, the others on its way are created when they are missing. *)
Definition put_there (t : tree) : Prop :=
  forall q n, t !! q = Some n -> t0 !! q = Some n \/
    exists item k, item ∈ items /\ ident_at s (ident item) (q ++ k) /\
      zdata n = node_data item (length k) /\ (t0 !! q = None \/ k = []).
Definition puts_inv (st : conc_state W (Ident * res error unit)) : Prop :=
  (forall j p, fst st !! j = Some p -> exists item l, items !! j = Some item /\
     ident_at s (ident item) l /\ calls (put_call item l) p /\
     rely_wp p (fun o => put_ended item l (snd o)) (zk_view (snd st))) /\
  grows t0 (zk_view (snd st)) /\ put_there (zk_view (snd st)).

Lemma put_there_insert item q k z t : item ∈ items -> ident_at s (ident item) (q ++ k) ->
  zdata z = node_data item (length k) -> t0 !! q = None \/ k = [] ->
  put_there t -> put_there (<[q := z]> t).
Proof.
  intros Hin Hl Hz Hq Ht q' n Hn. destruct (decide (q = q')) as [<-|Hne].
  - rewrite lookup_insert_eq in Hn. injection Hn as <-. right. by exists item, k.
  - rewrite lookup_insert_ne in Hn by done. by apply Ht.
Qed.
Lemma put_effect item l X (c : zkcmd X) (t : tree) : item ∈ items -> ident_at s (ident item) l ->
  put_call item l X c -> grows t0 t -> put_there t ->
  exists q, parse_path (cmd_path c) = Some q /\
    grows t (snd (zk_spec c q t)) /\ put_there (snd (zk_spec c q t)).
Proof.
  intros Hin Hl [(q & Hq & Hd) _] Hg Ht. exists q. split; [done|].
  destruct c; simpl in *; repeat case_match; simpl; try done; (split; [by auto|]).
  - destruct Hd as (k & -> & ->). apply (put_there_insert item q k); try done. left.
    destruct (t0 !! q) eqn:Hq0; [|done]. destruct (Hg q) as [? ?]; [by eexists|congruence].
  - destruct Hd as [-> ->]. apply (put_there_insert item l []); rewrite ?app_nil_r; auto.
Qed.
Lemma puts_inv_step st st' : puts_inv st -> conc_step st st' -> puts_inv st'.
Proof.
  intros (Hps & Hg & Ht) Hstep. destruct Hstep as [ps w i X c k r w' Hi Hd]. simpl in *.
  destruct (Hps i _ Hi) as (item & l & Hitem & Hl & [Hc Hk] & Hr).
  destruct (put_effect item l X c (zk_view w)) as (q & Hq & Hgq & Htq);
    [by eapply list_elem_of_lookup_2|done..|].
  pose proof (zk_lossy X c w) as Hlaw. rewrite Hd in Hlaw. simpl in Hlaw.
  assert (grows (zk_view w) (zk_view w') /\ put_there (zk_view w')) as [Hg' Ht'].
  { destruct (Hlaw q Hq) as [[_ ->]|[_ [->| ->]]]; done. }
  split; [|by split; [etrans|]]. intros j p Hj. simpl in *.
  apply list_lookup_insert_Some in Hj as [(<- & <- & _)|[Hne Hj]].
  - exists item, l. split; [done|]. split; [done|]. split; [apply Hk|]. by apply (Hr (zk_view w)).
  - destruct (Hps j p Hj) as (item' & l' & H1 & H2 & H3 & H4). exists item', l'.
    split; [done|]. split; [done|]. split; [done|].
    eapply rely_grows; [|exact Hg'|exact H4]. intros a t t'. apply put_ended_grows.
Qed.
Lemma puts_inv_start (w : W) :
  Forall (fun item => Item_Validate item = Ok tt /\ exists l, ident_at s (ident item) l) items ->
  is_Some (t0 !! []) -> zk_view w = t0 -> puts_inv (map (Put s) items, w).
Proof.
  intros Hitems Hroot Hw. split; [|simpl; rewrite Hw; split; [done|by left]].
  intros j p (item & -> & Hj)%list_lookup_fmap_Some. simpl.
  destruct (Forall_lookup_1 _ _ _ _ Hitems Hj) as [Hv [l Hl]]. exists item, l.
  split; [done|]. split; [done|]. split; [by apply calls_Put|]. rewrite Hw. by apply rely_Put.
Qed.
End puts.

(** ** Items live apart *)
Section separation.
Context (s : Store) (Hs : store_ok s).

Lemma variant_single i : ident_ok i -> elems (Variant i) = [] \/ elems (Variant i) = [Variant i].
Proof.
  intros Hi. destruct (ok_variant i Hi) as [->|Hv]; [by left|right].
  apply elems_single, name_ok_normal, Hv.
Qed.
Lemma variant_elems_inj i j :
  ident_ok i -> ident_ok j -> elems (Variant i) = elems (Variant j) -> Variant i = Variant j.
Proof.
  intros Hi Hj Heq. destruct (ok_variant i Hi) as [Hvi|Hvi], (ok_variant j Hj) as [Hvj|Hvj];
    rewrite ?Hvi, ?Hvj in *; try done.
  - rewrite (elems_single (Variant j)) in Heq by apply name_ok_normal, Hvj. done.
  - rewrite (elems_single (Variant i)) in Heq by apply name_ok_normal, Hvi. done.
  - rewrite (elems_single (Variant i)) in Heq by apply name_ok_normal, Hvi.
    rewrite (elems_single (Variant j)) in Heq by apply name_ok_normal, Hvj. by simplify_eq.
Qed.

(** The tail of a path after the category: the folder, the bucket, the name, the variant. *)
Lemma ident_segs_eq i b :
  ident_segs s i b = (elems (basePath s) ++ elems (Category (loc i)) ++
    bucketsZnodeName s :: Itoa b :: Name (loc i) :: elems (Variant i))%list.
Proof. unfold ident_segs, bucket_segs. by rewrite <- !app_assoc. Qed.

(** Equal tails: the same shape, or a variant's path read as an item's path, which would
    need a category that ends with the bucket folder's name. *)
Lemma tails_inj (c1 c2 : list string) bk b1 b2 n1 n2 v2 :
  last c1 <> Some bk ->
  (c1 ++ [bk; b1; n1])%list <> (c2 ++ [bk; b2; n2; v2])%list.
Proof.
  intros Hlast Heq.
  change (c1 ++ [bk; b1; n1])%list with (c1 ++ [bk] ++ [b1] ++ [n1])%list in Heq.
  change (c2 ++ [bk; b2; n2; v2])%list with (c2 ++ [bk] ++ [b2] ++ [n2] ++ [v2])%list in Heq.
  rewrite !app_assoc in Heq. do 3 apply app_single_inj in Heq as [Heq _].
  apply Hlast. by rewrite Heq, last_snoc.
Qed.

Lemma ident_at_inj i j (l : list string) :
  ident_at s i l -> ident_at s j l -> same_item i j.
Proof.
  intros (Hi & Hpi & Hg & _) (Hj & Hpj & _ & _).
  pose proof (identPath_inv s (proj1 Hs) i _ Hi Hpi) as (_ & _ & _ & Hlast_i & _).
  pose proof (identPath_inv s (proj1 Hs) j _ Hj Hpj) as (_ & _ & _ & Hlast_j & _).
  destruct (identPath_segs s Hs i l Hi Hpi Hg) as (bi & _ & Hli).
  destruct (identPath_segs s Hs j l Hj Hpj Hg) as (bj & _ & Hlj).
  rewrite Hli, !ident_segs_eq in Hlj. apply app_inv_head in Hlj. unfold same_item.
  destruct (variant_single i Hi) as [Hvi|Hvi], (variant_single j Hj) as [Hvj|Hvj];
    rewrite Hvi, Hvj in Hlj.
  - change (elems (Category (loc i)) ++ [bucketsZnodeName s] ++ [Itoa bi] ++ [Name (loc i)]
      = elems (Category (loc j)) ++ [bucketsZnodeName s] ++ [Itoa bj] ++ [Name (loc j)])%list in Hlj.
    rewrite !app_assoc in Hlj. apply app_single_inj in Hlj as [Hlj Hn].
    apply app_single_inj in Hlj as [Hlj _]. apply app_single_inj in Hlj as [Hc _].
    split; [done|]. split; [done|]. apply variant_elems_inj; congruence.
  - by apply tails_inj in Hlj.
  - symmetry in Hlj. by apply tails_inj in Hlj.
  - change (elems (Category (loc i)) ++ [bucketsZnodeName s] ++ [Itoa bi] ++ [Name (loc i)] ++ [Variant i]
      = elems (Category (loc j)) ++ [bucketsZnodeName s] ++ [Itoa bj] ++ [Name (loc j)] ++ [Variant j])%list in Hlj.
    rewrite !app_assoc in Hlj. apply app_single_inj in Hlj as [Hlj Hv].
    apply app_single_inj in Hlj as [Hlj Hn]. do 2 apply app_single_inj in Hlj as [Hlj _]. done.
Qed.

Lemma same_item_at i j (l : list string) :
  same_item i j -> ident_at s i l -> ident_ok j -> ident_at s j l.
Proof.
  intros (Hc & Hn & Hv) (Hi & Hp & Hg & Hne) Hj. split; [done|]. split; [|done].
  pose proof (identPath_inv s (proj1 Hs) i _ Hi Hp) as (b & Hb & _ & Hlast & Heq).
  rewrite (identPath_spec s (proj1 Hs) j b) by (rewrite <- ?Hn; done).
  rewrite <- Hc, bool_decide_eq_false_2 by done. rewrite Heq. f_equal.
  by rewrite !ident_segs_eq, Hc, Hn, Hv.
Qed.

(** A category that goes on with the folder, bucket and name of another item leads through
    that item's znode. *)
Lemma phantom_path i j b (rest l lp : list string) :
  ident_at s i l -> ident_at s j lp -> Variant j = "" -> store_bucketFunc s (Name (loc j)) = Ok b ->
  elems (Category (loc i)) = (elems (Category (loc j)) ++
    bucketsZnodeName s :: Itoa b :: Name (loc j) :: rest)%list ->
  (exists k, l = (lp ++ k)%list /\ 3 <= length k) /\
  lp = ((bucket_segs s (Category (loc j)) ++ [Itoa b]) ++ [Name (loc j)])%list /\
  last (elems (Category (loc j))) <> Some (bucketsZnodeName s).
Proof.
  intros (Hi & Hpi & Hgi & _) (Hj & Hpj & Hgj & _) Hv Hb Hc.
  pose proof (identPath_inv s (proj1 Hs) j _ Hj Hpj) as (_ & _ & _ & Hlast & _).
  destruct (identPath_segs s Hs i l Hi Hpi Hgi) as (bi & _ & ->).
  destruct (identPath_segs s Hs j lp Hj Hpj Hgj) as (bj & Hbj & ->). assert (bj = b) as -> by congruence.
  split; [|split; [|exact Hlast]].
  - exists (rest ++ bucketsZnodeName s :: Itoa bi :: Name (loc i) :: elems (Variant i))%list.
    rewrite !ident_segs_eq, Hc, Hv. change (elems "") with (@nil string). rewrite <- !app_assoc. simpl.
    rewrite length_app.
    split; [done|]. simpl. lia.
  - unfold ident_segs. rewrite Hv. by rewrite <- app_assoc.
Qed.

(** With flat categories the path of one item is on the way to another only when it is
    the item a variant belongs to. *)
Lemma ident_at_prefix i j (li lj : list string) :
  ident_at s i li -> ident_at s j lj ->
  flat_category s (Category (loc i)) -> flat_category s (Category (loc j)) ->
  on_path li lj -> same_location i j /\ (Variant j = Variant i \/ Variant j = "").
Proof.
  intros (Hi & Hpi & Hgi & _) (Hj & Hpj & Hgj & _) Hfi Hfj [k Hk].
  destruct (identPath_segs s Hs i li Hi Hpi Hgi) as (bi & _ & ->).
  destruct (identPath_segs s Hs j lj Hj Hpj Hgj) as (bj & _ & ->).
  rewrite !ident_segs_eq, <- !app_assoc in Hk. apply app_inv_head in Hk. simpl in Hk.
  rewrite <- ?app_assoc in Hk. simpl in Hk.
  apply first_occurrence_inj in Hk as [Hc Hk]; [|done|done]. injection Hk as _ Hn Hv.
  split; [done|].
  destruct (ok_variant j Hj) as [->|Hvj]; [by right|left].
  rewrite (elems_single (Variant j)) in Hv by apply name_ok_normal, Hvj. simpl in Hv.
  destruct (variant_single i Hi) as [Hvi|Hvi]; rewrite Hvi in Hv; by simplify_eq.
Qed.
End separation.

(** ** Optimistic locking *)
Section cas.
Context {W : Type} `{ZkService W} `{!ZkLossy W}.
Context (s : Store) (Hs : store_ok s) (l : list string) (v : Z).

(** The clients: [cas j] is the item client [j] puts at version [v]; other clients may do
    anything that does not write to the znode. *)
Variable cas : nat -> option Item.
Definition cas_item (item : Item) : Prop :=
  ident_at s (ident item) l /\ Item_Validate item = Ok tt /\
  Ver (ident item) = Version.NewVersion v.
Hypothesis Hcas : forall j item, cas j = Some item -> cas_item item.
Hypothesis Hv : (0 <= v)%Z.

Definition won (p : prog (Ident * res error unit)) : Prop := exists i, p = Ret (i, Ok tt).
Definition client_ok (j : nat) (p : prog (Ident * res error unit)) : Prop :=
  match cas j with
  | Some item => p = Put s item \/ exists o, p = Ret o
  | None => calls (writes_in (fun q => q <> l)) p
  end.
(** The znode exists; nobody has won while its version is [v], and at most one has. *)
Definition cas_inv (st : conc_state W (Ident * res error unit)) : Prop :=
  (forall j p, fst st !! j = Some p -> client_ok j p) /\
  exists n, zk_view (snd st) !! l = Some n /\
  forall j p, fst st !! j = Some p -> is_Some (cas j) -> won p ->
    zversion n <> v /\
    forall j' p', fst st !! j' = Some p' -> is_Some (cas j') -> won p' -> j' = j.

Lemma wrap32_succ z : wrap32 (z + 1) <> z.
Proof.
  unfold wrap32. intros Heq. assert ((z + 1 + 2 ^ 31) mod 2 ^ 32 = z + 2 ^ 31)%Z as Hm by lia.
  pose proof (Z.div_mod (z + 1 + 2 ^ 31) (2 ^ 32) ltac:(lia)) as Hd. rewrite Hm in Hd. lia.
Qed.

Lemma Put_cas_first item : cas_item item ->
  exists k, Put s item = Do (Set_ (abs_path l) (Data item) v) k /\
    (forall z, exists i, k (Ok (Some z)) = Ret (i, Ok tt)) /\
    k (Fail (zkError ErrBadVersion)) = Ret (ident item, Fail ErrVersionConflict) /\
    (forall m, k (Fail (zkError (ErrSession m))) = Ret (ident item, Fail (zkError (ErrSession m)))).
Proof.
  intros ((Hi & Hp & Hg & Hne) & Hval & Hver). unfold Put, Put_body.
  rewrite Hval. cbn [try_pure]. rewrite Hp. cbn [try_pure].
  unfold creatingNewItem, actualVersion. rewrite Hver. simpl.
  destruct (Z.eqb_spec v NoPriorVersion) as [->|_]; [done|].
  eexists. split; [done|]. split; [by eexists|]. done.
Qed.

(** A step of a client that does not write to the znode. *)
Lemma other_step X (c : zkcmd X) k w :
  calls (writes_in (fun q => q <> l)) (Do (A:=Ident * res error unit) c k) ->
  zk_view (snd (zk_do c w)) !! l = zk_view w !! l.
Proof.
  intros [(q & Hq & Hw) _]. pose proof (zk_lossy X c w q Hq) as Hlaw.
  assert (snd (zk_spec c q (zk_view w)) !! l = zk_view w !! l) as Hf.
  { apply zk_spec_frame. destruct (is_write c); [left|by right]. intros ->. by apply Hw. }
  destruct Hlaw as [[_ ->]|[_ [->| ->]]]; done.
Qed.

(** The outcome of the call a locking client makes. *)
Lemma cas_call item n w r w' : cas_item item -> zk_view w !! l = Some n ->
  zk_do (Set_ (abs_path l) (Data item) v) w = (r, w') ->
  exists n', zk_view w' !! l = Some n' /\
  ((exists z, r = Ok (Some z) /\ zversion n = v /\ zversion n' <> v) \/
   ((r = Fail (zkError ErrBadVersion) \/ exists m, r = Fail (zkError (ErrSession m))) /\
    (zversion n' = zversion n \/ zversion n' <> v))).
Proof.
  intros ((_ & _ & Hg & _) & _ & _) Hn Hd.
  pose proof (zk_lossy _ (Set_ (abs_path l) (Data item) v) w l (parse_good l Hg)) as Hlaw.
  rewrite Hd in Hlaw. simpl in Hlaw. rewrite Hn in Hlaw.
  destruct (version_matches v (zversion n)) eqn:Hm; simpl in Hlaw.
  - assert (zversion n = v) as Hz.
    { unfold version_matches in Hm. apply orb_true_iff in Hm as [Hm|Hm];
        apply bool_decide_eq_true in Hm; [lia|done]. }
    rewrite Hz in *. pose proof (wrap32_succ v) as Hw.
    destruct Hlaw as [[-> ->]|[[m ->] [->| ->]]].
    + eexists. rewrite lookup_insert_eq. split; [done|]. left. by eexists.
    + exists n. split; [done|]. right. split; [right; by eexists|by left].
    + eexists. rewrite lookup_insert_eq. split; [done|]. right. split; [right; by eexists|by right].
  - destruct Hlaw as [[-> ->]|[[m ->] [->| ->]]]; exists n; (split; [done|right]); eauto.
Qed.

(** Replacing the program of a locking client by its outcome. *)
Lemma cas_inv_cas ps w i q0 w' item n n' p :
  cas_inv (ps, w) -> ps !! i = Some p -> cas i = Some item -> zk_view w !! l = Some n ->
  zk_view w' !! l = Some n' -> (exists o, q0 = Ret o) ->
  ((zversion n = v /\ zversion n' <> v) \/
   (~ won q0 /\ (zversion n' = zversion n \/ zversion n' <> v))) ->
  cas_inv (<[i := q0]> ps, w').
Proof.
  intros [Hok (m & Hm & Hwin)] Hi Hci Hn Hn' Ho Hr. simpl in *. assert (m = n) as -> by congruence.
  assert (forall j q, <[i := q0]> ps !! j = Some q -> (j = i /\ q = q0) \/ (j <> i /\ ps !! j = Some q)) as Hcase.
  { intros j q Hj. apply list_lookup_insert_Some in Hj. naive_solver. }
  split; simpl.
  { intros j q [[-> ->]|[Hne Hj]]%Hcase; [|by apply Hok].
    unfold client_ok. rewrite Hci. by right. }
  exists n'. split; [done|]. intros j q Hj Hcj Hwj. destruct Hr as [[Hz Hz']|[Hnw Hz]].
  - split; [done|]. assert (forall j q, <[i := q0]> ps !! j = Some q -> is_Some (cas j) -> won q -> j = i) as Hall.
    { intros j2 q2 [[-> _]|[_ Hj2]]%Hcase Hc2 Hw2; [done|]. by destruct (Hwin j2 q2 Hj2 Hc2 Hw2). }
    intros j' q' Hj' Hc' Hw'. by rewrite (Hall j q), (Hall j' q').
  - apply Hcase in Hj as [[-> ->]|[Hne Hj]]; [done|].
    destruct (Hwin j q Hj Hcj Hwj) as [Hzv Huniq]. split; [destruct Hz; congruence|].
    intros j' q' [[-> ->]|[_ Hj']]%Hcase Hc' Hw'; [done|]. eauto.
Qed.

(** Replacing the program of another client. *)
Lemma cas_inv_other ps w i q w' p :
  cas_inv (ps, w) -> ps !! i = Some p -> cas i = None -> zk_view w' !! l = zk_view w !! l ->
  calls (writes_in (fun q => q <> l)) q -> cas_inv (<[i := q]> ps, w').
Proof.
  intros [Hok (n & Hn & Hwin)] Hi Hci Hsame Hq. simpl in *.
  assert (forall j q', <[i := q]> ps !! j = Some q' -> (j = i /\ q' = q) \/ ps !! j = Some q') as Hcase.
  { intros j q' Hj. apply list_lookup_insert_Some in Hj. naive_solver. }
  split; simpl.
  { intros j q' [[-> ->]|Hj]%Hcase; [|by apply Hok]. unfold client_ok. by rewrite Hci. }
  exists n. split; [congruence|].
  assert (forall j q', <[i := q]> ps !! j = Some q' -> is_Some (cas j) -> ps !! j = Some q') as Hold.
  { intros j q' [[-> _]|Hj]%Hcase [it Hit]; [congruence|done]. }
  intros j q' Hj Hcj Hwj. destruct (Hwin j q') as [Hzv Huniq]; auto.
  split; [done|]. intros j' p' Hj' Hc' Hw'. apply (Huniq j' p'); auto.
Qed.

Lemma cas_inv_step st st' : cas_inv st -> conc_step st st' -> cas_inv st'.
Proof.
  intros HI (i & p & Hi & ->)%conc_step_client. destruct st as [ps w]. simpl in Hi.
  pose proof HI as [Hok (n & Hn & _)]. specialize (Hok i p Hi). unfold client_ok in Hok.
  unfold client_step. rewrite Hi. destruct (cas i) as [item|] eqn:Hci.
  - destruct Hok as [->|[o ->]]; [|done].
    destruct (Put_cas_first item (Hcas _ _ Hci)) as (k & HP & Hk1 & Hk2 & Hk3). rewrite HP.
    destruct (zk_do _ w) as [r w'] eqn:Hd.
    destruct (cas_call item n w r w' (Hcas _ _ Hci) Hn Hd) as (n' & Hn' & Hr).
    eapply (cas_inv_cas _ _ _ (k r)); eauto.
    + destruct Hr as [(z & -> & _)|[[->|[m ->]] _]]; [|by eexists|by eexists].
      destruct (Hk1 z) as [i' ->]. by eexists.
    + destruct Hr as [(z & -> & Hz)|[Hr Hz]]; [by left|right]. split; [|done].
      destruct Hr as [->|[m ->]]; rewrite ?Hk2, ?Hk3; by intros [? ?].
  - destruct p as [a|X c k]; [done|]. destruct (zk_do c w) as [r w'] eqn:Hd.
    eapply cas_inv_other; eauto; [|apply Hok].
    pose proof (other_step X c k w Hok) as Hsame. by rewrite Hd in Hsame.
Qed.
End cas.
