(* ===== verification/ZkstoreTheorems.v ===== *)
(** * zkstore: the properties of the store. *)
From S2P Require Import Prelude.
From S2P Require Import GoStrings.
From S2P Require Import GoPath.
From S2P Require Import GoErrors.
From S2P Require Import GoRegexp.
From S2P Require Import GoMd5.
From S2P Require Import ZkService.
From S2P Require Import ZkstoreData.
From S2P Require Import ZkstoreStore.
From S2P Require Import ZkstoreOps.
From S2P Require Import ZkstoreSpec.
From S2P Require Import ZkstoreListing.
From S2P Require Import ZkstoreConc.

Local Open Scope string_scope.

(** ** Fixtures for the witnesses *)
Lemma test_store_ok : store_ok test_store.
Proof.
  split; [|by vm_compute]. split.
  - done.
  - reflexivity.
  - by eexists.
  - by vm_compute.
  - right. by vm_compute.
Qed.
Ltac solve_ident_at :=
  split; [apply Ident_Validate_ok; vm_compute; reflexivity
  |split; [vm_compute; reflexivity
  |split; [apply (bool_decide_unpack _); vm_compute; exact I|discriminate]]].
Global Instance good_seg_dec w : Decision (good_seg w).
Proof. unfold good_seg. apply _. Defined.

Definition foo (variant : string) (v : Version.t) : Ident := mk "widgets" "foo" variant v.
Definition foo_segs : list string := ["storage"; "widgets"; "buckets"; "0"; "foo"].
Lemma foo_at v : ident_at test_store (foo "" v) foo_segs.
Proof. solve_ident_at. Qed.
Lemma foo_v2_at v : ident_at test_store (foo "v2" v) (foo_segs ++ ["v2"]).
Proof. solve_ident_at. Qed.
Lemma root_tree_wf : tree_wf root_tree.
Proof.
  split; [by eexists|]. intros l n. unfold root_tree. rewrite lookup_singleton_ne; [by intros []|].
  by destruct l.
Qed.
(** A tree holding foo at version 3, with a variant. *)
Definition foo_tree : tree :=
  snd (run (Put test_store (MkItem (foo "" (Version.NewVersion 2)) "d"))
    (snd (run (Put test_store (MkItem (foo "" Version.zero) "c"))
      (snd (run (Put test_store (MkItem (foo "" Version.zero) "b"))
        (snd (run (Put test_store (MkItem (foo "v2" Version.zero) "a")) root_tree))))))).
Lemma tree_wf_check (t : tree) :
  bool_decide (is_Some (t !! []) /\
    map_Forall (fun l _ => l = [] \/ is_Some (t !! parent l)) t) = true -> tree_wf t.
Proof.
  intros [Hr Hp]%bool_decide_eq_true. split; [done|]. intros l n [z Hz].
  destruct (Hp _ _ Hz) as [Hl|Hl]; [by destruct l|]. by rewrite parent_snoc in Hl.
Qed.
Lemma foo_tree_wf : tree_wf foo_tree.
Proof. apply tree_wf_check. vm_compute. reflexivity. Qed.

Section properties.
Context (s : Store) (Hs : store_ok s).

(** [Put] and [Get] against a service that keeps its promises. *)
Lemma Put_reliable {W} `{ZkReliable W} (item : Item) (l : list string) (w w' : W) out :
  ident_at s (ident item) l -> Item_Validate item = Ok tt -> tree_wf (zk_view w) ->
  run (Put s item) w = (out, w') ->
  out = put_outcome item (fst (put_spec item l (zk_view w))) /\
  zk_view w' = snd (put_spec item l (zk_view w)).
Proof.
  intros Hl Hv Ht Hr. pose proof (wp_run_reliable (Put s item) _ w (wp_plain_reliable _ _
    (calls_mono _ _ _ (put_call_plain item l) (calls_Put s item l Hl)))) as Hrun.
  rewrite Hr, (run_Put s item l) in Hrun by done. by injection Hrun.
Qed.
Lemma Get_reliable {W} `{ZkReliable W} (j : Ident) (l : list string) (w : W) :
  ident_at s j l -> fst (run (Get s j) w) = get_spec j l (zk_view w).
Proof.
  intros Hjl. assert (calls plain_call (Get s j)) as Hcg.
  { destruct Hjl as (Hoj & Hpj & Hg & _). unfold Get. rewrite (proj2 (Ident_Validate_ok j)) by done.
    cbn [try_pure]. rewrite Hpj. cbn [try_pure]. split; [|by intros].
    split; [|done]. simpl. rewrite parse_good by done. by eexists. }
  pose proof (wp_run_reliable (Get s j) _ w (wp_plain_reliable _ _ Hcg)) as Hget.
  rewrite (run_Get s j l) in Hget by done. by injection Hget.
Qed.
Lemma Put_ok_valid {W} `{ZkService W} (item : Item) (i' : Ident) (w w' : W) :
  run (Put s item) w = ((i', Ok tt), w') -> Item_Validate item = Ok tt.
Proof.
  unfold Put, Put_body. destruct (Item_Validate item) as [|[]]; [|done].
  simpl. intros ?. by simplify_eq.
Qed.

(** C1. Against a service that keeps its promises, [Put] of a valid item does what its
    specification says: it creates the item (and its missing ancestors, the item of a
    variant included) at version 0, overwrites it when no version is set or the version
    set is the stored one, incrementing the version, and answers [ErrVersionConflict]
    otherwise; the ident returned carries the new version. *)
Theorem Put_refines_spec {W} `{ZkReliable W} (item : Item) (l : list string) (w : W) :
  ident_at s (ident item) l -> Item_Validate item = Ok tt -> tree_wf (zk_view w) ->
  let '(out, w') := run (Put s item) w in
  out = put_outcome item (fst (put_spec item l (zk_view w))) /\
  zk_view w' = snd (put_spec item l (zk_view w)).
Proof.
  intros Hl Hv Ht. destruct (run (Put s item) w) as [out w'] eqn:Hr.
  by apply (Put_reliable item l w).
Qed.

(** C2. When calls can be lost, carried out or not, [Put] still does one of two things:
    exactly what the specification says, or it reports the session error with the ident
    as it was given; in either case only znodes on the way to the item may have changed,
    and the tree is still a tree. *)
Theorem Put_safe_when_lossy {W} `{ZkLossy W} (item : Item) (l : list string) (w : W) :
  ident_at s (ident item) l -> Item_Validate item = Ok tt -> tree_wf (zk_view w) ->
  let '(out, w') := run (Put s item) w in
  ((out = put_outcome item (fst (put_spec item l (zk_view w))) /\
    zk_view w' = snd (put_spec item l (zk_view w))) \/
   (exists e, out = (ident item, Fail e) /\ session_error e)) /\
  (forall q, ~ q `prefix_of` l -> zk_view w' !! q = zk_view w !! q) /\
  tree_wf (zk_view w').
Proof.
  intros Hl Hv Ht. pose proof (calls_Put s item l Hl) as Hc.
  pose proof (wp_run_lossy (Put s item) _ w (wp_plain_lossy (put_session_fail item) _ _
    (calls_mono _ _ _ (put_call_plain item l) Hc) (aborts_Put s item))) as H1.
  pose proof (wp_run_lossy (Put s item) _ w (wp_frame (on_path l) _ _
    (calls_mono _ _ _ (put_call_writes item l) Hc))) as H2.
  pose proof (wp_run_lossy (Put s item) _ w (wp_tree_wf _ _ (calls_mono _ _ _
    (fun X c Hpc => writes_weaken _ X c (put_call_writes item l X c Hpc)) Hc) Ht)) as H3.
  destruct (run (Put s item) w) as [out w']. simpl in *. split; [|done].
  rewrite (run_Put s item l) in H1 by done. destruct H1 as [H1|[H1 (e & H1' & He)]].
  - left. by simplify_eq.
  - right. exists e. destruct out as [i r]. simpl in *. by subst.
Qed.

(** C4. Round trip: after a [Put] that succeeds, a [Get] of the same item, whatever
    version its ident carries, returns the data put and the version [Put] returned. *)
Theorem Put_Get_roundtrip {W} `{ZkReliable W} (item : Item) (j i' : Ident) (l : list string) (w w' : W) :
  ident_at s (ident item) l -> tree_wf (zk_view w) -> same_item (ident item) j -> ident_ok j ->
  run (Put s item) w = ((i', Ok tt), w') ->
  fst (run (Get s j) w') = Ok (MkItem (set_version j (Ver i')) (Data item)).
Proof.
  intros Hl Ht Hj Hok Hput. pose proof (same_item_at s Hs _ _ l Hj Hl Hok) as Hjl.
  pose proof (Put_ok_valid item i' w w' Hput) as Hv.
  destruct (Put_reliable item l w w' _ Hl Hv Ht Hput) as [Hout Hview].
  rewrite (Get_reliable j l), Hview by done. unfold get_spec.
  destruct Hl as (_ & _ & _ & Hne). unfold put_spec in *.
  destruct (zk_view w !! l) as [n|] eqn:Hn.
  - destruct (creatingNewItem item); [done|]. destruct (version_matches _ _); [|done].
    simpl in *. rewrite lookup_insert_eq. by simplify_eq.
  - destruct (0 <=? _)%Z; [done|]. simpl in *.
    pose proof (create_missing_new item 0 l [] [] (zk_view w) Hne Hn) as Hnew.
    rewrite app_nil_r, app_nil_l in Hnew. rewrite Hnew. by simplify_eq.
Qed.

(** C5. Distinct items never share a znode: two valid idents have the same path exactly
    when they name the same item, that is the same category up to a leading slash, the
    same name and the same variant. *)
Theorem identPath_injective (i j : Ident) (p : string) :
  ident_ok i -> ident_ok j -> identPath s i = Ok p ->
  identPath s j = Ok p <-> same_item i j.
Proof.
  intros Hi Hj Hp. destruct (identPath_at s Hs i p Hi Hp) as (l & -> & Hl). split.
  - intros Hpj. apply (ident_at_inj s Hs i j l); [done|].
    destruct Hl as (_ & _ & Hg & Hne). by split; [|split].
  - intros Hij. by destruct (same_item_at s Hs i j l Hij Hl Hj) as (_ & ? & _).
Qed.

(** C6. Isolation: with categories that do not contain the bucket folder's name, a [Put]
    changes no other item, whether it succeeds, conflicts or loses its session; the one
    exception is the item a variant belongs to, which [Put] creates when it is missing. *)
Theorem Put_isolated {W} `{ZkLossy W} (item : Item) (j : Ident) (l lj : list string) (w : W) :
  ident_at s (ident item) l -> ident_at s j lj ->
  flat_category s (Category (loc (ident item))) -> flat_category s (Category (loc j)) ->
  ~ same_item (ident item) j -> ~ (same_location (ident item) j /\ Variant j = "") ->
  zk_view (snd (run (Put s item) w)) !! lj = zk_view w !! lj.
Proof.
  intros Hl Hlj Hf Hfj Hne Hpar.
  pose proof (wp_run_lossy (Put s item) _ w (wp_frame (on_path l) _ _
    (calls_mono _ _ _ (put_call_writes item l) (calls_Put s item l Hl)))) as Hframe.
  apply Hframe. intros Hon.
  destruct (ident_at_prefix s Hs (ident item) j l lj Hl Hlj Hf Hfj Hon) as [[Hc Hn] [Hv|Hv]].
  - apply Hne. by split.
  - apply Hpar. by split.
Qed.

(** C7. [Delete] of a valid ident, against a service that keeps its promises and when the
    variants are leaves: of a variant, exactly that znode at the version set; of an item,
    all of its variants and then the item at the version set. A missing znode is no
    error. *)
Theorem Delete_refines_spec {W} `{ZkReliable W} (i : Ident) (l : list string) (w : W) :
  ident_at s i l -> tree_wf (zk_view w) -> good_children (zk_view w) l ->
  (forall v, v ∈ children (zk_view w) l -> children (zk_view w) (l ++ [v])%list = []) ->
  let sp := (if bool_decide (Variant i = "") then delete_item_spec else delete_spec)
              l (actualVersion i) (zk_view w) in
  let '(out, w') := run (Delete s i) w in out = fst sp /\ zk_view w' = snd sp.
Proof.
  intros Hl Ht Hgc Hleaf sp.
  pose proof (wp_run_reliable (Delete s i) (fun a t' => a = fst sp /\ t' = snd sp) w) as Hrun.
  destruct (run (Delete s i) w) as [out w']. apply Hrun. by apply (wp_Delete s Hs i l).
Qed.

(** C13. Deleting an item with a stale version is not all or nothing: the call answers
    [ErrVersionConflict] and keeps the item, and every variant of the item is gone. *)
Theorem Delete_stale_version_removes_variants {W} `{ZkReliable W} (i : Ident) (l : list string)
    (n : znode) (w : W) :
  ident_at s i l -> Variant i = "" -> tree_wf (zk_view w) -> good_children (zk_view w) l ->
  (forall v, v ∈ children (zk_view w) l -> children (zk_view w) (l ++ [v])%list = []) ->
  zk_view w !! l = Some n -> version_matches (actualVersion i) (zversion n) = false ->
  let '(out, w') := run (Delete s i) w in
  out = Fail ErrVersionConflict /\ zk_view w' !! l = Some n /\ children (zk_view w') l = [].
Proof.
  intros Hl Hv Ht Hgc Hleaf Hn Hver.
  pose proof (wp_run_reliable (Delete s i) (fun a t' => a = Fail ErrVersionConflict /\
    t' !! l = Some n /\ children t' l = []) w) as Hrun.
  destruct (run (Delete s i) w) as [out w']. apply Hrun. apply (wp_Delete s Hs i l); try done.
  rewrite bool_decide_eq_true_2 by done. unfold delete_item_spec, delete_spec.
  rewrite remove_children_self, Hn, Hver. simpl. rewrite remove_children_self.
  split; [done|]. split; [done|]. apply remove_children_all.
Qed.

(** C8. [List] of a category returns exactly the locations stored in its buckets, each as
    often as it is stored, and [ErrNotFound] when the category has no bucket folder. *)
Theorem List_exact {W} `{ZkReliable W} (category : string) (w : W) :
  category_ok category -> last (elems category) <> Some (bucketsZnodeName s) ->
  let t := zk_view w in let bl := bucket_segs s category in
  good_children t bl -> (forall b, b ∈ children t bl -> good_children t (bl ++ [b])%list) ->
  let '((locs, err), w') := run (List_ s category) w in
  zk_view w' = t /\
  match t !! bl with
  | None => locs = [] /\ err = Fail ErrNotFound
  | Some _ => Permutation locs (list_spec category bl t) /\ err = Ok tt
  end.
Proof.
  intros Hc Hlast t bl Hgc Hgcs.
  pose proof (wp_run_reliable (List_ s category) (fun a t' => t' = t /\ match t !! bl with
    | None => fst a = [] /\ snd a = Fail ErrNotFound
    | Some _ => Permutation (fst a) (list_spec category bl t) /\ snd a = Ok tt end) w) as Hrun.
  destruct (run (List_ s category) w) as [[locs err] w']. apply Hrun.
  apply wp_List; [done|done|done|done|done|]. fold bl t. destruct (t !! bl); [|done].
  intros locs' Hl. by split.
Qed.

(** A [Put] of a variant at a version, when neither the variant nor its item exists,
    answers [ErrVersionConflict] and yet creates the item: a [Get] of it returns the data
    of the refused [Put]. *)
Theorem refused_Put_creates_item {W} `{ZkReliable W} (item : Item) (j : Ident) (l0 : list string) (w : W) :
  ident_at s (ident item) (l0 ++ [Variant (ident item)])%list -> ident_at s j l0 ->
  Variant (ident item) <> "" -> Item_Validate item = Ok tt -> tree_wf (zk_view w) ->
  zk_view w !! l0 = None -> (0 <= actualVersion (ident item))%Z ->
  let '(out, w') := run (Put s item) w in
  out = (ident item, Fail ErrVersionConflict) /\
  fst (run (Get s j) w') = Ok (MkItem (set_version j (Version.NewVersion 0)) (Data item)).
Proof.
  intros Hl Hj Hvar Hv Ht Hnone Hver. set (l := (l0 ++ [Variant (ident item)])%list) in *.
  destruct (run (Put s item) w) as [out w'] eqn:Hput.
  destruct (Put_reliable item l w w' _ Hl Hv Ht Hput) as [Hout Hview]. unfold put_spec in Hout, Hview.
  assert (zk_view w !! l = None) as Hln.
  { destruct (zk_view w !! l) eqn:Hz; [|done].
    destruct (proj2 Ht l0 (Variant (ident item))) as [? ?]; [by eexists|]. congruence. }
  rewrite Hln in Hout, Hview. destruct (Z.leb_spec 0 (actualVersion (ident item))); [|lia].
  unfold l in Hview. rewrite removelast_last in Hview. split; [exact Hout|].
  rewrite (Get_reliable j l0) by done. pose proof Hj as (_ & _ & Hg & Hne). simpl in Hview.
  unfold get_spec. rewrite Hview.
  pose proof (create_missing_new item 1 l0 [] [] (zk_view w) Hne Hnone) as Hnew.
  rewrite app_nil_r, app_nil_l in Hnew. rewrite Hnew. unfold node_data. simpl.
  by rewrite (bool_decide_eq_false_2 (Variant (ident item) = "")).
Qed.

(** C3. Optimistic locking: of any number of clients that put the same existing item at
    the same version, interleaved call by call in any order, with calls that can be lost
    and with other clients that write elsewhere, at most one succeeds. *)
Theorem Put_at_version_exclusive {W} `{ZkLossy W} (l : list string) (v : Z) (cas : nat -> option Item)
    (ps0 ps : list (prog (Ident * res error unit))) (w0 w : W) (n0 : znode) :
  (0 <= v)%Z -> (forall j item, cas j = Some item -> cas_item s l v item) ->
  (forall j p, ps0 !! j = Some p -> match cas j with
     | Some item => p = Put s item
     | None => calls (writes_in (fun q => q <> l)) p end) ->
  zk_view w0 !! l = Some n0 -> rtc conc_step (ps0, w0) (ps, w) ->
  forall j1 j2 i1 i2, is_Some (cas j1) -> is_Some (cas j2) ->
    ps !! j1 = Some (Ret (i1, Ok tt)) -> ps !! j2 = Some (Ret (i2, Ok tt)) -> j1 = j2.
Proof.
  intros Hv Hcas Hps Hn0 Hrtc j1 j2 i1 i2 Hc1 Hc2 Hr1 Hr2.
  assert (cas_inv s l v cas (ps, w)) as [_ (n & _ & Hwin)].
  { refine (rtc_invariant conc_step (cas_inv s l v cas) (ps0, w0) (ps, w) _ _ Hrtc).
    { intros a b. by apply (cas_inv_step s l v cas Hcas Hv). }
    split.
    - intros j p Hp. specialize (Hps j p Hp). unfold client_ok. destruct (cas j); [by left|done].
    - exists n0. split; [done|]. intros j p Hj [item Hitem] [i Hi]. exfalso.
      specialize (Hps j p Hj). rewrite Hitem in Hps.
      destruct (Put_cas_first s l v Hv item (Hcas _ _ Hitem)) as (k & HP & _). congruence. }
  simpl in Hwin. symmetry. destruct (Hwin j1 _ Hr1 Hc1) as [_ Hu]; [by eexists|].
  apply (Hu j2 _ Hr2 Hc2). by eexists.
Qed.

(** C9. Whatever valid items clients put at the same time, however their calls interleave
    and whichever are lost: no znode disappears; a znode of the tree is as it was, or holds
    what one of the items has for it, either its own znode or one on its way that was
    missing before (empty, but for the item of a variant); and every [Put] that has ended
    reports a session error, the conflict of an item with a version, or success, and then
    its item is stored: clients that create the same ancestors do not fail each other. *)
Theorem concurrent_Puts_effects {W} `{ZkLossy W} (items : list Item) ps (w0 w : W) :
  Forall (fun item => Item_Validate item = Ok tt /\ exists l, ident_at s (ident item) l) items ->
  tree_wf (zk_view w0) -> rtc conc_step (map (Put s) items, w0) (ps, w) ->
  (forall q, is_Some (zk_view w0 !! q) -> is_Some (zk_view w !! q)) /\
  (forall q n, zk_view w !! q = Some n -> zk_view w0 !! q = Some n \/
    exists item k, item ∈ items /\ ident_at s (ident item) (q ++ k) /\
      zdata n = node_data item (length k) /\ (zk_view w0 !! q = None \/ k = [])) /\
  (forall j item i r, items !! j = Some item -> ps !! j = Some (Ret (i, r)) ->
    match r with
    | Ok _ => exists l, ident_at s (ident item) l /\ is_Some (zk_view w !! l)
    | Fail e => session_error e \/
                (e = ErrVersionConflict /\ Version.hasVersion (Ver (ident item)) = true)
    end).
Proof.
  intros Hitems Ht Hrtc.
  assert (puts_inv s items (zk_view w0) (ps, w)) as (Hps & Hg & Hthere).
  { refine (rtc_invariant conc_step (puts_inv s items (zk_view w0)) (map (Put s) items, w0) (ps, w)
      _ _ Hrtc); [apply puts_inv_step|]. apply puts_inv_start; [done|apply Ht|done]. }
  split; [exact Hg|]. split; [exact Hthere|]. intros j item i r Hj Hp.
  destruct (Hps j _ Hp) as (item' & l & Hj' & Hl & _ & Hr). simplify_eq.
  destruct r; [exact Hr|by exists l].
Qed.

(** C15. The check that a category does not end with the bucket folder's name does not keep
    categories and items apart: in any store and tree, against a service that keeps its
    promises, a [Put] that succeeds of an item whose category goes on, after the category
    of another ident that is missing, with the bucket folder, that ident's bucket and its
    name, makes that other item appear: a [Get] of it finds it, without data and at version
    0, and [List] of its category includes it (when the names in the bucket folder are
    elements a path can have), although nobody put it. *)
Theorem nested_category_phantom_item {W} `{ZkReliable W} (item : Item) (phantom i' : Ident)
    (b : Z) (rest l lp : list string) (w w' : W) :
  ident_at s (ident item) l -> ident_at s phantom lp -> Variant phantom = "" ->
  store_bucketFunc s (Name (loc phantom)) = Ok b ->
  elems (Category (loc (ident item))) = (elems (Category (loc phantom)) ++
    bucketsZnodeName s :: Itoa b :: Name (loc phantom) :: rest)%list ->
  tree_wf (zk_view w) -> fst (run (Get s phantom) w) = Fail ErrNotFound ->
  run (Put s item) w = ((i', Ok tt), w') ->
  fst (run (Get s phantom) w') = Ok (MkItem (set_version phantom (Version.NewVersion 0)) "") /\
  let bl := bucket_segs s (Category (loc phantom)) in
  (good_children (zk_view w') bl ->
   (forall c, c ∈ children (zk_view w') bl -> good_children (zk_view w') (bl ++ [c])%list) ->
   let '((locs, err), _) := run (List_ s (Category (loc phantom))) w' in
   err = Ok tt /\ MkLocation (Category (loc phantom)) (Name (loc phantom)) ∈ locs).
Proof.
  intros Hl Hlp Hvar Hb Hcat Ht Hmissing Hput.
  pose proof (Put_ok_valid item i' w w' Hput) as Hv.
  destruct (Put_reliable item l w w' _ Hl Hv Ht Hput) as [Hout Hview].
  assert (zk_view w !! lp = None) as Hnone.
  { rewrite (Get_reliable phantom lp) in Hmissing by done. unfold get_spec in Hmissing.
    by destruct (zk_view w !! lp). }
  destruct (phantom_path s Hs (ident item) phantom b rest l lp Hl Hlp Hvar Hb Hcat) as ((k & -> & Hk) & Hlpb & Hlast).
  assert (zk_view w' !! lp = Some (Znode "" 0)) as Hnew.
  { rewrite Hview. unfold put_spec in *. destruct (zk_view w !! (lp ++ k)%list) as [n|] eqn:Hn.
    - destruct (tree_wf_prefix (zk_view w) lp k) as [? ?]; [done|by eexists|congruence].
    - destruct (0 <=? _)%Z; [done|]. simpl.
      pose proof (create_missing_new item 0 lp k [] (zk_view w) (proj2 (proj2 (proj2 Hlp))) Hnone) as Hnew.
      rewrite !app_nil_l in Hnew. rewrite Hnew. unfold node_data.
      rewrite (bool_decide_eq_false_2 (0 + length k = 0)), (bool_decide_eq_false_2 (0 + length k = 1)) by lia.
      by rewrite andb_false_r. }
  split; [rewrite (Get_reliable phantom lp) by done; unfold get_spec; by rewrite Hnew|].
  intros bl Hgc Hgcs.
  assert (tree_wf (zk_view w')) as Ht'.
  { pose proof (wp_run_lossy (Put s item) _ w (wp_tree_wf _ _ (calls_mono _ _ _ (fun X c Hpc =>
      writes_weaken _ X c (put_call_writes item (lp ++ k)%list X c Hpc)) (calls_Put s item _ Hl)) Ht)) as Hwf.
    by rewrite Hput in Hwf. }
  rewrite Hlpb in Hnew. fold bl in Hnew.
  destruct (proj2 Ht' (bl ++ [Itoa b])%list (Name (loc phantom))) as [nb Hnb]; [by eexists|].
  destruct (proj2 Ht' bl (Itoa b)) as [nl Hnl]; [by eexists|].
  pose proof (wp_run_reliable (List_ s (Category (loc phantom))) (fun a _ => snd a = Ok tt /\
    MkLocation (Category (loc phantom)) (Name (loc phantom)) ∈ fst a) w') as Hrun.
  destruct (run (List_ s _) w') as [[locs err] w2]. apply Hrun. simpl.
  apply wp_List; [done|apply Hlp|exact Hlast|exact Hgc|exact Hgcs|].
  fold bl. rewrite Hnl. intros locs' Hlocs. split; [done|]. rewrite Hlocs.
  by apply (list_spec_elem _ bl _ (Itoa b)).
Qed.
End properties.

(** ** Configuration *)

(** C10. Every store that [NewStore] returns, from any list of the package's options in any
    order and with repetitions, has a positive bucket count, a bucket function that is the
    one built from the count and hash provider on record, a valid bucket folder name and a
    base path that is empty or rooted and clean; its buckets are in range. *)
Theorem NewStore_wf {Conn} (connect : res error Conn) (opts : list StoreOpt) conn (s : Store) :
  Forall package_opt opts -> NewStore connect opts = Ok (conn, s) ->
  connect = Ok conn /\ store_wf s /\
  forall name b, store_bucketFunc s name = Ok b -> (0 <= b < hashBuckets s)%Z.
Proof.
  intros Ho [Hc Ha]%NewStore_inv. pose proof (apply_opts_wf _ _ _ Ho default_store_wf Ha) as Hs.
  split; [done|]. split; [done|]. by apply bucketFunc_range.
Qed.

(** C12. With a hasher whose [Write] does not fail, as those of the standard library, the
    hash provider never reports an overflow, its value fits 56 bits, and the bucket of a
    name is that value modulo the bucket count: no name makes it fail or panic. *)
Theorem bucketFunc_total (h : Hasher) (bucketCount : Z) (name : string) :
  hasher_ok h -> int_positive bucketCount ->
  exists y, (HashProvider (Some h) ≫= fun f => Some (f name)) = Some (Ok y) /\ (0 <= y < 2 ^ 56)%Z /\
    bucketFunc bucketCount (HashProvider (Some h)) name = Ok (y mod bucketCount)%Z.
Proof.
  intros Hh Hn. destruct (HashProvider (Some h)) as [f|] eqn:Hf; [|done].
  destruct (HashProvider_total h f name Hh Hf) as (y & Hy & Hr). exists y. simpl.
  rewrite Hy. split; [done|]. split; [done|]. apply (hashBytesToBucket_spec bucketCount y Hn).
Qed.

(** ** Validation *)

(** C11. [ValidateCategory] accepts exactly the categories whose elements are non-empty
    words of letters, digits, underscores and dashes, separated by single slashes, with or
    without a slash in front; [ValidateNamed] exactly such a word, or a blank when the name
    is not required. *)
Theorem validation_exact (category name : string) (required : bool) :
  (ValidateCategory category = Ok tt <->
     Forall name_ok (elems category) /\
     (category = abs_path (elems category) \/
      (elems category <> [] /\ category = Join (elems category) "/"))) /\
  (ValidateNamed name required = Ok tt <-> (name = "" /\ required = false) \/ name_ok name).
Proof. split; [apply ValidateCategory_ok|apply ValidateNamed_ok]. Qed.

(** Input that does not validate never reaches ZooKeeper: whatever the service, [Put],
    [Get] and [Delete] return the validation error and make no call. *)
Theorem invalid_input_makes_no_call {W} `{ZkService W} (s : Store) (item : Item) (e : error) (w : W) :
  (Item_Validate item = Fail e -> run (Put s item) w = ((ident item, Fail e), w)) /\
  (Ident_Validate (ident item) = Fail e ->
     run (Get s (ident item)) w = (Fail e, w) /\ run (Delete s (ident item)) w = (Fail e, w)).
Proof.
  split; intros Hv.
  - unfold Put, Put_body. rewrite Hv. done.
  - unfold Get, Delete. rewrite Hv. done.
Qed.

(** [Get] does not look at the version of the ident, on any service: with another
    version set it makes the same calls and returns the same item. *)
Theorem Get_ignores_version {W} `{ZkService W} (s : Store) (i : Ident) (v : Version.t) (w : W) :
  run (Get s (set_version i v)) w = run (Get s i) w.
Proof. done. Qed.

(** ** Two clients at once, and categories inside a bucket folder *)
Definition race_item (data : string) : Item := MkItem (foo "" (Version.NewVersion NoPriorVersion)) data.

(** Client 1 finds the item missing twice, client 0 puts, client 1 goes on. *)
Definition race_schedule : list nat :=
  (replicate 11 1 ++ replicate 14 0 ++ replicate 10 1)%list.
Definition race_end : conc_state tree (Ident * res error unit) :=
  run_schedule race_schedule
    ([Put test_store (race_item "a"); Put test_store (race_item "b")], root_tree).

(** C14. [NoPriorVersion] does not keep two clients from both creating an item: there is an
    interleaving of two such Puts in which both report success, and what is stored is the
    data of one of them only. *)
Theorem create_race :
  exists t i1 i2, rtc conc_step
    ([Put test_store (race_item "a"); Put test_store (race_item "b")], root_tree)
    ([Ret (i1, Ok tt); Ret (i2, Ok tt)], t) /\
  fst (run (Get test_store (foo "" Version.zero)) t)
    = Ok (MkItem (foo "" (Version.NewVersion 0)) "a").
Proof.
  set (i := foo "" (Version.NewVersion 0)).
  exists (snd race_end), i, i. split; [|vm_compute; reflexivity].
  replace [Ret (i, Ok tt); Ret (i, Ok tt)] with (fst race_end).
  - rewrite <- surjective_pairing. apply run_schedule_conc.
  - apply (outcomes_Ret _ [(i, Ok tt); (i, Ok tt)]). vm_compute. reflexivity.
Qed.

(** ** Witnesses: the properties at concrete stores, items and trees *)
Definition foo_put (data : string) : Item := MkItem (foo "" Version.zero) data.
Definition foo_segs_v2 : list string := (foo_segs ++ ["v2"])%list.
(** Every call carried out, the third one answered with a session error. *)
Definition flaky_world : list (option bool) * tree := ([None; None; Some true], root_tree).

Lemma foo_put_valid : Item_Validate (foo_put "d") = Ok tt.
Proof. vm_compute. reflexivity. Qed.

Lemma foo_tree_children : good_children foo_tree foo_segs.
Proof. apply (bool_decide_unpack _). vm_compute. exact I. Qed.
Lemma foo_tree_leaves v :
  v ∈ children foo_tree foo_segs -> children foo_tree (foo_segs ++ [v])%list = [].
Proof.
  revert v. apply Forall_forall, (bool_decide_unpack _). vm_compute. exact I.
Qed.



Lemma Put_refines_spec_witness :
  let '(out, t) := run (Put test_store (foo_put "d")) foo_tree in
  out = put_outcome (foo_put "d") (fst (put_spec (foo_put "d") foo_segs foo_tree)) /\
  t = snd (put_spec (foo_put "d") foo_segs foo_tree).
Proof.
  exact (Put_refines_spec (W:=tree) (H:=ref_service) test_store (foo_put "d") foo_segs foo_tree
    (foo_at _) foo_put_valid foo_tree_wf).
Defined.

Lemma Put_safe_when_lossy_witness :
  let '(out, w') := run (Put test_store (foo_put "d")) flaky_world in
  ((out = put_outcome (foo_put "d") (fst (put_spec (foo_put "d") foo_segs root_tree)) /\
    snd w' = snd (put_spec (foo_put "d") foo_segs root_tree)) \/
   (exists e, out = (foo "" Version.zero, Fail e) /\ session_error e)) /\
  (forall q, ~ q `prefix_of` foo_segs -> snd w' !! q = root_tree !! q) /\ tree_wf (snd w').
Proof.
  exact (Put_safe_when_lossy (H:=flaky_service) test_store (foo_put "d") foo_segs flaky_world
    (foo_at _) foo_put_valid root_tree_wf).
Defined.

Lemma Put_Get_roundtrip_witness :
  fst (run (Get test_store (foo "" (Version.NewVersion 7)))
    (snd (run (Put test_store (foo_put "d")) foo_tree)))
  = Ok (MkItem (foo "" (Version.NewVersion 4)) "d").
Proof.
  refine (Put_Get_roundtrip (W:=tree) (H:=ref_service) test_store test_store_ok (foo_put "d") (foo "" (Version.NewVersion 7))
    (foo "" (Version.NewVersion 4)) foo_segs foo_tree _ (foo_at _) foo_tree_wf _ _ _).
  - done.
  - apply Ident_Validate_ok. vm_compute. reflexivity.
  - etrans; [apply surjective_pairing|]. f_equal.
Defined.

Lemma identPath_injective_witness :
  identPath test_store (mk "/widgets" "foo" "" Version.zero) = Ok "/storage/widgets/buckets/0/foo"
  <-> same_item (foo "" Version.zero) (mk "/widgets" "foo" "" Version.zero).
Proof.
  apply (identPath_injective test_store test_store_ok (foo "" Version.zero)
    (mk "/widgets" "foo" "" Version.zero) "/storage/widgets/buckets/0/foo").
  - apply Ident_Validate_ok. vm_compute. reflexivity.
  - apply Ident_Validate_ok. vm_compute. reflexivity.
  - vm_compute. reflexivity.
Defined.

Definition bar : Ident := mk "widgets" "bar" "" Version.zero.
Definition bar_segs : list string := ["storage"; "widgets"; "buckets"; "0"; "bar"].
Lemma bar_at : ident_at test_store bar bar_segs.
Proof. solve_ident_at. Qed.
Lemma Put_isolated_witness :
  snd (snd (run (Put test_store (foo_put "d")) flaky_world)) !! bar_segs = None.
Proof.
  refine (Put_isolated (H:=flaky_service) test_store test_store_ok (foo_put "d") bar foo_segs bar_segs flaky_world
    (foo_at _) bar_at _ _ _ _).
  - apply (bool_decide_unpack _). vm_compute. exact I.
  - apply (bool_decide_unpack _). vm_compute. exact I.
  - intros (_ & Hn & _). discriminate Hn.
  - intros ((_ & Hn) & _). discriminate Hn.
Defined.

Lemma Delete_refines_spec_witness :
  let '(out, t) := run (Delete test_store (foo "" Version.zero)) foo_tree in
  out = fst (delete_item_spec foo_segs (-1) foo_tree) /\
  t = snd (delete_item_spec foo_segs (-1) foo_tree).
Proof.
  exact (Delete_refines_spec (W:=tree) (H:=ref_service) test_store test_store_ok (foo "" Version.zero) foo_segs foo_tree
    (foo_at _) foo_tree_wf foo_tree_children foo_tree_leaves).
Defined.

Lemma Delete_stale_version_removes_variants_witness :
  children foo_tree foo_segs = ["v2"] /\
  let '(out, t) := run (Delete test_store (foo "" (Version.NewVersion 1))) foo_tree in
  out = Fail ErrVersionConflict /\ t !! foo_segs = Some (Znode "d" 3) /\ children t foo_segs = [].
Proof.
  split; [vm_compute; reflexivity|].
  refine (Delete_stale_version_removes_variants (W:=tree) (H:=ref_service) test_store test_store_ok
    (foo "" (Version.NewVersion 1)) foo_segs (Znode "d" 3) foo_tree
    (foo_at _) eq_refl foo_tree_wf foo_tree_children foo_tree_leaves _ _);
    vm_compute; reflexivity.
Defined.

Lemma List_exact_witness :
  let '((locs, err), t) := run (List_ test_store "widgets") foo_tree in
  t = foo_tree /\
  match foo_tree !! ["storage"; "widgets"; "buckets"] with
  | None => locs = [] /\ err = Fail ErrNotFound
  | Some _ => Permutation locs
      (list_spec "widgets" ["storage"; "widgets"; "buckets"] foo_tree) /\ err = Ok tt
  end.
Proof.
  apply (List_exact (W:=tree) (H:=ref_service) test_store test_store_ok "widgets" foo_tree).
  - apply ValidateCategory_ok. vm_compute. reflexivity.
  - done.
  - apply (bool_decide_unpack _). vm_compute. exact I.
  - apply Forall_forall, (bool_decide_unpack _). vm_compute. exact I.
Defined.

Definition foo_v2_put : Item := MkItem (foo "v2" (Version.NewVersion 42)) "data".
Lemma refused_Put_creates_item_witness :
  let '(out, t) := run (Put test_store foo_v2_put) root_tree in
  out = (ident foo_v2_put, Fail ErrVersionConflict) /\
  fst (run (Get test_store (foo "" Version.zero)) t)
    = Ok (MkItem (foo "" (Version.NewVersion 0)) "data").
Proof.
  refine (refused_Put_creates_item (W:=tree) (H:=ref_service) test_store foo_v2_put
    (foo "" Version.zero) foo_segs root_tree (foo_v2_at _) (foo_at _) _ _ root_tree_wf _ _).
  - discriminate.
  - vm_compute. reflexivity.
  - vm_compute. reflexivity.
  - vm_compute. discriminate.
Defined.

(** Two clients put foo at version 3; the first to call wins, the other cannot. *)
Definition cas_put (data : string) : Item := MkItem (foo "" (Version.NewVersion 3)) data.
Definition two_clients (j : nat) : option Item := [cas_put "x"; cas_put "y"] !! j.
Definition cas_end : conc_state tree (Ident * res error unit) :=
  run_schedule [1; 0] (map (Put test_store) [cas_put "x"; cas_put "y"], foo_tree).
Lemma cas_put_ok data : Item_Validate (cas_put data) = Ok tt -> cas_item test_store foo_segs 3 (cas_put data).
Proof. intros Hv. split; [apply foo_at|]. by split. Qed.
Lemma cas_run :
  map outcome (fst cas_end) = map Some
    [(foo "" (Version.NewVersion 3), Fail ErrVersionConflict);
     (foo "" (Version.NewVersion 4), Ok tt)].
Proof. vm_compute. reflexivity. Qed.
Lemma cas_winner : fst cas_end !! 1 = Some (Ret (foo "" (Version.NewVersion 4), Ok tt)).
Proof.
  pose proof (outcomes_Ret (fst cas_end) _ cas_run) as Hr. by rewrite Hr.
Qed.
Lemma Put_at_version_exclusive_witness :
  fst cas_end !! 1 = Some (Ret (foo "" (Version.NewVersion 4), Ok tt)) /\
  ~ exists i, fst cas_end !! 0 = Some (Ret (i, Ok tt)).
Proof.
  split; [exact cas_winner|]. intros [i Hi].
  assert (0 = 1) as Heq; [|discriminate Heq].
  refine (Put_at_version_exclusive (W:=tree) (H:=ref_service) test_store foo_segs 3 two_clients
    (map (Put test_store) [cas_put "x"; cas_put "y"]) (fst cas_end) foo_tree (snd cas_end)
    (Znode "d" 3) _ _ _ _ _ 0 1 i _ _ _ Hi cas_winner).
  - lia.
  - intros [|[|j]] item [= <-]; apply cas_put_ok; vm_compute; reflexivity.
  - intros j p (item & Hj & ->)%map_lookup_Some. unfold two_clients. by rewrite Hj.
  - vm_compute. reflexivity.
  - rewrite <- surjective_pairing. apply run_schedule_conc.
  - by eexists.
  - by eexists.
Defined.

(** Two clients create foo and its ancestors, interleaved. *)
Definition race_items : list Item := [foo_put "a"; MkItem (foo "v2" Version.zero) "b"].
Definition both_end : conc_state tree (Ident * res error unit) :=
  run_schedule (replicate 6 0 ++ replicate 9 1 ++ replicate 20 0 ++ replicate 20 1)
    (map (Put test_store) race_items, root_tree).
Lemma both_run : map outcome (fst both_end) =
  map Some [(foo "" (Version.NewVersion 0), Ok tt); (foo "v2" (Version.NewVersion 0), Ok tt)].
Proof. vm_compute. reflexivity. Qed.
Lemma both_first : fst both_end !! 0 = Some (Ret (foo "" (Version.NewVersion 0), Ok tt)).
Proof. pose proof (outcomes_Ret (fst both_end) _ both_run) as Hr. by rewrite Hr. Qed.
Lemma concurrent_Puts_effects_witness :
  exists l, ident_at test_store (ident (foo_put "a")) l /\ is_Some (zk_view (snd both_end) !! l).
Proof.
  pose proof (concurrent_Puts_effects (W:=tree) (H:=ref_service) test_store race_items
    (fst both_end) root_tree (snd both_end)) as Hw.
  destruct Hw as (_ & _ & Hw).
  - constructor; [|constructor; [|constructor]]; (split; [vm_compute; reflexivity|]); eexists;
      [apply foo_at|apply foo_v2_at].
  - apply root_tree_wf.
  - rewrite <- surjective_pairing. apply run_schedule_conc.
  - exact (Hw 0 (foo_put "a") (foo "" (Version.NewVersion 0)) (Ok tt) eq_refl both_first).
Defined.

(** The item x of category "foo/buckets/0/bar" makes an item bar of category foo appear. *)
Definition inner : Item := MkItem (mk "foo/buckets/0/bar" "x" "" Version.zero) "data".
Definition phantom_bar : Ident := mk "foo" "bar" "" Version.zero.
Definition phantom_segs : list string := ["storage"; "foo"; "buckets"; "0"; "bar"].
Definition inner_tree : tree := snd (run (Put test_store inner) root_tree).
Lemma inner_at : ident_at test_store (ident inner) (phantom_segs ++ ["buckets"; "0"; "x"])%list.
Proof. solve_ident_at. Qed.
Lemma phantom_at : ident_at test_store phantom_bar phantom_segs.
Proof. solve_ident_at. Qed.
Lemma nested_category_phantom_item_witness :
  fst (run (Get test_store phantom_bar) inner_tree)
    = Ok (MkItem (set_version phantom_bar (Version.NewVersion 0)) "") /\
  let '((locs, err), _) := run (List_ test_store "foo") inner_tree in
  err = Ok tt /\ MkLocation "foo" "bar" ∈ locs.
Proof.
  destruct (nested_category_phantom_item (W:=tree) (H:=ref_service) test_store test_store_ok inner
    phantom_bar (set_version (ident inner) (Version.NewVersion 0)) 0 [] _ phantom_segs root_tree inner_tree
    inner_at phantom_at) as [Hget Hlist]; try (vm_compute; reflexivity).
  - apply root_tree_wf.
  - split; [exact Hget|]. apply Hlist.
    + apply (bool_decide_unpack _). vm_compute. exact I.
    + apply Forall_forall, (bool_decide_unpack _). vm_compute. exact I.
Defined.

Definition witness_opts : list StoreOpt :=
  [OptNumHashBuckets 16; OptBasePath "/storage"; OptNumHashBuckets 4; None].
Lemma NewStore_wf_witness :
  exists s, NewStore (Ok tt) witness_opts = Ok (tt, s) /\ hashBuckets s = 4%Z /\
  @Ok error _ tt = Ok tt /\ store_wf s /\
  forall name b, store_bucketFunc s name = Ok b -> (0 <= b < hashBuckets s)%Z.
Proof.
  eexists. split; [reflexivity|]. split; [reflexivity|].
  eapply (NewStore_wf (Ok tt) witness_opts); [|reflexivity].
  repeat constructor; done.
Defined.

Lemma bucketFunc_total_witness :
  exists y, (HashProvider (Some md5_New) ≫= fun f => Some (f "foo")) = Some (Ok y) /\
    (0 <= y < 2 ^ 56)%Z /\ bucketFunc 256 (HashProvider (Some md5_New)) "foo" = Ok (y mod 256)%Z.
Proof.
  apply (bucketFunc_total md5_New 256 "foo" md5_New_ok). unfold int_positive, int64_max. lia.
Defined.

Definition bad_item : Item := MkItem (mk "widgets" "" "" Version.zero) "d".
Lemma invalid_input_makes_no_call_witness :
  exists e, run (Put test_store bad_item) flaky_world = ((ident bad_item, Fail e), flaky_world) /\
  run (Get test_store (ident bad_item)) flaky_world = (Fail e, flaky_world).
Proof.
  pose proof (invalid_input_makes_no_call (H:=flaky_service) test_store bad_item
    (match Item_Validate bad_item with Fail e => e | Ok _ => errorsNew "" end) flaky_world) as [H1 H2].
  eexists. split; [apply H1|apply H2]; vm_compute; reflexivity.
Defined.
