(* ===== verification/GoNet.v ===== *)
(** * The part of [net] the packages use: IP addresses, [net.ParseIP] (of Go 1.11: leading
    zeros are allowed, zones are not) and [IP.Equal]. *)
From S2P Require Import Prelude.
From S2P Require Import GoStrings.

Local Open Scope string_scope.

(** [net.IP]: four or sixteen bytes; nil is [[]]. *)
Definition IP : Type := list Z.
Definition IPv4 (a b c d : Z) : IP := [0; 0; 0; 0; 0; 0; 0; 0; 0; 0; 255; 255; a; b; c; d]%Z.

(** [dtoi]: the decimal digits at the start, their number and what follows; at 0xFFFFFF it
    gives up. *)
Definition big : Z := 0xFFFFFF.
Fixpoint dtoi_loop (n : Z) (any : bool) (s : string) : option (Z * string) :=
  match s with
  | String c s' =>
      match digit_val c with
      | Some d =>
          let n := (n * 10 + d)%Z in
          if (big <=? n)%Z then None else dtoi_loop n true s'
      | None => if any then Some (n, s) else None
      end
  | EmptyString => if any then Some (n, s) else None
  end.
Definition dtoi (s : string) : option (Z * string) := dtoi_loop 0 false s.

(** [xtoi]: the same for hexadecimal digits. *)
Definition hex_val (c : ascii) : option Z :=
  match digit_val c with
  | Some d => Some d
  | None =>
      let n := Z.of_N (N_of_ascii c) in
      if (97 <=? n)%Z && (n <=? 102)%Z then Some (n - 87)%Z
      else if (65 <=? n)%Z && (n <=? 70)%Z then Some (n - 55)%Z else None
  end.
Fixpoint xtoi_loop (n : Z) (any : bool) (s : string) : option (Z * string) :=
  match s with
  | String c s' =>
      match hex_val c with
      | Some d =>
          let n := (n * 16 + d)%Z in
          if (big <=? n)%Z then None else xtoi_loop n true s'
      | None => if any then Some (n, s) else None
      end
  | EmptyString => if any then Some (n, s) else None
  end.
Definition xtoi (s : string) : option (Z * string) := xtoi_loop 0 false s.

(** [parseIPv4]: [k] octets still to read, the first of all without a dot before it. *)
Fixpoint parse_octets (k : nat) (first : bool) (s : string) : option (list Z) :=
  match k with
  | O => match s with EmptyString => Some [] | _ => None end
  | S k =>
      s ← (if first then Some s else match s with String "." s => Some s | _ => None end);
      '(n, s) ← dtoi s;
      if (255 <? n)%Z then None
      else rest ← parse_octets k false s; Some (n :: rest)
  end.
Definition parseIPv4 (s : string) : option IP :=
  match parse_octets 4 true s with
  | Some [a; b; c; d] => Some (IPv4 a b c d)
  | _ => None
  end.

(** The loop of [parseIPv6]: [acc] the bytes read, [ell] the position of the ellipsis. It
    ends with the bytes, the ellipsis and what is left of the string. *)
Fixpoint parse_groups (k : nat) (acc : list Z) (ell : option nat) (s : string)
    : option (list Z * option nat * string) :=
  match k with
  | O => Some (acc, ell, s)
  | S k =>
      let i := length acc in
      '(n, s') ← xtoi s;
      if (0xFFFF <? n)%Z then None
      else match s' with
           | String "." _ =>
               if (match ell with None => negb (i =? 12)%nat | Some _ => false end) || (16 <? i + 4)%nat
               then None
               else match parse_octets 4 true s with
                    | Some l => Some ((acc ++ l)%list, ell, "")
                    | None => None
                    end
           | EmptyString => Some ((acc ++ [n / 256; n mod 256])%Z%list, ell, "")
           | String ":" (String c s2) =>
               let acc := (acc ++ [n / 256; n mod 256])%Z%list in
               if bool_decide (c = ":"%char) then
                 match ell with
                 | Some _ => None
                 | None =>
                     match s2 with
                     | EmptyString => Some (acc, Some (length acc), "")
                     | _ => parse_groups k acc (Some (length acc)) s2
                     end
                 end
               else parse_groups k acc ell (String c s2)
           | _ => None
           end
  end.
Definition parseIPv6 (s : string) : option IP :=
  let '(ell, s) := match s with
                   | String ":" (String ":" s) => (Some 0%nat, s)
                   | _ => (None, s)
                   end in
  match ell, s with
  | Some _, EmptyString => Some (replicate 16 0%Z)
  | _, _ =>
      '(acc, ell, s) ← parse_groups 8 [] ell s;
      if negb (bool_decide (s = "")) then None
      else if (length acc <? 16)%nat then
        match ell with
        | None => None
        | Some e => Some (take e acc ++ replicate (16 - length acc) 0%Z ++ drop e acc)%list
        end
      else match ell with None => Some acc | Some _ => None end
  end.
(** [net.ParseIP]: the first dot or colon decides. *)
Fixpoint first_mark (s : string) : option bool :=
  match s with
  | EmptyString => None
  | String c s => if bool_decide (c = "."%char) then Some true
                  else if bool_decide (c = ":"%char) then Some false else first_mark s
  end.
Definition ParseIP (s : string) : option IP :=
  match first_mark s with
  | Some true => parseIPv4 s
  | Some false => parseIPv6 s
  | None => None
  end.

(** [IP.Equal]: an IPv4 address and its sixteen-byte form are equal. *)
Definition v4InV6Prefix : list Z := [0; 0; 0; 0; 0; 0; 0; 0; 0; 0; 255; 255]%Z.
Definition IP_Equal (ip x : IP) : bool :=
  if (length ip =? length x)%nat then bool_decide (ip = x)
  else if (length ip =? 4)%nat && (length x =? 16)%nat then bool_decide ((v4InV6Prefix ++ ip)%list = x)
  else if (length ip =? 16)%nat && (length x =? 4)%nat then bool_decide (ip = (v4InV6Prefix ++ x)%list)
  else false.

Example ParseIP_ex :
  map ParseIP ["10.0.0.1"; "010.00.0.1"; "256.0.0.1"; "1.2.3"; "1.2.3.4.5"; "x"; "::1"; "fe80::1";
               "1:2:3:4:5:6:7:8"; "::ffff:1.2.3.4"; "1::2::3"; "1:2:3:4:5:6:7::8"; "::"; "12345::"]
  = [Some (IPv4 10 0 0 1); Some (IPv4 10 0 0 1); None; None; None; None;
     Some [0; 0; 0; 0; 0; 0; 0; 0; 0; 0; 0; 0; 0; 0; 0; 1];
     Some [254; 128; 0; 0; 0; 0; 0; 0; 0; 0; 0; 0; 0; 0; 0; 1];
     Some [0; 1; 0; 2; 0; 3; 0; 4; 0; 5; 0; 6; 0; 7; 0; 8];
     Some (IPv4 1 2 3 4); None; None; Some (replicate 16 0); None]%Z.
Proof. vm_compute. reflexivity. Qed.

(** ** Round trip *)
Definition no_digit_start (s : string) : Prop :=
  match s with EmptyString => True | String c _ => digit_val c = None end.
Lemma digits_acc_ge n ds m : (0 <= n)%Z -> digits_acc n ds = Some m -> (n <= m)%Z.
Proof.
  revert n. induction ds as [|c ds IH]; intros n Hn; simpl; [intros [= <-]; lia|].
  unfold digit_val. case_match; simpl; [|done]. rewrite andb_true_iff, !Z.leb_le in *.
  intros Hm%IH; lia.
Qed.
Lemma dtoi_loop_app n any ds rest m :
  (0 <= n)%Z -> digits_acc n ds = Some m -> (m < big)%Z -> (any = true \/ ds <> "") ->
  no_digit_start rest -> dtoi_loop n any (ds ++ rest) = Some (m, rest).
Proof.
  revert n any. induction ds as [|c ds IH]; intros n any Hn Hd Hm Hany Hrest.
  - injection Hd as ->. destruct Hany as [->|]; [|done]. rewrite string_app_nil_l.
    destruct rest as [|c rest]; [done|]. simpl in *. by rewrite Hrest.
  - rewrite string_app_cons. simpl in *. destruct (digit_val c) as [d|] eqn:Hc; [|done]. simpl in Hd.
    assert (0 <= d)%Z as Hd0.
    { unfold digit_val in Hc. case_match; [|done]. rewrite andb_true_iff, !Z.leb_le in *. simplify_eq. lia. }
    pose proof (digits_acc_ge _ _ _ (ltac:(lia) : (0 <= n * 10 + d)%Z) Hd).
    destruct (Z.leb_spec big (n * 10 + d)); [lia|]. apply IH; auto with lia.
Qed.
Lemma dtoi_Itoa a rest :
  (0 <= a < big)%Z -> no_digit_start rest -> dtoi (Itoa a ++ rest) = Some (a, rest).
Proof.
  intros Ha Hr. pose proof (digits_padded 0 (Z.to_N a)) as Hd. simpl in Hd.
  rewrite string_app_nil_l, Z2N.id in Hd by lia.
  destruct (Itoa_nonneg a) as [_ Hne]; [lia|]. unfold dtoi.
  apply (dtoi_loop_app 0 false (Itoa a)); [lia| |lia|by right|done].
  unfold digits in Hd. by destruct (Itoa a).
Qed.
Definition dotted (a b c d : Z) : string :=
  Itoa a ++ "." ++ Itoa b ++ "." ++ Itoa c ++ "." ++ Itoa d.
Definition octet (a : Z) : Prop := (0 <= a < 256)%Z.
Lemma parse_octet k first a rest :
  octet a -> no_digit_start rest ->
  parse_octets (S k) first ((if first : bool then "" else ".") ++ Itoa a ++ rest) =
    (l ← parse_octets k false rest; Some (a :: l)).
Proof.
  intros Ha Hr. cbn [parse_octets]. assert ((s ← (if first then Some ((if first : bool then "" else ".") ++ Itoa a ++ rest)
    else match (if first : bool then "" else ".") ++ Itoa a ++ rest with String "." s => Some s | _ => None end);
    dtoi s) = Some (a, rest)) as Hd.
  { unfold octet in Ha. destruct first; [rewrite string_app_nil_l|]; simpl; apply dtoi_Itoa; unfold big; (lia || done). }
  destruct first; simpl in *; rewrite Hd; simpl; destruct (Z.ltb_spec 255 a); (done || unfold octet in *; lia).
Qed.
Lemma first_mark_digits ds s : all_bytes is_digit ds = true -> first_mark (ds ++ String "." s) = Some true.
Proof.
  induction ds as [|c ds IH]; [done|]. intros [Hc Hd]%andb_true_iff.
  rewrite string_app_cons. cbn [first_mark].
  rewrite bool_decide_eq_false_2 by (intros ->; by vm_compute in Hc).
  rewrite bool_decide_eq_false_2 by (intros ->; by vm_compute in Hc). by apply IH.
Qed.
Lemma ParseIP_dotted a b c d :
  octet a -> octet b -> octet c -> octet d -> ParseIP (dotted a b c d) = Some (IPv4 a b c d).
Proof.
  intros Ha Hb Hc Hd. unfold ParseIP. unfold dotted at 1.
  change ("." ++ Itoa b ++ "." ++ Itoa c ++ "." ++ Itoa d)
    with (String "." (Itoa b ++ "." ++ Itoa c ++ "." ++ Itoa d)).
  rewrite first_mark_digits by (apply Itoa_nonneg; unfold octet in *; lia).
  unfold parseIPv4, dotted.
  pose proof (parse_octet 3 true a ("." ++ Itoa b ++ "." ++ Itoa c ++ "." ++ Itoa d) Ha) as E1.
  pose proof (parse_octet 2 false b ("." ++ Itoa c ++ "." ++ Itoa d) Hb) as E2.
  pose proof (parse_octet 1 false c ("." ++ Itoa d) Hc) as E3.
  pose proof (parse_octet 0 false d "" Hd) as E4.
  rewrite string_app_nil_l in E1. rewrite string_app_nil_r in E4.
  rewrite E1, E2, E3, E4 by done. done.
Qed.

Lemma dotted_no_byte x a b c d :
  is_digit x = false -> x <> "."%char -> octet a -> octet b -> octet c -> octet d ->
  no_byte x (dotted a b c d) = true.
Proof.
  intros Hx Hdot Ha Hb Hc Hd. assert (forall z, octet z -> no_byte x (Itoa z) = true) as Hz.
  { intros z Hz. unfold no_byte. destruct (Itoa_nonneg z) as [Hi _]; [unfold octet in *; lia|].
    eapply all_bytes_impl; [|exact Hi]. intros y Hy. apply negb_true_iff, bool_decide_eq_false_2.
    congruence. }
  unfold no_byte in *. unfold dotted. rewrite !all_bytes_app, !Hz by done. simpl.
  by rewrite bool_decide_eq_false_2.
Qed.
