(* ===== verification/DcosConstants.v ===== *)
(** * dcos: the constants of a DC/OS node (dcos/constants.go, dns_records.go, ports.go) *)
From S2P Require Import Prelude.

Local Open Scope string_scope.

Definition RoleMaster : string := "master".
Definition RoleAgent : string := "agent".
Definition RoleAgentPublic : string := "agent_public".
(** The argument says whether [runtime.GOOS] is "windows". *)
Definition GetFileDetectIPLocation (windows : bool) : string :=
  if windows then "/opt/mesosphere/bin/detect_ip.ps1" else "/opt/mesosphere/bin/detect_ip".

Definition DNSRecordLeader : string := "leader.mesos".
Definition DNSRecordMarathonLeader : string := "marathon.mesos".
Definition DNSRecordMasters : string := "master.mesos".

Definition PortAdminrouterHTTP : Z := 80.
Definition PortExhibitor : Z := 8181.
Definition PortHistoryService : Z := 15055.
Definition PortMarathonHTTP : Z := 8080.
Definition PortMesosAgent : Z := 5051.
Definition PortMesosDNS : Z := 8123.
Definition PortMesosMaster : Z := 5050.
Definition PortMetronomeHTTP : Z := 9090.
