(* ===== verification/NodeUtil.v ===== *)
(** * dcos/nodeutil: facts about the node and the Mesos state (util.go, mesos.go,
    options.go, helper.go), as functions of the object's state and of what the system, the
    network and the Mesos master answer. *)
From S2P Require Import Prelude.
From S2P Require Import GoStrings.
From S2P Require Import GoErrors.
From S2P Require Import GoRegexp.
From S2P Require Import GoNet.
From S2P Require Import DcosConstants.

Local Open Scope string_scope.

(** ** mesos.go: the Mesos state *)
Inductive NestedValue : Type := MkNested { Value : string; Parent : option NestedValue }.
Record Status : Type := MkStatus { ContainerID : NestedValue }.
Record Task : Type := MkTask {
  task_ID : string; task_Name : string; FrameworkID : string; ExecutorID : string;
  SlaveID : string; TaskState : string; TaskRole : string; Statuses : list Status;
}.
Record Framework : Type := MkFramework {
  fw_ID : string; fw_Name : string; PID : string; fw_Role : string;
  Tasks : list Task; CompletedTasks : list Task;
}.
Record Slave : Type := MkSlave { slave_ID : string; Hostname : string; Port : Z; Pid : string }.
Record State : Type := MkState {
  state_ID : string; Slaves : list Slave;
  Frameworks : list Framework; CompletedFrameworks : list Framework;
}.
Record CanonicalTaskID : Type := MkCanonical {
  can_ID : string; AgentID : string; can_FrameworkID : string; can_ExecutorID : string;
  ContainerIDs_ : list string;
}.

(** The errors. [ErrNotInState] is the [ErrNodeInfo] whose message prints the local address
    and the whole state; [ErrManyTasks] the error that prints the ids found. *)
Inductive node_error : Type :=
| ErrNodeInfo (msg : string)
| ErrNotInState (localIP : IP) (state : State)
| ErrManyTasks (task : string) (taskIDs : list string)
| ErrTaskNotFound
| ErrContainerIDNotFound
| ErrEmptyParam
| ErrOther (e : error).

(** The parent chain of a container. *)
Fixpoint parents (p : option NestedValue) : list string :=
  match p with
  | None => []
  | Some v => Value v :: (fix up v := match Parent v with
                                      | None => []
                                      | Some p => Value p :: up p
                                      end) v
  end.
(** [Task.ContainerIDs]: the loop over the statuses, then the check for none. *)
Fixpoint ContainerIDs_loop (statuses : list Status) (containerIDs : list string)
    : res node_error (list string) :=
  match statuses with
  | [] => Ok containerIDs
  | status :: statuses =>
      let containerID := Value (ContainerID status) in
      if bool_decide (containerID = "") then Fail ErrContainerIDNotFound
      else ContainerIDs_loop statuses
             (containerIDs ++ [containerID] ++ parents (Parent (ContainerID status)))
  end.
Definition ContainerIDs (t : Task) : res node_error (list string) :=
  match ContainerIDs_loop (Statuses t) [] with
  | Fail err => Fail err
  | Ok [] => Fail ErrContainerIDNotFound
  | Ok containerIDs => Ok containerIDs
  end.

(** ** helper.go *)
Definition uuid_byte (c : ascii) : bool :=
  is_digit c || (let n := N_of_ascii c in (97 <=? n)%N && (n <=? 102)%N).
Definition uuid_variant (c : ascii) : bool :=
  bool_decide (c ∈ ["8"; "|"; "9"; "a"; "A"; "b"; "B"]%char).
Definition uuidRe : re :=
  Cat (Rep 8 (Cls uuid_byte)) (Cat (Lit "-") (Cat (Rep 4 (Cls uuid_byte)) (Cat (Word "-4")
  (Cat (Rep 3 (Cls uuid_byte)) (Cat (Lit "-") (Cat (Cls uuid_variant) (Cat (Rep 3 (Cls uuid_byte))
  (Cat (Lit "-") (Rep 12 (Cls uuid_byte)))))))))).
Definition validateUUID (text : string) : bool := search uuidRe text.

(** ** The environment: what the calls to the system and the network answer *)
Definition Header : Type := list (string * list string).
(** A context is nil or holds request headers or not. *)
Definition context : Type := option (option Header).
Record node_env : Type := MkNodeEnv {
  windows : bool;
  os_Stat : string -> option error;
  (** shell, script and timeout: the output, or the error of reading it or of the command *)
  run_script : string -> string -> Z -> res error string;
  LookupIP : string -> res error (list IP);
  ReadFile : string -> res error string;
  http_NewRequest : string -> option error;
  (** the response's status code, and the outcome of decoding its body *)
  client_Do : string -> option Header -> res error (Z * res error State);
}.

(** [HeaderFromContext] of a context that is not nil, and [NewContextWithHeaders]. *)
Definition HeaderFromContext (ctx : context) : res node_error (option Header) :=
  match ctx with
  | None => Fail (ErrOther (goPanic "Context cannot be nil"))
  | Some h => Ok h
  end.
Definition NewContextWithHeaders (ctx : context) (header : Header) : context := Some (Some header).

(** ** The object *)
Record dcosInfo : Type := MkInfo {
  cache : bool;
  cachedIP : option IP;
  cachedIsLeader : option bool;
  cachedMesosID : string;
  cachedClusterID : string;
  client : bool;  (* not nil *)
  detectIPLocation : string;
  detectIPTimeout : Z;
  role : string;
  mesosStateURL : string;
  dnsRecordLeader : string;
  clusterIDLocation : string;
}.
Definition set_cachedIP (ip : IP) (d : dcosInfo) : dcosInfo :=
  MkInfo (cache d) (Some ip) (cachedIsLeader d) (cachedMesosID d) (cachedClusterID d) (client d)
    (detectIPLocation d) (detectIPTimeout d) (role d) (mesosStateURL d) (dnsRecordLeader d) (clusterIDLocation d).
Definition set_cachedIsLeader (b : bool) (d : dcosInfo) : dcosInfo :=
  MkInfo (cache d) (cachedIP d) (Some b) (cachedMesosID d) (cachedClusterID d) (client d)
    (detectIPLocation d) (detectIPTimeout d) (role d) (mesosStateURL d) (dnsRecordLeader d) (clusterIDLocation d).
Definition set_cachedMesosID (i : string) (d : dcosInfo) : dcosInfo :=
  MkInfo (cache d) (cachedIP d) (cachedIsLeader d) i (cachedClusterID d) (client d)
    (detectIPLocation d) (detectIPTimeout d) (role d) (mesosStateURL d) (dnsRecordLeader d) (clusterIDLocation d).
Definition set_cachedClusterID (i : string) (d : dcosInfo) : dcosInfo :=
  MkInfo (cache d) (cachedIP d) (cachedIsLeader d) (cachedMesosID d) i (client d)
    (detectIPLocation d) (detectIPTimeout d) (role d) (mesosStateURL d) (dnsRecordLeader d) (clusterIDLocation d).
Definition with_config (loc : string) (timeout : Z) (url dns file : string) (c : bool) (d : dcosInfo) : dcosInfo :=
  MkInfo c (cachedIP d) (cachedIsLeader d) (cachedMesosID d) (cachedClusterID d) (client d)
    loc timeout (role d) url dns file.

(** ** options.go *)
Definition Option : Type := dcosInfo -> res node_error dcosInfo.
Definition OptionDetectIP (env : node_env) (path : string) : Option := fun d =>
  match os_Stat env path with
  | Some err => Fail (ErrOther err)
  | None => Ok (with_config path (detectIPTimeout d) (mesosStateURL d) (dnsRecordLeader d)
                  (clusterIDLocation d) (cache d) d)
  end.
Definition OptionDetectIPTimeout (timeout : Z) : Option := fun d =>
  if (timeout <=? 0)%Z then Fail ErrEmptyParam
  else Ok (with_config (detectIPLocation d) timeout (mesosStateURL d) (dnsRecordLeader d)
             (clusterIDLocation d) (cache d) d).
Definition OptionMesosStateURL (stateURL : string) : Option := fun d =>
  if bool_decide (stateURL = "") then Fail ErrEmptyParam
  else Ok (with_config (detectIPLocation d) (detectIPTimeout d) stateURL (dnsRecordLeader d)
             (clusterIDLocation d) (cache d) d).
Definition OptionNoCache : Option := fun d =>
  Ok (with_config (detectIPLocation d) (detectIPTimeout d) (mesosStateURL d) (dnsRecordLeader d)
        (clusterIDLocation d) false d).
Definition OptionLeaderDNSRecord (r : string) : Option := fun d =>
  if bool_decide (r = "") then Fail ErrEmptyParam
  else Ok (with_config (detectIPLocation d) (detectIPTimeout d) (mesosStateURL d) r
             (clusterIDLocation d) (cache d) d).
Definition OptionClusterIDFile (f : string) : Option := fun d =>
  if bool_decide (f = "") then Fail ErrEmptyParam
  else Ok (with_config (detectIPLocation d) (detectIPTimeout d) (mesosStateURL d) (dnsRecordLeader d)
             f (cache d) d).

(** ** [NewNodeInfo] *)
Definition defaultExecTimeout : Z := 10 * 1000000000.
Definition defaultClusterIDLocation : string := "/var/lib/dcos/cluster-id".
Definition defaultStateURL : string := "http://" ++ DNSRecordLeader ++ ":" ++ Itoa PortMesosMaster ++ "/state".
Fixpoint apply_options (options : list (option Option)) (d : dcosInfo) : res node_error dcosInfo :=
  match options with
  | [] => Ok d
  | None :: options => apply_options options d
  | Some opt :: options => d ← opt d; apply_options options d
  end.
Definition NewNodeInfo (env : node_env) (client : bool) (role : string) (options : list (option Option))
    : res node_error dcosInfo :=
  if negb client then Fail (ErrNodeInfo "Client paramter cannot be empty")
  else if negb (bool_decide (role ∈ [RoleMaster; RoleAgent; RoleAgentPublic]))
  then Fail (ErrNodeInfo ("Role paramter is invalid or empty. Got " ++ role))
  else apply_options options
         (MkInfo true None None "" "" client (GetFileDetectIPLocation (windows env)) defaultExecTimeout
            role defaultStateURL DNSRecordLeader defaultClusterIDLocation).

(** ** The methods: each takes the object and gives it back, errors included *)
Definition node (A : Type) : Type := node_env -> dcosInfo -> res node_error A * dcosInfo.
Definition ret {A} (a : A) : node A := fun env d => (Ok a, d).
Definition bind {A B} (m : node A) (f : A -> node B) : node B := fun env d =>
  match m env d with
  | (Fail err, d) => (Fail err, d)
  | (Ok a, d) => f a env d
  end.
Notation "'let*' x := m 'in' k" := (bind m (fun x => k))
  (at level 200, x strict pattern, m at level 200, k at level 200).
Definition fail {A} (err : node_error) : node A := fun env d => (Fail err, d).
Definition self : node dcosInfo := fun env d => (Ok d, d).
Definition ask {A} (f : node_env -> dcosInfo -> res error A) : node A := fun env d =>
  match f env d with Fail err => (Fail (ErrOther err), d) | Ok a => (Ok a, d) end.
(** [if d.cache { ... }] *)
Definition remember (f : dcosInfo -> dcosInfo) : node unit := fun env d =>
  (Ok tt, if cache d then f d else d).

Definition getDefaultShellPath (windows : bool) : string :=
  if windows then "powershell.exe" else "/bin/bash".

Definition detect : node IP :=
  let* _ := ask (fun env d => match os_Stat env (detectIPLocation d) with Some err => Fail err | None => Ok tt end) in
  let* buf := ask (fun env d => run_script env (getDefaultShellPath (windows env)) (detectIPLocation d) (detectIPTimeout d)) in
  fun env =>
    let detectedIP := TrimSpace buf in
    let command := "command " ++ GetFileDetectIPLocation (windows env) in
    (if bool_decide (detectedIP = "") then fail (ErrNodeInfo (command ++ " return empty output"))
     else match ParseIP detectedIP with
          | None => fail (ErrNodeInfo (command ++ " returned invalid IP address " ++ detectedIP))
          | Some validIP => let* _ := remember (set_cachedIP validIP) in ret validIP
          end) env.
Definition DetectIP : node IP :=
  let* d := self in
  match cachedIP d with
  | Some ip => if cache d then ret ip else detect
  | None => detect
  end.

Fixpoint find_leader (localIP : IP) (addrs : list IP) : bool :=
  match addrs with
  | [] => false
  | addr :: addrs => if IP_Equal localIP addr then true else find_leader localIP addrs
  end.
Definition lookup_leader (localIP : IP) : node bool :=
  let* d := self in
  if negb (bool_decide (role d = RoleMaster)) then ret false
  else
    let* addrs := ask (fun env d => LookupIP env (dnsRecordLeader d)) in
    if find_leader localIP addrs then let* _ := remember (set_cachedIsLeader true) in ret true
    else fail (ErrNodeInfo ("Error getting mesos leader. Number of ip addresses " ++
                            Itoa (Z.of_nat (length addrs)))).
Definition IsLeader : node bool :=
  let* localIP := DetectIP in
  let* d := self in
  match cachedIsLeader d with
  | Some b => if cache d then ret b else lookup_leader localIP
  | None => lookup_leader localIP
  end.

Definition state (ctx : context) : node State :=
  let* _ := ask (fun env d => match http_NewRequest env (mesosStateURL d) with Some err => Fail err | None => Ok tt end) in
  let header := match ctx with None => None | Some h => h end in
  let* (code, body) := ask (fun env d => client_Do env (mesosStateURL d) header) in
  let* d := self in
  if negb (code =? 200)%Z
  then fail (ErrNodeInfo ("GET request to " ++ mesosStateURL d ++ " returned response code " ++ Itoa code))
  else ask (fun _ _ => body).

Definition getIPFromPIDField (s : string) : res node_error IP :=
  let errMsg := "Expecting pid in the following format `slave(1)@ip-address:port`. Got " ++ s in
  match Split s "@" with
  | [_; s1] =>
      match Split s1 ":" with
      | [ip; _] =>
          match ParseIP ip with
          | None => Fail (ErrNodeInfo ("Incorrect IP in response " ++ ip))
          | Some validSlaveIP => Ok validSlaveIP
          end
      | _ => Fail (ErrNodeInfo errMsg)
      end
  | _ => Fail (ErrNodeInfo errMsg)
  end.
(** The loop of [MesosID] over the agents: the id of the first that runs here. *)
Fixpoint find_slave (localIP : IP) (slaves : list Slave) : res node_error (option string) :=
  match slaves with
  | [] => Ok None
  | slave :: slaves =>
      match getIPFromPIDField (Pid slave) with
      | Fail err => Fail err
      | Ok validSlaveIP =>
          if IP_Equal localIP validSlaveIP then Ok (Some (slave_ID slave)) else find_slave localIP slaves
      end
  end.
Definition fetch_MesosID (ctx : context) : node string :=
  let* localIP := DetectIP in
  let* st := state ctx in
  let* d := self in
  if bool_decide (role d = RoleMaster) then
    if bool_decide (state_ID st = "")
    then fail (ErrNodeInfo "Unable to retrieve mesos id for master node. ID field is empty")
    else let* _ := remember (set_cachedMesosID (state_ID st)) in ret (state_ID st)
  else
    match find_slave localIP (Slaves st) with
    | Fail err => fail err
    | Ok (Some id) => let* _ := remember (set_cachedMesosID id) in ret id
    | Ok None => fail (ErrNotInState localIP st)
    end.
Definition MesosID (ctx : context) : node string :=
  let* d := self in
  if negb (client d) then fail (ErrOther (goPanic "Unable to get mesos ID. Uninitialized http client"))
  else if bool_decide (mesosStateURL d = "")
  then fail (ErrOther (goPanic "Unable to get mesos ID. Uninitialized url"))
  else if cache d && negb (bool_decide (cachedMesosID d = "")) then ret (cachedMesosID d)
  else fetch_MesosID ctx.

Definition ClusterID : node string :=
  let* d := self in
  if cache d && negb (bool_decide (cachedClusterID d = "")) then ret (cachedClusterID d)
  else
    let* body := ask (fun env d => ReadFile env (clusterIDLocation d)) in
    let clusterID := TrimSpace body in
    if bool_decide (clusterID = "") then fail (ErrNodeInfo "Empty cluster ID")
    else if negb (validateUUID clusterID)
    then fail (ErrNodeInfo ("UUID validation failed. ClusterID: " ++ clusterID))
    else let* _ := remember (set_cachedClusterID clusterID) in ret clusterID.

Definition task_matches (name : string) (t : Task) : bool :=
  negb (negb (bool_decide (task_Name t = name)) && negb (Contains (task_ID t) name)).
Fixpoint findTask (name : string) (completed : bool) (frameworks : list Framework) : list Task :=
  match frameworks with
  | [] => []
  | framework :: frameworks =>
      let currentTasks := if completed then CompletedTasks framework else Tasks framework in
      (filter (fun t => task_matches name t = true) currentTasks ++ findTask name completed frameworks)%list
  end.
Definition TaskCanonicalID (ctx : context) (task : string) (completed : bool) : node CanonicalTaskID :=
  let* st := state ctx in
  let foundTasks := (findTask task completed (Frameworks st) ++
    (if completed then findTask task completed (CompletedFrameworks st) else []))%list in
  match foundTasks with
  | [] => fail ErrTaskNotFound
  | [t] =>
      match ContainerIDs t with
      | Fail err => fail err
      | Ok containerIDs =>
          ret (MkCanonical (task_ID t) (SlaveID t) (FrameworkID t) (ExecutorID t) containerIDs)
      end
  | _ => fail (ErrManyTasks task (map task_ID foundTasks))
  end.
