(* ===== verification/NodeUtilTheorems.v ===== *)
(** * dcos/nodeutil: the properties. *)
From S2P Require Import Prelude.
From S2P Require Import GoStrings.
From S2P Require Import GoErrors.
From S2P Require Import GoRegexp.
From S2P Require Import GoNet.
From S2P Require Import DcosConstants.
From S2P Require Import NodeUtil.

Local Open Scope string_scope.

Ltac node_unfold :=
  unfold bind, self, ask, remember, ret, fail in *; simpl in *.
Ltac node_cases :=
  repeat match goal with
  | H : context [match ?x with _ => _ end] |- _ => destruct x eqn:?; simplify_eq/=
  end.

(** ** What a method does to the object *)
Lemma detect_Ok env d ip d' :
  detect env d = (Ok ip, d') -> d' = (if cache d then set_cachedIP ip d else d).
Proof.
  unfold detect. node_unfold. intros H. node_cases; done.
Qed.
Lemma DetectIP_cached env d ip d' :
  DetectIP env d = (Ok ip, d') -> d' = (if cache d then set_cachedIP ip d else d).
Proof.
  unfold DetectIP, bind, self. destruct (cachedIP d) as [ip0|] eqn:Hip; [|apply detect_Ok].
  destruct (cache d) eqn:Hc.
  - intros [= <- <-]. unfold set_cachedIP. rewrite <- Hip. by destruct d.
  - intros H. apply detect_Ok in H. by rewrite Hc in H.
Qed.
Lemma DetectIP_again env d ip : cache d = true -> cachedIP d = Some ip -> DetectIP env d = (Ok ip, d).
Proof. intros Hc Hip. unfold DetectIP. node_unfold. by rewrite Hip, Hc. Qed.
Lemma DetectIP_config env d r d' : DetectIP env d = (r, d') ->
  cache d' = cache d /\ role d' = role d /\ cachedIsLeader d' = cachedIsLeader d /\
  cachedMesosID d' = cachedMesosID d /\ cachedClusterID d' = cachedClusterID d /\
  client d' = client d /\ mesosStateURL d' = mesosStateURL d.
Proof.
  unfold DetectIP, detect. node_unfold. intros H. node_cases; repeat case_match; done.
Qed.
Lemma state_same ctx env d r d' : state ctx env d = (r, d') -> d' = d.
Proof. unfold state. node_unfold. intros H. node_cases; done. Qed.

(** ** Helpers *)
Lemma find_slave_spec localIP slaves id :
  find_slave localIP slaves = Ok (Some id) <->
  exists pre s post ip, slaves = (pre ++ s :: post)%list /\ slave_ID s = id /\
    getIPFromPIDField (Pid s) = Ok ip /\ IP_Equal localIP ip = true /\
    Forall (fun x => exists ipx, getIPFromPIDField (Pid x) = Ok ipx /\ IP_Equal localIP ipx = false) pre.
Proof.
  split.
  - induction slaves as [|s slaves IH]; simpl; [done|].
    destruct (getIPFromPIDField (Pid s)) as [|ip] eqn:Hp; [done|].
    destruct (IP_Equal localIP ip) eqn:He.
    + intros [= <-]. exists [], s, slaves, ip. by repeat split.
    + intros (pre & s' & post & ip' & -> & Hid & Hp' & He' & Hpre)%IH.
      exists (s :: pre), s', post, ip'. split; [done|]. split; [done|]. split; [done|]. split; [done|].
      constructor; [by exists ip|done].
  - intros (pre & s & post & ip & -> & <- & Hp & He & Hpre).
    induction Hpre as [|x pre (ipx & Hx & Hex) _ IH]; simpl.
    + by rewrite Hp, He.
    + by rewrite Hx, Hex.
Qed.

(** The container ids of one status: the container, its parent, and so on. *)
Definition chain (s : Status) : list string := Value (ContainerID s) :: parents (Parent (ContainerID s)).
Lemma ContainerIDs_loop_Ok statuses acc ids :
  ContainerIDs_loop statuses acc = Ok ids <->
  Forall (fun s => Value (ContainerID s) <> "") statuses /\ ids = (acc ++ mjoin (map chain statuses))%list.
Proof.
  revert acc. induction statuses as [|s statuses IH]; intros acc; simpl.
  - rewrite app_nil_r. split; [intros [= ->]; done|by intros [_ ->]].
  - rewrite Forall_cons. case_bool_decide as Hs; [split; [done|by intros [[? _] _]]|].
    rewrite IH, <- !app_assoc. simpl. naive_solver.
Qed.
Lemma ContainerIDs_Ok t ids :
  ContainerIDs t = Ok ids <->
  Statuses t <> [] /\ Forall (fun s => Value (ContainerID s) <> "") (Statuses t) /\
  ids = mjoin (map chain (Statuses t)).
Proof.
  unfold ContainerIDs. destruct (ContainerIDs_loop (Statuses t) []) as [err|l] eqn:Hl.
  - split; [done|]. intros (_ & Hv & ->).
    assert (ContainerIDs_loop (Statuses t) [] = Ok (mjoin (map chain (Statuses t)))) as Ho
      by by apply ContainerIDs_loop_Ok. congruence.
  - apply ContainerIDs_loop_Ok in Hl as [Hv ->]. simpl. destruct (Statuses t) as [|s ss]; simpl.
    + split; [done|by intros [? _]].
    + split; [intros [= <-]; done|]. by intros (_ & _ & ->).
Qed.

Lemma Contains_spec s sub : Contains s sub = true <-> exists a b, s = a ++ sub ++ b.
Proof.
  assert (forall s, Contains s sub = HasPrefix s sub ||
    match s with EmptyString => false | String _ s => Contains s sub end) as Hc by by intros [].
  split.
  - induction s as [|c s IH]; rewrite Hc, orb_true_iff; intros [Hp|Hr]; try done.
    + apply HasPrefix_spec in Hp as [b ->]. by exists "", b.
    + apply HasPrefix_spec in Hp as [b Hb]. exists "", b. by rewrite string_app_nil_l.
    + apply IH in Hr as (a & b & ->). exists (String c a), b. by rewrite string_app_cons.
  - intros (a & b & ->). induction a as [|c a IH]; rewrite Hc.
    + rewrite string_app_nil_l, HasPrefix_app. done.
    + rewrite string_app_cons, IH. apply orb_true_r.
Qed.

(** The tasks the search looks at, in order. *)
Definition searched (completed : bool) (st : State) : list Task :=
  if completed
  then mjoin (map CompletedTasks (Frameworks st)) ++ mjoin (map CompletedTasks (CompletedFrameworks st))
  else mjoin (map Tasks (Frameworks st)).
Lemma findTask_filter name completed fws :
  findTask name completed fws =
  filter (fun t => task_matches name t = true)
    (mjoin (map (if completed then CompletedTasks else Tasks) fws)).
Proof.
  induction fws as [|f fws IH]; [done|]. simpl. rewrite filter_app, IH. by destruct completed.
Qed.
Lemma filter_single {A} (P : A -> Prop) `{forall x, Decision (P x)} (l : list A) x :
  filter P l = [x] <-> exists pre post, l = (pre ++ x :: post)%list /\ P x /\
    Forall (fun y => ~ P y) pre /\ Forall (fun y => ~ P y) post.
Proof.
  split.
  - induction l as [|y l IH]; [done|]. destruct (decide (P y)) as [Hy|Hy].
    + rewrite filter_cons_True by done. intros [= -> Hl]. exists [], l. split; [done|]. split; [done|].
      split; [done|]. apply Forall_forall. intros z Hz HPz.
      assert (z ∈ filter P l) as Hin by by apply list_elem_of_filter. rewrite Hl in Hin.
      by apply elem_of_nil in Hin.
    + rewrite filter_cons_False by done. intros (pre & post & -> & Hx & Hpre & Hpost)%IH.
      exists (y :: pre), post. split; [done|]. split; [done|]. split; [by constructor|done].
  - assert (forall k, Forall (fun y => ~ P y) k -> filter P k = []) as Hnil.
    { intros k Hk. induction Hk; [done|]. by rewrite filter_cons_False. }
    intros (pre & post & -> & Hx & Hpre & Hpost).
    by rewrite filter_app, filter_cons_True, (Hnil pre), (Hnil post).
Qed.

(** The task has the name, or an id that contains it. *)
Definition named (name : string) (t : Task) : Prop :=
  task_Name t = name \/ exists a b, task_ID t = a ++ name ++ b.
Lemma task_matches_named name t : task_matches name t = true <-> named name t.
Proof.
  unfold task_matches, named. rewrite <- Contains_spec.
  by rewrite negb_true_iff, andb_false_iff, !negb_false_iff, bool_decide_eq_true.
Qed.
Lemma found_searched name completed st :
  (findTask name completed (Frameworks st) ++
    (if completed then findTask name completed (CompletedFrameworks st) else []))%list =
  filter (fun t => task_matches name t = true) (searched completed st).
Proof.
  unfold searched. destruct completed; by rewrite !findTask_filter, ?filter_app, ?app_nil_r.
Qed.
Lemma found_single name l t :
  filter (fun t => task_matches name t = true) l = [t] <->
  exists pre post, l = (pre ++ t :: post)%list /\ named name t /\
    Forall (fun x => ~ named name x) pre /\ Forall (fun x => ~ named name x) post.
Proof.
  rewrite filter_single. setoid_rewrite task_matches_named. done.
Qed.

(** The answers that are kept. *)
Lemma lookup_leader_Ok localIP env d b d' :
  cache d = true -> lookup_leader localIP env d = (Ok b, d') ->
  (b = true /\ d' = set_cachedIsLeader true d) \/
  (b = false /\ d' = d /\ bool_decide (role d = RoleMaster) = false).
Proof.
  intros Hc. unfold lookup_leader. node_unfold.
  destruct (bool_decide (role d = RoleMaster)) eqn:Hr; simpl; [|intros [= <- <-]; by right].
  intros H. node_cases; rewrite ?Hc; by left.
Qed.
(** What an answer of [IsLeader] leaves. *)
Definition leader_kept (b : bool) (d : dcosInfo) : Prop :=
  cachedIsLeader d = Some b \/
  (cachedIsLeader d = None /\ b = false /\ bool_decide (role d = RoleMaster) = false).
Lemma IsLeader_Ok env d b d' :
  cache d = true -> IsLeader env d = (Ok b, d') ->
  cache d' = true /\ is_Some (cachedIP d') /\ leader_kept b d'.
Proof.
  intros Hc. unfold IsLeader, bind at 1. destruct (DetectIP env d) as [[err|ip] d1] eqn:HD; [done|].
  destruct (DetectIP_config _ _ _ _ HD) as (Hc1 & _). rewrite Hc in Hc1.
  apply DetectIP_cached in HD. rewrite Hc in HD.
  assert (is_Some (cachedIP d1)) as Hip by (subst; by eexists).
  unfold bind, self. destruct (cachedIsLeader d1) as [b1|] eqn:Hl; rewrite ?Hc1.
  - intros [= <- <-]. split; [done|]. split; [done|]. by left.
  - intros [[-> ->]|(-> & -> & Hr)]%lookup_leader_Ok; [| |done].
    + split; [done|]. split; [done|]. by left.
    + split; [done|]. split; [done|]. by right.
Qed.
Lemma IsLeader_again env d b : cache d = true -> is_Some (cachedIP d) -> leader_kept b d ->
  IsLeader env d = (Ok b, d).
Proof.
  intros Hc [ip Hip] Hl. unfold IsLeader, bind at 1. rewrite (DetectIP_again env d ip) by done.
  unfold bind, self. rewrite Hc. destruct Hl as [->|(-> & -> & Hr)]; [done|].
  unfold lookup_leader. node_unfold. by rewrite Hr.
Qed.
Lemma fetch_MesosID_Ok ctx env d i d' :
  fetch_MesosID ctx env d = (Ok i, d') -> cache d = true ->
  cache d' = true /\ client d' = client d /\ mesosStateURL d' = mesosStateURL d /\ cachedMesosID d' = i.
Proof.
  unfold fetch_MesosID, bind at 1. destruct (DetectIP env d) as [[err|ip] d1] eqn:HD; [done|].
  destruct (DetectIP_config _ _ _ _ HD) as (Hc1 & _ & _ & _ & _ & Hcl & Hurl).
  unfold bind at 1. destruct (state ctx env d1) as [[err|st] d2] eqn:HS; [done|].
  apply state_same in HS as ->. intros H Hc. rewrite Hc in Hc1. node_unfold.
  node_cases; rewrite ?Hc1; simpl; done.
Qed.
Lemma MesosID_Ok ctx env d i d' : cache d = true -> MesosID ctx env d = (Ok i, d') ->
  cache d' = true /\ client d' = true /\ mesosStateURL d' <> "" /\ cachedMesosID d' = i.
Proof.
  intros Hc H. unfold MesosID, bind, self in H. destruct (client d) eqn:Hcl; [|done].
  destruct (bool_decide (mesosStateURL d = "")) eqn:Hu; [done|]. apply bool_decide_eq_false in Hu.
  rewrite Hc in H. simpl in H. destruct (bool_decide (cachedMesosID d = "")) eqn:Hm; simpl in H.
  - destruct (fetch_MesosID_Ok _ _ _ _ _ H Hc) as (? & ? & Hurl & ?).
    split; [done|]. split; [congruence|]. split; [by rewrite Hurl|done].
  - by injection H as <- <-.
Qed.
Lemma MesosID_again ctx env d i : cache d = true -> client d = true -> mesosStateURL d <> "" ->
  cachedMesosID d = i -> i <> "" -> MesosID ctx env d = (Ok i, d).
Proof.
  intros Hc Hcl Hu <- Hi. unfold MesosID, bind, self. rewrite Hcl, Hc.
  by rewrite !bool_decide_eq_false_2.
Qed.
Lemma ClusterID_Ok env d i d' : cache d = true -> ClusterID env d = (Ok i, d') ->
  cache d' = true /\ cachedClusterID d' = i /\ i <> "".
Proof.
  intros Hc H. unfold ClusterID, bind, self in *. rewrite Hc in H. simpl in H.
  destruct (bool_decide (cachedClusterID d = "")) eqn:Hm; simpl in H.
  - node_unfold. node_cases; rewrite ?Hc in *; simpl; split_and!; try done;
      by (eapply bool_decide_eq_false_1; eassumption).
  - injection H as <- <-. split; [done|]. split; [done|]. by (eapply bool_decide_eq_false_1; eassumption).
Qed.
Lemma ClusterID_again env d i : cache d = true -> cachedClusterID d = i -> i <> "" ->
  ClusterID env d = (Ok i, d).
Proof. intros Hc <- Hi. unfold ClusterID, bind, self. rewrite Hc. by rewrite bool_decide_eq_false_2. Qed.
(** ** What a call leaves of what is kept *)
Record kept (d d' : dcosInfo) : Prop := {
  kept_cache : cache d' = cache d;
  kept_role : role d' = role d;
  kept_client : client d' = client d;
  kept_url : mesosStateURL d' = mesosStateURL d;
  kept_ip : cachedIP d = None \/ cachedIP d' = cachedIP d;
  kept_leader : cachedIsLeader d' = cachedIsLeader d \/ (cachedIsLeader d = None /\ role d = RoleMaster);
  kept_mesos : cachedMesosID d = "" \/ cachedMesosID d' = cachedMesosID d;
  kept_cluster : cachedClusterID d = "" \/ cachedClusterID d' = cachedClusterID d;
}.
Global Instance kept_preorder : PreOrder kept.
Proof.
  split; [intros d; split; auto|]. intros d1 d2 d3 [? ? ? ? ? ? ? ?] [? ? ? ? ? ? ? ?].
  split; try congruence; intuition congruence.
Qed.
Lemma kept_DetectIP env d : cache d = true -> kept d (snd (DetectIP env d)).
Proof.
  intros Hc. destruct (cachedIP d) as [ip|] eqn:Hip; [by rewrite (DetectIP_again env d ip)|].
  destruct (DetectIP env d) as [r d'] eqn:HD.
  destruct (DetectIP_config _ _ _ _ HD) as (? & ? & ? & ? & ? & ? & ?). split; simpl; auto.
Qed.
Lemma kept_lookup_leader ip env d :
  cache d = true -> cachedIsLeader d = None -> kept d (snd (lookup_leader ip env d)).
Proof.
  intros Hc Hn. unfold lookup_leader. node_unfold.
  destruct (bool_decide (role d = RoleMaster)) eqn:Hr; simpl; [|done]. apply bool_decide_eq_true in Hr.
  destruct (LookupIP _ _); simpl; [done|]. destruct (find_leader _ _); simpl; [|done].
  rewrite Hc. split; simpl; auto.
Qed.
Lemma kept_IsLeader env d : cache d = true -> kept d (snd (IsLeader env d)).
Proof.
  intros Hc. pose proof (kept_DetectIP env d Hc) as HD. unfold IsLeader, bind at 1.
  destruct (DetectIP env d) as [[err|ip] d1]; simpl in HD; [done|]. etrans; [exact HD|].
  assert (cache d1 = true) as Hc1 by by rewrite (kept_cache _ _ HD).
  unfold bind, self. destruct (cachedIsLeader d1) eqn:Hl; rewrite ?Hc1; [done|by apply kept_lookup_leader].
Qed.
Lemma kept_state ctx env d : snd (state ctx env d) = d.
Proof. destruct (state ctx env d) as [r d'] eqn:Hs. by apply state_same in Hs. Qed.
Lemma kept_MesosID ctx env d : cache d = true -> kept d (snd (MesosID ctx env d)).
Proof.
  intros Hc. unfold MesosID, bind at 1, self at 1. destruct (client d); [|done].
  destruct (bool_decide _); [done|]. rewrite Hc. simpl.
  destruct (bool_decide (cachedMesosID d = "")) eqn:Hm; [simpl|done]. apply bool_decide_eq_true in Hm.
  unfold fetch_MesosID, bind at 1. pose proof (kept_DetectIP env d Hc) as HD.
  destruct (DetectIP env d) as [[err|ip] d1] eqn:HDe; simpl in HD; [done|]. etrans; [exact HD|].
  destruct (DetectIP_config _ _ _ _ HDe) as (_ & _ & _ & Hm1 & _).
  assert (cachedMesosID d1 = "") as Hm2 by congruence.
  assert (forall i, kept d1 (if cache d1 then set_cachedMesosID i d1 else d1)) as Hset.
  { intros i. destruct (cache d1); [|done]. split; simpl; auto. }
  unfold bind at 1. destruct (state ctx env d1) as [[err|st] d2] eqn:HS; apply state_same in HS as ->; [done|].
  node_unfold. repeat (case_match; simplify_eq/=); try done; apply Hset.
Qed.
Lemma kept_ClusterID env d : cache d = true -> kept d (snd (ClusterID env d)).
Proof.
  intros Hc. unfold ClusterID, bind at 1, self at 1. rewrite Hc. simpl.
  destruct (bool_decide (cachedClusterID d = "")) eqn:Hm; [simpl|done]. apply bool_decide_eq_true in Hm.
  assert (forall i, kept d (if cache d then set_cachedClusterID i d else d)) as Hset.
  { intros i. destruct (cache d); [|done]. split; simpl; auto. }
  node_unfold. repeat (case_match; simplify_eq/=); try done; apply Hset.
Qed.
Lemma TaskCanonicalID_same ctx task completed env d : snd (TaskCanonicalID ctx task completed env d) = d.
Proof.
  unfold TaskCanonicalID, bind at 1. pose proof (kept_state ctx env d) as HS.
  destruct (state ctx env d) as [[err|st] d1]; simpl in HS; subst d1; [done|].
  node_unfold. by repeat case_match.
Qed.
(** Any method is called on the object, in any environment. *)
Inductive called (d : dcosInfo) : dcosInfo -> Prop :=
| called_DetectIP env : called d (snd (DetectIP env d))
| called_IsLeader env : called d (snd (IsLeader env d))
| called_MesosID ctx env : called d (snd (MesosID ctx env d))
| called_ClusterID env : called d (snd (ClusterID env d))
| called_TaskCanonicalID ctx task completed env : called d (snd (TaskCanonicalID ctx task completed env d)).
Lemma called_kept d d' : rtc called d d' -> cache d = true -> kept d d'.
Proof.
  induction 1 as [d|d d1 d2 Hs _ IH]; intros Hc; [done|].
  assert (kept d d1) as Hk.
  { destruct Hs; [by apply kept_DetectIP|by apply kept_IsLeader|by apply kept_MesosID
      |by apply kept_ClusterID|by rewrite TaskCanonicalID_same]. }
  etrans; [exact Hk|]. apply IH. by rewrite (kept_cache _ _ Hk).
Qed.

(** Without caching. *)
Lemma DetectIP_uncached env d : cache d = false -> snd (DetectIP env d) = d.
Proof.
  intros Hc. unfold DetectIP, detect. node_unfold. repeat (case_match; simplify_eq/=); try done; congruence.
Qed.
Lemma IsLeader_uncached env d : cache d = false -> snd (IsLeader env d) = d.
Proof.
  intros Hc. pose proof (DetectIP_uncached env d Hc) as HD. unfold IsLeader, bind at 1.
  destruct (DetectIP env d) as [[err|ip] d1]; simpl in HD; subst d1; [done|].
  unfold lookup_leader. node_unfold. repeat (case_match; simplify_eq/=); try done; congruence.
Qed.
Lemma MesosID_uncached ctx env d : cache d = false -> snd (MesosID ctx env d) = d.
Proof.
  intros Hc. pose proof (DetectIP_uncached env d Hc) as HD. unfold MesosID, bind at 1, self at 1.
  destruct (client d); [|done]. destruct (bool_decide _); [done|]. rewrite Hc. simpl.
  unfold fetch_MesosID, bind at 1. destruct (DetectIP env d) as [[err|ip] d1]; simpl in HD; subst d1; [done|].
  unfold bind at 1. destruct (state ctx env d) as [[err|st] d2] eqn:HS; apply state_same in HS as ->; [done|].
  node_unfold. repeat (case_match; simplify_eq/=); try done; congruence.
Qed.
Lemma ClusterID_uncached env d : cache d = false -> snd (ClusterID env d) = d.
Proof.
  intros Hc. unfold ClusterID. node_unfold. repeat (case_match; simplify_eq/=); try done; congruence.
Qed.

(** ** Properties *)


(** C29. The Mesos id of a node: for a master the id of the state Mesos answers with, which
    is not blank; for an agent the id of the first agent in the state whose pid carries the
    local address, provided that every pid before it can be read. Any id the method
    returns when none is remembered is one of these. *)
Theorem MesosID_exact (env : node_env) (ctx : context) (d d1 : dcosInfo) (ip : IP) (st : State) :
  client d = true -> mesosStateURL d <> "" -> cache d = false \/ cachedMesosID d = "" ->
  DetectIP env d = (Ok ip, d1) -> fst (state ctx env d1) = Ok st ->
  forall id, fst (MesosID ctx env d) = Ok id <->
    (role d = RoleMaster /\ id = state_ID st /\ id <> "") \/
    (role d <> RoleMaster /\ exists pre s post ipx, Slaves st = (pre ++ s :: post)%list /\
       slave_ID s = id /\ getIPFromPIDField (Pid s) = Ok ipx /\ IP_Equal ip ipx = true /\
       Forall (fun x => exists ipx, getIPFromPIDField (Pid x) = Ok ipx /\ IP_Equal ip ipx = false) pre).
Proof.
  intros Hcl Hu Hm HD HS id. unfold MesosID, bind at 1, self at 1. rewrite Hcl.
  rewrite (bool_decide_eq_false_2 (mesosStateURL d = "")) by done. simpl.
  assert (cache d && negb (bool_decide (cachedMesosID d = "")) = false) as ->.
  { destruct Hm as [-> | ->]; [done|]. by rewrite bool_decide_eq_true_2, andb_false_r. }
  unfold fetch_MesosID, bind at 1. rewrite HD. unfold bind at 1.
  destruct (state ctx env d1) as [r d2] eqn:HS'. simpl in HS. subst r. apply state_same in HS' as ->.
  destruct (DetectIP_config _ _ _ _ HD) as (_ & Hr & _). unfold bind at 1, self at 1. rewrite Hr.
  rewrite <- find_slave_spec. case_bool_decide as Hrole.
  - case_bool_decide as Hid; node_unfold; [naive_solver|]. split; [intros [= <-]; by left|].
    by intros [(_ & -> & _)|[? _]].
  - destruct (find_slave ip (Slaves st)) as [err|[i|]]; node_unfold; naive_solver.
Qed.



(** Round trip: from the pid of an agent, "name@a.b.c.d:port", its address is read
    back, whatever the name and the port, provided they hold no "@" and no ":". *)
Theorem pid_roundtrip (name port : string) (a b c d : Z) :
  octet a -> octet b -> octet c -> octet d ->
  no_byte "@" name = true -> no_byte "@" port = true -> no_byte ":" port = true ->
  getIPFromPIDField (name ++ "@" ++ dotted a b c d ++ ":" ++ port) = Ok (IPv4 a b c d).
Proof.
  intros Ha Hb Hc Hd Hn Hp1 Hp2. unfold getIPFromPIDField.
  change ("@" ++ dotted a b c d ++ ":" ++ port) with (String "@" (dotted a b c d ++ ":" ++ port)).
  rewrite Split_app, (Split_no_byte "@" name) by done. cbn [app].
  rewrite (Split_no_byte "@" (dotted a b c d ++ ":" ++ port)).
  - change (":" ++ port) with (String ":" port).
    rewrite Split_app, (Split_no_byte ":" (dotted a b c d)), (Split_no_byte ":" port) by
      (done || by apply dotted_no_byte).
    cbn [app]. by rewrite ParseIP_dotted.
  - assert (no_byte "@" (dotted a b c d) = true) as Hdot by by apply dotted_no_byte.
    unfold no_byte in *. by rewrite !all_bytes_app, Hp1, Hdot.
Qed.

(** [ClusterID] returns the trimmed content of its file exactly when some part of it
    has the shape of a version-4 UUID: the whole of it need not. *)
Theorem ClusterID_exact (env : node_env) (d : dcosInfo) (id : string) :
  cache d = false \/ cachedClusterID d = "" ->
  fst (ClusterID env d) = Ok id <->
  exists body a u b, ReadFile env (clusterIDLocation d) = Ok body /\ id = TrimSpace body /\
    id = a ++ u ++ b /\ matches uuidRe u.
Proof.
  intros Hc. unfold ClusterID, bind at 1, self.
  assert (cache d && negb (bool_decide (cachedClusterID d = "")) = false) as ->.
  { destruct Hc as [-> | ->]; [done|]. by rewrite bool_decide_eq_true_2, andb_false_r. }
  unfold bind at 1, ask. destruct (ReadFile env (clusterIDLocation d)) as [err|body]; [split; [done|naive_solver]|].
  case_bool_decide as Hb.
  - split; [done|]. intros (? & a & u & b & [= <-] & -> & Heq & Hm). exfalso.
    assert (validateUUID "" = true) as Hv; [|by vm_compute in Hv].
    apply search_spec. rewrite Hb in Heq. eauto.
  - destruct (validateUUID (TrimSpace body)) eqn:Hv; node_unfold.
    + split; [intros [= <-]|naive_solver]. apply search_spec in Hv as (a & u & b & Heq & Hm).
      exists body, a, u, b. done.
    + split; [done|]. intros (? & a & u & b & [= <-] & -> & Heq & Hm). exfalso.
      assert (validateUUID (TrimSpace body) = true); [|congruence]. apply search_spec. eauto.
Qed.

(** ** Witnesses *)
Definition demo_uuid : string := "b80517a4-4668-4f5c-8dc4-2d3d4ba3cf31".
Definition agent1 : Slave := MkSlave "S1" "a" 5051 "slave(1)@10.0.0.1:5051".
Definition agent2 : Slave := MkSlave "S2" "b" 5051 "slave(1)@10.0.0.2:5051".
Definition demo_task : Task :=
  MkTask "app.1" "app" "F" "E" "S2" "TASK_RUNNING" "*"
    [MkStatus (MkNested "inner" (Some (MkNested "outer" None)))].
Definition demo_state : State :=
  MkState "M" [agent1; agent2] [MkFramework "F" "marathon" "" "*" [demo_task] []] [].
Definition node_demo : node_env :=
  MkNodeEnv false (fun _ => None) (fun _ _ _ => Ok ("10.0.0.2" ++ String "010" ""))
    (fun _ => Ok []) (fun _ => Ok demo_uuid) (fun _ => None) (fun _ _ => Ok (200%Z, Ok demo_state)).
Definition demo_agent (c : bool) : dcosInfo :=
  MkInfo c None None "" "" true "/detect_ip" 1 RoleAgent defaultStateURL DNSRecordLeader "/id".
(** Everything fails. *)
Definition dead_env : node_env :=
  MkNodeEnv false (fun _ => Some (errorsNew "no such file")) (fun _ _ _ => Fail (errorsNew "no"))
    (fun _ => Fail (errorsNew "no")) (fun _ => Fail (errorsNew "no")) (fun _ => None)
    (fun _ _ => Fail (errorsNew "refused")).
(** The object after a call of [MesosID], and after more calls that all fail. *)
Definition asked_agent : dcosInfo := snd (MesosID None node_demo (demo_agent true)).
Definition later_agent : dcosInfo :=
  snd (ClusterID dead_env (snd (TaskCanonicalID None "app" false dead_env (snd (IsLeader dead_env asked_agent))))).
Lemma later_called : rtc called asked_agent later_agent.
Proof.
  eapply rtc_l; [apply (called_IsLeader _ dead_env)|].
  eapply rtc_l; [apply (called_TaskCanonicalID _ None "app" false dead_env)|].
  apply rtc_once, called_ClusterID.
Qed.
Lemma MesosID_exact_witness : fst (MesosID None node_demo (demo_agent false)) = Ok "S2".
Proof.
  apply (MesosID_exact node_demo None (demo_agent false) (demo_agent false) (IPv4 10 0 0 2) demo_state);
    [reflexivity|discriminate|by left|vm_compute; reflexivity|reflexivity|].
  right. split; [discriminate|]. exists [agent1], agent2, [], (IPv4 10 0 0 2).
  split; [reflexivity|]. split; [reflexivity|]. split; [vm_compute; reflexivity|].
  split; [vm_compute; reflexivity|]. constructor; [|constructor]. exists (IPv4 10 0 0 1).
  split; vm_compute; reflexivity.
Defined.
Lemma pid_roundtrip_witness :
  getIPFromPIDField ("slave(1)" ++ "@" ++ dotted 10 0 0 2 ++ ":" ++ "5051") = Ok (IPv4 10 0 0 2).
Proof. apply pid_roundtrip; unfold octet; try lia; reflexivity. Defined.
Lemma ClusterID_exact_witness : fst (ClusterID node_demo (demo_agent false)) = Ok demo_uuid.
Proof.
  apply ClusterID_exact; [by left|]. exists demo_uuid, "", demo_uuid, "".
  split; [reflexivity|]. split; [vm_compute; reflexivity|]. split; [reflexivity|].
  apply full_match_spec. vm_compute. reflexivity.
Defined.
