(* ===== verification/NodeUtilConc.v ===== *)
(** * dcos/nodeutil: one object used by any number of goroutines (util.go). The methods are
    cut where they take and release the object's mutex; what runs with it held is one step,
    and so is a request to Mesos, which is sent without it. *)
From S2P Require Import Prelude.
From S2P Require Import GoStrings.
From S2P Require Import GoErrors.
From S2P Require Import GoNet.
From S2P Require Import DcosConstants.
From S2P Require Import NodeUtil.
From S2P Require Import NodeUtilTheorems.

Local Open Scope string_scope.

(** ** Calls and where a goroutine is in one *)
Inductive call : Type :=
| CDetectIP
| CIsLeader
| CMesosID (ctx : context)
| CClusterID
| CTaskCanonicalID (ctx : context) (task : string) (completed : bool).
Inductive answer : Type :=
| AIP (ip : IP)
| ALeader (b : bool)
| AMesos (id : string)
| ACluster (id : string)
| ATask (c : CanonicalTaskID).
(** What a goroutine does between a [Lock] and its [Unlock]. *)
Inductive job : Type :=
| JDetectIP                  (* DetectIP, for its caller *)
| JLeaderIP                  (* DetectIP, called by IsLeader *)
| JLeader (localIP : IP)     (* the rest of IsLeader *)
| JCached (ctx : context)    (* MesosID reads the id kept *)
| JMesosIP (ctx : context)   (* DetectIP, called by MesosID *)
| JStore (id : string)       (* MesosID keeps the id *)
| JClusterID.
Inductive call_pc : Type :=
| Enter (c : call)
| Wants (j : job)            (* at Lock *)
| Holds (j : job)
| AsksState (ctx : context) (localIP : IP)  (* MesosID asks Mesos *)
| AsksTask (ctx : context) (task : string) (completed : bool)
| Done (r : res node_error answer).

Definition go_on {A} (f : A -> call_pc) (x : res node_error A * dcosInfo) : call_pc * dcosInfo :=
  match x with (Fail err, d) => (Done (Fail err), d) | (Ok a, d) => (f a, d) end.
(** The second half of [IsLeader]. *)
Definition leader_section (localIP : IP) : node bool :=
  let* d := self in
  match cachedIsLeader d with
  | Some b => if cache d then ret b else lookup_leader localIP
  | None => lookup_leader localIP
  end.
(** What [MesosID] reads from the state of Mesos. *)
Definition mesos_of (d : dcosInfo) (localIP : IP) (st : State) : res node_error string :=
  if bool_decide (role d = RoleMaster) then
    if bool_decide (state_ID st = "")
    then Fail (ErrNodeInfo "Unable to retrieve mesos id for master node. ID field is empty")
    else Ok (state_ID st)
  else match find_slave localIP (Slaves st) with
       | Fail err => Fail err
       | Ok (Some id) => Ok id
       | Ok None => Fail (ErrNotInState localIP st)
       end.

(** From the call to the first [Lock] or request. *)
Definition begin (d : dcosInfo) (c : call) : call_pc :=
  match c with
  | CDetectIP => Wants JDetectIP
  | CIsLeader => Wants JLeaderIP
  | CMesosID ctx =>
      if negb (client d) then Done (Fail (ErrOther (goPanic "Unable to get mesos ID. Uninitialized http client")))
      else if bool_decide (mesosStateURL d = "")
      then Done (Fail (ErrOther (goPanic "Unable to get mesos ID. Uninitialized url")))
      else Wants (JCached ctx)
  | CClusterID => Wants JClusterID
  | CTaskCanonicalID ctx task completed => AsksTask ctx task completed
  end.
(** With the mutex held, until the goroutine is at its next [Lock] or request. *)
Definition locked (env : node_env) (d : dcosInfo) (j : job) : call_pc * dcosInfo :=
  match j with
  | JDetectIP => go_on (fun ip => Done (Ok (AIP ip))) (DetectIP env d)
  | JLeaderIP => go_on (fun ip => Wants (JLeader ip)) (DetectIP env d)
  | JLeader localIP => go_on (fun b => Done (Ok (ALeader b))) (leader_section localIP env d)
  | JCached ctx =>
      if cache d && negb (bool_decide (cachedMesosID d = ""))
      then (Done (Ok (AMesos (cachedMesosID d))), d) else (Wants (JMesosIP ctx), d)
  | JMesosIP ctx => go_on (fun ip => AsksState ctx ip) (DetectIP env d)
  | JStore id => (Done (Ok (AMesos id)), set_cachedMesosID id d)
  | JClusterID => go_on (fun id => Done (Ok (ACluster id))) (ClusterID env d)
  end.
(** The requests that are sent without the mutex. *)
Definition asks_state (env : node_env) (d : dcosInfo) (ctx : context) (localIP : IP) : call_pc :=
  match fst (state ctx env d) with
  | Fail err => Done (Fail err)
  | Ok st =>
      match mesos_of d localIP st with
      | Fail err => Done (Fail err)
      | Ok id => if cache d then Wants (JStore id) else Done (Ok (AMesos id))
      end
  end.
Definition asks_task (env : node_env) (d : dcosInfo) (ctx : context) (task : string) (completed : bool) : call_pc :=
  fst (go_on (fun c => Done (Ok (ATask c))) (TaskCanonicalID ctx task completed env d)).

Record conc : Type := MkConc {
  obj : dcosInfo;
  mutex : option nat;  (* the goroutine that holds it *)
  pcs : list call_pc;
}.
Definition start_conc (d : dcosInfo) (calls : list call) : conc := MkConc d None (map Enter calls).
Definition goto (i : nat) (pc : call_pc) (s : conc) : conc := MkConc (obj s) (mutex s) (<[i := pc]> (pcs s)).

(** The system, the network and Mesos answer each step in any way. *)
Inductive conc_step (s : conc) : conc -> Prop :=
| conc_begin i c : pcs s !! i = Some (Enter c) -> conc_step s (goto i (begin (obj s) c) s)
| conc_lock i j : pcs s !! i = Some (Wants j) -> mutex s = None ->
    conc_step s (MkConc (obj s) (Some i) (<[i := Holds j]> (pcs s)))
| conc_locked i j env : pcs s !! i = Some (Holds j) ->
    let x := locked env (obj s) j in
    conc_step s (MkConc (snd x) None (<[i := fst x]> (pcs s)))
| conc_state i env ctx ip : pcs s !! i = Some (AsksState ctx ip) ->
    conc_step s (goto i (asks_state env (obj s) ctx ip) s)
| conc_task i env ctx task completed : pcs s !! i = Some (AsksTask ctx task completed) ->
    conc_step s (goto i (asks_task env (obj s) ctx task completed) s).

(** ** A goroutine alone: its steps make the method *)
Fixpoint solo (fuel : nat) (env : node_env) (d : dcosInfo) (pc : call_pc) : call_pc * dcosInfo :=
  match fuel with
  | O => (pc, d)
  | S fuel =>
      match pc with
      | Enter c => solo fuel env d (begin d c)
      | Wants j => solo fuel env d (Holds j)
      | Holds j => let x := locked env d j in solo fuel env (snd x) (fst x)
      | AsksState ctx ip => solo fuel env d (asks_state env d ctx ip)
      | AsksTask ctx task completed => solo fuel env d (asks_task env d ctx task completed)
      | Done r => (Done r, d)
      end
  end.
Definition method (c : call) : node answer :=
  match c with
  | CDetectIP => let* ip := DetectIP in ret (AIP ip)
  | CIsLeader => let* b := IsLeader in ret (ALeader b)
  | CMesosID ctx => let* id := MesosID ctx in ret (AMesos id)
  | CClusterID => let* id := ClusterID in ret (ACluster id)
  | CTaskCanonicalID ctx task completed => let* c := TaskCanonicalID ctx task completed in ret (ATask c)
  end.
Section solo.
Context (n : nat) (env : node_env) (d : dcosInfo).
Lemma solo_Done r : solo n env d (Done r) = (Done r, d).
Proof. by destruct n. Qed.
Lemma solo_Enter c : solo (S n) env d (Enter c) = solo n env d (begin d c).
Proof. done. Qed.
Lemma solo_Wants j : solo (S n) env d (Wants j) = solo n env d (Holds j).
Proof. done. Qed.
Lemma solo_Holds j : solo (S n) env d (Holds j) = solo n env (snd (locked env d j)) (fst (locked env d j)).
Proof. done. Qed.
Lemma solo_AsksState ctx ip : solo (S n) env d (AsksState ctx ip) = solo n env d (asks_state env d ctx ip).
Proof. done. Qed.
Lemma solo_AsksTask ctx t b : solo (S n) env d (AsksTask ctx t b) = solo n env d (asks_task env d ctx t b).
Proof. done. Qed.
End solo.
#[local] Arguments solo : simpl never.
Ltac solo :=
  repeat (rewrite ?solo_Enter, ?solo_Wants, ?solo_Holds, ?solo_AsksState, ?solo_AsksTask, ?solo_Done;
          cbn [begin locked fst snd go_on]).
Definition ended (x : res node_error answer * dcosInfo) : call_pc * dcosInfo := (Done (fst x), snd x).
Lemma go_on_method {A} (m : node A) (f : A -> answer) env d :
  go_on (fun a => Done (Ok (f a))) (m env d) = ended ((let* a := m in ret (f a)) env d).
Proof. unfold bind, ret. by destruct (m env d) as [[err|a] d']. Qed.
Lemma solo_fetch n env d ctx :
  solo (4 + n) env d (Holds (JMesosIP ctx)) = ended ((let* id := fetch_MesosID ctx in ret (AMesos id)) env d).
Proof.
  unfold fetch_MesosID, bind, self, remember, ret, fail. cbn [Nat.add]. solo.
  destruct (DetectIP env d) as [[err|ip] d1]; solo; [done|]. unfold asks_state, mesos_of.
  destruct (state ctx env d1) as [[err|st] d2] eqn:HS; apply state_same in HS as ->; solo; [done|].
  destruct (bool_decide (role d1 = RoleMaster)).
  - destruct (bool_decide (state_ID st = "")); solo; [done|]. by destruct (cache d1); solo.
  - destruct (find_slave ip (Slaves st)) as [err|[id|]]; solo; [done| |done]. by destruct (cache d1); solo.
Qed.
Lemma MesosID_method ctx env d :
  method (CMesosID ctx) env d =
  if negb (client d) then (Fail (ErrOther (goPanic "Unable to get mesos ID. Uninitialized http client")), d)
  else if bool_decide (mesosStateURL d = "")
  then (Fail (ErrOther (goPanic "Unable to get mesos ID. Uninitialized url")), d)
  else if cache d && negb (bool_decide (cachedMesosID d = "")) then (Ok (AMesos (cachedMesosID d)), d)
  else (let* id := fetch_MesosID ctx in ret (AMesos id)) env d.
Proof.
  unfold method, MesosID. generalize (fetch_MesosID ctx). intros f. unfold bind, self.
  destruct (client d); [cbn|done]. destruct (bool_decide (mesosStateURL d = "")); [done|].
  by destruct (cache d && _).
Qed.
(** A goroutine that is not interrupted, with the same answers throughout, does what the
    method does: eight steps are enough. *)
Lemma solo_method env d c : solo 8 env d (Enter c) = ended (method c env d).
Proof.
  destruct c as [| |ctx| |ctx task completed]; [..|rewrite MesosID_method| |]; solo.
  - cbn [method]. rewrite <- go_on_method. by destruct (DetectIP env d) as [[err|ip] d1]; solo.
  - cbn [method]. change IsLeader with (let* ip := DetectIP in leader_section ip). unfold bind.
    destruct (DetectIP env d) as [[err|ip] d1]; solo; [done|].
    by destruct (leader_section ip env d1) as [[err|b] d2]; solo.
  - destruct (negb (client d)); solo; [done|]. destruct (bool_decide (mesosStateURL d = "")); solo; [done|].
    destruct (cache d && _); solo; [done|]. exact (solo_fetch 0 env d ctx).
  - cbn [method]. rewrite <- go_on_method. by destruct (ClusterID env d) as [[err|id] d1]; solo.
  - cbn [method]. pose proof (TaskCanonicalID_same ctx task completed env d) as Hs. unfold asks_task, bind.
    destruct (TaskCanonicalID ctx task completed env d) as [[err|c] d1]; cbn [snd] in Hs; subst d1; by solo.
Qed.

(** ** What a caching object keeps *)
(** [d'] comes after [d]: what was kept stays, but for the Mesos id. *)
Definition keeps (d d' : dcosInfo) : Prop :=
  cache d' = cache d /\ role d' = role d
  /\ (forall ip, cachedIP d = Some ip -> cachedIP d' = Some ip)
  /\ (cachedClusterID d <> "" -> cachedClusterID d' = cachedClusterID d).
(** Only the leader's place is kept, and only a master can have it. *)
Definition leader_ok (d : dcosInfo) : Prop :=
  forall b, cachedIsLeader d = Some b -> b = true /\ role d = RoleMaster.
Definition answer_ok (d : dcosInfo) (a : answer) : Prop :=
  match a with
  | AIP ip => cachedIP d = Some ip
  | ALeader b => b = bool_decide (role d = RoleMaster)
  | ACluster id => cachedClusterID d = id /\ id <> ""
  | AMesos _ | ATask _ => True
  end.
Definition job_ok (d : dcosInfo) (j : job) : Prop :=
  match j with JLeader ip => cachedIP d = Some ip | _ => True end.
Definition pc_ok (d : dcosInfo) (pc : call_pc) : Prop :=
  match pc with
  | Wants j | Holds j => job_ok d j
  | AsksState _ ip => cachedIP d = Some ip
  | Done (Ok a) => answer_ok d a
  | _ => True
  end.
Definition inside (pc : call_pc) : bool := match pc with Holds _ => true | _ => false end.
Notation outside pc := (inside pc = false).

Lemma keeps_refl d : keeps d d.
Proof. by repeat split. Qed.
Lemma keeps_same d d' : cache d' = cache d -> role d' = role d -> cachedIP d' = cachedIP d ->
  cachedClusterID d' = cachedClusterID d -> keeps d d'.
Proof. intros Hc Hr Hi Hk. split; [done|]. split; [done|]. by rewrite Hi, Hk. Qed.
Ltac kept := split; [apply keeps_refl|by split].
Lemma pc_ok_keeps d d' pc : keeps d d' -> pc_ok d pc -> pc_ok d' pc.
Proof.
  intros (Hc & Hr & Hip & Hid). destruct pc as [c|j|j|ctx ip|ctx t b|[err|a]]; simpl; auto.
  - destruct j; simpl; auto.
  - destruct j; simpl; auto.
  - destruct a; simpl; auto.
    + by rewrite Hr.
    + intros [<- Hne]. split; [by apply Hid|done].
Qed.
Lemma DetectIP_keeps env d r d' :
  cache d = true -> leader_ok d -> DetectIP env d = (r, d') ->
  keeps d d' /\ leader_ok d' /\ match r with Ok ip => cachedIP d' = Some ip | Fail _ => True end.
Proof.
  intros Hc Hl H. destruct (DetectIP_config _ _ _ _ H) as (Hc' & Hr & Hil & _ & Hid & _).
  assert (forall ip, cachedIP d = Some ip -> (r, d') = (Ok ip, d)) as Hhit.
  { intros ip Hip. rewrite <- H. by apply DetectIP_again. }
  split; [|split].
  - split; [done|]. split; [done|]. split; [|by rewrite Hid].
    intros ip Hip. by injection (Hhit ip Hip) as _ ->.
  - intros b. rewrite Hil, Hr. apply Hl.
  - destruct r as [err|ip]; [done|]. apply DetectIP_cached in H as ->. by rewrite Hc.
Qed.
Lemma leader_section_keeps localIP env d r d' :
  cache d = true -> leader_ok d -> leader_section localIP env d = (r, d') ->
  keeps d d' /\ leader_ok d' /\ match r with Ok b => b = bool_decide (role d' = RoleMaster) | Fail _ => True end.
Proof.
  intros Hc Hl. unfold leader_section, bind, self.
  destruct (cachedIsLeader d) as [b0|] eqn:Hb.
  - rewrite Hc. intros [= <- <-]. split; [apply keeps_refl|]. split; [done|].
    destruct (Hl b0 Hb) as [-> Hr]. by rewrite bool_decide_eq_true_2.
  - unfold lookup_leader. node_unfold. destruct (bool_decide (role d = RoleMaster)) eqn:Hr; simpl; rewrite ?Hc.
    + destruct (LookupIP env (dnsRecordLeader d)) as [err|addrs]; [intros [= <- <-]; by kept|].
      destruct (find_leader localIP addrs); intros [= <- <-]; [|by kept].
      rewrite Hc. split; [by apply keeps_same|]. split; [|by rewrite <- Hr].
      intros b [= <-]. split; [done|]. by eapply bool_decide_eq_true_1.
    + intros [= <- <-]. split; [apply keeps_refl|]. by split.
Qed.
Lemma ClusterID_keeps env d r d' :
  cache d = true -> leader_ok d -> ClusterID env d = (r, d') ->
  keeps d d' /\ leader_ok d' /\ match r with Ok id => cachedClusterID d' = id /\ id <> "" | Fail _ => True end.
Proof.
  intros Hc Hl. unfold ClusterID, bind, self. rewrite Hc. simpl.
  destruct (bool_decide (cachedClusterID d = "")) eqn:Hm; simpl.
  - apply bool_decide_eq_true_1 in Hm. node_unfold.
    destruct (ReadFile env (clusterIDLocation d)) as [err|body]; [intros [= <- <-]; by kept|].
    destruct (bool_decide (TrimSpace body = "")) eqn:Hb; [intros [= <- <-]; by kept|].
    destruct (validateUUID (TrimSpace body)); simpl; rewrite ?Hc; intros [= <- <-]; [|by kept].
    apply bool_decide_eq_false_1 in Hb. split; [|by split]. split; [done|]. by split.
  - apply bool_decide_eq_false_1 in Hm. intros [= <- <-]. split; [apply keeps_refl|]. by split.
Qed.
Lemma go_on_keeps {A} (f : A -> call_pc) (P : dcosInfo -> A -> Prop) d (x : res node_error A * dcosInfo) :
  keeps d (snd x) /\ leader_ok (snd x) /\ match fst x with Ok a => P (snd x) a | Fail _ => True end ->
  (forall a, P (snd x) a -> pc_ok (snd x) (f a)) ->
  keeps d (snd (go_on f x)) /\ leader_ok (snd (go_on f x)) /\ pc_ok (snd (go_on f x)) (fst (go_on f x)).
Proof. destruct x as [[err|a] d']; simpl; intros (Hk & Hl & HP) Hf; [done|]. naive_solver. Qed.
Lemma locked_keeps env d j :
  cache d = true -> leader_ok d ->
  keeps d (snd (locked env d j)) /\ leader_ok (snd (locked env d j))
  /\ pc_ok (snd (locked env d j)) (fst (locked env d j)).
Proof.
  intros Hc Hl. pose proof (DetectIP_keeps env d _ _ Hc Hl (surjective_pairing _)) as HD.
  destruct j as [| |ip|ctx|ctx|id|]; simpl locked.
  1,2,5: by refine (go_on_keeps _ (fun d ip => cachedIP d = Some ip) d _ HD _).
  - refine (go_on_keeps _ (fun d b => b = bool_decide (role d = RoleMaster)) d _ _ _); [|done].
    exact (leader_section_keeps ip env d _ _ Hc Hl (surjective_pairing _)).
  - destruct (cache d && _); simpl; (split; [apply keeps_refl|]); by split.
  - simpl. split; [by apply keeps_same|by split].
  - refine (go_on_keeps _ (fun d id => cachedClusterID d = id /\ id <> "") d _ _ _); [|done].
    exact (ClusterID_keeps env d _ _ Hc Hl (surjective_pairing _)).
Qed.
Lemma begin_ok d c : pc_ok d (begin d c).
Proof. destruct c as [| |ctx| |]; simpl; try done. by repeat case_match. Qed.
Lemma asks_state_ok env d ctx ip : pc_ok d (asks_state env d ctx ip).
Proof. unfold asks_state. by repeat case_match. Qed.
Lemma asks_task_ok env d ctx t b : pc_ok d (asks_task env d ctx t b).
Proof. unfold asks_task. by destruct (TaskCanonicalID ctx t b env d) as [[err|c] d']. Qed.

(** ** The invariants: of the mutex, and of a caching object *)
Lemma go_on_outside {A} (f : A -> call_pc) x : (forall a, outside (f a)) -> outside (fst (go_on f x)).
Proof. intros Hf. destruct x as [[err|a] d]; [done|apply Hf]. Qed.
Lemma locked_outside env d j : outside (fst (locked env d j)).
Proof. destruct j; simpl; try (by apply go_on_outside); [|done]. by destruct (cache d && _). Qed.
Lemma begin_outside d c : outside (begin d c).
Proof. destruct c as [| |ctx| |]; simpl; try done. by repeat case_match. Qed.
Lemma asks_state_outside env d ctx ip : outside (asks_state env d ctx ip).
Proof. unfold asks_state. by repeat case_match. Qed.
Lemma guarded_step s s' : guarded inside (mutex s) (pcs s) -> conc_step s s' -> guarded inside (mutex s') (pcs s').
Proof.
  intros Hg Hs. destruct Hs as [i c Hi|i j Hi Hm|i j env Hi x|i env ctx ip Hi|i env ctx t b Hi]; simpl.
  - eapply guarded_move; [done|exact Hi|done|apply begin_outside].
  - rewrite Hm in Hg. by eapply guarded_lock.
  - eapply guarded_unlock; [done|exact Hi|done|apply locked_outside].
  - eapply guarded_move; [done|exact Hi|done|apply asks_state_outside].
  - eapply guarded_move; [done|exact Hi|done|by apply go_on_outside].
Qed.
Lemma start_guarded calls : guarded inside None (map Enter calls).
Proof. by apply guarded_start, Forall_fmap, Forall_forall. Qed.

Record kept_inv (s : conc) : Prop := {
  inv_cache : cache (obj s) = true;
  inv_leader : leader_ok (obj s);
  inv_pcs : Forall (pc_ok (obj s)) (pcs s);
}.
Lemma kept_goto s i q : kept_inv s -> pc_ok (obj s) q -> kept_inv (goto i q s).
Proof. intros [Hc Hl Hp] Hq. split; [done|done|by apply Forall_insert]. Qed.
Lemma kept_step s s' : kept_inv s -> conc_step s s' -> kept_inv s'.
Proof.
  intros Hinv Hs. destruct Hs as [i c Hi|i j Hi Hm|i j env Hi x|i env ctx ip Hi|i env ctx t b Hi].
  - apply kept_goto; [done|apply begin_ok].
  - destruct Hinv as [Hc Hl Hp]. split; [done|done|]. apply Forall_insert; [done|].
    exact (Forall_lookup_1 _ _ _ _ Hp Hi).
  - destruct Hinv as [Hc Hl Hp]. destruct (locked_keeps env (obj s) j Hc Hl) as (Hk & Hl' & Hok).
    fold x in Hk, Hl', Hok. split; simpl; [by destruct Hk as [-> _]|done|].
    apply Forall_insert; [|done]. eapply Forall_impl; [exact Hp|]. intros pc. by apply pc_ok_keeps.
  - apply kept_goto; [done|apply asks_state_ok].
  - apply kept_goto; [done|apply asks_task_ok].
Qed.
Lemma start_kept d calls : cache d = true -> cachedIsLeader d = None -> kept_inv (start_conc d calls).
Proof.
  intros Hc Hl. split; simpl; [done| |].
  - intros b. by rewrite Hl.
  - by apply Forall_fmap, Forall_forall.
Qed.

(** ** Steps left *)
Definition job_left (j : job) : nat :=
  match j with
  | JDetectIP | JLeader _ | JStore _ | JClusterID => 1
  | JLeaderIP => 3
  | JMesosIP _ => 4
  | JCached _ => 6
  end.
Definition pc_left (pc : call_pc) : nat :=
  match pc with
  | Enter _ => 8
  | Wants j => S (job_left j)
  | Holds j => job_left j
  | AsksState _ _ => 3
  | AsksTask _ _ _ => 1
  | Done _ => 0
  end.
Lemma go_on_left {A} (f : A -> call_pc) x n : 0 < n -> (forall a, pc_left (f a) < n) -> pc_left (fst (go_on f x)) < n.
Proof. intros Hn Hf. destruct x as [[err|a] d]; [done|apply Hf]. Qed.
Lemma locked_left env d j : pc_left (fst (locked env d j)) < job_left j.
Proof.
  destruct j; simpl; try (apply go_on_left; simpl; lia); try (intros; simpl; lia).
  destruct (cache d && _); simpl; lia.
Qed.
Lemma conc_decreases s s' : conc_step s s' ->
  sum_list (map pc_left (pcs s')) < sum_list (map pc_left (pcs s)).
Proof.
  assert (forall i p q, pcs s !! i = Some p -> pc_left q < pc_left p ->
    sum_list (map pc_left (<[i := q]> (pcs s))) < sum_list (map pc_left (pcs s))) as Hins.
  { intros i p q Hi Hlt. rewrite list_fmap_insert.
    apply (sum_list_insert_lt _ i (pc_left p)); [by rewrite list_lookup_fmap, Hi|done]. }
  intros Hs. destruct Hs as [i c Hi|i j Hi Hm|i j env Hi x|i env ctx ip Hi|i env ctx t b Hi]; simpl;
    (eapply Hins; [exact Hi|]).
  - destruct c as [| |ctx| |]; simpl; try lia. repeat case_match; simpl; lia.
  - simpl. lia.
  - apply locked_left.
  - unfold asks_state. repeat case_match; simpl; lia.
  - unfold asks_task. apply go_on_left; simpl; lia.
Qed.
Lemma conc_bounded n s s' : nsteps conc_step n s s' ->
  n + sum_list (map pc_left (pcs s')) <= sum_list (map pc_left (pcs s)).
Proof. induction 1 as [|n s s1 s' Hs _ IH]; [done|]. apply conc_decreases in Hs. lia. Qed.
Lemma conc_progress (env : node_env) s i pc : guarded inside (mutex s) (pcs s) -> pcs s !! i = Some pc -> pc_left pc <> 0 ->
  exists s', conc_step s s'.
Proof.
  intros Hg Hi Hp. destruct (mutex s) as [k|] eqn:Hm.
  - pose proof (proj2 (Hg k) eq_refl) as Hk. destruct (pcs s !! k) as [[c|j|j| | |]|] eqn:Hpk; try done.
    eexists. by apply (conc_locked s k j env).
  - destruct pc as [c|j|j|ctx ip|ctx t b|r]; [eexists..|done].
    + by apply conc_begin.
    + by apply conc_lock.
    + by apply (conc_locked s i j env).
    + by apply (conc_state s i env).
    + by apply (conc_task s i env).
Qed.

(** ** An executable schedule: the goroutines to advance and what each step is answered *)
Definition advance (s : conc) (i : nat) (env : node_env) : option conc :=
  match pcs s !! i with
  | Some (Enter c) => Some (goto i (begin (obj s) c) s)
  | Some (Wants j) =>
      match mutex s with None => Some (MkConc (obj s) (Some i) (<[i := Holds j]> (pcs s))) | Some _ => None end
  | Some (Holds j) =>
      let x := locked env (obj s) j in Some (MkConc (snd x) None (<[i := fst x]> (pcs s)))
  | Some (AsksState ctx ip) => Some (goto i (asks_state env (obj s) ctx ip) s)
  | Some (AsksTask ctx task completed) => Some (goto i (asks_task env (obj s) ctx task completed) s)
  | Some (Done _) | None => None
  end.
Fixpoint schedule (s : conc) (l : list (nat * node_env)) : option conc :=
  match l with [] => Some s | (i, env) :: l => s' ← advance s i env; schedule s' l end.
Lemma advance_step s i env s' : advance s i env = Some s' -> conc_step s s'.
Proof.
  unfold advance. destruct (pcs s !! i) as [[c|j|j|ctx ip|ctx t b|r]|] eqn:Hi; [..|done|done].
  - intros [= <-]. by apply conc_begin.
  - destruct (mutex s) eqn:Hm; [done|]. intros [= <-]. by apply conc_lock.
  - intros [= <-]. by apply conc_locked.
  - intros [= <-]. by apply conc_state.
  - intros [= <-]. by apply conc_task.
Qed.
Lemma schedule_steps s l s' : schedule s l = Some s' -> nsteps conc_step (length l) s s'.
Proof.
  revert s. induction l as [|[i env] l IH]; simpl; intros s H; [injection H as ->; constructor|].
  destruct (advance s i env) as [s1|] eqn:Ha; [|done]. eapply nsteps_l; [by eapply advance_step|by apply IH].
Qed.

(** ** Properties *)
(** The answers of one method agree. *)
Definition agree (a b : answer) : Prop :=
  match a, b with
  | AIP x, AIP y => x = y
  | ALeader x, ALeader y => x = y
  | ACluster x, ACluster y => x = y
  | _, _ => True
  end.

(** C31. Goroutines that share a caching object get the same answers: whatever they call, in
    whatever order their critical sections run, and whatever the system and the network
    answer meanwhile, any two calls that have succeeded in telling the address, the
    leadership or the cluster id tell the same; and the object keeps the address and the
    cluster id they were told. Leadership is told true by masters only, and false by agents
    only. The Mesos id is not among these: see [mesos_ids_differ]. *)
Theorem concurrent_answers_agree (d : dcosInfo) (calls : list call) (s : conc) :
  cache d = true -> cachedIsLeader d = None -> rtc conc_step (start_conc d calls) s ->
  (forall i j a b, pcs s !! i = Some (Done (Ok a)) -> pcs s !! j = Some (Done (Ok b)) -> agree a b)
  /\ (forall i a, pcs s !! i = Some (Done (Ok a)) -> answer_ok (obj s) a).
Proof.
  intros Hc Hl Hr.
  assert (kept_inv s) as [_ _ Hp]
    by (refine (rtc_invariant conc_step kept_inv _ _ _ _ Hr); [apply kept_step|by apply start_kept]).
  assert (forall i a, pcs s !! i = Some (Done (Ok a)) -> answer_ok (obj s) a) as Hok
    by (intros i a Hi; exact (Forall_lookup_1 _ _ _ _ Hp Hi)).
  split; [|done]. intros i j a b Ha%Hok Hb%Hok. destruct a, b; simpl in *; try done; try congruence.
  by destruct Ha as [<- _], Hb as [<- _].
Qed.

(** C32. No call deadlocks, although IsLeader and MesosID call DetectIP, which takes the
    mutex they take: however the goroutines are scheduled, they take at most eight steps
    per call in all, and as long as a call has not ended, some goroutine can go on. *)
Theorem node_calls_end (d : dcosInfo) (calls : list call) (env : node_env) (n : nat) (s : conc) :
  nsteps conc_step n (start_conc d calls) s ->
  n <= 8 * length calls
  /\ ((exists s', conc_step s s') \/ Forall (fun pc => exists r, pc = Done r) (pcs s)).
Proof.
  intros Hn. split.
  - pose proof (conc_bounded n _ _ Hn) as Hb.
    assert (sum_list (map pc_left (map Enter calls)) <= 8 * length (map pc_left (map Enter calls))) as Hs.
    { apply sum_list_bound, Forall_fmap, Forall_fmap, Forall_forall. intros c _. simpl. lia. }
    rewrite !length_map in Hs. unfold start_conc in Hb. cbn [pcs] in Hb. lia.
  - assert (guarded inside (mutex s) (pcs s)) as Hg.
    { apply rtc_nsteps_2 in Hn. refine (rtc_invariant conc_step (fun s => guarded inside (mutex s) (pcs s)) _ _ _ _ Hn);
        [apply guarded_step|apply start_guarded]. }
    destruct (decide (Exists (fun pc => pc_left pc <> 0) (pcs s))) as [He|Hne].
    + apply Exists_exists in He as (pc & (i & Hi)%list_elem_of_lookup & Hp). left. by eapply (conc_progress env).
    + right. apply Forall_forall. intros pc Hpc. destruct (decide (pc_left pc = 0)) as [Hz|Hz].
      * destruct pc as [c|j|j|ctx ip|ctx t b|r]; try done; [|by exists r]. by destruct j.
      * destruct Hne. apply Exists_exists. by exists pc.
Qed.

(** ** Witnesses: an agent's object; the address and Mesos' answers change while calls run. *)
Definition moved_env : node_env :=
  MkNodeEnv false (fun _ => None) (fun _ _ _ => Ok "10.0.0.9") (fun _ => Ok []) (fun _ => Ok demo_uuid)
    (fun _ => None) (fun _ _ => Ok (200%Z, Ok (MkState "M2" [MkSlave "S9" "b" 5051 "slave(1)@10.0.0.2:5051"] [] []))).
Definition demo_calls : list call := [CDetectIP; CIsLeader; CMesosID None; CMesosID None].
Definition demo_start : conc := start_conc (demo_agent true) demo_calls.
(** The first call tells the address; the two calls for the Mesos id overlap. *)
Definition demo_schedule : list (nat * node_env) :=
  (replicate 3 (0, node_demo) ++ replicate 5 (1, moved_env) ++ replicate 6 (2, node_demo)
   ++ replicate 8 (3, moved_env) ++ replicate 2 (2, moved_env))%list.
Definition demo_end : conc := default demo_start (schedule demo_start demo_schedule).
Lemma demo_steps : nsteps conc_step 24 demo_start demo_end.
Proof. apply (schedule_steps demo_start demo_schedule). vm_compute. reflexivity. Qed.
Example demo_answers :
  pcs demo_end = [Done (Ok (AIP (IPv4 10 0 0 2))); Done (Ok (ALeader false));
                  Done (Ok (AMesos "S2")); Done (Ok (AMesos "S9"))].
Proof. vm_compute. reflexivity. Qed.

(** Calls for the Mesos id that overlap can be told different ids, when Mesos changes its
    answer meanwhile: each looks for a kept id, finds none, and asks for itself. *)
Lemma mesos_ids_differ : exists d s,
  cache d = true /\ cachedMesosID d = "" /\ rtc conc_step (start_conc d [CMesosID None; CMesosID None]) s
  /\ pcs s = [Done (Ok (AMesos "S2")); Done (Ok (AMesos "S9"))].
Proof.
  exists (demo_agent true).
  pose (l := (replicate 6 (0, node_demo) ++ replicate 8 (1, moved_env) ++ replicate 2 (0, moved_env))%list).
  exists (default demo_start (schedule (start_conc (demo_agent true) [CMesosID None; CMesosID None]) l)).
  split; [done|]. split; [done|]. split; [|vm_compute; reflexivity].
  eapply rtc_nsteps_2, (schedule_steps _ l). vm_compute. reflexivity.
Qed.

Lemma concurrent_answers_agree_witness :
  cachedIP (obj demo_end) = Some (IPv4 10 0 0 2) /\ false = bool_decide (role (obj demo_end) = RoleMaster).
Proof.
  destruct (concurrent_answers_agree (demo_agent true) demo_calls demo_end) as [_ H];
    [reflexivity|reflexivity|exact (rtc_nsteps_2 _ _ _ demo_steps)|].
  split; [apply (H 0 (AIP (IPv4 10 0 0 2)))|apply (H 1 (ALeader false))]; rewrite demo_answers; reflexivity.
Defined.
Lemma node_calls_end_witness :
  24 <= 8 * length demo_calls
  /\ ((exists s', conc_step demo_end s') \/ Forall (fun pc => exists r, pc = Done r) (pcs demo_end)).
Proof. exact (node_calls_end (demo_agent true) demo_calls node_demo 24 demo_end demo_steps). Defined.
