(* ===== verification/KvStore.v ===== *)
(** * store: the in-memory key-value store (store/store.go), its atomic specification and
    the interleaved execution of its methods under the read-write mutex. *)
From S2P Require Import Prelude.
From S2P Require Import GoStrings.
From S2P Require Import GoErrors.

(** A compiled regular expression: which strings it matches somewhere. Any set of strings,
    since what an anchor, a word boundary or a class of runes admits depends on the whole
    string. *)
Definition Regexp : Type := string -> bool.

Section store.
(** The values are opaque ([interface{}]); [Compile] is [regexp.Compile], an error or the
    expression, whatever the syntax: [regexp.MatchString] compiles, then matches. *)
Context {V : Type} `{!EqDecision V} (Compile : string -> res error Regexp).
Notation objects_map := (gmap string V).

Definition MatchString (expr s : string) : res error bool :=
  match Compile expr with Fail err => Fail err | Ok r => Ok (r s) end.

(** ** The methods *)
Inductive op : Type :=
| Delete (key : string)
| Get (key : string)
| GetByRegex (expr : string)
| Objects
| Purge
| Set_ (key : string) (val : V)
| Size
| Supplant (m : objects_map).
(** [RGet None] is [(nil, false)]; [RObjects None] is the nil map. *)
Inductive result : Type :=
| RUnit
| RGet (v : option V)
| RRegex (m : objects_map) (err : res error unit)
| RObjects (m : option objects_map)
| RSize (n : Z).

Global Instance result_eq_dec : EqDecision result.
Proof using EqDecision0. solve_decision. Defined.

(** Which lock a method takes. *)
Definition is_read (o : op) : bool :=
  match o with Get _ | GetByRegex _ | Objects | Size => true | _ => false end.

(** Where a method is between its lock and its unlock: at its start, or in a loop with the
    entries still to visit and the map built so far. *)
Inductive body : Type :=
| BStart (o : op)
| BRegex (expr : string) (todo : list (string * V)) (m : objects_map)
| BObjects (todo : list (string * V)) (m : objects_map)
| BSupplant (todo : list (string * V)) (n : objects_map)
| BReturn (r : result).

(** One step of a body on the shared map. A [range] over a map visits every entry once, in
    any order; the entries cannot change meanwhile, which is a property below. *)
Inductive body_step : body * objects_map -> body * objects_map -> Prop :=
| b_delete k s : body_step (BStart (Delete k), s) (BReturn RUnit, delete k s)
| b_get k s : body_step (BStart (Get k), s) (BReturn (RGet (s !! k)), s)
| b_regex expr todo s :
    Permutation todo (map_to_list s) -> body_step (BStart (GetByRegex expr), s) (BRegex expr todo ∅, s)
| b_regex_error expr k v todo m s err :
    MatchString expr k = Fail err ->
    body_step (BRegex expr ((k, v) :: todo) m, s) (BReturn (RRegex m (Fail err)), s)
| b_regex_next expr k v todo m s b :
    MatchString expr k = Ok b ->
    body_step (BRegex expr ((k, v) :: todo) m, s)
      (BRegex expr todo (if b : bool then <[k := v]> m else m), s)
| b_regex_end expr m s : body_step (BRegex expr [] m, s) (BReturn (RRegex m (Ok tt)), s)
| b_objects_nil s : size s = 0 -> body_step (BStart Objects, s) (BReturn (RObjects None), s)
| b_objects todo s :
    size s <> 0 -> Permutation todo (map_to_list s) -> body_step (BStart Objects, s) (BObjects todo ∅, s)
| b_objects_next k v todo m s :
    body_step (BObjects ((k, v) :: todo) m, s) (BObjects todo (<[k := v]> m), s)
| b_objects_end m s : body_step (BObjects [] m, s) (BReturn (RObjects (Some m)), s)
| b_purge s : body_step (BStart Purge, s) (BReturn RUnit, ∅)
| b_set k v s : body_step (BStart (Set_ k v), s) (BReturn RUnit, <[k := v]> s)
| b_size s : body_step (BStart Size, s) (BReturn (RSize (Z.of_nat (size s))), s)
| b_supplant m todo s :
    Permutation todo (map_to_list m) -> body_step (BStart (Supplant m), s) (BSupplant todo ∅, s)
| b_supplant_next k v todo n s :
    body_step (BSupplant ((k, v) :: todo) n, s) (BSupplant todo (<[k := v]> n), s)
| b_supplant_end n s : body_step (BSupplant [] n, s) (BReturn RUnit, n).

(** ** Goroutines and the mutex *)
Inductive thread : Type :=
| Idle
| Waiting (o : op)           (* called, not yet past Lock or RLock *)
| Running (o : op) (b : body).
Record kv_state : Type := MkKv {
  objects : objects_map;
  readers : nat;
  writer : bool;
  threads : list thread;
  log : list (op * result);  (* the calls that have ended, in the order of their unlocks *)
}.
Definition set_thread (i : nat) (t : thread) (s : kv_state) : kv_state :=
  MkKv (objects s) (readers s) (writer s) (<[i := t]> (threads s)) (log s).
Inductive kv_step : kv_state -> kv_state -> Prop :=
| kv_call s i o : threads s !! i = Some Idle -> kv_step s (set_thread i (Waiting o) s)
| kv_rlock s i o :
    threads s !! i = Some (Waiting o) -> is_read o = true -> writer s = false ->
    kv_step s (MkKv (objects s) (S (readers s)) false
      (<[i := Running o (BStart o)]> (threads s)) (log s))
| kv_lock s i o :
    threads s !! i = Some (Waiting o) -> is_read o = false -> writer s = false -> readers s = 0 ->
    kv_step s (MkKv (objects s) 0 true (<[i := Running o (BStart o)]> (threads s)) (log s))
| kv_body s i o b b' m :
    threads s !! i = Some (Running o b) -> body_step (b, objects s) (b', m) ->
    kv_step s (MkKv m (readers s) (writer s) (<[i := Running o b']> (threads s)) (log s))
| kv_runlock s i o r :
    threads s !! i = Some (Running o (BReturn r)) -> is_read o = true ->
    kv_step s (MkKv (objects s) (pred (readers s)) (writer s) (<[i := Idle]> (threads s))
      (log s ++ [(o, r)]))
| kv_unlock s i o r :
    threads s !! i = Some (Running o (BReturn r)) -> is_read o = false ->
    kv_step s (MkKv (objects s) (readers s) false (<[i := Idle]> (threads s)) (log s ++ [(o, r)])).

(** [New] and any number of goroutines. *)
Definition New (n : nat) : kv_state := MkKv ∅ 0 false (replicate n Idle) [].

(** ** The specification: each method as one atomic step *)
Definition matching (r : Regexp) (s : objects_map) : objects_map :=
  filter (fun kv => r (fst kv) = true) s.
Definition apply_op (o : op) (s : objects_map) : result * objects_map :=
  match o with
  | Delete k => (RUnit, delete k s)
  | Get k => (RGet (s !! k), s)
  | GetByRegex expr =>
      (match Compile expr with
       | Ok r => RRegex (matching r s) (Ok tt)
       | Fail err => if bool_decide (s = ∅) then RRegex ∅ (Ok tt) else RRegex ∅ (Fail err)
       end, s)
  | Objects => (RObjects (if bool_decide (s = ∅) then None else Some s), s)
  | Purge => (RUnit, ∅)
  | Set_ k v => (RUnit, <[k := v]> s)
  | Size => (RSize (Z.of_nat (size s)), s)
  | Supplant m => (RUnit, m)
  end.
(** The map after a sequence of calls, provided that each answered as it should. *)
Fixpoint replay (l : list (op * result)) (s : objects_map) : option objects_map :=
  match l with
  | [] => Some s
  | (o, r) :: l =>
      let '(r', s') := apply_op o s in
      match decide (r = r') with left _ => replay l s' | right _ => None end
  end.

(** ** The invariant of the interleaving *)
(** The entries visited so far are those in the map built so far. *)
Definition built (P : string -> Prop) (visited : list (string * V)) (m : objects_map) : Prop :=
  forall k v, m !! k = Some v <-> (k, v) ∈ visited /\ P k.
Definition visits (whole : objects_map) (P : string -> Prop) (todo : list (string * V))
    (m : objects_map) : Prop :=
  exists visited, Permutation (visited ++ todo) (map_to_list whole) /\ built P visited m.
Definition matched (expr k : string) : Prop := MatchString expr k = Ok true.

Lemma visits_start whole (P : string -> Prop) todo :
  Permutation todo (map_to_list whole) -> visits whole P todo ∅.
Proof.
  intros Hp. exists []. split; [done|]. intros k v. rewrite lookup_empty. split; [done|].
  intros [Hk _]. by apply elem_of_nil in Hk.
Qed.
Lemma visits_next whole (P : string -> Prop) k v todo m (b : bool) :
  (b = true <-> P k) -> visits whole P ((k, v) :: todo) m ->
  visits whole P todo (if b then <[k := v]> m else m).
Proof.
  intros Hb (visited & Hp & Hm). exists (visited ++ [(k, v)]). split; [by rewrite <- app_assoc|].
  assert (forall v', (k, v') ∉ visited) as Hfresh.
  { intros v' Hin. pose proof (NoDup_fst_map_to_list whole) as Hnd.
    rewrite <- Hp, fmap_app in Hnd. apply NoDup_app in Hnd as (_ & Hdis & _).
    apply (Hdis k); [apply list_elem_of_fmap; by exists (k, v')|left]. }
  intros k' v'. rewrite elem_of_app, list_elem_of_singleton. destruct (decide (k = k')) as [<-|Hne].
  - assert (m !! k = None) as Hmk.
    { destruct (m !! k) as [x|] eqn:Hx; [|done]. apply Hm in Hx as [Hx _]. by apply Hfresh in Hx. }
    destruct b.
    + rewrite lookup_insert_eq. split; [intros [= <-]; split; [by right|by apply Hb]|].
      intros [[Hin|[= <-]] _]; [by apply Hfresh in Hin|done].
    + rewrite Hmk. split; [done|]. intros [_ Hk]. by apply Hb in Hk.
  - assert ((if b then <[k:=v]> m else m) !! k' = m !! k') as ->.
    { destruct b; [by rewrite lookup_insert_ne|done]. }
    rewrite (Hm k' v'). naive_solver.
Qed.
Lemma visits_end whole (P : string -> Prop) m :
  visits whole P [] m -> forall k v, m !! k = Some v <-> whole !! k = Some v /\ P k.
Proof.
  intros (visited & Hp & Hm) k v. rewrite app_nil_r in Hp. rewrite (Hm k v).
  by rewrite <- elem_of_map_to_list, <- Hp.
Qed.
Lemma visits_all_end whole m : visits whole (fun _ => True) [] m -> m = whole.
Proof.
  intros Hv. apply map_eq. intros k. apply option_eq. intros v.
  rewrite (visits_end whole _ m Hv k v). naive_solver.
Qed.
Lemma visits_matching expr r whole m :
  Compile expr = Ok r -> visits whole (matched expr) [] m -> m = matching r whole.
Proof.
  intros Hc Hv. apply map_eq. intros k. apply option_eq. intros v.
  rewrite (visits_end whole _ m Hv k v). unfold matching. rewrite map_lookup_filter_Some.
  unfold matched, MatchString. rewrite Hc. simpl.
  split; intros [? Hs]; (split; [done|]); [by injection Hs|by rewrite Hs].
Qed.

(** A method that holds its lock: [base] is the map the specification has, [objs] the
    shared one. *)
Definition running_ok (base objs : objects_map) (o : op) (b : body) : Prop :=
  match b with
  | BStart o' => o' = o /\ objs = base
  | BRegex expr todo m =>
      o = GetByRegex expr /\ objs = base /\ visits base (matched expr) todo m /\
      (is_ok (Compile expr) = false -> m = ∅ /\ Permutation todo (map_to_list base))
  | BObjects todo m => o = Objects /\ objs = base /\ base <> ∅ /\ visits base (fun _ => True) todo m
  | BSupplant todo n =>
      exists m, o = Supplant m /\ objs = base /\ visits m (fun _ => True) todo n
  | BReturn r => apply_op o base = (r, objs)
  end.

Lemma size_zero_empty (m : objects_map) : size m = 0 <-> m = ∅.
Proof. split; [apply map_size_empty_inv|intros ->; apply map_size_empty]. Qed.
Lemma compile_matched expr k b :
  MatchString expr k = Ok b -> (b = true <-> matched expr k) /\ is_ok (Compile expr) = true.
Proof.
  unfold matched. intros Hm. split.
  - rewrite Hm. split; [by intros ->|by intros [= ->]].
  - unfold MatchString in Hm. by destruct (Compile expr).
Qed.
(** A step of a body keeps it right; a reader leaves the shared map alone. *)
Lemma running_step base objs o b b' objs' :
  running_ok base objs o b -> body_step (b, objs) (b', objs') ->
  running_ok base objs' o b' /\ (is_read o = true -> objs' = objs).
Proof.
  intros Hok Hstep. inversion Hstep; subst; simpl in Hok.
  - by destruct Hok as [<- ->].
  - by destruct Hok as [<- ->].
  - destruct Hok as [<- ->]. split; [|done]. split; [done|]. split; [done|].
    split; [by apply visits_start|done].
  - destruct Hok as (-> & -> & Hv & Hbad). split; [|done]. simpl.
    unfold MatchString in *. destruct (Compile expr) as [e|r]; [|done].
    destruct Hbad as [-> Hp]; [done|]. rewrite bool_decide_eq_false_2; [by simplify_eq|].
    intros ->. rewrite map_to_list_empty in Hp. by apply Permutation_nil_r in Hp.
  - destruct Hok as (-> & -> & Hv & Hbad). split; [|done].
    destruct (compile_matched expr k b0) as [Hb Hok]; [done|].
    split; [done|]. split; [done|]. split; [by apply visits_next|congruence].
  - destruct Hok as (-> & -> & Hv & Hbad). split; [|done]. simpl.
    destruct (Compile expr) as [e|r] eqn:Hc.
    + destruct Hbad as [-> Hp]; [done|]. symmetry in Hp. apply Permutation_nil_r, map_to_list_empty_iff in Hp as ->.
      by rewrite bool_decide_eq_true_2.
    + by rewrite (visits_matching expr r base m).
  - destruct Hok as [<- ->]. split; [|done]. simpl. by rewrite bool_decide_eq_true_2 by by apply size_zero_empty.
  - destruct Hok as [<- ->]. split; [|done]. split; [done|]. split; [done|].
    split; [by rewrite <- size_zero_empty|by apply visits_start].
  - destruct Hok as (-> & -> & Hne & Hv). split; [|done]. split; [done|]. split; [done|].
    split; [done|]. by apply (visits_next base (fun _ => True) k v todo m true).
  - destruct Hok as (-> & -> & Hne & Hv). split; [|done]. simpl.
    rewrite bool_decide_eq_false_2 by done. by rewrite (visits_all_end base m).
  - by destruct Hok as [<- ->].
  - by destruct Hok as [<- ->].
  - by destruct Hok as [<- ->].
  - destruct Hok as [<- ->]. split; [|done]. exists m. split; [done|]. split; [done|]. by apply visits_start.
  - destruct Hok as (m & -> & -> & Hv). split; [|done]. exists m. split; [done|]. split; [done|].
    by apply (visits_next m (fun _ => True) k v todo n true).
  - destruct Hok as (m & -> & -> & Hv). split; [|done]. simpl. by rewrite (visits_all_end m objs').
Qed.

(** The lock: no writer and as many readers as are counted, or one writer alone. *)
Definition is_running (t : thread) : bool := match t with Running _ _ => true | _ => false end.
Definition holders (s : kv_state) : nat := length (filter (fun t => is_running t = true) (threads s)).
Record kv_inv (base : objects_map) (s : kv_state) : Prop := {
  inv_log : replay (log s) ∅ = Some base;
  inv_running : forall i o b, threads s !! i = Some (Running o b) ->
    running_ok base (objects s) o b /\ is_read o = negb (writer s);
  inv_readers : writer s = false -> readers s = holders s /\ objects s = base;
  inv_writer : writer s = true -> readers s = 0 /\ holders s = 1;
}.

Lemma holders_insert (l : list thread) i t t' :
  l !! i = Some t ->
  length (filter (fun t => is_running t = true) (<[i := t']> l)) + (if is_running t then 1 else 0) =
  length (filter (fun t => is_running t = true) l) + (if is_running t' then 1 else 0).
Proof.
  revert i. induction l as [|u l IH]; intros [|i] Hi; simplify_eq/=.
  - rewrite !filter_cons. destruct (is_running t), (is_running t'); simpl; lia.
  - specialize (IH i Hi). rewrite !filter_cons. destruct (is_running u); simpl; lia.
Qed.
(** A running thread is a holder, and a lone holder is alone. *)
Lemma holders_none (l : list thread) i o b :
  length (filter (fun t => is_running t = true) l) = 0 -> l !! i = Some (Running o b) -> False.
Proof.
  intros Hl Hi. assert (Running o b ∈ filter (fun t => is_running t = true) l) as Hin.
  { apply list_elem_of_filter. split; [done|by eapply list_elem_of_lookup_2]. }
  destruct (filter _ l); [by apply elem_of_nil in Hin|done].
Qed.
Lemma holders_one (l : list thread) i j o b o' b' :
  length (filter (fun t => is_running t = true) l) = 1 ->
  l !! i = Some (Running o b) -> l !! j = Some (Running o' b') -> i = j.
Proof.
  revert i j. induction l as [|u l IH]; intros i j Hl Hi Hj; [done|]. rewrite filter_cons in Hl.
  destruct i as [|i], j as [|j]; simpl in Hi, Hj; [done| | |].
  - exfalso. injection Hi as ->. rewrite decide_True in Hl by done. injection Hl as Hl.
    by apply (holders_none l j o' b').
  - exfalso. injection Hj as ->. rewrite decide_True in Hl by done. injection Hl as Hl.
    by apply (holders_none l i o b).
  - f_equal. case_decide; [|by apply IH]. injection Hl as Hl.
    exfalso. by apply (holders_none l i o b).
Qed.
Lemma replay_app l o r s s' :
  replay l s = Some s' -> replay (l ++ [(o, r)]) s =
    if decide (r = fst (apply_op o s')) then Some (snd (apply_op o s')) else None.
Proof.
  revert s. induction l as [|[o' r'] l IH]; intros s; simpl.
  - intros [= ->]. destruct (apply_op o s'); simpl. by destruct (decide _).
  - destruct (apply_op o' s) as [r2 s2]. destruct (decide (r' = r2)); [apply IH|done].
Qed.

Lemma kv_inv_insert base s i t t' :
  kv_inv base s -> threads s !! i = Some t -> is_running t = is_running t' ->
  (forall o b, t' = Running o b -> running_ok base (objects s) o b /\ is_read o = negb (writer s)) ->
  kv_inv base (set_thread i t' s).
Proof.
  intros [Hl Hr Hrd Hw] Hi Heq Ht'. pose proof (holders_insert (threads s) i t t' Hi) as Hc.
  rewrite Heq in Hc. split; [done| | |].
  - intros j o b Hj. apply list_lookup_insert_Some in Hj as [(-> & Heqt & _)|[_ Hj]]; [by apply Ht'|by apply (Hr j)].
  - intros Hws. destruct (Hrd Hws) as [Hn Ho]. split; [|done]. unfold holders in *. simpl. lia.
  - intros Hws. destruct (Hw Hws) as [Hz Hh]. split; [done|]. unfold holders in *. simpl. lia.
Qed.

Lemma kv_step_inv base s s' : kv_inv base s -> kv_step s s' -> exists base', kv_inv base' s'.
Proof.
  intros Hinv Hstep. pose proof Hinv as [Hl Hr Hrd Hw]. destruct Hstep as
    [s i o Hi|s i o Hi Ho Hws|s i o Hi Ho Hws Hz|s i o b b' m Hi Hb|s i o r Hi Ho|s i o r Hi Ho].
  - exists base. by eapply kv_inv_insert.
  - exists base. destruct (Hrd Hws) as [Hn Hobj].
    pose proof (holders_insert (threads s) i _ (Running o (BStart o)) Hi) as Hc. simpl in Hc.
    split; simpl; [done| | |done].
    + intros j o' b' Hj. apply list_lookup_insert_Some in Hj as [(-> & [= <- <-] & _)|[_ Hj]]; [done|].
      destruct (Hr j o' b' Hj) as [? Hx]. rewrite Hws in Hx. done.
    + intros _. split; [|done]. unfold holders in *. simpl. lia.
  - exists base. destruct (Hrd Hws) as [Hn Hobj].
    pose proof (holders_insert (threads s) i _ (Running o (BStart o)) Hi) as Hc. simpl in Hc.
    split; simpl; [done| |done|].
    + intros j o' b' Hj. apply list_lookup_insert_Some in Hj as [(-> & [= <- <-] & _)|[_ Hj]]; [done|].
      exfalso. apply (holders_none (threads s) j o' b'); [unfold holders in *; lia|done].
    + intros _. split; [done|]. unfold holders in *. simpl. lia.
  - exists base. destruct (Hr i o b Hi) as [Hok Hrw].
    destruct (running_step base (objects s) o b b' m Hok Hb) as [Hok' Hread].
    pose proof (holders_insert (threads s) i _ (Running o b') Hi) as Hc. simpl in Hc.
    split; simpl; [done| | |].
    + intros j o' b2 Hj. apply list_lookup_insert_Some in Hj as [(-> & [= <- <-] & _)|[Hne Hj]]; [done|].
      destruct (writer s) eqn:Hws.
      * exfalso. apply Hne. destruct (Hw eq_refl) as [_ Hh]. by apply (holders_one (threads s) i j o b o' b2).
      * rewrite Hread by done. by apply (Hr j).
    + intros Hws. destruct (Hrd Hws) as [Hn Hobj]. rewrite Hws in Hrw. rewrite Hread by done.
      split; [|done]. unfold holders in *. simpl. lia.
    + intros Hws. destruct (Hw Hws) as [Hz Hh]. split; [done|]. unfold holders in *. simpl. lia.
  - exists base. destruct (Hr i _ _ Hi) as [Hok Hrw]. simpl in Hok. rewrite Ho in Hrw.
    symmetry in Hrw. apply negb_true_iff in Hrw. destruct (Hrd Hrw) as [Hn Hobj].
    pose proof (holders_insert (threads s) i _ Idle Hi) as Hc. simpl in Hc. split; simpl.
    + rewrite (replay_app _ _ _ _ _ Hl), Hok. simpl. by rewrite decide_True, Hobj.
    + intros j o' b' Hj. apply list_lookup_insert_Some in Hj as [(_ & [=] & _)|[_ Hj]]. by apply (Hr j).
    + intros _. split; [|done]. unfold holders in *. simpl. lia.
    + rewrite Hrw. done.
  - exists (objects s). destruct (Hr i _ _ Hi) as [Hok Hrw]. simpl in Hok. rewrite Ho in Hrw.
    symmetry in Hrw. apply negb_false_iff in Hrw. destruct (Hw Hrw) as [Hz Hh].
    pose proof (holders_insert (threads s) i _ Idle Hi) as Hc. simpl in Hc. split; simpl; [| | |done].
    + rewrite (replay_app _ _ _ _ _ Hl), Hok. simpl. by rewrite decide_True.
    + intros j o' b' Hj. apply list_lookup_insert_Some in Hj as [(_ & [=] & _)|[Hne Hj]].
      exfalso. apply Hne. by apply (holders_one (threads s) i j o (BReturn r) o' b').
    + intros _. split; [|done]. unfold holders in *. simpl. lia.
Qed.
Lemma New_inv n : kv_inv ∅ (New n).
Proof.
  assert (holders (New n) = 0) as Hh.
  { unfold holders. simpl. induction n as [|n IH]; [done|]. by rewrite replicate_S, filter_cons_False. }
  split; simpl; [done| | |done].
  - intros i o b Hi. exfalso. by apply (holders_none (replicate n Idle) i o b).
  - intros _. by rewrite Hh.
Qed.
Lemma kv_reachable_inv n s : rtc kv_step (New n) s -> exists base, kv_inv base s.
Proof.
  intros Hr. refine (rtc_invariant kv_step (fun s => exists base, kv_inv base s) _ _ _ _ Hr).
  - intros a b [base Ha] Hstep. by eapply kv_step_inv.
  - exists ∅. apply New_inv.
Qed.
End store.

(** ** Properties *)

(** C24. The store is linearizable: whatever calls goroutines make and however their steps
    interleave, the calls that have ended, taken in the order of their unlocks (each inside
    its call), answered exactly what the atomic methods answer one after the other from the
    empty store; and when no writer is inside, the shared map is the one they leave. A
    [range] loop over the map sees one such map, in whatever order it visits it. *)
Theorem store_linearizable {V} `{!EqDecision V} (Compile : string -> res error Regexp) (n : nat)
    (s : kv_state (V:=V)) :
  rtc (kv_step Compile) (New n) s ->
  exists base, replay Compile (log s) ∅ = Some base /\ (writer s = false -> objects s = base).
Proof.
  intros Hr. destruct (kv_reachable_inv Compile n s Hr) as [base [Hl _ Hrd _]]. exists base.
  split; [done|]. intros Hw. by apply Hrd.
Qed.

(** The mutex does its work: a method that changes the store runs alone, and methods
    that run together only read. *)
Theorem store_exclusion {V} `{!EqDecision V} (Compile : string -> res error Regexp) (n : nat)
    (s : kv_state (V:=V)) (i j : nat) (o o' : op) (b b' : body) :
  rtc (kv_step Compile) (New n) s -> is_read o = false ->
  threads s !! i = Some (Running o b) -> threads s !! j = Some (Running o' b') -> i = j.
Proof.
  intros Hr Ho Hi Hj. destruct (kv_reachable_inv Compile n s Hr) as [base [_ Hrun _ Hw]].
  destruct (Hrun i o b Hi) as [_ Hrw]. rewrite Ho in Hrw. symmetry in Hrw.
  apply negb_false_iff in Hrw. destruct (Hw Hrw) as [_ Hh]. by apply (holders_one (threads s) i j o b o' b').
Qed.

(** ** Each method on its own: it ends, with the answer of the specification *)
Definition steps_left {V} (b : body (V:=V)) (s : gmap string V) : nat :=
  match b with
  | BStart (Supplant m) => 2 + size m
  | BStart _ => 2 + size s
  | BRegex _ todo _ => 1 + length todo
  | BObjects todo _ => 1 + length todo
  | BSupplant todo _ => 1 + length todo
  | BReturn _ => 0
  end.
Section methods.
Context {V : Type} `{!EqDecision V} (Compile : string -> res error Regexp).

Lemma visits_length (m : gmap string V) todo : Permutation todo (map_to_list m) -> length todo = size m.
Proof. intros ->. apply length_map_to_list. Qed.
Lemma steps_decrease (b b' : body (V:=V)) (s s' : gmap string V) :
  body_step Compile (b, s) (b', s') -> S (steps_left b' s') <= steps_left b s.
Proof.
  intros Hstep. inversion Hstep; subst; simpl; try lia;
    match goal with H : Permutation _ _ |- _ => apply visits_length in H; lia end.
Qed.
Lemma body_progress (b : body (V:=V)) (s : gmap string V) : (exists r, b = BReturn r) \/ exists st, body_step Compile (b, s) st.
Proof.
  destruct b as [o|expr [|[k v] todo] m|[|[k v] todo] m|[|[k v] todo] n|r]; [right|right..|left; by eexists].
  - destruct o; try (eexists; by econstructor).
    destruct (decide (size s = 0)); [eexists; by apply b_objects_nil|eexists; by apply b_objects].
  - eexists. constructor.
  - destruct (MatchString Compile expr k) as [err|b] eqn:Hm; eexists; [by eapply b_regex_error|by eapply b_regex_next].
  - eexists. constructor.
  - eexists. constructor.
  - eexists. constructor.
  - eexists. constructor.
Qed.
Lemma body_bounded n (b : body (V:=V)) (s : gmap string V) st : nsteps (body_step Compile) n (b, s) st -> n <= steps_left b s.
Proof.
  revert b s. induction n as [|n IH]; intros b s Hn; [lia|].
  inversion Hn as [|? ? [b' s'] ? Hstep Hrest]; subst.
  apply IH in Hrest. apply steps_decrease in Hstep. lia.
Qed.
Lemma body_run (o : op (V:=V)) (s s' : gmap string V) b :
  rtc (body_step Compile) (BStart o, s) (b, s') -> running_ok Compile s s' o b.
Proof.
  intros Hr. refine (rtc_invariant (body_step Compile)
    (fun st => running_ok Compile s (snd st) o (fst st)) (BStart o, s) (b, s') _ _ Hr).
  - intros [b1 s1] [b2 s2] Hok Hstep. by apply (running_step Compile s s1 o b1 b2 s2).
  - done.
Qed.
End methods.

(** C25. Each method ends, within as many steps as there are entries and two more, with
    the answer and the map of the specification, whatever order a [range] takes: a
    run that cannot go on has returned. [GetByRegex] in particular returns the entries
    whose key is in the set of strings that the regexp package's compiled expression
    matches, anchored or not, or the error of the expression; of an empty store it returns the
    empty map and no error, even when the expression does not compile. *)
Theorem methods_exact {V} `{!EqDecision V} (Compile : string -> res error Regexp) (o : op (V:=V))
    (s s' : gmap string V) (b : body) (n : nat) :
  nsteps (body_step Compile) n (BStart o, s) (b, s') ->
  n <= steps_left (BStart o) s /\
  ((forall st, ~ body_step Compile (b, s') st) -> exists r, b = BReturn r /\ apply_op Compile o s = (r, s')).
Proof.
  intros Hn. split; [by eapply body_bounded|]. intros Hstuck.
  destruct (body_progress Compile b s') as [[r ->]|[st Hst]]; [|by destruct (Hstuck st)].
  exists r. split; [done|]. apply rtc_nsteps_2, body_run in Hn. exact Hn.
Qed.

(** ** Calls one after the other *)
Section calls_in_a_row.
Context {V : Type} `{!EqDecision V} (Compile : string -> res error Regexp).
(** Each call runs from its lock to its return; [rs] are the answers. *)
Inductive in_a_row : list (op (V:=V)) -> list result -> relation (gmap string V) :=
| row_nil s : in_a_row [] [] s s
| row_cons o r ops rs s s1 s' :
    rtc (body_step Compile) (BStart o, s) (BReturn r, s1) -> in_a_row ops rs s1 s' ->
    in_a_row (o :: ops) (r :: rs) s s'.
Lemma row_spec o r ops rs s s' :
  in_a_row (o :: ops) (r :: rs) s s' ->
  r = fst (apply_op Compile o s) /\ in_a_row ops rs (snd (apply_op Compile o s)) s'.
Proof.
  inversion 1 as [|? ? ? ? ? s1 ? Hr Hrest]; subst. apply body_run in Hr. simpl in Hr.
  by rewrite Hr.
Qed.
Lemma row_sets kvs rs s s' :
  in_a_row (map (fun kv => Set_ kv.1 kv.2) kvs) rs s s' -> NoDup kvs.*1 ->
  forall k, s' !! k = match (list_to_map kvs : gmap string V) !! k with Some v => Some v | None => s !! k end.
Proof.
  revert rs s. induction kvs as [|[k0 v0] kvs IH]; intros rs s Hrow Hnd k.
  - by inversion Hrow.
  - destruct rs as [|r rs]; [by inversion Hrow|]. apply row_spec in Hrow as [_ Hrow]. simpl in *.
    apply NoDup_cons in Hnd as [Hk0 Hnd]. rewrite (IH rs _ Hrow Hnd k).
    destruct (decide (k0 = k)) as [->|Hne].
    + rewrite !lookup_insert_eq. by rewrite (not_elem_of_list_to_map_1 _ _ Hk0).
    + by rewrite !lookup_insert_ne.
Qed.
End calls_in_a_row.

(** C26. [Supplant] of a map is [Purge] and then [Set] of each of its entries, in any order;
    and [GetByRegex] of an expression whose compiled form matches every key returns the same entries as
    [Objects], which is the nil map on an empty store. *)
Theorem equivalent_calls {V} `{!EqDecision V} (Compile : string -> res error Regexp)
    (m s s1 s2 : gmap string V) kvs rs1 rs2 expr (r : Regexp) a b :
  (in_a_row Compile [Supplant m] rs1 s s1 -> Permutation kvs (map_to_list m) ->
   in_a_row Compile (Purge :: map (fun kv => Set_ kv.1 kv.2) kvs) rs2 s s2 -> s1 = s2) /\
  (Compile expr = Ok r -> (forall k, is_Some (s !! k) -> r k = true) ->
   in_a_row Compile [GetByRegex expr; Objects] [a; b] s s1 ->
   s1 = s /\ exists entries, a = RRegex entries (Ok tt) /\
     b = RObjects (if bool_decide (entries = ∅) then None else Some entries)).
Proof.
  split.
  - intros H1 Hp H2. destruct rs1 as [|r1 rs1]; [by inversion H1|].
    apply row_spec in H1 as [_ H1]. destruct rs2 as [|r2 rs2]; [by inversion H2|].
    apply row_spec in H2 as [_ H2]. simpl in *. inversion H1; subst. apply map_eq. intros k.
    assert (NoDup kvs.*1) as Hnd by (rewrite Hp; apply NoDup_fst_map_to_list).
    rewrite (row_sets Compile kvs rs2 ∅ s2 H2 Hnd k), lookup_empty.
    rewrite <- (list_to_map_to_list s1) at 1.
    rewrite (list_to_map_proper kvs (map_to_list s1) Hnd Hp). by destruct (_ !! k).
  - intros Hc Hall H. apply row_spec in H as [-> H]. apply row_spec in H as [-> H]. simpl in *.
    rewrite Hc in *. simpl in *. inversion H; subst. split; [done|]. exists s1. split; [|done].
    f_equal. unfold matching. apply map_filter_id. intros k v Hk. simpl. apply Hall. by eexists.
Qed.

(** ** Witnesses *)
Local Open Scope string_scope.
(** Two goroutines: one sets a key, then both read. *)
Definition no_regexp (expr : string) : res error Regexp := Fail (errorsNew "error parsing regexp").
Definition kv_demo : kv_state (V:=nat) :=
  MkKv {[ "a" := 1 ]} 0 false [Idle; Waiting (Get "a")] [(Set_ "a" 1, RUnit)].
Definition kv_locked : kv_state (V:=nat) :=
  MkKv ∅ 0 true [Running (Set_ "a" 1) (BStart (Set_ "a" 1)); Waiting (Get "a")] [].
Definition kv_called : kv_state (V:=nat) :=
  MkKv ∅ 0 false [Waiting (Set_ "a" 1); Waiting (Get "a")] [].
Lemma kv_locked_reachable : rtc (kv_step no_regexp) (New 2) kv_locked.
Proof.
  apply (rtc_l _ _ (set_thread 0 (Waiting (Set_ "a" 1)) (New 2))); [by apply kv_call|].
  apply (rtc_l _ _ kv_called).
  - exact (kv_call no_regexp (set_thread 0 (Waiting (Set_ "a" 1)) (New 2)) 1 (Get "a") eq_refl).
  - apply rtc_once. exact (kv_lock no_regexp kv_called 0 (Set_ "a" 1) eq_refl eq_refl eq_refl eq_refl).
Qed.
Definition kv_set : kv_state (V:=nat) :=
  MkKv {[ "a" := 1 ]} 0 true [Running (Set_ "a" 1) (BReturn RUnit); Waiting (Get "a")] [].
Lemma kv_demo_reachable : rtc (kv_step no_regexp) (New 2) kv_demo.
Proof.
  etrans; [apply kv_locked_reachable|]. apply (rtc_l _ _ kv_set).
  - exact (kv_body no_regexp kv_locked 0 _ _ _ _ eq_refl (b_set no_regexp "a" 1 ∅)).
  - apply rtc_once. exact (kv_unlock no_regexp kv_set 0 _ RUnit eq_refl eq_refl).
Qed.
Lemma store_linearizable_witness :
  exists base, replay no_regexp (log kv_demo) ∅ = Some base /\
    (writer kv_demo = false -> objects kv_demo = base).
Proof. exact (store_linearizable no_regexp 2 kv_demo kv_demo_reachable). Defined.

Lemma store_exclusion_witness :
  ~ exists o b, threads kv_locked !! 1 = Some (Running o b).
Proof.
  intros (o & b & Hj).
  assert (0 = 1) as Heq; [|discriminate Heq].
  exact (store_exclusion no_regexp 2 kv_locked 0 1 (Set_ "a" 1) o _ b kv_locked_reachable
    eq_refl eq_refl Hj).
Defined.
(** Two anchored expressions, and one that does not compile. *)
Definition demo_regexp (expr : string) : res error Regexp :=
  if bool_decide (expr = "^foo") then Ok (fun s => HasPrefix s "foo")
  else if bool_decide (expr = "foo$") then Ok (fun s => HasSuffix s "foo")
  else Fail (errorsNew "error parsing regexp").
Definition foos : gmap string nat := {[ "foo1" := 1; "xfoo" := 2 ]}.
Example demo_GetByRegex :
  fst (apply_op demo_regexp (GetByRegex "foo$") foos) = RRegex {[ "xfoo" := 2 ]} (Ok tt)
  /\ fst (apply_op demo_regexp (GetByRegex "(") foos) = RRegex ∅ (Fail (errorsNew "error parsing regexp"))
  /\ fst (apply_op demo_regexp (GetByRegex "(") (∅ : gmap string nat)) = RRegex ∅ (Ok tt).
Proof. vm_compute. done. Qed.
Lemma foos_run :
  nsteps (body_step demo_regexp) 4 (BStart (GetByRegex "^foo"), foos)
    (BReturn (RRegex {[ "foo1" := 1 ]} (Ok tt)), foos).
Proof.
  apply (nsteps_l _ _ _ (BRegex "^foo" [("foo1", 1); ("xfoo", 2)] ∅, foos)).
  { apply b_regex. unfold foos. rewrite map_to_list_insert, map_to_list_singleton; [done|by vm_compute]. }
  eapply nsteps_l; [by apply (b_regex_next demo_regexp "^foo" "foo1" 1 _ _ _ true)|].
  eapply nsteps_l; [by apply (b_regex_next demo_regexp "^foo" "xfoo" 2 _ _ _ false)|].
  apply nsteps_once, b_regex_end.
Qed.
Lemma methods_exact_witness :
  4 <= steps_left (BStart (GetByRegex "^foo")) foos
  /\ apply_op demo_regexp (GetByRegex "^foo") foos = (RRegex {[ "foo1" := 1 ]} (Ok tt), foos).
Proof.
  destruct (methods_exact demo_regexp (GetByRegex "^foo") foos foos _ 4 foos_run) as [Hn Hr].
  split; [exact Hn|]. destruct Hr as (r & [= <-] & Hr); [|exact Hr].
  intros st Hst. inversion Hst.
Defined.

Definition foo1 : gmap string nat := {[ "foo1" := 1 ]}.
Lemma foo1_run :
  in_a_row demo_regexp [GetByRegex "^foo"; Objects] [RRegex foo1 (Ok tt); RObjects (Some foo1)] foo1 foo1.
Proof.
  eapply row_cons; [|eapply row_cons; [|constructor]].
  - eapply rtc_l; [by apply b_regex|]. unfold foo1. rewrite map_to_list_singleton.
    eapply rtc_l; [by apply (b_regex_next demo_regexp "^foo" "foo1" 1 _ _ _ true)|].
    apply rtc_once, b_regex_end.
  - eapply rtc_l; [by apply b_objects|]. unfold foo1. rewrite map_to_list_singleton.
    eapply rtc_l; [apply b_objects_next|]. apply rtc_once, b_objects_end.
Qed.
Lemma equivalent_calls_witness :
  (exists s1 s2 : gmap string nat,
    in_a_row no_regexp [Supplant {[ "a" := 1 ]}] [RUnit] {[ "b" := 2 ]} s1 /\
    in_a_row no_regexp [Purge; Set_ "a" 1] [RUnit; RUnit] {[ "b" := 2 ]} s2 /\ s1 = s2) /\
  (foo1 = foo1 /\ exists entries, RRegex foo1 (Ok tt) = RRegex entries (Ok tt) /\
     RObjects (Some foo1) = RObjects (if bool_decide (entries = ∅) then None else Some entries)).
Proof.
  assert (in_a_row no_regexp [Supplant {[ "a" := 1 ]}] [RUnit] {[ "b" := 2 ]} {[ "a" := 1 ]}) as H1.
  { eapply row_cons; [|constructor]. eapply rtc_l; [by apply b_supplant|]. rewrite map_to_list_singleton.
    eapply rtc_l; [apply b_supplant_next|]. by apply rtc_once, (b_supplant_end no_regexp (<["a" := 1]> ∅)). }
  assert (in_a_row no_regexp [Purge; Set_ "a" 1] [RUnit; RUnit] {[ "b" := 2 ]} {[ "a" := 1 ]}) as H2.
  { eapply row_cons; [apply rtc_once, b_purge|]. eapply row_cons; [|constructor].
    by apply rtc_once, (b_set no_regexp "a" 1 ∅). }
  split.
  - exists {[ "a" := 1 ]}, {[ "a" := 1 ]}. split; [exact H1|]. split; [exact H2|].
    refine (proj1 (equivalent_calls no_regexp {[ "a" := 1 ]} {[ "b" := 2 ]} _ _ [("a", 1)] [RUnit] [RUnit; RUnit]
      "" (fun _ => true) RUnit RUnit) H1 _ H2).
    by rewrite map_to_list_singleton.
  - refine (proj2 (equivalent_calls demo_regexp ∅ foo1 foo1 ∅ [] [] [] "^foo" (fun s => HasPrefix s "foo") _ _)
      eq_refl _ foo1_run).
    intros k [x Hx]. unfold foo1 in Hx. apply lookup_singleton_Some in Hx as [<- _]. reflexivity.
Defined.
