(* ===== verification/ExecCmd.v ===== *)
(** * exec: the os/exec wrapper (exec/exec.go): exit codes, command lines, [FullOutput],
    and the two goroutines behind [Run]. *)
From S2P Require Import Prelude.
From S2P Require Import GoStrings.
From S2P Require Import GoErrors.

Local Open Scope string_scope.

(** ** What the standard library gives *)
(** [syscall.WaitStatus] on Unix: the low seven bits are the signal that ended the process,
    or zero; the exit status is the next byte. *)
Definition WaitStatus : Type := Z.
Definition Exited (w : WaitStatus) : bool := (Z.land w 0x7F =? 0)%Z.
Definition ExitStatus (w : WaitStatus) : Z :=
  if negb (Exited w) then (-1)%Z else Z.land (Z.shiftr w 8) 0xFF.
(** The errors of [Cmd.Wait] and of a context: an [*exec.ExitError] with what its [Sys]
    holds, when that is a [WaitStatus], or any other error. *)
Inductive cmd_error : Type :=
| ExitError (sys : option WaitStatus)
| OtherError (e : error).
Global Instance cmd_error_eq_dec : EqDecision cmd_error.
Proof. solve_decision. Defined.

(** ** [exitCode]: the code and the error, [None] for nil *)
Definition exitCode (e : option cmd_error) : Z * option cmd_error :=
  match e with
  | None => (0%Z, None)
  | Some (ExitError (Some status)) =>
      if negb (ExitStatus status =? -1)%Z then (ExitStatus status, None) else (0%Z, e)
  | Some _ => (0%Z, e)
  end.

(** ** Commands *)
Record Cmd : Type := MkCmd { Args : list string; WithContext : bool }.
(** [commandParts]: [None] is the panic of an empty command. *)
Definition commandParts (command : list string) : option (string * list string) :=
  match command with [] => None | name :: arg => Some (name, arg) end.
(** [exec.Command] and [exec.CommandContext] keep the name as the first argument. *)
Definition Command (command : list string) : option Cmd :=
  '(name, arg) ← commandParts command; Some (MkCmd (name :: arg) false).
Definition CommandContext (command : list string) : option Cmd :=
  '(name, arg) ← commandParts command; Some (MkCmd (name :: arg) true).

(** The process: what [Start] answers, what [Wait] answers and what the process wrote,
    given the arguments it is started with. *)
Record process : Type := MkProcess {
  proc_start : list string -> option cmd_error;
  proc_wait : list string -> option cmd_error;
  proc_stdout : list string -> string;
  proc_stderr : list string -> string;
}.
(** The rewriting of a PowerShell script's arguments, in [FullOutput] and in [Run]. *)
Definition fix_args (windows : bool) (args : list string) : list string :=
  match args with
  | [a0; a1] =>
      if windows && Contains a0 "powershell.exe" && HasSuffix a1 ".ps1"
      then [a0; "-File"; a1] else args
  | _ => args
  end.
Definition run_args (windows : bool) (arg : list string) : list string :=
  match arg with
  | [a0] => if windows && HasSuffix a0 ".ps1" then ["-File"; a0] else arg
  | _ => arg
  end.
(** [FullOutput]: stdout, stderr (nil when the process was not started), code and error. *)
Definition FullOutput (windows : bool) (p : process) (c : Cmd)
    : option string * option string * Z * option cmd_error :=
  let args := fix_args windows (Args c) in
  match proc_start p args with
  | Some err => (None, None, 0%Z, Some err)
  | None =>
      let '(code, err) := exitCode (proc_wait p args) in
      (Some (proc_stdout p args), Some (proc_stderr p args), code, err)
  end.
Definition SimpleFullOutput (windows : bool) (p : process) (command : list string)
    : option (option string * option string * Z * option cmd_error) :=
  c ← CommandContext command; Some (FullOutput windows p c).

(** ** [Run]: one goroutine runs the command, the other waits for it or for the context *)
Inductive runner_pc : Type :=
| RRun                          (* cmd.Run *)
| RSend (r : option cmd_error)  (* done <- result *)
| RClose                        (* the deferred w.Close *)
| RDead.
Inductive waiter_pc : Type :=
| WSelect                       (* select on ctx.Done and done *)
| WSend (r : option cmd_error)  (* the deferred Done <- err *)
| WDead.
(** The command and its output, stdout and stderr together, through an [io.Pipe]: a write
    waits until all of it is read. *)
Record command_io : Type := MkIO {
  argv : list string;    (* the command and its arguments *)
  background : bool;     (* the context given is nil *)
  unread : string;       (* what is being written *)
  output : string;       (* what the client has read *)
}.
Record run_state : Type := MkRun {
  runner : runner_pc;
  waiter : waiter_pc;
  ctx_err : option cmd_error;                (* the context's error once it is done *)
  done : option (option cmd_error);          (* the buffer of the done channel *)
  Done : option (option cmd_error);          (* the buffer of the Done channel *)
  pipe_closed : bool;
  received : list (option cmd_error);        (* what the client got from Done *)
  ended : option (option cmd_error);         (* what cmd.Run returned *)
  pipe : command_io;
}.
Definition Run (windows nil_ctx : bool) (command : string) (arg : list string) : run_state :=
  MkRun RRun WSelect None None None false [] None
    (MkIO (command :: run_args windows arg) nil_ctx "" "").
Definition set_pipe (p : command_io) (s : run_state) : run_state :=
  MkRun (runner s) (waiter s) (ctx_err s) (done s) (Done s) (pipe_closed s) (received s) (ended s) p.

(** The steps of the environment: the command writes, and the client reads some of it;
    [cmd.Run] returns when the command has ended and its output is read; the context is
    cancelled or times out, unless it is the background; the client receives. *)
Inductive env_step (s : run_state) : run_state -> Prop :=
| command_writes b :
    runner s = RRun -> unread (pipe s) = "" -> b <> "" ->
    env_step s (set_pipe (MkIO (argv (pipe s)) (background (pipe s)) b (output (pipe s))) s)
| client_reads b rest :
    unread (pipe s) = b ++ rest -> b <> "" ->
    env_step s (set_pipe (MkIO (argv (pipe s)) (background (pipe s)) rest (output (pipe s) ++ b)) s)
| command_ends r :
    runner s = RRun -> unread (pipe s) = "" ->
    env_step s (MkRun (RSend r) (waiter s) (ctx_err s) (done s) (Done s) (pipe_closed s) (received s) (Some r) (pipe s))
| context_done e :
    ctx_err s = None -> background (pipe s) = false ->
    env_step s (MkRun (runner s) (waiter s) (Some e) (done s) (Done s) (pipe_closed s) (received s) (ended s) (pipe s))
| client_receives r :
    Done s = Some r ->
    env_step s (MkRun (runner s) (waiter s) (ctx_err s) (done s) None (pipe_closed s)
      (received s ++ [r])%list (ended s) (pipe s)).
(** The steps of the goroutines. A send on a channel with a full buffer blocks. *)
Inductive go_step (s : run_state) : run_state -> Prop :=
| runner_sends r :
    runner s = RSend r -> done s = None ->
    go_step s (MkRun RClose (waiter s) (ctx_err s) (Some r) (Done s) (pipe_closed s) (received s) (ended s) (pipe s))
| runner_closes :
    runner s = RClose ->
    go_step s (MkRun RDead (waiter s) (ctx_err s) (done s) (Done s) true (received s) (ended s) (pipe s))
| waiter_context e :
    waiter s = WSelect -> ctx_err s = Some e ->
    go_step s (MkRun (runner s) (WSend (Some e)) (ctx_err s) (done s) (Done s) (pipe_closed s)
      (received s) (ended s) (pipe s))
| waiter_done r :
    waiter s = WSelect -> done s = Some r ->
    go_step s (MkRun (runner s) (WSend r) (ctx_err s) None (Done s) (pipe_closed s)
      (received s) (ended s) (pipe s))
| waiter_sends r :
    waiter s = WSend r -> Done s = None ->
    go_step s (MkRun (runner s) WDead (ctx_err s) (done s) (Some r) (pipe_closed s)
      (received s) (ended s) (pipe s)).
Definition run_step (s s' : run_state) : Prop := env_step s s' \/ go_step s s'.

Example exitCode_ex :
  map exitCode [None; Some (ExitError (Some 0x300)); Some (ExitError (Some 9));
                Some (ExitError None); Some (OtherError (errorsNew "x"))]%Z
  = [(0, None); (3, None); (0, Some (ExitError (Some 9))); (0, Some (ExitError None));
     (0, Some (OtherError (errorsNew "x")))]%Z.
Proof. vm_compute. reflexivity. Qed.

(** ** The invariant of a run *)
(** An answer on its way to the client: the error of the context or the command's own. *)
Definition allowed (s : run_state) (r : option cmd_error) : Prop :=
  (exists e, ctx_err s = Some e /\ r = Some e) \/ ended s = Some r.
Record run_inv (s : run_state) : Prop := {
  inv_runner : match runner s with
               | RRun => done s = None /\ pipe_closed s = false /\ ended s = None
               | RSend r => done s = None /\ pipe_closed s = false /\ ended s = Some r
               | RClose => pipe_closed s = false /\ is_Some (ended s)
               | RDead => pipe_closed s = true /\ is_Some (ended s)
               end;
  inv_unread : runner s <> RRun -> unread (pipe s) = "";
  inv_done : forall r, done s = Some r -> ended s = Some r;
  inv_waiting : waiter s = WSelect -> (runner s = RClose \/ runner s = RDead) -> is_Some (done s);
  inv_waiter : match waiter s with
               | WSelect => Done s = None /\ received s = []
               | WSend r => Done s = None /\ received s = [] /\ allowed s r
               | WDead => exists r, allowed s r /\
                   ((Done s = Some r /\ received s = []) \/ (Done s = None /\ received s = [r]))
               end;
}.
Lemma Run_inv windows nil_ctx command arg : run_inv (Run windows nil_ctx command arg).
Proof. split; simpl; try naive_solver. Qed.
Lemma allowed_mono s s' r :
  (forall e, ctx_err s = Some e -> ctx_err s' = Some e) ->
  (forall x, ended s = Some x -> ended s' = Some x) -> allowed s r -> allowed s' r.
Proof. intros Hc He [(e & Hs & ->)|Hs]; [left; exists e; auto|right; auto]. Qed.
(** The environment only adds to what is allowed. *)
Lemma env_inv s s' : run_inv s -> env_step s s' -> run_inv s'.
Proof.
  intros [Hr Hu Hd Hw Ha] Hstep. destruct Hstep as [b Hrun Hb Hne|b rest Hb Hne|r Hrun Hb|e Hc Hbg|r HD].
  - split; [done| |done..]. intros Hx. by destruct (Hx Hrun).
  - split; [done| |done..]. intros Hx. apply Hu in Hx. rewrite Hx in Hb. by destruct b.
  - rewrite Hrun in *. destruct Hr as (Hdn & Hp & He). split; simpl.
    + done.
    + done.
    + rewrite Hdn. done.
    + naive_solver.
    + destruct (waiter s); [done| |].
      * destruct Ha as (? & ? & Hal). split; [done|]. split; [done|].
        eapply allowed_mono; [|..|exact Hal]; simpl; [done|congruence].
      * destruct Ha as (x & Hal & Hx). exists x. split; [|done].
        eapply allowed_mono; [|..|exact Hal]; simpl; [done|congruence].
  - split; simpl; [done|done|done|done|]. destruct (waiter s); [done| |].
    + destruct Ha as (? & ? & Hal). split; [done|]. split; [done|].
      eapply allowed_mono; [|..|exact Hal]; simpl; [congruence|done].
    + destruct Ha as (x & Hal & Hx). exists x. split; [|done].
      eapply allowed_mono; [|..|exact Hal]; simpl; [congruence|done].
  - split; simpl; [done|done|done|done|]. rewrite HD in Ha. destruct (waiter s); [by destruct Ha|by destruct Ha|].
    destruct Ha as (x & Hal & [[[= ->] ->]|[? _]]); [|done]. exists x. split; [exact Hal|]. by right.
Qed.
Lemma go_inv s s' : run_inv s -> go_step s s' -> run_inv s'.
Proof.
  intros [Hr Hu Hd Hw Ha] Hstep. destruct Hstep as [r Hrun Hdn|Hrun|e Hwt Hc|r Hwt Hdn|r Hwt HD].
  - rewrite Hrun in *. destruct Hr as (_ & Hp & He).
    split; simpl; [by eauto|intros _; by apply Hu|congruence|by eauto|exact Ha].
  - rewrite Hrun in *. destruct Hr as (Hp & He).
    split; simpl; [done|intros _; by apply Hu|done|intros Hx _; apply Hw; auto|exact Ha].
  - rewrite Hwt in *. destruct Ha as [HD Hrc]. split; simpl; [done|done|done|done|].
    split; [done|]. split; [done|]. left. eauto.
  - rewrite Hwt in *. destruct Ha as [HD Hrc]. split; simpl; [|done|done|done|].
    + destruct (runner s); naive_solver.
    + split; [done|]. split; [done|]. right. by apply Hd.
  - rewrite Hwt in *. destruct Ha as (_ & Hrc & Hal). split; simpl; [done|done|done|done|].
    exists r. split; [exact Hal|]. by left.
Qed.
Lemma run_inv_step s s' : run_inv s -> run_step s s' -> run_inv s'.
Proof. intros Hi [Hs|Hs]; [by eapply env_inv|by eapply go_inv]. Qed.
Definition reachable (s : run_state) : Prop :=
  exists windows nil_ctx command arg, rtc run_step (Run windows nil_ctx command arg) s.
Lemma reachable_inv s : reachable s -> run_inv s.
Proof.
  intros (windows & nil_ctx & command & arg & Hr).
  refine (rtc_invariant run_step run_inv _ _ _ _ Hr); [apply run_inv_step|apply Run_inv].
Qed.
(** The command that was started stays the same. *)
Lemma argv_same s s' : rtc run_step s s' ->
  argv (pipe s') = argv (pipe s) /\ background (pipe s') = background (pipe s).
Proof.
  induction 1 as [|s s1 s' Hs _ [IH1 IH2]]; [done|]. rewrite IH1, IH2.
  destruct Hs as [Hs|Hs]; by destruct Hs.
Qed.

(** Steps the goroutines can still make on their own. *)
Definition steps_left (s : run_state) : nat :=
  match runner s with RSend _ => 2 | RClose => 1 | _ => 0 end +
  match waiter s with WSelect => 2 | WSend _ => 1 | WDead => 0 end.
Lemma go_decreases s s' : go_step s s' -> S (steps_left s') = steps_left s.
Proof.
  intros Hs. unfold steps_left. destruct Hs as [r Hrun Hdn|Hrun|e Hwt Hc|r Hwt Hdn|r Hwt HD]; simpl;
    rewrite ?Hrun, ?Hwt; simpl; lia.
Qed.
Lemma go_stuck s : run_inv s -> runner s <> RRun -> (forall s', ~ go_step s s') ->
  runner s = RDead /\ waiter s = WDead.
Proof.
  intros [Hr Hu Hd Hw Ha] Hne Hstuck. assert (runner s = RDead) as Hrd.
  { destruct (runner s) as [|r| |] eqn:Hrun; try done; exfalso.
    - destruct Hr as (Hdn & _). by eapply Hstuck, runner_sends.
    - by eapply Hstuck, runner_closes. }
  split; [done|]. destruct (waiter s) as [|r|] eqn:Hwt; try done; exfalso.
  - destruct Hw as [r Hdn]; [done|by right|]. by eapply Hstuck, waiter_done.
  - destruct Ha as (HD & _). by eapply Hstuck, waiter_sends.
Qed.
Lemma go_bounded n s s' : nsteps go_step n s s' -> n + steps_left s' = steps_left s.
Proof.
  revert s. induction n as [|n IH]; intros s Hn; inversion Hn as [|? ? t ? Hstep Hrest]; subst; [done|].
  apply IH in Hrest. apply go_decreases in Hstep. lia.
Qed.
Lemma go_runner n s s' : nsteps go_step n s s' -> runner s <> RRun -> runner s' <> RRun.
Proof.
  revert s. induction n as [|n IH]; intros s Hn Hne; inversion Hn as [|? ? t ? Hstep Hrest]; subst; [done|].
  apply (IH t Hrest). destruct Hstep; simpl; try done; congruence.
Qed.

(** While the client reads nothing, a command that is writing keeps its goroutine: not even
    the end of its context lets [cmd.Run] return. *)
Lemma append_self (s b : string) : s ++ b = s -> b = "".
Proof. induction s as [|c s IH]; simpl; [done|]. intros [= H]. auto. Qed.
Lemma unread_kept s s' : run_step s s' -> runner s = RRun -> unread (pipe s) <> "" ->
  output (pipe s') = output (pipe s) ->
  runner s' = RRun /\ unread (pipe s') = unread (pipe s).
Proof.
  intros [Hs|Hs] Hrun Hb Ho; destruct Hs as [c Hc He Hn|c rest Hc Hn| | |]; simpl in *; try done; try congruence.
  by apply append_self in Ho.
Qed.
Inductive unread_step (s s' : run_state) : Prop :=
| unread_step_intro : run_step s s' -> output (pipe s') = output (pipe s) -> unread_step s s'.
Lemma unread_output_keeps_goroutine s s' :
  rtc unread_step s s' -> runner s = RRun -> unread (pipe s) <> "" ->
  runner s' = RRun /\ pipe_closed s' = pipe_closed s.
Proof.
  induction 1 as [|s t s' [Hs Ho] _ IH]; intros Hrun Hb; [done|].
  destruct (unread_kept s t Hs Hrun Hb Ho) as [Hrt Hbt].
  assert (pipe_closed t = pipe_closed s) as Hp.
  { destruct Hs as [Hs|Hs]; destruct Hs; simpl in *; try done; congruence. }
  rewrite <-Hp. apply IH; [done|congruence].
Qed.

(** ** Properties *)

(** [exitCode] is exact: it reports a code without an error for no error (0) and for a
    process that exited on its own, whose code it is, between 0 and 255; a process ended by
    a signal and every other failure is an error, with code 0. *)
Theorem exitCode_exact (e : option cmd_error) :
  let '(code, err) := exitCode e in
  match err with
  | None => (e = None /\ code = 0%Z) \/
            (exists w, e = Some (ExitError (Some w)) /\ Exited w = true /\
               code = Z.land (Z.shiftr w 8) 0xFF /\ (0 <= code <= 255)%Z)
  | Some _ => err = e /\ code = 0%Z /\
              forall w, e = Some (ExitError (Some w)) -> Exited w = false
  end.
Proof.
  destruct e as [[[w|]|e]|]; simpl; [|done|done|by left].
  unfold ExitStatus. destruct (Exited w) eqn:Hw; simpl.
  - assert (0 <= Z.land (Z.shiftr w 8) 0xFF <= 255)%Z as Hr.
    { assert (Z.land (Z.shiftr w 8) 255 = Z.shiftr w 8 mod 256)%Z as -> by by apply (Z.land_ones _ 8).
      pose proof (Z.mod_pos_bound (Z.shiftr w 8) 256 ltac:(lia)). lia. }
    destruct (Z.eqb_spec (Z.land (Z.shiftr w 8) 0xFF) (-1)); [lia|]. simpl. right. by exists w.
  - split; [done|]. split; [done|]. intros w' [= <-]. done.
Qed.

(** C27. The client of [Run] gets at most one answer from [Done], and it is the command's
    result or the error of a context that is done; the output pipe is closed only after
    the command has ended and the client has read all of its output. *)
Theorem Run_answers_once (s : run_state) :
  reachable s ->
  (received s = [] \/ exists r, received s = [r] /\ Done s = None /\
     ((exists e, ctx_err s = Some e /\ r = Some e) \/ ended s = Some r)) /\
  (pipe_closed s = true -> is_Some (ended s) /\ unread (pipe s) = "").
Proof.
  intros Hr. destruct (reachable_inv s Hr) as [Hrun Hu _ _ Ha]. split.
  - destruct (waiter s); [left; apply Ha|left; apply Ha|].
    destruct Ha as (r & Hal & [[_ Hrc]|[HD Hrc]]); [by left|right]. exists r. split; [done|by split].
  - intros Hp. split; [|apply Hu; intros Hx; rewrite Hx in Hrun; destruct_and!; congruence].
    destruct (runner s); destruct_and!; congruence || done.
Qed.

(** C28. Once the command has ended, neither goroutine of [Run] leaks, whether or not the
    client ever receives: in at most four steps of their own both are gone, whatever the
    order, and the answer is in the [Done] channel or received. *)
Theorem Run_goroutines_end (s s' : run_state) (n : nat) :
  reachable s -> runner s <> RRun -> nsteps go_step n s s' ->
  n <= 4 /\ ((forall s2, ~ go_step s' s2) ->
    runner s' = RDead /\ waiter s' = WDead /\ pipe_closed s' = true /\
    exists r, Done s' = Some r \/ received s' = [r]).
Proof.
  intros Hr Hne Hn. split.
  - apply go_bounded in Hn. unfold steps_left in *. destruct (runner s), (waiter s); lia.
  - intros Hstuck. assert (run_inv s') as Hi.
    { refine (rtc_invariant go_step run_inv s s' go_inv (reachable_inv s Hr) _).
      by eapply rtc_nsteps_2. }
    pose proof (go_runner n s s' Hn Hne) as Hne'.
    destruct (go_stuck s' Hi Hne' Hstuck) as [Hrd Hwd]. split; [done|]. split; [done|].
    destruct Hi as [Hrun _ _ _ Ha]. rewrite Hrd in Hrun. rewrite Hwd in Ha. split; [apply Hrun|].
    destruct Ha as (r & _ & Hx). exists r. naive_solver.
Qed.

(** [FullOutput] gives the output of the process and its exit code when it could be
    started, also when the code is not zero; the error is the failure to start or to wait. *)
Theorem FullOutput_exact (windows : bool) (p : process) (command : list string) :
  command <> [] ->
  exists c, CommandContext command = Some c /\ Args c = command /\
  (windows = false -> fix_args windows (Args c) = command) /\
  let '(out, errs, code, err) := FullOutput windows p c in
  let args := fix_args windows command in
  SimpleFullOutput windows p command = Some (out, errs, code, err) /\
  match proc_start p args with
  | Some e => out = None /\ errs = None /\ code = 0%Z /\ err = Some e
  | None => out = Some (proc_stdout p args) /\ errs = Some (proc_stderr p args) /\
            (code, err) = exitCode (proc_wait p args)
  end.
Proof.
  intros Hc. destruct command as [|name arg]; [done|]. exists (MkCmd (name :: arg) true).
  split; [done|]. split; [done|]. split.
  - intros ->. simpl. by destruct arg as [|? [|? ?]].
  - assert (SimpleFullOutput windows p (name :: arg)
      = Some (FullOutput windows p (MkCmd (name :: arg) true))) as -> by done.
    unfold FullOutput. cbn [Args]. destruct (proc_start p _); [done|].
    by destruct (exitCode _).
Qed.

(** ** Witnesses *)
(** A command that exits with code 3 before its context is done. *)
Definition code3 : option cmd_error := Some (ExitError (Some 0x300%Z)).
Definition demo_run : run_state := Run false false "sh" ["-c"].
Definition run_ended : run_state :=
  MkRun (RSend code3) WSelect None None None false [] (Some code3)
    (MkIO ["sh"; "-c"] false "" "out").
Lemma run_ended_reachable : reachable run_ended.
Proof.
  exists false, false, "sh", ["-c"].
  eapply rtc_l; [left; by apply (command_writes demo_run "out")|].
  eapply rtc_l; [left; by eapply (client_reads _ "out" "")|].
  apply rtc_once. left. by apply (command_ends (set_pipe (MkIO ["sh"; "-c"] false "" "out") demo_run) code3).
Qed.
Lemma Run_answers_once_witness :
  (received run_ended = [] \/ exists r, received run_ended = [r] /\ Done run_ended = None /\
     ((exists e, ctx_err run_ended = Some e /\ r = Some e) \/ ended run_ended = Some r)) /\
  (pipe_closed run_ended = true -> is_Some (ended run_ended) /\ unread (pipe run_ended) = "").
Proof. exact (Run_answers_once run_ended run_ended_reachable). Defined.
Lemma Run_goroutines_end_witness :
  0 <= 4 /\ ((forall s2, ~ go_step run_ended s2) ->
    runner run_ended = RDead /\ waiter run_ended = WDead /\ pipe_closed run_ended = true /\
    exists r, Done run_ended = Some r \/ received run_ended = [r]).
Proof.
  apply (Run_goroutines_end run_ended run_ended 0 run_ended_reachable); [discriminate|constructor].
Defined.
Definition demo_process : process :=
  MkProcess (fun _ => None) (fun _ => code3) (fun _ => "out") (fun _ => "err").
Lemma FullOutput_exact_witness :
  exists c, CommandContext ["sh"; "-c"] = Some c /\ Args c = ["sh"; "-c"] /\
  (false = false -> fix_args false (Args c) = ["sh"; "-c"]) /\
  let '(out, errs, code, err) := FullOutput false demo_process c in
  SimpleFullOutput false demo_process ["sh"; "-c"] = Some (out, errs, code, err) /\
  (out = Some "out" /\ errs = Some "err" /\ (code, err) = exitCode code3).
Proof. exact (FullOutput_exact false demo_process ["sh"; "-c"] ltac:(discriminate)). Defined.
