(* ===== verification/Transport.v ===== *)
(** * dcos/http/transport: the HTTP transport that authenticates with a signed token
    (roundtripper.go, option.go, transport.go). *)
From S2P Require Import Prelude.
From S2P Require Import GoStrings.
From S2P Require Import GoErrors.

Local Open Scope string_scope.

(** ** Requests and responses *)
(** Canonical header names and their values. *)
Definition Header : Type := gmap string (list string).
Definition Header_Set (k v : string) (h : Header) : Header := <[k := [v]]> h.
Definition Header_Add (k v : string) (h : Header) : Header := <[k := (default [] (h !! k) ++ [v])%list]> h.
(** A body is a stream: the transport that sends it reads it and closes it, as
    [http.RoundTripper] demands. The login request has its JSON fields. *)
Inductive Body : Type :=
| NoBody
| Open (content : string)
| LoginBody (uid token : string) (exp : Z)
| Closed.
Definition close_body (b : Body) : Body := match b with NoBody => NoBody | _ => Closed end.
Record Request : Type := MkRequest { Method : string; URL : string; req_Header : Header; req_Body : Body }.
Definition with_header (h : Header) (r : Request) : Request := MkRequest (Method r) (URL r) h (req_Body r).
Definition sent_request (r : Request) : Request :=
  MkRequest (Method r) (URL r) (req_Header r) (close_body (req_Body r)).
(** [resp_body]: the bytes of the body, up to where it can be read. *)
Record Response : Type := MkResponse { StatusCode : Z; resp_body : string }.

Inductive transport_error : Type :=
| ErrTokenRefresh (msg : string)
| ErrEmptyToken
| ErrWrongRoundTripperImpl
| ErrInvalidCredentials
| ErrInvalidUserAgent
| ErrInvalidExpireDuration
| ErrOther (e : error).

Section transport.
(** [W] is the world the wrapped [http.RoundTripper] acts on. Third-party and system code
    the package calls: the signing of a token (jose, jwt), the parsing of a private key
    (pem, x509), the clock (Unix seconds after a duration; it is read twice), files, what
    decoding JSON text into the structure of a token gives. *)
Context {W Key Pool : Type}.
Record transport_env : Type := MkEnv {
  rt : Request -> W -> res error Response * W;
  sign : option Key -> string -> Z -> res error string;
  now_plus1 : W -> Z -> Z;
  now_plus2 : W -> Z -> Z;
  NewRequest_err : string -> option error;
  decode_token : string -> res error string;
  parse_key : string -> option Key;
  read_config : string -> res error (string * string * string);
  read_file : string -> res error string;
  parse_certs : string -> option Pool;
}.
Variable env : transport_env.

Record dcosRoundtripper : Type := MkRoundtripper {
  token : string;
  expire : Z;
  uid : string;
  loginEndpoint : string;
  userAgent : string;
  secret : option Key;
}.
Definition set_token (tk : string) (t : dcosRoundtripper) : dcosRoundtripper :=
  MkRoundtripper tk (expire t) (uid t) (loginEndpoint t) (userAgent t) (secret t).
Definition set_expire (d : Z) (t : dcosRoundtripper) : dcosRoundtripper :=
  MkRoundtripper (token t) d (uid t) (loginEndpoint t) (userAgent t) (secret t).
Definition set_userAgent (u : string) (t : dcosRoundtripper) : dcosRoundtripper :=
  MkRoundtripper (token t) (expire t) (uid t) (loginEndpoint t) u (secret t).
Definition set_credentials (u l : string) (k : option Key) (t : dcosRoundtripper) : dcosRoundtripper :=
  MkRoundtripper (token t) (expire t) u l (userAgent t) k.

(** ** option.go. An option may change the object before it fails, so it gives both back;
    what it does to the object is lost with the error, since the caller returns nil. *)
Definition OptionRoundtripperFunc : Type := dcosRoundtripper -> option transport_error * dcosRoundtripper.
Definition OptionTokenExpire (d : Z) : OptionRoundtripperFunc := fun j =>
  if (d <? 1)%Z then (Some ErrInvalidExpireDuration, j) else (None, set_expire d j).
Definition OptionCredentials (u sec login : string) : OptionRoundtripperFunc := fun j =>
  if bool_decide (u = "") || bool_decide (sec = "") || bool_decide (login = "")
  then (Some ErrInvalidCredentials, j)
  else
    let j := set_credentials u login (secret j) j in
    match parse_key env sec with
    | Some key => (None, set_credentials u login (Some key) j)
    | None => (Some ErrInvalidCredentials, j)
    end.
Definition OptionUserAgent (u : string) : OptionRoundtripperFunc := fun j =>
  if bool_decide (u = "") then (Some ErrInvalidUserAgent, j) else (None, set_userAgent u j).
Definition OptionReadIAMConfig (path : string) : OptionRoundtripperFunc := fun j =>
  match read_config env path with
  | Fail err => (Some (ErrOther err), j)
  | Ok (u, sec, login) => OptionCredentials u sec login j
  end.
Definition errorOnEmpty (arg : string) : option transport_error :=
  if (len arg =? 0)%Z then Some (ErrOther (errorsNew "Must pass non-empty string to this option")) else None.

(** ** [GenerateToken]: sign the claims, post them to the login endpoint, keep the token of
    the answer *)
Definition login_request (t : dcosRoundtripper) (tokenStr : string) (exp : Z) : Request :=
  MkRequest "POST" (loginEndpoint t) (Header_Add "Content-Type" "application/json" ∅)
    (LoginBody (uid t) tokenStr exp).
Definition GenerateToken (t : dcosRoundtripper) (w : W)
    : option transport_error * dcosRoundtripper * W :=
  match sign env (secret t) (uid t) (now_plus1 env w (expire t)) with
  | Fail err => (Some (ErrOther err), t, w)
  | Ok tokenStr =>
      if bool_decide (tokenStr = "") then (Some ErrEmptyToken, t, w)
      else match NewRequest_err env (loginEndpoint t) with
      | Some err => (Some (ErrOther err), t, w)
      | None =>
          match rt env (login_request t tokenStr (now_plus2 env w (expire t))) w with
          | (Fail err, w) => (Some (ErrOther err), t, w)
          | (Ok resp, w) =>
              if negb (StatusCode resp =? 200)%Z
              then (Some (ErrTokenRefresh ("POST " ++ loginEndpoint t ++
                      " failed, expect response code 200. Got " ++ Itoa (StatusCode resp))), t, w)
              else match decode_token env (resp_body resp) with
                   | Fail err => (Some (ErrOther err), t, w)
                   | Ok tk => (None, set_token tk t, w)
                   end
          end
      end
  end.
Definition CurrentToken (t : dcosRoundtripper) : string := token t.

(** ** [RoundTrip]: the response and the error, either of which may be nil *)
Definition addAuthToken (t : dcosRoundtripper) (req : Request) : Request :=
  if bool_decide (CurrentToken t = "") then req
  else with_header (Header_Set "Authorization" ("token=" ++ CurrentToken t) (req_Header req)) req.
Definition addUserAgent (t : dcosRoundtripper) (req : Request) : Request :=
  let ua := if negb (bool_decide (userAgent t = "")) then userAgent t else "dcos-go" in
  with_header (Header_Set "User-Agent" ua (req_Header req)) req.
Definition RoundTrip (t : dcosRoundtripper) (req : Request) (w : W)
    : option Response * option transport_error * dcosRoundtripper * W :=
  let req := addAuthToken t (addUserAgent t req) in
  match rt env req w with
  | (Fail err, w) => (None, Some (ErrOther err), t, w)
  | (Ok resp, w) =>
      if (StatusCode resp =? 401)%Z then
        match GenerateToken t w with
        | (Some err, t, w) => (Some resp, Some err, t, w)
        | (None, t, w) =>
            match rt env (addAuthToken t (sent_request req)) w with
            | (Fail err, w) => (None, Some (ErrOther err), t, w)
            | (Ok resp, w) => (Some resp, None, t, w)
            end
        end
      else (Some resp, None, t, w)
  end.

(** ** [NewRoundTripper] *)
Fixpoint apply_options (opts : list (option OptionRoundtripperFunc)) (t : dcosRoundtripper)
    : res transport_error dcosRoundtripper :=
  match opts with
  | [] => Ok t
  | None :: opts => apply_options opts t
  | Some opt :: opts =>
      match opt t with
      | (Some err, _) => Fail err
      | (None, t) => apply_options opts t
      end
  end.
Definition five_days : Z := 1000000000 * 3600 * 24 * 5.
Definition NewRoundTripper (opts : list (option OptionRoundtripperFunc)) (w : W)
    : res transport_error dcosRoundtripper * W :=
  match apply_options opts (MkRoundtripper "" 0 "" "" "" None) with
  | Fail err => (Fail err, w)
  | Ok t =>
      let t := if (expire t <? 1)%Z then set_expire five_days t else t in
      match GenerateToken t w with
      | (Some err, _, w) => (Fail err, w)
      | (None, t, w) => (Ok t, w)
      end
  end.

(** ** transport.go *)
Record tls_config : Type := MkTLS { RootCAs : option Pool; InsecureSkipVerify : bool }.
Definition loadCAPool (path : string) : res transport_error Pool :=
  match read_file env path with
  | Fail err => Fail (ErrOther err)
  | Ok b =>
      match parse_certs env b with
      | None => Fail (ErrOther (errorsNew "CACertFile parsing failed"))
      | Some caPool => Ok caPool
      end
  end.
Definition configureTLS (caCertificatePath : string) : res transport_error tls_config :=
  if negb (bool_decide (caCertificatePath = "")) then
    caPool ← loadCAPool caCertificatePath; Ok (MkTLS (Some caPool) false)
  else Ok (MkTLS None true).
Record dcosTransport : Type := MkTransport { CaCertificatePath : string; IAMConfigPath : string }.
Definition OptionTransportFunc : Type := dcosTransport -> option transport_error * dcosTransport.
Definition OptionCaCertificatePath (p : string) : OptionTransportFunc := fun o =>
  match errorOnEmpty p with
  | None => (None, MkTransport p (IAMConfigPath o))
  | Some err => (Some err, o)
  end.
Definition OptionIAMConfigPath (p : string) : OptionTransportFunc := fun o =>
  match errorOnEmpty p with
  | None => (None, MkTransport (CaCertificatePath o) p)
  | Some err => (Some err, o)
  end.
Fixpoint transport_options (opts : list OptionTransportFunc) (o : dcosTransport)
    : res transport_error dcosTransport :=
  match opts with
  | [] => Ok o
  | opt :: opts =>
      match opt o with (Some err, _) => Fail err | (None, o) => transport_options opts o end
  end.
(** What a [NewTransport] gives: a plain transport, or one that authenticates over it. *)
Inductive made : Type :=
| Plain (c : tls_config)
| WithIAM (c : tls_config) (t : dcosRoundtripper).
End transport.
Arguments transport_env : clear implicits.
Arguments dcosRoundtripper : clear implicits.
Arguments tls_config : clear implicits.
Arguments made : clear implicits.

(** [envs] gives the environment whose [rt] is the transport with a TLS configuration. *)
Definition NewTransport {W Key Pool} (envs : tls_config Pool -> transport_env W Key Pool)
    (opts : list OptionTransportFunc) (w : W) : res transport_error (made Key Pool) * W :=
  match transport_options opts (MkTransport "" "") with
  | Fail err => (Fail err, w)
  | Ok t =>
      match configureTLS (envs (MkTLS None true)) (CaCertificatePath t) with
      | Fail err => (Fail err, w)
      | Ok tr =>
          if negb (len (IAMConfigPath t) =? 0)%Z then
            match NewRoundTripper (envs tr) [Some (OptionReadIAMConfig (envs tr) (IAMConfigPath t))] w with
            | (Fail err, w) => (Fail err, w)
            | (Ok withIAM, w) => (Ok (WithIAM tr withIAM), w)
            end
          else (Ok (Plain tr), w)
      end
  end.
(** [DebugTransport]: only the authenticating transport has the methods of [Debug]. *)
Definition DebugTransport {Key Pool} (m : made Key Pool) : res transport_error (dcosRoundtripper Key) :=
  match m with
  | WithIAM _ t => Ok t
  | Plain _ => Fail ErrWrongRoundTripperImpl
  end.
