(* ===== verification/TransportTheorems.v ===== *)
(** * What the authenticating transport guarantees: what it sends, when its token changes,
    what its constructors give. *)
From S2P Require Import Prelude.
From S2P Require Import GoStrings.
From S2P Require Import GoErrors.
From S2P Require Import Transport.

Local Open Scope string_scope.

(** ** Observing what is sent *)
(** The environment [env] over a world that also keeps the requests in the order sent. *)
Definition logged {W Key Pool} (env : transport_env W Key Pool)
    : transport_env (W * list Request) Key Pool :=
  {| rt := fun r '(w, l) => let '(x, w) := rt env r w in (x, (w, (l ++ [r])%list));
     sign := sign env;
     now_plus1 := fun '(w, _) d => now_plus1 env w d;
     now_plus2 := fun '(w, _) d => now_plus2 env w d;
     NewRequest_err := NewRequest_err env; decode_token := decode_token env;
     parse_key := parse_key env;
     read_config := read_config env;
     read_file := read_file env;
     parse_certs := parse_certs env |}.

Section generate.
Context {W Key Pool : Type}.
Implicit Types (env : transport_env W Key Pool) (t : dcosRoundtripper Key) (w : W).

(** What a login that succeeds did: [r] was posted and answered with the token [tk]. *)
Definition logged_in env t w r tk w' : Prop :=
  exists jwt resp, sign env (secret t) (uid t) (now_plus1 env w (expire t)) = Ok jwt /\ jwt <> ""
    /\ NewRequest_err env (loginEndpoint t) = None
    /\ r = login_request t jwt (now_plus2 env w (expire t))
    /\ rt env r w = (Ok resp, w') /\ StatusCode resp = 200%Z /\ decode_token env (resp_body resp) = Ok tk.

Lemma GenerateToken_ok env t w t' w' :
  GenerateToken env t w = (None, t', w') ->
  exists r tk, logged_in env t w r tk w' /\ t' = set_token tk t.
Proof.
  unfold GenerateToken. destruct (sign env _ _ _) as [?|jwt] eqn:Hs; [discriminate|].
  case_bool_decide as Hj; [discriminate|]. destruct (NewRequest_err env _) eqn:Hn; [discriminate|].
  destruct (rt env _ w) as [[?|resp] w1] eqn:Hr; [discriminate|].
  destruct (Z.eqb_spec (StatusCode resp) 200); simpl; [|discriminate].
  destruct (decode_token env (resp_body resp)) as [?|tk] eqn:Ht; [discriminate|]. intros [= <- <-].
  exists (login_request t jwt (now_plus2 env w (expire t))), tk. split; [|reflexivity].
  by exists jwt, resp.
Qed.

Lemma GenerateToken_fail env t w err t' w' :
  GenerateToken env t w = (Some err, t', w') -> t' = t.
Proof.
  unfold GenerateToken. destruct (sign env _ _ _) as [?|jwt]; [congruence|].
  case_bool_decide; [congruence|]. destruct (NewRequest_err env _); [congruence|].
  destruct (rt env _ w) as [[?|resp] w1]; [congruence|].
  destruct (negb _); [congruence|]. destruct (decode_token env (resp_body resp)); congruence.
Qed.

Lemma logged_in_GenerateToken env t w r tk w' :
  logged_in env t w r tk w' -> GenerateToken env t w = (None, set_token tk t, w').
Proof.
  intros (jwt & resp & Hs & Hj & Hn & -> & Hr & Hc & Ht). unfold GenerateToken. rewrite Hs.
  case_bool_decide; [done|]. rewrite Hn, Hr, Hc. simpl. by rewrite Ht.
Qed.

(** A login sends at most the one request of the login. *)
Lemma GenerateToken_log env t w l :
  exists sent, (GenerateToken (logged env) t (w, l)).2 =
                ((GenerateToken env t w).2, (l ++ sent)%list)
    /\ (GenerateToken (logged env) t (w, l)).1 = (GenerateToken env t w).1
    /\ (sent = [] \/ exists jwt, sent = [login_request t jwt (now_plus2 env w (expire t))]).
Proof.
  unfold GenerateToken. simpl. destruct (sign env _ _ _) as [?|jwt];
    [exists []; simpl; rewrite app_nil_r; auto|].
  case_bool_decide; [exists []; simpl; rewrite app_nil_r; auto|].
  destruct (NewRequest_err env _); [exists []; simpl; rewrite app_nil_r; auto|].
  exists [login_request t jwt (now_plus2 env w (expire t))].
  destruct (rt env _ w) as [[?|resp] w1]; simpl; [eauto|].
  destruct (negb _); simpl; [eauto|]. destruct (decode_token env (resp_body resp)); simpl; eauto.
Qed.
End generate.

(** ** Headers *)
Lemma Header_Set_eq k v h : Header_Set k v h !! k = Some [v].
Proof. apply (lookup_insert_eq (M := gmap string)). Qed.
Lemma Header_Set_ne k k' v h : k <> k' -> Header_Set k v h !! k' = h !! k'.
Proof. apply (lookup_insert_ne (M := gmap string)). Qed.
Lemma addUserAgent_header {Key} (t : dcosRoundtripper Key) req :
  req_Header (addUserAgent t req) !! "User-Agent"
  = Some [if bool_decide (userAgent t = "") then "dcos-go" else userAgent t].
Proof.
  unfold addUserAgent, with_header. cbn [req_Header]. rewrite Header_Set_eq.
  by case_bool_decide.
Qed.
Lemma addAuthToken_header {Key} (t : dcosRoundtripper Key) req :
  req_Header (addAuthToken t req) !! "Authorization"
  = if bool_decide (token t = "") then req_Header req !! "Authorization"
    else Some ["token=" ++ token t].
Proof.
  unfold addAuthToken, CurrentToken, with_header. case_bool_decide; [done|].
  cbn [req_Header]. by rewrite Header_Set_eq.
Qed.
Lemma addAuthToken_other {Key} (t : dcosRoundtripper Key) req k :
  k <> "Authorization" -> req_Header (addAuthToken t req) !! k = req_Header req !! k.
Proof.
  intros Hk. unfold addAuthToken, with_header. case_bool_decide; [done|].
  cbn [req_Header]. by rewrite Header_Set_ne.
Qed.
Lemma addAuthToken_rest {Key} (t : dcosRoundtripper Key) req :
  Method (addAuthToken t req) = Method req /\ URL (addAuthToken t req) = URL req
  /\ req_Body (addAuthToken t req) = req_Body req.
Proof. unfold addAuthToken. by case_bool_decide. Qed.

Section roundtrip.
Context {W Key Pool : Type}.
Implicit Types (env : transport_env W Key Pool) (t : dcosRoundtripper Key) (w : W).

(** The request as it goes out first. *)
Definition first_request t req : Request := addAuthToken t (addUserAgent t req).

(** The four ways a round trip goes: what came back, the object after it, the requests
    sent. *)
Inductive round env t req w
    : option Response -> option transport_error -> dcosRoundtripper Key -> W -> list Request -> Prop :=
| round_fails err w1 :
    rt env (first_request t req) w = (Fail err, w1) ->
    round env t req w None (Some (ErrOther err)) t w1 [first_request t req]
| round_answered resp w1 :
    rt env (first_request t req) w = (Ok resp, w1) -> StatusCode resp <> 401%Z ->
    round env t req w (Some resp) None t w1 [first_request t req]
| round_no_login resp w1 err w2 login :
    rt env (first_request t req) w = (Ok resp, w1) -> StatusCode resp = 401%Z ->
    GenerateToken env t w1 = (Some err, t, w2) ->
    (login = [] \/ exists jwt, login = [login_request t jwt (now_plus2 env w1 (expire t))]) ->
    round env t req w (Some resp) (Some err) t w2 (first_request t req :: login)
| round_retried resp w1 login tk w2 retry again w3 :
    rt env (first_request t req) w = (Ok resp, w1) -> StatusCode resp = 401%Z ->
    logged_in env t w1 login tk w2 ->
    retry = addAuthToken (set_token tk t) (sent_request (first_request t req)) ->
    rt env retry w2 = (again, w3) ->
    round env t req w (match again with Ok r => Some r | Fail _ => None end)
      (match again with Ok _ => None | Fail e => Some (ErrOther e) end)
      (set_token tk t) w3 [first_request t req; login; retry].

Lemma logged_in_log env t w r tk w' l :
  logged_in env t w r tk w' ->
  GenerateToken (logged env) t (w, l) = (None, set_token tk t, (w', (l ++ [r])%list)).
Proof.
  intros (jwt & resp & Hs & Hj & Hn & -> & Hr & Hc & Ht). unfold GenerateToken. simpl.
  rewrite Hs. case_bool_decide; [done|]. rewrite Hn, Hr, Hc. simpl. by rewrite Ht.
Qed.

Lemma RoundTrip_log env t req w l :
  exists resp err t' w' sent,
    RoundTrip (logged env) t req (w, l) = (resp, err, t', (w', (l ++ sent)%list))
    /\ RoundTrip env t req w = (resp, err, t', w')
    /\ round env t req w resp err t' w' sent.
Proof.
  unfold RoundTrip. fold (first_request t req). simpl.
  destruct (rt env (first_request t req) w) as [[e|resp] w1] eqn:H1; simpl.
  { do 5 eexists. split; [done|]. split; [done|]. by econstructor. }
  destruct (Z.eqb_spec (StatusCode resp) 401) as [Hc|Hc].
  2: { do 5 eexists. split; [done|]. split; [done|]. by econstructor. }
  destruct (GenerateToken env t w1) as [[[e|] t2] w2] eqn:Hg.
  - pose proof (GenerateToken_fail _ _ _ _ _ _ Hg) as ->.
    destruct (GenerateToken_log env t w1 (l ++ [first_request t req])%list)
      as (login & H2 & H3 & Hlogin). rewrite Hg in H2, H3. simpl in H2, H3.
    destruct (GenerateToken (logged env) t _) as [[o t'] w'] eqn:Hg'. simpl in H2, H3.
    simplify_eq. do 5 eexists. rewrite <- app_assoc. split; [done|]. split; [done|].
    by econstructor.
  - destruct (GenerateToken_ok _ _ _ _ _ Hg) as (r & tk & Hin & ->).
    rewrite (logged_in_log _ _ _ _ _ _ _ Hin). simpl.
    destruct (rt env _ w2) as [again w3] eqn:Hr.
    exists (match again with Ok r => Some r | Fail _ => None end),
      (match again with Ok _ => None | Fail e => Some (ErrOther e) end), (set_token tk t), w3,
      [first_request t req; r; addAuthToken (set_token tk t) (sent_request (first_request t req))].
    rewrite <- !app_assoc.
    split; [by destruct again|]. split; [by destruct again|]. by econstructor.
Qed.
End roundtrip.

(** ** The constructors *)
Section made_by.
Context {W Key Pool : Type}.
Implicit Types (env : transport_env W Key Pool) (t : dcosRoundtripper Key) (w : W).

(** What an option of the package does to the object when it succeeds. *)
Inductive option_effect env : OptionRoundtripperFunc -> dcosRoundtripper Key -> dcosRoundtripper Key -> Prop :=
| effect_expire d t : (1 <= d)%Z -> option_effect env (OptionTokenExpire d) t (set_expire d t)
| effect_agent u t : u <> "" -> option_effect env (OptionUserAgent u) t (set_userAgent u t)
| effect_creds u sec login key t :
    u <> "" -> sec <> "" -> login <> "" -> parse_key env sec = Some key ->
    option_effect env (OptionCredentials env u sec login) t (set_credentials u login (Some key) t)
| effect_config path u sec login key t :
    read_config env path = Ok (u, sec, login) ->
    u <> "" -> sec <> "" -> login <> "" -> parse_key env sec = Some key ->
    option_effect env (OptionReadIAMConfig env path) t (set_credentials u login (Some key) t).
(** The options the package exports. *)
Inductive exported env : OptionRoundtripperFunc -> Prop :=
| exported_expire d : exported env (OptionTokenExpire d)
| exported_agent u : exported env (OptionUserAgent u)
| exported_creds u sec login : exported env (OptionCredentials env u sec login)
| exported_config path : exported env (OptionReadIAMConfig env path).

Lemma OptionCredentials_ok env u sec login t t' :
  OptionCredentials env u sec login t = (None, t') ->
  exists key, u <> "" /\ sec <> "" /\ login <> "" /\ parse_key env sec = Some key
    /\ t' = set_credentials u login (Some key) t.
Proof.
  unfold OptionCredentials. repeat (case_bool_decide; [discriminate|]). simpl.
  destruct (parse_key env sec) as [key|]; [|discriminate]. intros [= <-]. by exists key.
Qed.
Lemma exported_ok env opt t t' :
  exported env opt -> opt t = (None, t') -> option_effect env opt t t'.
Proof.
  intros Hx Ho. destruct Hx as [d|u|u sec login|path].
  - unfold OptionTokenExpire in Ho. destruct (Z.ltb_spec d 1); simplify_eq. by constructor.
  - unfold OptionUserAgent in Ho. case_bool_decide; simplify_eq. by constructor.
  - apply OptionCredentials_ok in Ho as (key & ? & ? & ? & ? & ->). by constructor.
  - unfold OptionReadIAMConfig in Ho.
    destruct (read_config env path) as [|[[u sec] login]] eqn:Hr; [discriminate|].
    apply OptionCredentials_ok in Ho as (key & ? & ? & ? & ? & ->). by econstructor.
Qed.

(** The effects of a list of options, in order; nil options are passed over. *)
Inductive effects env : list (option OptionRoundtripperFunc) -> dcosRoundtripper Key -> dcosRoundtripper Key -> Prop :=
| effects_nil t : effects env [] t t
| effects_skip opts t t' : effects env opts t t' -> effects env (None :: opts) t t'
| effects_cons opt opts t t1 t' :
    option_effect env opt t t1 -> effects env opts t1 t' -> effects env (Some opt :: opts) t t'.
Lemma apply_options_ok env opts t t' :
  (forall opt, In (Some opt) opts -> exported env opt) ->
  apply_options opts t = Ok t' -> effects env opts t t'.
Proof.
  revert t. induction opts as [|[opt|] opts IH]; simpl; intros t Hx Ho.
  - simplify_eq. constructor.
  - destruct (opt t) as [[|] t1] eqn:H1; [discriminate|].
    apply effects_cons with t1; [apply exported_ok; auto|apply IH; auto].
  - constructor. apply IH; auto.
Qed.
Lemma effects_keep env opts t t' :
  effects env opts t t' -> token t' = token t /\ (0 <= expire t -> 0 <= expire t')%Z.
Proof.
  induction 1 as [|opts t t' _ IH|opt opts t t1 t' Ho _ [IH1 IH2]]; [done|done|].
  destruct Ho; simpl in *; split; try done; intros; apply IH2; lia.
Qed.
(** The key and the login endpoint come together: an object without a key has neither. *)
Lemma effects_creds env opts t t' :
  effects env opts t t' ->
  (forall key, secret t = Some key -> uid t <> "" /\ loginEndpoint t <> "") ->
  forall key, secret t' = Some key -> uid t' <> "" /\ loginEndpoint t' <> "".
Proof.
  induction 1 as [|opts t t' _ IH|opt opts t t1 t' Ho _ IH]; [done|done|].
  intros H. apply IH. destruct Ho; simpl in *; auto.
Qed.

Lemma NewRoundTripper_ok env opts w t w' :
  (forall opt, In (Some opt) opts -> exported env opt) ->
  NewRoundTripper env opts w = (Ok t, w') ->
  exists t0 login tk, effects env opts (MkRoundtripper "" 0 "" "" "" None) t0
    /\ logged_in env (set_expire (if expire t0 <? 1 then five_days else expire t0)%Z t0) w login tk w'
    /\ t = set_token tk (set_expire (if expire t0 <? 1 then five_days else expire t0)%Z t0).
Proof.
  intros Hx. unfold NewRoundTripper.
  destruct (apply_options opts _) as [|t0] eqn:Ha; [discriminate|].
  apply (apply_options_ok env) in Ha; [|done].
  assert ((if (expire t0 <? 1)%Z then set_expire five_days t0 else t0)
          = set_expire (if expire t0 <? 1 then five_days else expire t0)%Z t0) as ->.
  { destruct (_ <? _)%Z; [done|]. by destruct t0. }
  destruct (GenerateToken env _ w) as [[[|] t1] w1] eqn:Hg; [discriminate|].
  intros [= <- <-]. apply GenerateToken_ok in Hg as (r & tk & Hin & ->). by exists t0, r, tk.
Qed.
End made_by.

(** ** The properties *)
(** C34. A round trip sends the request once, with the user agent and the current token, and
    nothing else unless the answer is 401; then it logs in once, and when that gives a token
    sends the request a second time, with the same method, URL and other headers and the new
    token, and answers whatever the second answer is, a further 401 too. It never sends more
    than these three requests. The second sending has no body left: the first one closed
    it. *)
Theorem RoundTrip_exact {W Key Pool} (env : transport_env W Key Pool) t req w resp err t' w' sent :
  RoundTrip (logged env) t req (w, []) = (resp, err, t', (w', sent)) ->
  round env t req w resp err t' w' sent
  /\ length sent <= 3
  /\ (exists rest, sent = first_request t req :: rest)
  /\ req_Header (first_request t req) !! "User-Agent"
     = Some [if bool_decide (userAgent t = "") then "dcos-go" else userAgent t]
  /\ (token t <> "" -> req_Header (first_request t req) !! "Authorization" = Some ["token=" ++ token t])
  /\ forall retry, sent !! 2 = Some retry ->
       Method retry = Method req /\ URL retry = URL req
       /\ (token t' <> "" -> req_Header retry !! "Authorization" = Some ["token=" ++ token t'])
       /\ (forall k, k <> "Authorization" ->
             req_Header retry !! k = req_Header (first_request t req) !! k)
       /\ req_Body retry = close_body (req_Body req).
Proof.
  intros H. destruct (RoundTrip_log env t req w []) as (? & ? & ? & ? & ? & Hl & _ & Hr).
  rewrite Hl in H. simplify_eq.
  pose proof (addAuthToken_rest t (addUserAgent t req)) as (Hm & Hu & Hb).
  split; [done|]. split_and!.
  - destruct Hr; simpl; [lia|lia| |lia].
    match goal with H : _ \/ _ |- _ => destruct H as [->|[? ->]] end; simpl; lia.
  - destruct Hr; eauto.
  - unfold first_request. rewrite addAuthToken_other by done. apply addUserAgent_header.
  - intros Ht. unfold first_request. rewrite addAuthToken_header. by case_bool_decide.
  - intros retry Hretry. destruct Hr as [| | |resp1 w1 login tk w2 r again w3 ? ? ? -> ?].
    1, 2: done.
    + match goal with H : _ \/ _ |- _ => destruct H as [->|[? ->]] end; done.
    + simpl in Hretry. simplify_eq.
      pose proof (addAuthToken_rest (set_token tk t) (sent_request (first_request t req)))
        as (-> & -> & ->).
      split_and!; [done|done| | |].
      * intros Ht. rewrite addAuthToken_header. by case_bool_decide.
      * intros k Hk. by rewrite addAuthToken_other.
      * simpl. unfold first_request. by rewrite Hb.
Qed.

(** A login changes the token exactly when a token could be signed, the login endpoint
    answered 200 to the post of it and the answer decodes; the new token is then the one of
    the answer. Any error leaves the object as it was, its old token included. *)
Theorem GenerateToken_exact {W Key Pool} (env : transport_env W Key Pool) t w t' w' :
  (GenerateToken env t w = (None, t', w')
   <-> exists r tk, logged_in env t w r tk w' /\ t' = set_token tk t)
  /\ (forall err, GenerateToken env t w = (Some err, t', w') -> t' = t).
Proof.
  split; [split|].
  - apply GenerateToken_ok.
  - intros (r & tk & Hin & ->). by eapply logged_in_GenerateToken.
  - intros err. apply GenerateToken_fail.
Qed.

(** What [NewRoundTripper] returns has the effects of the options in their order, a
    positive expiry (five days when none was given), the token of a login that succeeded, and
    a user id and a login endpoint whenever it has a key. *)
Theorem NewRoundTripper_exact {W Key Pool} (env : transport_env W Key Pool) opts w t w' :
  (forall opt, In (Some opt) opts -> exported env opt) ->
  NewRoundTripper env opts w = (Ok t, w') ->
  (exists t0 login, effects env opts (MkRoundtripper "" 0 "" "" "" None) t0
     /\ expire t = (if expire t0 <? 1 then 432000000000000 else expire t0)%Z
     /\ logged_in env (set_expire (expire t) t0) w login (token t) w')
  /\ (1 <= expire t)%Z
  /\ (forall key, secret t = Some key -> uid t <> "" /\ loginEndpoint t <> "").
Proof.
  intros Hx H. apply NewRoundTripper_ok in H as (t0 & login & tk & He & Hin & ->); [|done].
  split_and!.
  - exists t0, login. split; [done|]. split; [done|]. exact Hin.
  - simpl. destruct (Z.ltb_spec (expire t0) 1); [done|lia].
  - apply (effects_creds _ _ _ _ He). done.
Qed.

(** C37. A transport verifies the servers against the certificates of the file exactly when a
    path was given; without one it verifies nothing. It authenticates exactly when a path of
    an IAM configuration was given, over the transport with that TLS configuration. *)
Theorem NewTransport_exact {W Key Pool} (envs : tls_config Pool -> transport_env W Key Pool) ca iam w m w' :
  NewTransport envs ((if bool_decide (ca = "") then [] else [OptionCaCertificatePath ca]) ++
                     (if bool_decide (iam = "") then [] else [OptionIAMConfigPath iam]))%list w = (Ok m, w') ->
  exists c, (InsecureSkipVerify c = true <-> ca = "")
    /\ (RootCAs c = None <-> ca = "")
    /\ (forall pool, RootCAs c = Some pool -> exists file,
          read_file (envs (MkTLS None true)) ca = Ok file
          /\ parse_certs (envs (MkTLS None true)) file = Some pool)
    /\ (m = Plain c /\ iam = "" /\ w' = w
        \/ exists t, m = WithIAM c t /\ iam <> ""
           /\ NewRoundTripper (envs c) [Some (OptionReadIAMConfig (envs c) iam)] w = (Ok t, w'))
    /\ (is_ok (DebugTransport m) = true <-> iam <> "").
Proof.
  assert (Hlen : forall s, s <> "" -> (len s =? 0)%Z = false) by (intros [|? s]; done).
  assert (transport_options ((if bool_decide (ca = "") then [] else [OptionCaCertificatePath ca]) ++
            (if bool_decide (iam = "") then [] else [OptionIAMConfigPath iam]))%list (MkTransport "" "")
          = Ok (MkTransport ca iam)) as Ho.
  { do 2 case_bool_decide; subst; simpl;
      unfold OptionCaCertificatePath, OptionIAMConfigPath, errorOnEmpty; by rewrite ?Hlen. }
  unfold NewTransport. rewrite Ho. cbn [CaCertificatePath IAMConfigPath].
  assert (forall c, configureTLS (envs (MkTLS None true)) ca = Ok c ->
            (InsecureSkipVerify c = true <-> ca = "") /\ (RootCAs c = None <-> ca = "")
            /\ (forall pool, RootCAs c = Some pool -> exists file,
                  read_file (envs (MkTLS None true)) ca = Ok file
                  /\ parse_certs (envs (MkTLS None true)) file = Some pool)) as Htls.
  { intros c. unfold configureTLS, loadCAPool. case_bool_decide as Hca; simpl.
    - by intros [= <-].
    - destruct (read_file _ ca) as [|f] eqn:Hf; [discriminate|].
      destruct (parse_certs _ f) as [p|] eqn:Hp; [|discriminate]. intros [= <-]. simpl.
      split_and!; try done. intros pool [= <-]. by exists f. }
  destruct (configureTLS _ ca) as [|c] eqn:Hc; [discriminate|].
  destruct (Htls _ eq_refl) as (H1 & H2 & H3). intros H. exists c. split_and!; try done.
  all: destruct (decide (iam = "")) as [->|Hi]; [simpl in H; simplify_eq|rewrite Hlen in H by done; simpl in H].
  1: by left.
  2: by split.
  all: destruct (NewRoundTripper (envs c) _ w) as [[|t] w1] eqn:Hn; [discriminate|]; simplify_eq.
  - right. by exists t.
  - by split.
Qed.

(** ** A concrete network: the login endpoint gives the token "new", every other request is
    answered 401 unless it carries that token. *)
Definition net_rt (r : Request) (w : nat) : res error Response * nat :=
  (Ok (if bool_decide (URL r = "login") then MkResponse 200 "new"
       else if bool_decide (req_Header r !! "Authorization" = Some ["token=new"])
            then MkResponse 200 "" else MkResponse 401 ""), S w).
Definition net : transport_env nat nat nat :=
  {| rt := net_rt;
     sign := fun k u e => match k with Some _ => Ok ("jwt." ++ u) | None => Fail (errorsNew "no key") end;
     now_plus1 := fun _ d => (1500000000 + d / 1000000000)%Z;
     now_plus2 := fun _ d => (1500000000 + d / 1000000000)%Z;
     NewRequest_err := fun _ => None; decode_token := fun b => Ok b;
     parse_key := fun s => if bool_decide (s = "PEM") then Some 7 else None;
     read_config := fun p => if bool_decide (p = "/iam.json") then Ok ("me", "PEM", "login")
                             else Fail (errorsNew "no such file");
     read_file := fun p => if bool_decide (p = "/ca.pem") then Ok "CERT" else Fail (errorsNew "no such file");
     parse_certs := fun s => if bool_decide (s = "CERT") then Some 5 else None |}.
Definition net_client : dcosRoundtripper nat := MkRoundtripper "old" five_days "me" "login" "" (Some 7).
Definition net_request : Request := MkRequest "POST" "http://x/" ∅ (Open "data").

Lemma RoundTrip_exact_witness :
  let out := RoundTrip (logged net) net_client net_request (0, []) in
  out.1.1.1 = Some (MkResponse 200 "") /\ token out.1.2 = "new"
  /\ length out.2.2 = 3 /\ option_map req_Body (out.2.2 !! 2) = Some Closed
  /\ round net net_client net_request 0 out.1.1.1 out.1.1.2 out.1.2 out.2.1 out.2.2.
Proof.
  split; [reflexivity|]. split; [reflexivity|]. split; [reflexivity|]. split; [reflexivity|].
  eapply (RoundTrip_exact net net_client net_request). reflexivity.
Defined.
Lemma GenerateToken_exact_witness :
  (GenerateToken net net_client 0).1.1 = None
  /\ exists r tk, logged_in net net_client 0 r tk 1
       /\ (GenerateToken net net_client 0).1.2 = set_token tk net_client.
Proof.
  split; [reflexivity|]. apply (proj1 (GenerateToken_exact net net_client 0 _ 1)). reflexivity.
Defined.
Lemma NewRoundTripper_exact_witness :
  exists t, NewRoundTripper net [None; Some (OptionCredentials net "me" "PEM" "login")] 0 = (Ok t, 1)
    /\ expire t = 432000000000000%Z /\ token t = "new" /\ (1 <= expire t)%Z.
Proof.
  eexists. split; [reflexivity|]. split; [reflexivity|]. split; [reflexivity|].
  eapply (NewRoundTripper_exact net [None; Some (OptionCredentials net "me" "PEM" "login")] 0);
    [|reflexivity].
  intros opt [|[[= <-]|[]]]; [discriminate|constructor].
Defined.
Lemma NewTransport_exact_witness :
  exists m, NewTransport (fun _ => net)
      ([OptionCaCertificatePath "/ca.pem"] ++ [OptionIAMConfigPath "/iam.json"])%list 0 = (Ok m, 1)
    /\ exists c, (InsecureSkipVerify c = true <-> "/ca.pem" = "")
    /\ (RootCAs (Pool := nat) c = None <-> "/ca.pem" = "").
Proof.
  eexists. split; [reflexivity|].
  edestruct (NewTransport_exact (fun _ : tls_config nat => net) "/ca.pem" "/iam.json" 0)
    as (c & H1 & H2 & _); [reflexivity|]. by exists c.
Defined.
