(* ===== verification/Testutils.v ===== *)
(** * testutils: a ZooKeeper in a container for tests (docker_utils.go, zk_control.go,
    zk_utils.go). The Docker daemon is a parameter: its client's calls act on a world. *)
From S2P Require Import Prelude.
From S2P Require Import GoStrings.
From S2P Require Import GoErrors.

Local Open Scope string_scope.

(** ** [time.Duration.String] and [net.JoinHostPort] *)
(** [fmtFrac]: the last [prec] digits of [v] after a point, without trailing zeros, put in
    front of [buf]; and the digits left. *)
Fixpoint fmtFrac_loop (prec : nat) (v : Z) (print : bool) (buf : string) : string * Z * bool :=
  match prec with
  | O => (buf, v, print)
  | S prec =>
      let digit := (v mod 10)%Z in
      let print := print || negb (digit =? 0)%Z in
      fmtFrac_loop prec (v / 10) print (if print then Itoa digit ++ buf else buf)
  end.
Definition fmtFrac (buf : string) (v : Z) (prec : nat) : string * Z :=
  let '(buf, v, print) := fmtFrac_loop prec v false buf in ((if print then "." ++ buf else buf), v).
Definition Duration_String (d : Z) : string :=
  let u := Z.abs d in
  let s :=
    if (u <? 1000000000)%Z then
      if (u =? 0)%Z then "0s"
      else
        let '(prec, unit) := if (u <? 1000)%Z then (0, "ns") else if (u <? 1000000)%Z then (3, "µs") else (6, "ms") in
        let '(buf, v) := fmtFrac unit u prec in Itoa v ++ buf
    else
      let '(buf, u) := fmtFrac "s" u 9 in
      let buf := Itoa (u mod 60) ++ buf in
      let u := (u / 60)%Z in
      if (0 <? u)%Z then
        let buf := Itoa (u mod 60) ++ "m" ++ buf in
        let u := (u / 60)%Z in
        if (0 <? u)%Z then Itoa u ++ "h" ++ buf else buf
      else buf in
  if (d <? 0)%Z then "-" ++ s else s.
Example Duration_ex :
  map Duration_String [0; 7; 1500; 2000000; 10000000000; 90500000000; 7200000000000; -1100000]%Z
  = ["0s"; "7ns"; "1.5µs"; "2ms"; "10s"; "1m30.5s"; "2h0m0s"; "-1.1ms"].
Proof. vm_compute. reflexivity. Qed.
Definition JoinHostPort (host port : string) : string :=
  if Contains host ":" then "[" ++ host ++ "]:" ++ port else host ++ ":" ++ port.

(** ** The Docker client *)
(** The arguments of [ContainerCreate] the code sets: image, entry point, command, and the
    ports bound on the host, each with address and port. *)
Record create_args : Type := MkCreate {
  Image : string;
  Entrypoint : list string;
  Cmd : list string;
  PortBindings : list (string * (string * string));
}.
Section docker.
Context {W : Type}.
Definition io (A : Type) : Type := W -> A * W.
Definition ret {A} (a : A) : io A := fun w => (a, w).
Definition bind {A B} (m : io A) (f : A -> io B) : io B := fun w => let '(a, w) := m w in f a w.
Notation "'let*' x := m 'in' k" := (bind m (fun x => k))
  (at level 200, x strict pattern, m at level 200, k at level 200).
(** What the daemon, the terminal and the network answer. [wait_connected] is the outcome of
    the [select] that waits for a connection to an address: true when there is one before
    the timeout. It is refined below. *)
Record docker : Type := MkDocker {
  darwin : bool;
  NewEnvClient : io (res error unit);
  ContainerRemove : string -> io (res error unit);
  ImageInspectWithRaw : string -> io (res error unit);
  IsErrNotFound : error -> bool;
  ImagePull : string -> io (res error string);
  DisplayJSONMessagesStream : string -> io (res error unit);
  ContainerCreate : create_args -> io (res error string);
  ContainerStart : string -> io (res error unit);
  ContainerInspect : string -> io (res error string);
  wait_connected : string -> Z -> io bool;
}.
Variable d : docker.

(** ** docker_utils.go *)
Definition DockerClient : io (res error unit) :=
  let* r := NewEnvClient d in
  ret match r with Fail err => Fail (errorsWrap "could not connect to docker" err) | Ok c => Ok c end.
Fixpoint removeContainer_loop (ctrIDs : list string) (errs : list string) : io (list string) :=
  match ctrIDs with
  | [] => ret errs
  | ctrID :: ctrIDs =>
      let* r := ContainerRemove d ctrID in
      removeContainer_loop ctrIDs
        (match r with Fail err => errs ++ [Error err] | Ok _ => errs end)%list
  end.
Definition removeContainer (ctrIDs : list string) : io (res error unit) :=
  let* errs := removeContainer_loop ctrIDs [] in
  ret (if (0 <? Z.of_nat (length errs))%Z then Fail (errorsNew (Join errs ",")) else Ok tt).
Definition imageExists (image : string) : io (res error bool) :=
  let* r := ImageInspectWithRaw d image in
  ret match r with
      | Ok _ => Ok true
      | Fail err => if IsErrNotFound d err then Ok false else Fail err
      end.
Definition pullDockerImage (image : string) : io (res error unit) :=
  let* r := imageExists image in
  match r with
  | Fail err => ret (Fail err)
  | Ok true => ret (Ok tt)
  | Ok false =>
      let* r := ImagePull d image in
      match r with
      | Fail err => ret (Fail err)
      | Ok resp => DisplayJSONMessagesStream d resp
      end
  end.

(** ** zk_utils.go *)
Record ZKConfig : Type := MkZKConfig {
  StartupTimeout : Z;
  ImageName : string;
  cfg_Entrypoint : list string;
  Command : list string;
  ClientPort : Z;
}.
Definition DefaultZKConfig : ZKConfig :=
  MkZKConfig (10 * 1000000000) "docker.io/jplock/zookeeper:3.4.10" ["/opt/zookeeper/bin/zkServer.sh"]
    ["start-foreground"] 2181.
Fixpoint configure (opts : list (option (ZKConfig -> ZKConfig))) (config : ZKConfig) : ZKConfig :=
  match opts with
  | [] => config
  | None :: opts => configure opts config
  | Some f :: opts => configure opts (f config)
  end.
(** zk_control.go *)
Record ZkControl : Type := MkZkControl { containerID : string; addr : string; teardownOnce : bool }.

(** Once the container is there: start it, find its address, wait for it. [cleanup] ignores
    the error of the removal. *)
Definition cleanup {A} (id : string) (err : error) : io (res error A) :=
  let* _ := removeContainer [id] in ret (Fail err).
Definition zk_addr (config : ZKConfig) (ip : string) : string :=
  if darwin d then "127.0.0.1:" ++ Itoa (ClientPort config)
  else JoinHostPort ip (Itoa (ClientPort config)).
Definition start_created (config : ZKConfig) (id : string) : io (res error ZkControl) :=
  let* r := ContainerStart d id in
  match r with
  | Fail err => cleanup id (errorsWrap "could not start zk container" err)
  | Ok _ =>
      let* info := ContainerInspect d id in
      match info with
      | Fail err => cleanup id (errorsWrap "could not inspect container" err)
      | Ok ip =>
          let addr := zk_addr config ip in
          let* connected := wait_connected d addr (StartupTimeout config) in
          if connected : bool then ret (Ok (MkZkControl id addr false))
          else cleanup id (errorsNew ("could not connect to zookeeper in " ++ Duration_String (StartupTimeout config)))
      end
  end.
Definition zk_create_args (config : ZKConfig) : create_args :=
  MkCreate (ImageName config) (cfg_Entrypoint config) (Command config)
    (if darwin d then [(Itoa (ClientPort config) ++ "/tcp", ("0.0.0.0", Itoa (ClientPort config)))] else []).
Definition StartZookeeper (opts : list (option (ZKConfig -> ZKConfig))) : io (res error ZkControl) :=
  let config := configure opts DefaultZKConfig in
  let* r := DockerClient in
  match r with
  | Fail err => ret (Fail (errorsWrap "could not get docker client" err))
  | Ok _ =>
      let* r := pullDockerImage (ImageName config) in
      match r with
      | Fail err => ret (Fail err)
      | Ok _ =>
          let* r := ContainerCreate d (zk_create_args config) in
          match r with
          | Fail err => ret (Fail (errorsWrap "could not create zk container" err))
          | Ok id => start_created config id
          end
      end
  end.

(** ** zk_control.go *)
Definition Addr (z : ZkControl) : string := addr z.
Definition Teardown (z : ZkControl) : io (res error unit * ZkControl) :=
  let z' := MkZkControl (containerID z) (addr z) true in
  if teardownOnce z then ret (Ok tt, z)
  else
    let* r := removeContainer [containerID z] in
    ret (match r with Fail err => Fail (errorsWrap "could not remove ZK container" err) | Ok _ => Ok tt end, z').
(** [TeardownPanic]: the panic carries the error. *)
Definition TeardownPanic (z : ZkControl) : io (res error unit * ZkControl) :=
  let* (r, z) := Teardown z in
  ret (match r with Fail err => Fail (goPanic (Error err)) | Ok _ => Ok tt end, z).
Fixpoint teardowns (n : nat) (z : ZkControl) : io (list (res error unit)) :=
  match n with
  | O => ret []
  | S n => let* (r, z) := Teardown z in let* rs := teardowns n z in ret (r :: rs)
  end.
End docker.
Arguments io : clear implicits.
Arguments docker : clear implicits.

(** ** The wait for ZooKeeper: the goroutine that dials and the [select] of [StartZookeeper] *)
Inductive dialer_pc : Type :=
| DCheck   (* select on done, or go on *)
| DDial    (* net.Dial, then the sleep when it fails *)
| DFound   (* close(connected) *)
| DDead.
Inductive starter_pc : Type :=
| SSelect              (* select on connected and the timer *)
| SReturn (ok : bool)  (* the deferred close(done) *)
| SDead (ok : bool).
Record dial_state : Type := MkDial {
  dialer : dialer_pc;
  starter : starter_pc;
  timer : bool;
  connected : bool;   (* closed *)
  done_closed : bool;
  dial_panic : bool;  (* a channel was closed twice *)
}.
Definition start_dial : dial_state := MkDial DCheck SSelect false false false false.
Definition set_dialer (p : dialer_pc) (s : dial_state) : dial_state :=
  MkDial p (starter s) (timer s) (connected s) (done_closed s) (dial_panic s).
Definition set_starter (p : starter_pc) (s : dial_state) : dial_state :=
  MkDial (dialer s) p (timer s) (connected s) (done_closed s) (dial_panic s).
(** The steps of the dialling goroutine, and all steps. *)
Inductive dialer_step (s : dial_state) : dial_state -> Prop :=
| dial_done : dialer s = DCheck -> done_closed s = true -> dialer_step s (set_dialer DDead s)
| dial_again : dialer s = DCheck -> done_closed s = false -> dialer_step s (set_dialer DDial s)
| dial_fails : dialer s = DDial -> dialer_step s (set_dialer DCheck s)
| dial_works : dialer s = DDial -> dialer_step s (set_dialer DFound s)
| dial_close : dialer s = DFound ->
    dialer_step s (MkDial DDead (starter s) (timer s) true (done_closed s) (dial_panic s || connected s)).
Inductive dial_step (s : dial_state) : dial_state -> Prop :=
| step_dialer s' : dialer_step s s' -> dial_step s s'
| step_timer : dial_step s (MkDial (dialer s) (starter s) true (connected s) (done_closed s) (dial_panic s))
| step_connected : starter s = SSelect -> connected s = true -> dial_step s (set_starter (SReturn true) s)
| step_timeout : starter s = SSelect -> timer s = true -> dial_step s (set_starter (SReturn false) s)
| step_return ok : starter s = SReturn ok ->
    dial_step s (MkDial (dialer s) (SDead ok) (timer s) (connected s) true (dial_panic s || done_closed s)).

Record dial_inv (s : dial_state) : Prop := {
  dial_no_panic : dial_panic s = false;
  dial_done_closed : done_closed s = match starter s with SDead _ => true | _ => false end;
  dial_outcome : match starter s with
                 | SSelect => True
                 | SReturn b | SDead b => if b then connected s = true else timer s = true
                 end;
  dial_dead : match dialer s with
              | DDead => connected s = true \/ done_closed s = true
              | _ => connected s = false
              end;
}.
Lemma dial_inv_step s s' : dial_inv s -> dial_step s s' -> dial_inv s'.
Proof.
  intros [Hp Hd Hf Hx] Hs.
  destruct Hs as [s' [Hw Hc|Hw Hc|Hw|Hw|Hw]| |Hw Hc|Hw Hc|ok Hw]; split; simpl; rewrite ?Hw in *;
    simpl in *; try done; try (by right); try (by left).
  - by rewrite Hp, Hx.
  - destruct (starter s) as [|[]|[]]; done.
  - destruct (starter s) as [|[]|[]]; done.
  - by rewrite Hp, Hd.
  - destruct (dialer s); try done. by right.
Qed.
Lemma reachable_dial s : rtc dial_step start_dial s -> dial_inv s.
Proof.
  intros Hr. refine (rtc_invariant dial_step dial_inv _ _ _ _ Hr); [apply dial_inv_step|done].
Qed.
(** The steps the dialling goroutine has left once [done] is closed. *)
Definition dial_left (s : dial_state) : nat :=
  match dialer s with DDead => 0 | DCheck | DFound => 1 | DDial => 2 end.
Lemma dialer_decreases s s' : done_closed s = true -> dialer_step s s' ->
  dial_left s' < dial_left s /\ done_closed s' = true.
Proof.
  intros Hd [Hw Hc|Hw Hc|Hw|Hw|Hw]; unfold dial_left; simpl; rewrite Hw; [split; [lia|done]|congruence|..];
    (split; [lia|done]).
Qed.
Lemma dialer_bounded n s s' : done_closed s = true -> nsteps dialer_step n s s' -> n + dial_left s' <= dial_left s.
Proof.
  intros Hd Hn. revert Hd. induction Hn as [s|n s s1 s2 Hs _ IH]; intros Hd; [done|].
  destruct (dialer_decreases s s1 Hd Hs) as [Hl Hd1]. specialize (IH Hd1). lia.
Qed.

(** ** The calls made of the daemon about images and containers, with their answers, and
    the wait for a connection *)
Inductive docker_call : Type :=
| CallImage (image : string) (r : res error unit)
| CallPull (image : string)
| CallCreate (args : create_args) (r : res error string)
| CallStart (id : string) (r : res error unit)
| CallInspect (id : string) (r : res error string)
| CallWait (addr : string) (timeout : Z) (connected : bool)
| CallRemove (id : string).
Definition created (log : list docker_call) : list string :=
  omap (fun c => match c with CallCreate _ (Ok id) => Some id | _ => None end) log.
Definition removed (log : list docker_call) : list string :=
  omap (fun c => match c with CallRemove id => Some id | _ => None end) log.
Definition pulled (log : list docker_call) : list string :=
  omap (fun c => match c with CallPull i => Some i | _ => None end) log.
Section logged.
Context {W : Type}.
Definition quietly {A} (m : io W A) : io (W * list docker_call) A :=
  fun '(w, l) => let '(a, w) := m w in (a, (w, l)).
Definition noted {A} (f : A -> docker_call) (m : io W A) : io (W * list docker_call) A :=
  fun '(w, l) => let '(a, w) := m w in (a, (w, (l ++ [f a])%list)).
Definition logged (d : docker W) : docker (W * list docker_call) :=
  {| darwin := darwin d;
     NewEnvClient := quietly (NewEnvClient d);
     ContainerRemove := fun id => noted (fun _ => CallRemove id) (ContainerRemove d id);
     ImageInspectWithRaw := fun i => noted (CallImage i) (ImageInspectWithRaw d i);
     IsErrNotFound := IsErrNotFound d;
     ImagePull := fun i => noted (fun _ => CallPull i) (ImagePull d i);
     DisplayJSONMessagesStream := fun s => quietly (DisplayJSONMessagesStream d s);
     ContainerCreate := fun a => noted (CallCreate a) (ContainerCreate d a);
     ContainerStart := fun id => noted (CallStart id) (ContainerStart d id);
     ContainerInspect := fun id => noted (CallInspect id) (ContainerInspect d id);
     wait_connected := fun a t => noted (CallWait a t) (wait_connected d a t) |}.
End logged.

(** ** Lemmas *)
Section runs.
Context {W : Type} (d : docker W).
Lemma removeContainer_one id w l :
  removeContainer (logged d) [id] (w, l)
  = (match fst (ContainerRemove d id w) with Fail e => Fail (errorsNew (Error e)) | Ok _ => Ok tt end,
     (snd (ContainerRemove d id w), (l ++ [CallRemove id])%list)).
Proof.
  unfold removeContainer, bind. simpl. unfold bind, noted, ret.
  destruct (ContainerRemove d id w) as [[e|[]] w']; done.
Qed.
Lemma cleanup_log {A} id e w l :
  cleanup (logged d) id e (w, l)
  = (@Fail error A e, (snd (ContainerRemove d id w), (l ++ [CallRemove id])%list)).
Proof. unfold cleanup, bind. rewrite removeContainer_one. by destruct (ContainerRemove d id w). Qed.
(** Lists of calls that concern one container: started, its address asked and reached, or
    given up at some point and then removed. *)
Definition reached (config : ZKConfig) (id ip : string) : list docker_call :=
  [CallStart id (Ok tt); CallInspect id (Ok ip); CallWait (zk_addr d config ip) (StartupTimeout config) true].
Lemma start_created_log config id w l :
  exists r w' sent, start_created (logged d) config id (w, l) = (r, (w', (l ++ sent)%list)) /\
    match r with
    | Ok z => exists ip, z = MkZkControl id (zk_addr d config ip) false /\ sent = reached config id ip
    | Fail _ => exists tried, sent = (tried ++ [CallRemove id])%list /\
        created tried = [] /\ removed tried = [] /\ pulled tried = []
    end.
Proof.
  unfold start_created, bind, ret. simpl. unfold noted.
  change (zk_addr (logged d) config) with (zk_addr d config).
  destruct (ContainerStart d id w) as [[e|[]] w1].
  { rewrite cleanup_log, <- app_assoc. eexists (Fail _), _, _. split; [done|]. by exists [CallStart id (Fail e)]. }
  destruct (ContainerInspect d id w1) as [[e|ip] w2].
  { rewrite cleanup_log, <- !app_assoc. eexists (Fail _), _, _. split; [done|].
    by exists [CallStart id (Ok tt); CallInspect id (Fail e)]. }
  destruct (wait_connected d _ _ w2) as [[|] w3].
  - rewrite <- !app_assoc. eexists (Ok _), _, _. split; [done|]. by exists ip.
  - rewrite cleanup_log, <- !app_assoc. eexists (Fail _), _, _. split; [done|].
    by exists [CallStart id (Ok tt); CallInspect id (Ok ip); CallWait (zk_addr d config ip) (StartupTimeout config) false].
Qed.
(** The calls about the image: it is there, or it is pulled. *)
Definition image_there (image : string) (sent : list docker_call) : Prop :=
  sent = [CallImage image (Ok tt)] \/
  exists e, sent = [CallImage image (Fail e); CallPull image] /\ IsErrNotFound d e = true.
Lemma pullDockerImage_log image w l :
  exists r w' sent, pullDockerImage (logged d) image (w, l) = (r, (w', (l ++ sent)%list))
    /\ ((image_there image sent) \/ (exists e, r <> Ok tt /\ sent = [CallImage image (Fail e)])).
Proof.
  unfold pullDockerImage, imageExists, bind, ret. simpl. unfold quietly, noted.
  destruct (ImageInspectWithRaw d image w) as [[e|[]] w1]; simpl.
  - destruct (IsErrNotFound d e) eqn:Hn; simpl.
    + destruct (ImagePull d image w1) as [[e'|resp] w2]; [|destruct (DisplayJSONMessagesStream d resp w2) as [r w3]];
        rewrite <- ?app_assoc; (eexists _, _, _; split; [done|]); left; right; by exists e.
    + eexists _, _, _. split; [done|]. right. by exists e.
  - eexists _, _, _. split; [done|]. left. by left.
Qed.
End runs.

(** ** Properties *)
(** C38. [StartZookeeper] leaves no container behind. When it answers a control, it has made
    sure of the image, created one container of it, and then, of that container and with
    success, asked the daemon to start it, asked for its address, and reached that address,
    which is the control's, before the timeout; nothing was removed. When it answers an
    error, it has created at most one container and has last asked for its removal, once.
    It pulls only the configured image, and only after the daemon has said it has none. *)
Theorem StartZookeeper_owns_container {W} (d : docker W) opts w r w' log :
  let config := configure opts DefaultZKConfig in
  StartZookeeper (logged d) opts (w, []) = (r, (w', log)) ->
  (forall i, i ∈ pulled log -> i = ImageName config /\
        exists e, CallImage i (Fail e) ∈ log /\ IsErrNotFound d e = true)
  /\ match r with
     | Ok z => exists asked ip, image_there d (ImageName config) asked
         /\ log = (asked ++ [CallCreate (zk_create_args d config) (Ok (containerID z));
              CallStart (containerID z) (Ok tt); CallInspect (containerID z) (Ok ip);
              CallWait (addr z) (StartupTimeout config) true])%list
         /\ addr z = zk_addr d config ip /\ teardownOnce z = false
     | Fail _ => removed log = created log /\
         (created log = [] \/ exists id, created log = [id] /\ last log = Some (CallRemove id))
     end.
Proof.
  intros config. unfold StartZookeeper, DockerClient, bind, ret. simpl. unfold quietly, noted. fold config.
  destruct (NewEnvClient d w) as [[e|[]] w1].
  { intros [= <- <- <-]. split; [by intros i Hi%elem_of_nil|]. split; [done|by left]. }
  destruct (pullDockerImage_log d (ImageName config) w1 []) as (r1 & w2 & sent & -> & Hsent).
  assert (created sent = [] /\ removed sent = [] /\ forall more i, i ∈ pulled (sent ++ more) -> pulled more = [] ->
    i = ImageName config /\ exists e, CallImage i (Fail e) ∈ (sent ++ more)%list /\ IsErrNotFound d e = true)
    as (Hc & Hr & Hp).
  { destruct Hsent as [[->|(e & -> & Hn)]|(e & _ & ->)]; (split; [done|]; split; [done|]);
      unfold pulled; intros more i Hi Hm; rewrite omap_app, Hm, app_nil_r in Hi; simpl in Hi.
    - by apply elem_of_nil in Hi.
    - apply list_elem_of_singleton in Hi as ->. split; [done|]. exists e. split; [by left|done].
    - by apply elem_of_nil in Hi. }
  rewrite app_nil_l. destruct r1 as [e|[]].
  { intros [= <- <- <-]. rewrite Hc, Hr. split; [|split; [done|by left]].
    intros i Hi. specialize (Hp [] i). rewrite app_nil_r in Hp. by apply Hp. }
  destruct Hsent as [Hsent|(e & Hne & _)]; [|done].
  destruct (ContainerCreate d _ w2) as [[e|id] w3].
  - intros [= <- <- <-]. split; [intros i Hi; by apply Hp|]. unfold created, removed in *.
    rewrite !omap_app, Hc, Hr. split; [done|by left].
  - destruct (start_created_log d config id w3 (sent ++ [CallCreate (zk_create_args d config) (Ok id)])%list)
      as (r2 & w4 & more & Heq & Hz). change (zk_create_args (logged d) config) with (zk_create_args d config).
    rewrite Heq. rewrite <- app_assoc. intros [= <- <- <-]. destruct r2 as [e|z].
    + destruct Hz as (tried & -> & Hct & Hrt & Hpt). split.
      * intros i Hi. apply Hp; [done|]. transitivity (pulled (tried ++ [CallRemove id])); [done|].
        unfold pulled in *. by rewrite omap_app, Hpt.
      * unfold created, removed in *. rewrite !omap_app, Hc, Hr.
        change (omap ?f (?c :: ?l)) with (omap f ([c] ++ l)%list).
        rewrite !omap_app, Hct, Hrt. split; [done|]. right. exists id.
        split; [done|]. rewrite app_comm_cons, !app_assoc. apply last_snoc.
    + destruct Hz as (ip & -> & ->). split; [intros i Hi; by apply Hp|]. by exists sent, ip.
Qed.

(** However often it is called, [Teardown] asks for the removal of its container once.
    The first call answers whether that worked; every later one answers success, even when
    the container was not removed. *)
Theorem Teardown_once {W} (d : docker W) id address w n :
  let '(rs, (_, log)) := teardowns (logged d) (S n) (MkZkControl id address false) (w, []) in
  removed log = [id] /\ tail rs = replicate n (Ok tt)
  /\ (fst (ContainerRemove d id w) = Ok tt -> rs = replicate (S n) (Ok tt))
  /\ (forall e, fst (ContainerRemove d id w) = Fail e ->
        hd_error rs = Some (Fail (errorsWrap "could not remove ZK container" (errorsNew (Error e))))).
Proof.
  assert (forall k w l, teardowns (logged d) k (MkZkControl id address true) (w, l)
    = (replicate k (Ok tt), (w, l))) as Hlater.
  { induction k as [|k IH]; intros w1 l; [done|]. simpl. unfold bind at 1, Teardown at 1, ret at 1. simpl.
    unfold bind. by rewrite IH. }
  simpl. unfold bind at 1, Teardown at 1. simpl. unfold bind at 1. rewrite removeContainer_one. simpl.
  unfold bind. rewrite Hlater. simpl. split; [done|]. split; [done|].
  destruct (ContainerRemove d id w) as [[e|[]] w1]; simpl; (split; [|naive_solver]); [done|].
  by intros _.
Qed.

(** The goroutine that dials does not outlive [StartZookeeper] for long, and neither
    channel is closed twice: once [StartZookeeper] has returned, it takes at most two steps
    more and always ends, wherever it is; and what [StartZookeeper] waited for did happen. *)
Theorem dialer_ends (s : dial_state) (ok : bool) :
  rtc dial_step start_dial s -> starter s = SDead ok ->
  dial_panic s = false /\ (if ok then connected s = true else timer s = true)
  /\ (forall n s', nsteps dialer_step n s s' -> n <= 2)
  /\ exists s', rtc dialer_step s s' /\ dialer s' = DDead.
Proof.
  intros Hr Hd. destruct (reachable_dial s Hr) as [Hp Hc Ho Hx]. rewrite Hd in *. split; [done|]. split; [done|].
  split.
  - intros n s' Hn. pose proof (dialer_bounded n s s' Hc Hn). unfold dial_left in *. destruct (dialer s); lia.
  - destruct (dialer s) eqn:Hpc.
    + eexists. split; [by apply rtc_once, dial_done|done].
    + eexists. split; [eapply rtc_l; [by apply dial_fails|]; by apply rtc_once, dial_done|done].
    + eexists. split; [by apply rtc_once, dial_close|done].
    + by exists s.
Qed.

(** ** A concrete daemon: containers are numbered; an image that is not the default one is
    unknown until it is pulled; [up] says whether a container answers, [gone] whether it can
    be removed. *)
Definition daemon (up gone : bool) : docker nat :=
  {| darwin := false;
     NewEnvClient := fun w => (Ok tt, w);
     ContainerRemove := fun id w => (if gone then Ok tt else Fail (errorsNew "busy"), w);
     ImageInspectWithRaw := fun i w => (if bool_decide (i = "docker.io/jplock/zookeeper:3.4.10") then Ok tt
                                        else Fail (errorsNew "not found"), w);
     IsErrNotFound := fun e => bool_decide (e = errorsNew "not found");
     ImagePull := fun i w => (Ok "progress", w);
     DisplayJSONMessagesStream := fun s w => (Ok tt, w);
     ContainerCreate := fun a w => (Ok ("c" ++ Itoa (Z.of_nat w)), S w);
     ContainerStart := fun id w => (Ok tt, w);
     ContainerInspect := fun id w => (Ok "172.17.0.2", w);
     wait_connected := fun a t w => (up, w) |}.
Definition other_image : option (ZKConfig -> ZKConfig) :=
  Some (fun c => MkZKConfig (StartupTimeout c) "zookeeper:3.5" (cfg_Entrypoint c) (Command c) 2182).
Example StartZookeeper_ex :
  StartZookeeper (logged (daemon true true)) [None; other_image] (4, [])
    = (Ok (MkZkControl "c4" "172.17.0.2:2182" false), (5, [
        CallImage "zookeeper:3.5" (Fail (errorsNew "not found")); CallPull "zookeeper:3.5";
        CallCreate (MkCreate "zookeeper:3.5" ["/opt/zookeeper/bin/zkServer.sh"] ["start-foreground"] []) (Ok "c4");
        CallStart "c4" (Ok tt); CallInspect "c4" (Ok "172.17.0.2");
        CallWait "172.17.0.2:2182" 10000000000 true])) /\
  (fst (StartZookeeper (logged (daemon false true)) [] (4, [])) = Fail (errorsNew "could not connect to zookeeper in 10s")).
Proof. vm_compute. done. Qed.

(** A daemon whose container answers, and one whose container does not and is removed. *)
Lemma StartZookeeper_owns_container_witness :
  (exists asked ip, image_there (daemon true true) "zookeeper:3.5" asked /\
     snd (snd (StartZookeeper (logged (daemon true true)) [None; other_image] (4, []))) =
       (asked ++ [CallCreate (MkCreate "zookeeper:3.5" ["/opt/zookeeper/bin/zkServer.sh"] ["start-foreground"] []) (Ok "c4");
          CallStart "c4" (Ok tt); CallInspect "c4" (Ok ip); CallWait "172.17.0.2:2182" 10000000000 true])%list) /\
  removed (snd (snd (StartZookeeper (logged (daemon false true)) [] (4, [])))) = ["c4"].
Proof.
  split.
  - destruct (StartZookeeper_owns_container (daemon true true) [None; other_image] 4
      (Ok (MkZkControl "c4" "172.17.0.2:2182" false)) 5 _ (proj1 StartZookeeper_ex)) as [_ (asked & ip & Hi & Hl & _)].
    exists asked, ip. split; [exact Hi|]. rewrite (proj1 StartZookeeper_ex). exact Hl.
  - refine (eq_trans (proj1 (proj2 (StartZookeeper_owns_container (daemon false true) [] 4
      (Fail (errorsNew "could not connect to zookeeper in 10s")) 5 _ _))) _); vm_compute; reflexivity.
Defined.
Lemma Teardown_once_witness :
  removed (snd (snd (teardowns (logged (daemon true false)) 3 (MkZkControl "c4" "a" false) (0, [])))) = ["c4"]
  /\ tail (fst (teardowns (logged (daemon true false)) 3 (MkZkControl "c4" "a" false) (0, []))) = [Ok tt; Ok tt].
Proof.
  pose proof (Teardown_once (daemon true false) "c4" "a" 0 2) as H. revert H.
  destruct (teardowns _ 3 _ _) as [rs [w log]]. intros (H1 & H2 & _). by split.
Defined.
Lemma dialer_ends_witness :
  exists s, rtc dial_step start_dial s /\ starter s = SDead false /\ dial_panic s = false.
Proof.
  set (s1 := MkDial DCheck SSelect true false false false).
  set (s2 := set_starter (SReturn false) s1).
  exists (MkDial DCheck (SDead false) true false true false).
  assert (rtc dial_step start_dial (MkDial DCheck (SDead false) true false true false)) as Hr.
  { eapply rtc_l; [apply step_timer|]. eapply (rtc_l _ s1 s2); [by apply step_timeout|].
    apply rtc_once. by apply (step_return s2 false). }
  split; [done|]. split; [done|]. exact (proj1 (dialer_ends _ false Hr eq_refl)).
Defined.
