(* ===== verification/TransportConc.v ===== *)
(** * dcos/http/transport: one authenticating transport shared by any number of goroutines
    (roundtripper.go): the steps of [RoundTrip] between the critical sections of its
    mutex. *)
From S2P Require Import Prelude.
From S2P Require Import GoStrings.
From S2P Require Import GoErrors.
From S2P Require Import Transport.
From S2P Require Import TransportTheorems.

Local Open Scope string_scope.

Section shared.
Context {W Key Pool : Type}.

(** Where a goroutine is in its round trip. The numbers count the logins that had given a
    token when it last held the mutex. *)
Inductive rt_pc : Type :=
| PStart (req : Request)                            (* about to read the token *)
| PSend (req : Request)                             (* the first sending *)
| PLogin (req : Request) (resp : Response)          (* answered 401; about to take the mutex *)
| PPost (req : Request) (resp : Response)           (* in GenerateToken, the mutex held *)
| PToken (req : Request) (n : nat)                  (* logged in; about to read the token *)
| PResend (req : Request) (n : nat)                 (* the second sending *)
| PDone (resp : option Response) (err : option transport_error).
Record shared : Type := MkShared {
  obj : dcosRoundtripper Key;
  mutex : option nat;        (* the goroutine that holds it *)
  pcs : list rt_pc;
  issued : list string;      (* the tokens of the logins, in order *)
}.
Definition start_shared (t : dcosRoundtripper Key) (reqs : list Request) : shared :=
  MkShared t None (map (fun r => PStart r) reqs) [token t].
Definition goto (i : nat) (p : rt_pc) (s : shared) : shared :=
  MkShared (obj s) (mutex s) (<[i := p]> (pcs s)) (issued s).
Definition after_login (err : option transport_error) (req : Request) (resp : Response) (n : nat) : rt_pc :=
  match err with Some e => PDone (Some resp) (Some e) | None => PToken req n end.

(** The network answers in any way: the environment and the world of a login are whatever
    they are when it runs. [CurrentToken] takes the mutex and gives it back in one step. *)
Inductive shared_step (s : shared) : shared -> Prop :=
| share_first i req :
    pcs s !! i = Some (PStart req) -> mutex s = None ->
    shared_step s (goto i (PSend (addAuthToken (obj s) (addUserAgent (obj s) req))) s)
| share_fails i req err :
    pcs s !! i = Some (PSend req) -> shared_step s (goto i (PDone None (Some (ErrOther err))) s)
| share_answered i req resp :
    pcs s !! i = Some (PSend req) -> StatusCode resp <> 401%Z ->
    shared_step s (goto i (PDone (Some resp) None) s)
| share_refused i req resp :
    pcs s !! i = Some (PSend req) -> StatusCode resp = 401%Z ->
    shared_step s (goto i (PLogin (sent_request req) resp) s)
| share_lock i req resp :
    pcs s !! i = Some (PLogin req resp) -> mutex s = None ->
    shared_step s (MkShared (obj s) (Some i) (<[i := PPost req resp]> (pcs s)) (issued s))
| share_post i req resp (env : transport_env W Key Pool) w err t' w' :
    pcs s !! i = Some (PPost req resp) -> GenerateToken env (obj s) w = (err, t', w') ->
    let issued' := match err with None => (issued s ++ [token t'])%list | Some _ => issued s end in
    shared_step s (MkShared t' None (<[i := after_login err req resp (length issued')]> (pcs s)) issued')
| share_second i req n :
    pcs s !! i = Some (PToken req n) -> mutex s = None ->
    shared_step s (goto i (PResend (addAuthToken (obj s) req) n) s)
| share_last i req n (r : res error Response) :
    pcs s !! i = Some (PResend req n) ->
    shared_step s (goto i (match r with Fail err => PDone None (Some (ErrOther err)) | Ok resp => PDone (Some resp) None end) s).

(** ** The invariant *)
Definition inside (p : rt_pc) : bool := match p with PPost _ _ => true | _ => false end.
Definition holds (s : shared) (i : nat) : Prop := exists req resp, pcs s !! i = Some (PPost req resp).
(** [addAuthToken] on headers, and the headers of the first sending of [r]. *)
Definition auth (tk : string) (h : Header) : Header :=
  if bool_decide (tk = "") then h else Header_Set "Authorization" ("token=" ++ tk) h.
Lemma addAuthToken_auth (t : dcosRoundtripper Key) req :
  req_Header (addAuthToken t req) = auth (token t) (req_Header req).
Proof. unfold addAuthToken, auth, CurrentToken. by case_bool_decide. Qed.
Section requests.
Context (t : dcosRoundtripper Key) (reqs : list Request).
Definition first_header (r : Request) (tk : string) : Header := auth tk (req_Header (addUserAgent t r)).
(** What a goroutine whose request was [r] has at hand: its first sending had the token of
    one of the logins, and its second one has that of a later login. *)
Definition pc_ok (tokens : list string) (r : Request) (p : rt_pc) : Prop :=
  match p with
  | PStart req => req = r
  | PSend req | PLogin req _ | PPost req _ =>
      exists j tj, tokens !! j = Some tj /\ req_Header req = first_header r tj
  | PToken req n =>
      exists j tj, S j < n <= length tokens /\ tokens !! j = Some tj /\ req_Header req = first_header r tj
  | PResend req n =>
      exists j tj k tk, S j < n <= S k /\ tokens !! j = Some tj /\ tokens !! k = Some tk /\
        req_Header req = auth tk (first_header r tj)
  | PDone _ _ => True
  end.
Record shared_inv (s : shared) : Prop := {
  inv_mutex : guarded inside (mutex s) (pcs s);
  inv_token : last (issued s) = Some (token (obj s));
  inv_agent : userAgent (obj s) = userAgent t;
  inv_pcs : forall i p, pcs s !! i = Some p -> exists r, reqs !! i = Some r /\ pc_ok (issued s) r p;
}.

Lemma pc_ok_more tokens more r p : pc_ok tokens r p -> pc_ok (tokens ++ more) r p.
Proof.
  destruct p as [|req|req resp|req resp|req n|req n|]; simpl; try done.
  1-3: intros (j & tj & Hj & Hh); exists j, tj; split; [by apply lookup_app_l_Some|done].
  - intros (j & tj & Hn & Hj & Hh). exists j, tj. rewrite length_app.
    split; [lia|]. split; [by apply lookup_app_l_Some|done].
  - intros (j & tj & k & tk & Hn & Hj & Hk & Hh). exists j, tj, k, tk.
    split; [done|]. split; [by apply lookup_app_l_Some|]. split; [by apply lookup_app_l_Some|done].
Qed.
Lemma holds_mutex s i : guarded inside (mutex s) (pcs s) -> holds s i -> mutex s = Some i.
Proof. intros Hg (req & resp & Hi). by apply (guarded_held _ _ _ _ _ Hg Hi). Qed.
Lemma last_index {A} (l : list A) x : last l = Some x -> l !! pred (length l) = Some x /\ length l <> 0.
Proof. intros Hl. rewrite last_lookup in Hl. split; [done|]. by destruct l. Qed.
Lemma pcs_insert (tokens : list string) (l : list rt_pc) i p q :
  (forall j p, l !! j = Some p -> exists r, reqs !! j = Some r /\ pc_ok tokens r p) ->
  l !! i = Some p -> (forall r, pc_ok tokens r p -> pc_ok tokens r q) ->
  forall j p, <[i := q]> l !! j = Some p -> exists r, reqs !! j = Some r /\ pc_ok tokens r p.
Proof.
  intros Hl Hi Hq j p' Hj. apply list_lookup_insert_Some in Hj as [(<- & <- & _)|[_ Hj]]; [|by apply Hl].
  destruct (Hl i p Hi) as (r & Hr & Hp). exists r. auto.
Qed.
(** A goroutine outside the critical section moves, and stays outside. *)
Lemma inv_goto s i p q :
  shared_inv s -> pcs s !! i = Some p -> inside p = false -> inside q = false ->
  (forall r, pc_ok (issued s) r p -> pc_ok (issued s) r q) -> shared_inv (goto i q s).
Proof.
  intros [Hm Ht Ha Hp] Hi Hno Hno' Hq. split; [by apply (guarded_move _ _ _ _ p)|done|done|].
  by apply (pcs_insert _ _ i p).
Qed.
Lemma GenerateToken_agent (env : transport_env W Key Pool) (t1 : dcosRoundtripper Key) w err t' w' :
  GenerateToken env t1 w = (err, t', w') -> userAgent t' = userAgent t1.
Proof.
  destruct err as [e|]; [by intros ->%GenerateToken_fail|]. by intros (r & tk & _ & ->)%GenerateToken_ok.
Qed.

Lemma shared_inv_step s s' : shared_inv s -> shared_step s s' -> shared_inv s'.
Proof.
  intros Hinv Hs. pose proof (last_index _ _ (inv_token s Hinv)) as [Hk Hl].
  destruct Hs as [i req Hi Hm|i req err Hi|i req resp Hi Hc|i req resp Hi Hc|i req resp Hi Hm
    |i req resp env w err t' w' Hi Hg|i req n Hi Hm|i req n r Hi].
  2, 3: by eapply inv_goto.
  6: destruct r; by eapply inv_goto.
  - eapply inv_goto; [done|exact Hi|done|done|]. intros r ->. simpl.
    exists (pred (length (issued s))), (token (obj s)). split; [done|].
    rewrite addAuthToken_auth. unfold first_header, addUserAgent. by rewrite (inv_agent s Hinv).
  - by eapply inv_goto.
  - destruct Hinv as [Hx Ht Ha Hp]. split; [|done|done|].
    + rewrite Hm in Hx. by apply (guarded_lock _ _ _ _ _ Hx Hi).
    + by apply (pcs_insert _ _ i (PLogin req resp)).
  - destruct Hinv as [Hx Ht Ha Hp]. split; simpl.
    + apply (guarded_unlock _ _ _ _ _ _ Hx Hi); [done|by destruct err].
    + destruct err as [e|]; [by rewrite (GenerateToken_fail _ _ _ _ _ _ Hg)|]. apply last_snoc.
    + by rewrite (GenerateToken_agent _ _ _ _ _ _ Hg).
    + intros j p Hj. apply list_lookup_insert_Some in Hj as [(<- & <- & _)|[_ Hj]].
      * destruct (Hp i _ Hi) as (r & Hr & j & tj & Hj & Hh). exists r. split; [done|].
        unfold issued'. destruct err; simpl; [done|]. exists j, tj. rewrite length_app. simpl.
        pose proof (lookup_lt_Some _ _ _ Hj). split; [lia|]. split; [by apply lookup_app_l_Some|done].
      * destruct (Hp j p Hj) as (r & Hr & Hok). exists r. split; [done|].
        unfold issued'. destruct err; [done|by apply pc_ok_more].
  - eapply inv_goto; [done|exact Hi|done|done|]. intros r (j & tj & Hn & Hj & Hh).
    exists j, tj, (pred (length (issued s))), (token (obj s)). split; [lia|]. split; [done|].
    split; [done|]. by rewrite addAuthToken_auth, Hh.
Qed.
End requests.
Lemma reachable_shared t reqs s : rtc shared_step (start_shared t reqs) s -> shared_inv t reqs s.
Proof.
  intros Hr. refine (rtc_invariant shared_step (shared_inv t reqs) _ _ _ _ Hr); [apply shared_inv_step|].
  split; simpl; [|done|done|].
  - by apply guarded_start, Forall_fmap, Forall_forall.
  - intros i p (r & -> & Hi)%list_lookup_fmap_Some. by exists r.
Qed.

(** ** Steps left *)
Definition pc_left (p : rt_pc) : nat :=
  match p with
  | PStart _ => 6 | PSend _ => 5 | PLogin _ _ => 4 | PPost _ _ => 3
  | PToken _ _ => 2 | PResend _ _ => 1 | PDone _ _ => 0
  end.
Definition all_left (l : list rt_pc) : nat := sum_list (map pc_left l).
Lemma all_left_insert l i p q :
  l !! i = Some p -> pc_left q < pc_left p -> all_left (<[i := q]> l) < all_left l.
Proof.
  intros Hi Hlt. unfold all_left. rewrite list_fmap_insert.
  apply (sum_list_insert_lt _ i (pc_left p)); [by rewrite list_lookup_fmap, Hi|done].
Qed.
Lemma shared_decreases s s' : shared_step s s' -> all_left (pcs s') < all_left (pcs s).
Proof.
  intros Hs. destruct Hs as [i req Hi Hm|i req err Hi|i req resp Hi Hc|i req resp Hi Hc|i req resp Hi Hm
    |i req resp env w err t' w' Hi Hg|i req n Hi Hm|i req n r Hi]; simpl;
    (eapply all_left_insert; [exact Hi|simpl]); try lia.
  - destruct err; simpl; lia.
  - destruct r; simpl; lia.
Qed.
Lemma shared_bounded n s s' : nsteps shared_step n s s' -> n + all_left (pcs s') <= all_left (pcs s).
Proof.
  induction 1 as [|n s s1 s' Hs _ IH]; [done|]. apply shared_decreases in Hs. lia.
Qed.
Lemma all_left_start reqs : all_left (map (fun r => PStart r) reqs) = 6 * length reqs.
Proof. unfold all_left. induction reqs as [|r reqs IH]; simpl in *; lia. Qed.

(** The login fails at once. *)
Definition no_network : transport_env W Key Pool :=
  {| rt := fun _ w => (Fail (errorsNew "no network"), w);
     sign := fun _ _ _ => Fail (errorsNew "no key");
     now_plus1 := fun _ d => d; now_plus2 := fun _ d => d;
     NewRequest_err := fun _ => None; decode_token := fun b => Ok b; parse_key := fun _ => None;
     read_config := fun _ => Fail (errorsNew "no file"); read_file := fun _ => Fail (errorsNew "no file");
     parse_certs := fun _ => None |}.
Lemma not_stuck (w0 : W) t reqs s i p :
  shared_inv t reqs s -> pcs s !! i = Some p -> pc_left p <> 0 -> exists s', shared_step s s'.
Proof.
  intros [Hm _ _ _] Hi Hp. destruct (mutex s) as [j|] eqn:Hmx.
  - pose proof (proj2 (Hm j) eq_refl) as Hj.
    destruct (pcs s !! j) as [[| | |req resp| | |]|] eqn:Hpj; try done. eexists.
    by eapply (share_post s j req resp no_network w0).
  - destruct p as [req|req|req resp|req resp|req n|req n|resp err]; try done.
    + eexists. by apply (share_first s i req).
    + eexists. by apply (share_fails s i req (errorsNew "")).
    + eexists. by apply (share_lock s i req resp).
    + pose proof (guarded_held _ _ _ _ _ Hm Hi eq_refl). done.
    + eexists. by apply (share_second s i req n).
    + eexists. by apply (share_last s i req n (Fail (errorsNew ""))).
Qed.
End shared.

(** ** Properties *)
(** C35. Goroutines that share a transport never log in at the same time; the object's token
    is the one of the last login that gave one (or the first token); and a goroutine that
    was answered 401 sends its request the second time with the headers of its first
    sending, in which the token of some earlier login was put, and over them the token of a
    login that ended no earlier than its own, be it another goroutine's. An empty token is
    never put in: after a login that answered one, the second sending has the headers of
    the first, old token included. *)
Theorem retry_token_is_fresh {W Key Pool : Type} (t : dcosRoundtripper Key) reqs (s : shared) :
  rtc (@shared_step W Key Pool) (start_shared t reqs) s ->
  (forall i j, holds s i -> holds s j -> i = j)
  /\ last (issued s) = Some (token (obj s))
  /\ forall i req n, pcs s !! i = Some (PResend req n) ->
       exists r j tj k tk, reqs !! i = Some r /\ j < k /\ n <= S k
         /\ issued s !! j = Some tj /\ issued s !! k = Some tk
         /\ req_Header req = auth tk (first_header t r tj)
         /\ (tk <> "" -> req_Header req !! "Authorization" = Some ["token=" ++ tk])
         /\ (tk = "" -> req_Header req = first_header t r tj).
Proof.
  intros Hr. destruct (reachable_shared t reqs s Hr) as [Hm Ht _ Hp]. split; [|split; [done|]].
  - intros i j Hi%holds_mutex Hj%holds_mutex; [congruence|done..].
  - intros i req n Hi. destruct (Hp i _ Hi) as (r & Hri & j & tj & k & tk & Hn & Hj & Hk & Hh).
    exists r, j, tj, k, tk. split; [done|]. split; [lia|]. split; [lia|]. split; [done|]. split; [done|].
    split; [exact Hh|]. rewrite Hh. generalize (first_header t r tj) as h. intros h. unfold auth. split; intros Htk.
    + rewrite bool_decide_eq_false_2 by done. apply Header_Set_eq.
    + by rewrite bool_decide_eq_true_2.
Qed.

(** C36. No round trip waits for ever for the mutex: whatever the network answers, and however
    the goroutines are scheduled, they take at most six steps per round trip in all, and
    when no step is possible every one of them has returned. *)
Theorem shared_round_trips_end {W Key Pool : Type} (w0 : W) (t : dcosRoundtripper Key) reqs n (s : shared) :
  nsteps (@shared_step W Key Pool) n (start_shared t reqs) s ->
  n <= 6 * length reqs /\
  ((forall s', ~ @shared_step W Key Pool s s') -> Forall (fun p => exists resp err, p = PDone resp err) (pcs s)).
Proof.
  intros Hn. split.
  - pose proof (shared_bounded n _ _ Hn) as Hb. simpl in Hb. rewrite all_left_start in Hb. lia.
  - intros Hstuck. apply rtc_nsteps_2, (reachable_shared t reqs) in Hn. apply Forall_lookup_2. intros i p Hi.
    destruct (decide (pc_left p = 0)) as [Hz|Hz]; [destruct p; try done; by eexists _, _|].
    destruct (not_stuck (Pool := Pool) w0 t reqs s i p Hn Hi Hz) as [s' Hs]. by destruct (Hstuck s').
Qed.

(** ** Witnesses: two goroutines of the client of TransportTheorems; the first logs in while
    the second one's request is under way, then both end. *)
Definition refused : Response := MkResponse 401 "".
Definition first_sent : Request := addAuthToken net_client (addUserAgent net_client net_request).
Definition logged_client : dcosRoundtripper nat := set_token "new" net_client.
Definition resent : Request := addAuthToken logged_client (sent_request first_sent).
Definition conc_end : shared (Key := nat) :=
  MkShared logged_client None [PResend resent 2; PSend first_sent] ["old"; "new"].
Definition conc_token : shared (Key := nat) :=
  MkShared logged_client None [PToken (sent_request first_sent) 2; PSend first_sent] ["old"; "new"].
Definition conc_posting : shared (Key := nat) :=
  MkShared net_client (Some 0) [PPost (sent_request first_sent) refused; PSend first_sent] ["old"].
Definition conc_refused : shared (Key := nat) :=
  MkShared net_client None [PLogin (sent_request first_sent) refused; PSend first_sent] ["old"].
Definition conc_sent : shared (Key := nat) := MkShared net_client None [PSend first_sent; PSend first_sent] ["old"].
Definition conc_one : shared (Key := nat) := MkShared net_client None [PSend first_sent; PStart net_request] ["old"].
Definition conc_last : shared (Key := nat) :=
  MkShared logged_client None [PDone (Some (MkResponse 200 "")) None; PSend first_sent] ["old"; "new"].
Definition conc_over : shared (Key := nat) :=
  MkShared logged_client None
    [PDone (Some (MkResponse 200 "")) None; PDone (Some (MkResponse 200 "")) None] ["old"; "new"].
Lemma conc_steps :
  nsteps (@shared_step nat nat nat) 6 (start_shared net_client [net_request; net_request]) conc_end.
Proof.
  apply (nsteps_l _ _ _ conc_one).
  { exact (share_first (start_shared net_client [net_request; net_request]) 0 net_request eq_refl eq_refl). }
  apply (nsteps_l _ _ _ conc_sent); [exact (share_first conc_one 1 net_request eq_refl eq_refl)|].
  apply (nsteps_l _ _ _ conc_refused); [exact (share_refused conc_sent 0 first_sent refused eq_refl eq_refl)|].
  apply (nsteps_l _ _ _ conc_posting); [exact (share_lock conc_refused 0 (sent_request first_sent) refused eq_refl eq_refl)|].
  apply (nsteps_l _ _ _ conc_token).
  - exact (share_post conc_posting 0 (sent_request first_sent) refused net 0 None logged_client 1 eq_refl eq_refl).
  - apply nsteps_once. exact (share_second conc_token 0 (sent_request first_sent) 2 eq_refl eq_refl).
Qed.
Lemma over_steps :
  nsteps (@shared_step nat nat nat) 8 (start_shared net_client [net_request; net_request]) conc_over.
Proof.
  apply (nsteps_trans 6 2 _ conc_end); [exact conc_steps|].
  apply (nsteps_l _ _ _ conc_last); [exact (share_last conc_end 0 resent 2 (Ok (MkResponse 200 "")) eq_refl)|].
  apply nsteps_once. apply (share_answered conc_last 1 first_sent (MkResponse 200 "") eq_refl). discriminate.
Qed.
(** When all have returned no step is possible. *)
Lemma all_done_stuck (s s' : shared (Key := nat)) :
  Forall (fun p => pc_left p = 0) (pcs s) -> ~ @shared_step nat nat nat s s'.
Proof.
  intros Hl Hs. destruct Hs; match goal with
    H : pcs s !! _ = Some _ |- _ => by pose proof (Forall_lookup_1 _ _ _ _ Hl H) end.
Qed.
Lemma retry_token_is_fresh_witness :
  last (issued conc_end) = Some (token (obj conc_end)) /\
  exists r j tj k tk, [net_request; net_request] !! 0 = Some r /\ j < k /\ 2 <= S k
    /\ issued conc_end !! j = Some tj /\ issued conc_end !! k = Some tk
    /\ req_Header resent = auth tk (first_header net_client r tj)
    /\ (tk <> "" -> req_Header resent !! "Authorization" = Some ["token=" ++ tk])
    /\ (tk = "" -> req_Header resent = first_header net_client r tj).
Proof.
  destruct (retry_token_is_fresh (W := nat) (Pool := nat) net_client [net_request; net_request] conc_end
    (rtc_nsteps_2 _ _ _ conc_steps)) as (_ & Hl & Hf).
  split; [exact Hl|]. exact (Hf 0 resent 2 eq_refl).
Defined.
Lemma shared_round_trips_end_witness :
  8 <= 6 * 2 /\ Forall (fun p => exists resp err, p = PDone resp err) (pcs conc_over).
Proof.
  destruct (shared_round_trips_end (Pool := nat) 0 net_client [net_request; net_request] 8 conc_over over_steps)
    as [Hn Hd].
  split; [exact Hn|]. apply Hd. intros s'. apply all_done_stuck. repeat constructor.
Defined.

(** ** A login that answers an empty token: it counts as a success, the object has no token
    any more, and the second sending goes out with the refused token again. *)
Definition blank_net : transport_env nat nat nat :=
  MkEnv (fun _ w => (Ok (MkResponse 200 ""), w)) (sign net) (now_plus1 net) (now_plus2 net)
    (NewRequest_err net) (decode_token net) (parse_key net) (read_config net) (read_file net) (parse_certs net).
Definition blank_client : dcosRoundtripper nat := set_token "" net_client.
Definition resent_blank : Request := addAuthToken blank_client (sent_request first_sent).
Lemma empty_token_resends_old :
  GenerateToken blank_net net_client 0 = (None, blank_client, 0) /\
  req_Header resent_blank !! "Authorization" = Some ["token=old"] /\
  exists s, rtc (@shared_step nat nat nat) (start_shared net_client [net_request]) s /\
    pcs s !! 0 = Some (PResend resent_blank 2) /\ token (obj s) = "".
Proof.
  split; [reflexivity|]. split; [reflexivity|].
  exists (MkShared blank_client None [PResend resent_blank 2] ["old"; ""]).
  split; [|split; reflexivity].
  eapply rtc_l; [exact (share_first (start_shared net_client [net_request]) 0 net_request eq_refl eq_refl)|].
  eapply rtc_l; [by eapply (share_refused _ 0 first_sent refused)|].
  eapply rtc_l; [by eapply (share_lock _ 0 (sent_request first_sent) refused)|].
  eapply rtc_l; [by eapply (share_post _ 0 (sent_request first_sent) refused blank_net 0 None blank_client 0)|].
  apply rtc_once. exact (share_second (MkShared blank_client None [PToken (sent_request first_sent) 2]
    ["old"; ""]) 0 (sent_request first_sent) 2 eq_refl eq_refl).
Qed.
