(* ===== verification/Examples.v ===== *)
(** * The example programs: the packages put together. Each is a function of its flags, the
    environment and the world; those that loop take the number of rounds to run. *)
From S2P Require Import Prelude.
From S2P Require Import GoStrings.
From S2P Require Import GoErrors.
From S2P Require Import GoNet.
From S2P Require Import DcosConstants.
From S2P Require Import NodeUtil.
From S2P Require Import NodeUtilTheorems.
From S2P Require Import Transport.
From S2P Require Import TransportTheorems.

Local Open Scope string_scope.

(** ** What a program shows *)
Inductive printed : Type :=
| PUsage
| PIP (ip : IP)
| PLeader (b : bool)
| PMesosID (id : string)
| PBody (body : string).
Inductive cause : Type :=
| ByTransport (e : transport_error)
| ByNode (e : node_error)
| ByError (e : error)
| ByStatus (code : Z).
Inductive ending : Type :=
| Exit (code : Z)
| Panic (c : cause)
| LogFatal (c : cause)
| Returned.

Section programs.
(** [follow], [follow_plain]: what following a redirect ends with; [read_all]: reading a body to its end;
    [sleep]: a second passes; [decode_state]: decoding JSON text into a Mesos state. *)
Context {W Key Pool : Type}.
Variable follow : Response -> dcosRoundtripper Key -> W -> res error Response * dcosRoundtripper Key * W.
Variable follow_plain : Response -> W -> res error Response * W.
Variable read_all : Response -> res error string.
Variable sleep : W -> W.
Variable decode_state : string -> res error State.

(** ** [http.Client.Do] over a transport: one round trip, unless the answer redirects. An
    error comes wrapped in an [url.Error]; a response that comes with an error is dropped. *)
Definition redirects (resp : Response) : bool :=
  bool_decide (StatusCode resp ∈ [301; 302; 303; 307; 308]%Z).
Definition transport_message (e : transport_error) : error :=
  match e with
  | ErrTokenRefresh msg => errorsNew msg
  | ErrEmptyToken => errorsNew "Empty token"
  | ErrOther e => e
  | _ => errorsNew "invalid"
  end.
Definition url_error (req : Request) (e : error) : error := errorsWrap ("Get " ++ URL req) e.
Definition Do (env : transport_env W Key Pool) (t : dcosRoundtripper Key) (req : Request) (w : W)
    : res error Response * dcosRoundtripper Key * W :=
  match RoundTrip env t req w with
  | (_, Some err, t, w) => (Fail (url_error req (transport_message err)), t, w)
  | (None, None, t, w) => (Fail (url_error req (errorsNew "nil response")), t, w)
  | (Some resp, None, t, w) =>
      if redirects resp then follow resp t w else (Ok resp, t, w)
  end.

(** ** The loop of the examples that fetch: one request a second until one fails *)
Fixpoint fetch_loop {S : Type} (get : S -> W -> res error Response * S * W) (rounds : nat) (s : S) (w : W)
    : list printed * option ending :=
  match rounds with
  | O => ([], None)
  | Datatypes.S rounds =>
      match get s w with
      | (Fail err, _, _) => ([], Some (LogFatal (ByError err)))
      | (Ok resp, s, w) =>
          if negb (StatusCode resp =? 200)%Z then ([], Some (LogFatal (ByStatus (StatusCode resp))))
          else match read_all resp with
               | Fail err => ([], Some (LogFatal (ByError err)))
               | Ok body =>
                   let '(out, e) := fetch_loop get rounds s (sleep w) in (PBody body :: out, e)
               end
      end
  end.

(** ** roundtripper_example: one request, sent again and again. A round trip changes the
    headers of the request it is given. *)
Definition two_seconds : Z := 2 * 1000000000.
Definition changed_request (t t' : dcosRoundtripper Key) (req : Request) : Request :=
  addAuthToken t' (addAuthToken t (addUserAgent t req)).
Definition get_again (env : transport_env W Key Pool) (s : dcosRoundtripper Key * Request) (w : W)
    : res error Response * (dcosRoundtripper Key * Request) * W :=
  let '(t, req) := s in
  let '(_, t', _) := RoundTrip env t req w in
  let '(r, t'', w) := Do env t req w in (r, (t'', changed_request t t' req), w).
Definition roundtripper_example (env : transport_env W Key Pool) (url iamConfig : string) (rounds : nat) (w : W)
    : list printed * option ending :=
  if bool_decide (url = "") || bool_decide (iamConfig = "") then ([PUsage], Some (Exit 1))
  else match NewRoundTripper env [Some (OptionReadIAMConfig env iamConfig); Some (OptionTokenExpire two_seconds)] w with
  | (Fail err, _) => ([], Some (LogFatal (ByTransport err)))
  | (Ok t, w) =>
      match NewRequest_err env url with
      | Some _ => ([], Some (Panic (ByError (goPanic "nil request"))))  (* the error is dropped *)
      | None => fetch_loop (get_again env) rounds (t, MkRequest "GET" url ∅ NoBody) w
      end
  end.

(** ** transport_example: a new request each time, over what [NewTransport] makes *)
Definition get_made (envs : tls_config Pool -> transport_env W Key Pool) (url : string) (m : made Key Pool) (w : W)
    : res error Response * made Key Pool * W :=
  let req := MkRequest "GET" url ∅ NoBody in
  match NewRequest_err (envs (MkTLS None true)) url with
  | Some err => (Fail err, m, w)
  | None =>
      match m with
      | WithIAM c t => let '(r, t, w) := Do (envs c) t req w in (r, WithIAM c t, w)
      | Plain c =>
          match rt (envs c) req w with
          | (Fail err, w) => (Fail (url_error req err), m, w)
          | (Ok resp, w) =>
              if redirects resp then let '(r, w) := follow_plain resp w in (r, m, w) else (Ok resp, m, w)
          end
      end
  end.
Definition transport_example (envs : tls_config Pool -> transport_env W Key Pool)
    (url iamConfig caCertPath : string) (rounds : nat) (w : W) : list printed * option ending :=
  if bool_decide (url = "") || bool_decide (iamConfig = "") || bool_decide (caCertPath = "")
  then ([PUsage], Some (Exit 1))
  else match NewTransport envs [OptionCaCertificatePath caCertPath; OptionIAMConfigPath iamConfig] w with
  | (Fail err, _) => ([], Some (Panic (ByTransport err)))
  | (Ok m, w) => fetch_loop (get_made envs url) rounds m w
  end.

(** ** nodeutil's example: facts about a master, asked over an authenticating client *)
Definition header_of (h : option NodeUtil.Header) : Header :=
  match h with None => ∅ | Some h => list_to_map h end.
(** [base] with the client whose transport is [t], as it answers in the world [w]. *)
Definition with_client (env : transport_env W Key Pool) (base : node_env) (t : dcosRoundtripper Key) (w : W) : node_env :=
  MkNodeEnv (windows base) (os_Stat base) (run_script base) (LookupIP base) (ReadFile base) (http_NewRequest base)
    (fun url h =>
      match Do env t (MkRequest "GET" url (header_of h) NoBody) w with
      | (Fail err, _, _) => Fail err
      | (Ok resp, _, _) => Ok (StatusCode resp, decode_state (resp_body resp))
      end).
Definition main_jwt (env : transport_env W Key Pool) (base : node_env) (iamConfig : string) (w : W)
    : list printed * ending :=
  if bool_decide (iamConfig = "") then ([PUsage], Exit 1)
  else match NewRoundTripper env [Some (OptionReadIAMConfig env iamConfig)] w with
  | (Fail err, _) => ([], Panic (ByTransport err))
  | (Ok t, w) =>
      let nenv := with_client env base t w in
      match NewNodeInfo nenv true RoleMaster [] with
      | Fail err => ([], Panic (ByNode err))
      | Ok d =>
          match DetectIP nenv d with
          | (Fail err, _) => ([], Panic (ByNode err))
          | (Ok ip, d) =>
              match IsLeader nenv d with
              | (Fail err, _) => ([PIP ip], Panic (ByNode err))
              | (Ok leader, d) =>
                  match MesosID None nenv d with
                  | (Fail err, _) => ([PIP ip; PLeader leader], Panic (ByNode err))
                  | (Ok mesosID, _) => ([PIP ip; PLeader leader; PMesosID mesosID], Returned)
                  end
              end
          end
      end
  end.

(** ** A service that honours its logins *)
(** [good w tk]: the token is accepted in the world [w]; it may be no longer later on. *)
Record honours (env : transport_env W Key Pool) (t0 : dcosRoundtripper Key) (url : string)
    (good : W -> string -> Prop) : Prop := {
  honours_login : forall w tk0, exists tk w',
    GenerateToken env (set_token tk0 t0) w = (None, set_token tk t0, w') /\ tk <> "" /\ good w' tk;
  honours_answers : forall w req, URL req = url -> exists resp w',
    rt env req w = (Ok resp, w')
    /\ (StatusCode resp = 200%Z \/ StatusCode resp = 401%Z)
    /\ (forall tk, good w tk -> req_Header req !! "Authorization" = Some ["token=" ++ tk] -> StatusCode resp = 200%Z);
}.
Lemma Do_honoured env t0 url good tk req w :
  honours env t0 url good -> URL req = url ->
  exists resp tk' w', Do env (set_token tk t0) req w = (Ok resp, set_token tk' t0, w') /\ StatusCode resp = 200%Z.
Proof.
  intros [Hlogin Hans] Hu. unfold Do, RoundTrip.
  pose proof (addAuthToken_rest (set_token tk t0) (addUserAgent (set_token tk t0) req)) as (_ & Hu1 & _).
  set (req1 := addAuthToken _ _) in *. assert (URL req1 = url) as Hurl by by rewrite Hu1.
  destruct (Hans w req1 Hurl) as (resp & w1 & -> & Hcode & _).
  destruct Hcode as [Hc|Hc]; rewrite Hc; simpl.
  - unfold redirects. rewrite Hc. simpl. by exists resp, tk, w1.
  - destruct (Hlogin w1 tk) as (tk' & w2 & -> & Hne & Hg). set (req2 := addAuthToken _ (sent_request req1)).
    pose proof (addAuthToken_rest (set_token tk' t0) (sent_request req1)) as (_ & Hu2 & _).
    destruct (Hans w2 req2) as (resp2 & w3 & -> & _ & Hok); [by rewrite <- Hurl|].
    assert (StatusCode resp2 = 200%Z) as Hc2.
    { apply (Hok tk' Hg). unfold req2. rewrite addAuthToken_header. simpl. by rewrite bool_decide_eq_false_2. }
    unfold redirects. rewrite Hc2. simpl. by exists resp2, tk', w3.
Qed.
Lemma fetch_loop_goes_on {S : Type} (get : S -> W -> res error Response * S * W) (P : S -> Prop) :
  (forall resp, is_ok (read_all resp) = true) ->
  (forall s w, P s -> exists resp s' w', get s w = (Ok resp, s', w') /\ StatusCode resp = 200%Z /\ P s') ->
  forall rounds s w, P s ->
  exists bodies, length bodies = rounds /\ fetch_loop get rounds s w = (map PBody bodies, None).
Proof.
  intros Hread Hget rounds. induction rounds as [|rounds IH]; intros s w HP; [by exists []|].
  destruct (Hget s w HP) as (resp & s' & w' & Hg & Hc & HP'). simpl. rewrite Hg, Hc. simpl.
  specialize (Hread resp). destruct (read_all resp) as [err|body]; [done|].
  destruct (IH s' (sleep w') HP') as (bodies & <- & ->). by exists (body :: bodies).
Qed.
End programs.

(** ** What a master is told *)
Lemma state_Ok ctx env d st : fst (NodeUtil.state ctx env d) = Ok st ->
  client_Do env (mesosStateURL d) (match ctx with None => None | Some h => h end) = Ok (200%Z, Ok st).
Proof.
  unfold NodeUtil.state. node_unfold. destruct (http_NewRequest env (mesosStateURL d)) as [err|]; [done|].
  destruct (client_Do env (mesosStateURL d) _) as [err|[code body]] eqn:Hdo; [done|]. simpl.
  destruct (Z.eqb_spec code 200) as [->|]; simpl; [|done]. by destruct body as [err|st']; intros [= ->].
Qed.
Lemma MesosID_master env ctx d id :
  role d = RoleMaster -> cachedMesosID d = "" -> fst (MesosID ctx env d) = Ok id ->
  exists st, client_Do env (mesosStateURL d) (match ctx with None => None | Some h => h end) = Ok (200%Z, Ok st)
    /\ id = state_ID st /\ id <> "".
Proof.
  intros Hr Hid. unfold MesosID, bind at 1, self at 1. rewrite Hid. destruct (negb (client d)); [done|].
  destruct (bool_decide (mesosStateURL d = "")); [done|]. rewrite andb_false_r.
  unfold fetch_MesosID, bind at 1. destruct (DetectIP env d) as [[err|ip] d1] eqn:HD; [done|].
  destruct (DetectIP_config _ _ _ _ HD) as (_ & Hr1 & _ & _ & _ & _ & Hu1). unfold bind at 1.
  destruct (NodeUtil.state ctx env d1) as [r d2] eqn:HS. assert (fst (NodeUtil.state ctx env d1) = r) as Hst by by rewrite HS.
  apply state_same in HS as ->. destruct r as [err|st]; [done|]. apply state_Ok in Hst. rewrite Hu1 in Hst.
  unfold bind at 1, self. rewrite Hr1, Hr, bool_decide_eq_true_2 by done. case_bool_decide as Hne; [done|].
  node_unfold. intros [= <-]. by exists st.
Qed.
Lemma IsLeader_master env d b d' :
  cache d = true -> role d = RoleMaster -> cachedIsLeader d = None -> IsLeader env d = (Ok b, d') ->
  b = true /\ cachedMesosID d' = cachedMesosID d /\ role d' = role d /\ mesosStateURL d' = mesosStateURL d.
Proof.
  intros Hc Hr Hl. unfold IsLeader, bind at 1. destruct (DetectIP env d) as [[err|ip] d1] eqn:HD; [done|].
  destruct (DetectIP_config _ _ _ _ HD) as (Hc1 & Hr1 & Hl1 & Hm1 & _ & _ & Hu1).
  unfold bind, self. rewrite Hl1, Hl. intros H. apply lookup_leader_Ok in H; [|congruence].
  destruct H as [[-> ->]|(_ & _ & Hno)]; [done|]. rewrite Hr1, Hr in Hno. by vm_compute in Hno.
Qed.

(** ** Properties *)
(** C39. The examples that fetch go on for ever with tokens that expire: when the service
    honours its logins, answering 401 at worst to any other token and 200 to one it has just
    given, both print a body at every round, whatever time does to the tokens between the
    rounds. *)
Theorem examples_keep_fetching {W Key Pool : Type}
    (follow : Response -> dcosRoundtripper Key -> W -> res error Response * dcosRoundtripper Key * W)
    (follow_plain : Response -> W -> res error Response * W)
    (read_all : Response -> res error string) (sleep : W -> W)
    (envs : tls_config Pool -> transport_env W Key Pool) (url cfg ca : string) (t : dcosRoundtripper Key)
    (c : tls_config Pool) (w w1 : W) (good : W -> string -> Prop) :
  url <> "" -> cfg <> "" -> ca <> "" -> NewRequest_err (envs (MkTLS None true)) url = None ->
  (forall resp, is_ok (read_all resp) = true) -> honours (envs c) t url good ->
  (NewRequest_err (envs c) url = None ->
   NewRoundTripper (envs c) [Some (OptionReadIAMConfig (envs c) cfg); Some (OptionTokenExpire two_seconds)] w = (Ok t, w1) ->
   forall rounds, exists bodies, length bodies = rounds
     /\ roundtripper_example follow read_all sleep (envs c) url cfg rounds w = (map PBody bodies, None))
  /\ (NewTransport envs [OptionCaCertificatePath ca; OptionIAMConfigPath cfg] w = (Ok (WithIAM c t), w1) ->
   forall rounds, exists bodies, length bodies = rounds
     /\ transport_example follow follow_plain read_all sleep envs url cfg ca rounds w = (map PBody bodies, None)).
Proof.
  intros Hu Hc Ha Hn Hread Hon. split.
  - intros Hn' Ht rounds. unfold roundtripper_example. rewrite !bool_decide_eq_false_2 by done. simpl.
    rewrite Ht, Hn'.
    apply (fetch_loop_goes_on read_all sleep _ (fun s => (exists tk, s.1 = set_token tk t) /\ URL s.2 = url)); [done| |].
    + intros [t' req] w' [[tk Heq] Hurl]. cbn in Heq, Hurl. subst t'.
      destruct (Do_honoured follow (envs c) t url good tk req w' Hon Hurl) as (resp & tk' & w'' & HD & Hc200).
      unfold get_again. destruct (RoundTrip (envs c) (set_token tk t) req w') as [[[r err] t1] w2].
      rewrite HD. eexists _, _, _. split; [done|]. split; [done|]. split; [by exists tk'|]. cbn.
      unfold changed_request. by rewrite !(proj1 (proj2 (addAuthToken_rest _ _))).
    + split; [exists (token t); by destruct t|done].
  - intros Ht rounds. unfold transport_example. rewrite !bool_decide_eq_false_2 by done. simpl. rewrite Ht.
    apply (fetch_loop_goes_on read_all sleep _ (fun m => exists tk, m = WithIAM c (set_token tk t))); [done| |].
    + intros m w' [tk ->]. unfold get_made. rewrite Hn.
      destruct (Do_honoured follow (envs c) t url good tk (MkRequest "GET" url ∅ NoBody) w' Hon eq_refl)
        as (resp & tk' & w'' & -> & Hc200).
      eexists _, _, _. split; [done|]. split; [done|]. by exists tk'.
    + exists (token t). by destruct t.
Qed.

(** C40. The packages put together: nodeutil's example ends well only by printing an
    address, that the node leads, and a Mesos id; the id is not blank and is that of the
    state in a response with code 200 to a request for the Mesos state through the
    authenticating transport, whose first sending carries the token of the login the program
    began with. Its master never reports that it does not lead: it panics instead. *)
Theorem main_jwt_reports {W Key Pool : Type}
    (follow : Response -> dcosRoundtripper Key -> W -> res error Response * dcosRoundtripper Key * W)
    (decode_state : string -> res error State) (env : transport_env W Key Pool) (base : node_env)
    (cfg : string) (w : W) (out : list printed) :
  main_jwt follow decode_state env base cfg w = (out, Returned) ->
  exists t w1 ip st resp,
    NewRoundTripper env [Some (OptionReadIAMConfig env cfg)] w = (Ok t, w1)
    /\ out = [PIP ip; PLeader true; PMesosID (state_ID st)] /\ state_ID st <> ""
    /\ (let req := MkRequest "GET" defaultStateURL ∅ NoBody in
        fst (fst (Do follow env t req w1)) = Ok resp
        /\ (token t <> "" -> req_Header (first_request t req) !! "Authorization" = Some ["token=" ++ token t]))
    /\ StatusCode resp = 200%Z /\ decode_state (resp_body resp) = Ok st.
Proof.
  unfold main_jwt. case_bool_decide; [done|].
  destruct (NewRoundTripper env _ w) as [[err|t] w1]; [done|]. set (nenv := with_client _ _ _ _ _ _).
  pose (d := MkInfo true None None "" "" true (GetFileDetectIPLocation (windows nenv)) defaultExecTimeout
    RoleMaster defaultStateURL DNSRecordLeader defaultClusterIDLocation).
  change (NewNodeInfo nenv true RoleMaster []) with (Ok (E := node_error) d). cbv iota.
  destruct (DetectIP nenv d) as [[err|ip] d1] eqn:HD; [done|].
  destruct (DetectIP_config _ _ _ _ HD) as (Hc1 & Hr1 & Hl1 & Hm1 & _ & _ & Hu1).
  destruct (IsLeader nenv d1) as [[err|b] d2] eqn:HL; [done|].
  destruct (IsLeader_master nenv d1 b d2 Hc1 Hr1 Hl1 HL) as (-> & Hm2 & Hr2 & Hu2).
  destruct (MesosID None nenv d2) as [[err|id] d3] eqn:HM; [done|]. intros [= <-].
  destruct (MesosID_master nenv None d2 id) as (st & Hdo & -> & Hne); [by rewrite Hr2, Hr1|by rewrite Hm2, Hm1|by rewrite HM|].
  rewrite Hu2, Hu1 in Hdo. simpl in Hdo. change (list_to_map []) with (∅ : Header) in Hdo.
  destruct (Do follow env t _ w1) as [[[err|resp] t'] w2] eqn:HDo; [done|]. injection Hdo as Hcode Hst.
  exists t, w1, ip, st, resp. split; [done|]. split; [done|]. split; [done|]. split; [|done].
  simpl. rewrite HDo. split; [done|]. intros Ht. unfold first_request. rewrite addAuthToken_header.
  by case_bool_decide.
Qed.

(** ** Witnesses: a network whose tokens are good for two seconds. The world is the time and
    the time at which the token given last expires. *)
Definition clock : Type := (nat * nat)%type.
Definition tick_rt (r : Request) (w : clock) : res error Response * clock :=
  if bool_decide (URL r = "login") then (Ok (MkResponse 200 "new"), (w.1, w.1 + 2))
  else if bool_decide (req_Header r !! "Authorization" = Some ["token=new"]) && bool_decide (w.1 < w.2)
  then (Ok (MkResponse 200 "{}"), w) else (Ok (MkResponse 401 ""), w).
Definition tick : transport_env clock nat nat :=
  {| rt := tick_rt; sign := fun _ u _ => Ok ("jwt." ++ u);
     now_plus1 := fun w _ => Z.of_nat w.1; now_plus2 := fun w _ => Z.of_nat w.1;
     NewRequest_err := fun _ => None; decode_token := fun b => Ok b;
     parse_key := parse_key net; read_config := read_config net; read_file := read_file net;
     parse_certs := parse_certs net |}.
Definition tick_sleep (w : clock) : clock := (w.1 + 1, w.2).
Definition tick_client (expire : Z) : dcosRoundtripper nat := MkRoundtripper "new" expire "me" "login" "" (Some 7).
Definition no_follow : Response -> dcosRoundtripper nat -> clock -> res error Response * dcosRoundtripper nat * clock :=
  fun resp t w => (Ok resp, t, w).
Lemma tick_honours d url : url <> "login" ->
  honours tick (tick_client d) url (fun w tk => tk = "new" /\ w.1 < w.2).
Proof.
  intros Hu. split.
  - intros w tk0. exists "new", (w.1, w.1 + 2). split; [done|]. split; [done|]. simpl. split; [done|lia].
  - intros w req Hreq. unfold tick, tick_rt. simpl. rewrite bool_decide_eq_false_2 by congruence.
    destruct (bool_decide (req_Header req !! _ = _) && bool_decide (w.1 < w.2)) eqn:Hb.
    + eexists _, _. split; [done|]. split; [by left|]. done.
    + eexists _, _. split; [done|]. split; [by right|]. intros tk [-> Hlt] Ha. exfalso.
      rewrite bool_decide_eq_true_2 in Hb by done. by rewrite bool_decide_eq_true_2 in Hb.
Qed.
(** The third round comes when the token has expired. *)
Example expired_token :
  snd (Do no_follow tick (tick_client two_seconds) (MkRequest "GET" "http://x/" ∅ NoBody) (2, 2)) = (2, 4).
Proof. reflexivity. Qed.
Lemma examples_keep_fetching_witness :
  (exists bodies, length bodies = 5
     /\ roundtripper_example no_follow (fun r => Ok (resp_body r)) tick_sleep tick "http://x/" "/iam.json" 5 (0, 0)
        = (map PBody bodies, None))
  /\ (exists bodies, length bodies = 5
     /\ transport_example no_follow (fun r w => (Ok r, w)) (fun r => Ok (resp_body r)) tick_sleep (fun _ => tick)
          "http://x/" "/iam.json" "/ca.pem" 5 (0, 0) = (map PBody bodies, None)).
Proof.
  split.
  - refine (proj1 (examples_keep_fetching no_follow (fun r w => (Ok r, w)) (fun r => Ok (resp_body r)) tick_sleep
      (fun _ => tick) "http://x/" "/iam.json" "/ca.pem" (tick_client two_seconds) (MkTLS (Some 5) false) (0, 0) (0, 2)
      (fun w tk => tk = "new" /\ w.1 < w.2) _ _ _ _ _ _) _ _ 5); try done. by apply tick_honours.
  - refine (proj2 (examples_keep_fetching no_follow (fun r w => (Ok r, w)) (fun r => Ok (resp_body r)) tick_sleep
      (fun _ => tick) "http://x/" "/iam.json" "/ca.pem" (tick_client five_days) (MkTLS (Some 5) false) (0, 0) (0, 2)
      (fun w tk => tk = "new" /\ w.1 < w.2) _ _ _ _ _ _) _ 5); try done. by apply tick_honours.
Defined.

(** A master whose address is the leader's. *)
Definition master_env : node_env :=
  MkNodeEnv false (fun _ => None) (fun _ _ _ => Ok "10.0.0.2") (fun _ => Ok [IPv4 10 0 0 1; IPv4 10 0 0 2])
    (fun _ => Ok "") (fun _ => None) (fun _ _ => Fail (errorsNew "no client")).
Lemma main_jwt_reports_witness :
  exists t w1 ip st resp,
    NewRoundTripper tick [Some (OptionReadIAMConfig tick "/iam.json")] (0, 0) = (Ok t, w1)
    /\ [PIP (IPv4 10 0 0 2); PLeader true; PMesosID "M"] = [PIP ip; PLeader true; PMesosID (state_ID st)]
    /\ state_ID st <> ""
    /\ (let req := MkRequest "GET" defaultStateURL ∅ NoBody in
        fst (fst (Do no_follow tick t req w1)) = Ok resp
        /\ (token t <> "" -> req_Header (first_request t req) !! "Authorization" = Some ["token=" ++ token t]))
    /\ StatusCode resp = 200%Z /\ (fun _ => Ok demo_state : res error State) (resp_body resp) = Ok st.
Proof.
  apply (main_jwt_reports no_follow (fun _ => Ok demo_state) tick master_env "/iam.json" (0, 0)
    [PIP (IPv4 10 0 0 2); PLeader true; PMesosID "M"]).
  vm_compute. reflexivity.
Defined.
